(** * HB*-tree placement: skyline contour and hierarchical B*-tree

    A shallow embedding of the placement core of the repository:
    - [Contour] (src/utils/Contour.cpp): the skyline as a vector of
      segments kept sorted by start coordinate;
    - [HBStarTreeNode] (src/data_struct/HBStarTreeNode.cpp): tree nodes
      held through shared pointers, with a weak back pointer to the parent;
    - [HBStarTree] (src/data_struct/HBStarTree.cpp): construction of the
      initial tree, packing, the perturbations and the incremental repack.

    C++ [int] values are modelled as [Z]: the functions embedded here
    compare coordinates and add widths and heights, and signed overflow
    is undefined behaviour in the source, so the development speaks about
    runs that stay inside the range of [int]. *)

From Stdlib Require Import ZArith Lia Bool List String Ascii.
From stdpp Require Import base numbers option list sorting finite gmap strings
  pretty.

Open Scope Z_scope.

(* ===================================================================== *)
(** * Part I: the program                                                 *)
(* ===================================================================== *)

(** ** Contour (src/utils/Contour.cpp) *)

Module Contour.

(** [struct ContourSegment { int start, end, height; }]: the height of
    the skyline over the half-open interval [[start, end)]. *)
Record ContourSegment : Type := mkSeg {
  start : Z;
  end_ : Z;
  height : Z
}.

(** [class Contour]: the segment vector and the two running maxima. *)
Record t : Type := mkContour {
  segments : list ContourSegment;
  maxCoordinate : Z;
  maxHeight : Z
}.

(** [Contour::Contour()] *)
Definition empty : t :=
  {| segments := []; maxCoordinate := 0; maxHeight := 0 |}.

(** [Contour::clear] *)
Definition clear (c : t) : t :=
  {| segments := []; maxCoordinate := 0; maxHeight := 0 |}.

(** [std::lower_bound] with the comparator [a.start < b.start]: the
    index of the first segment whose start is not below [coordinate].
    The source runs it on a vector that is sorted by start, where the
    binary search and this left-to-right scan return the same index. *)
Fixpoint lower_bound (segs : list ContourSegment) (coordinate : Z) : nat :=
  match segs with
  | [] => 0%nat
  | s :: rest =>
      if start s <? coordinate then S (lower_bound rest coordinate) else 0%nat
  end.

(** The loop of [Contour::mergeSegments]: [last] is
    [mergedSegments.back()], the result is [mergedSegments] from [last]
    on. *)
Fixpoint mergeLoop (last : ContourSegment) (rest : list ContourSegment)
  : list ContourSegment :=
  match rest with
  | [] => [last]
  | current :: rest' =>
      if (end_ last =? start current) && (height last =? height current)
      then mergeLoop (mkSeg (start last) (end_ current) (height last)) rest'
      else last :: mergeLoop current rest'
  end.

(** [Contour::mergeSegments] on the segment vector. *)
Definition mergeSegments (segs : list ContourSegment) : list ContourSegment :=
  match segs with
  | [] => []
  | first :: rest => mergeLoop first rest
  end.

(** One iteration of the [for] loop of [Contour::addSegment]; the state
    is [newSegments] and the flag [inserted]. *)
Definition addSegment_step (start_ endp height_ : Z)
    (acc : list ContourSegment * bool) (segment : ContourSegment)
  : list ContourSegment * bool :=
  let '(newSegments, inserted) := acc in
  if end_ segment <=? start_ then
    (newSegments ++ [segment], inserted)
  else if start segment >=? endp then
    if inserted then (newSegments ++ [segment], inserted)
    else ((newSegments ++ [mkSeg start_ endp height_]) ++ [segment], true)
  else
    let ns1 :=
      if start segment <? start_
      then newSegments ++ [mkSeg (start segment) start_ (height segment)]
      else newSegments in
    let '(ns2, inserted2) :=
      if inserted then (ns1, inserted)
      else (ns1 ++ [mkSeg start_ endp height_], true) in
    let ns3 :=
      if end_ segment >? endp
      then ns2 ++ [mkSeg endp (end_ segment) (height segment)]
      else ns2 in
    (ns3, inserted2).

(** [std::sort] by start coordinate, as a stable insertion sort.
    [std::sort] leaves the order of segments with equal starts
    unspecified. The vector that [addSegment] hands to it is already
    sorted, with strictly increasing starts, whenever the contour was
    sorted and non-overlapping, and then the sorted vector is unique
    (lemmas [sort_by_start_sorted_id] and [sorted_vector_unique]). *)
Fixpoint insert_by_start (s : ContourSegment) (l : list ContourSegment)
  : list ContourSegment :=
  match l with
  | [] => [s]
  | x :: r => if start x <? start s then x :: insert_by_start s r
              else s :: x :: r
  end.

Definition sort_by_start (l : list ContourSegment) : list ContourSegment :=
  foldr insert_by_start [] l.

(** The statement after the loop: the new segment is appended when the
    loop never placed it. *)
Definition addSegment_finish (start_ endp height_ : Z)
    (r : list ContourSegment * bool) : list ContourSegment :=
  if r.2 then r.1 else r.1 ++ [mkSeg start_ endp height_].

(** [Contour::addSegment] *)
Definition addSegment (c : t) (start_ endp height_ : Z) : t :=
  if start_ >=? endp then c
  else
    let maxCoordinate' := Z.max (maxCoordinate c) endp in
    let maxHeight' := Z.max (maxHeight c) height_ in
    match segments c with
    | [] =>
        {| segments := [mkSeg start_ endp height_];
           maxCoordinate := maxCoordinate';
           maxHeight := maxHeight' |}
    | _ =>
        let newSegments :=
          addSegment_finish start_ endp height_
            (fold_left (addSegment_step start_ endp height_) (segments c)
                       ([], false)) in
        {| segments := mergeSegments (sort_by_start newSegments);
           maxCoordinate := maxCoordinate';
           maxHeight := maxHeight' |}
    end.

(** The [while] loop of [Contour::getHeight] from the iterator on. *)
Fixpoint scanMax (segs : list ContourSegment) (endp : Z) (maxH : Z) : Z :=
  match segs with
  | [] => maxH
  | s :: rest =>
      if start s <? endp then scanMax rest endp (Z.max maxH (height s))
      else maxH
  end.

(** The iterator of [Contour::getHeight] when the scan starts: the
    lower bound of [start_], moved one segment back when that segment
    still reaches beyond [start_]. *)
Definition getHeight_iter (segs : list ContourSegment) (start_ : Z) : nat :=
  let it := lower_bound segs start_ in
  let atEndOrAfter :=
    match segs !! it with
    | None => true
    | Some s => start s >? start_
    end in
  match it with
  | S it' =>
      if atEndOrAfter then
        match segs !! it' with
        | Some p => if end_ p <=? start_ then S it' else it'
        | None => S it'
        end
      else S it'
  | O => O
  end.

(** [Contour::getHeight] *)
Definition getHeight (c : t) (start_ endp : Z) : Z :=
  if start_ >=? endp then 0
  else
    match segments c with
    | [] => 0
    | _ =>
        scanMax (drop (getHeight_iter (segments c) start_) (segments c))
                endp 0
    end.

(** [Contour::getSegments], [getMaxCoordinate], [getMaxHeight], [isEmpty] *)
Definition getSegments (c : t) : list ContourSegment := segments c.
Definition getMaxCoordinate (c : t) : Z := maxCoordinate c.
Definition getMaxHeight (c : t) : Z := maxHeight c.
Definition isEmpty (c : t) : bool :=
  match segments c with [] => true | _ => false end.

(** [Contour::findSegmentIndex]: the index of the segment that contains
    the coordinate, or -1. *)
Definition findSegmentIndex (c : t) (coordinate : Z) : Z :=
  match segments c with
  | [] => -1
  | _ =>
      let it := lower_bound (segments c) coordinate in
      let exact :=
        match segments c !! it with
        | Some s => start s =? coordinate
        | None => false
        end in
      if exact then Z.of_nat it
      else
        match it with
        | S it' =>
            match segments c !! it' with
            | Some p =>
                if (start p <=? coordinate) && (coordinate <? end_ p)
                then Z.of_nat it' else -1
            | None => -1
            end
        | O => -1
        end
  end.

(** The break points that [Contour::merge] collects from one segment
    vector: the start and the end of every segment. *)
Definition breakpoints (segs : list ContourSegment) : list Z :=
  flat_map (fun s => [start s; end_ s]) segs.

(** [std::sort] on integers, as an insertion sort (the sorted vector of
    integers is unique), and [std::unique], which keeps the first of
    every run of equal neighbours. *)
Fixpoint insert_int (x : Z) (l : list Z) : list Z :=
  match l with
  | [] => [x]
  | y :: r => if y <? x then y :: insert_int x r else x :: y :: r
  end.

Definition sort_ints (l : list Z) : list Z := foldr insert_int [] l.

Fixpoint unique (l : list Z) : list Z :=
  match l with
  | x :: r =>
      match r with
      | y :: _ => if x =? y then unique r else x :: unique r
      | [] => [x]
      end
  | [] => []
  end.

(** The loop "create new segments at each breakpoint interval" of
    [Contour::merge], over the neighbouring pairs of break points. *)
Fixpoint mergeIntervals (c other : t) (bps : list Z) : list ContourSegment :=
  match bps with
  | start_ :: rest =>
      match rest with
      | endp :: _ =>
          if start_ =? endp then mergeIntervals c other rest
          else
            mkSeg start_ endp
                  (Z.max (getHeight c start_ endp) (getHeight other start_ endp))
            :: mergeIntervals c other rest
      | [] => []
      end
  | [] => []
  end.

(** [Contour::merge]. With no break point at all (both contours are
    empty) the source computes [breakpoints.size() - 1] in [size_t] and
    hands the largest [size_t] to [reserve], which throws
    [std::length_error] before the contour is touched: [None]. *)
Definition merge (c other : t) : option t :=
  let bps :=
    unique (sort_ints (breakpoints (segments c)
                       ++ breakpoints (segments other))) in
  match bps with
  | [] => None
  | _ =>
      Some {| segments := mergeSegments (mergeIntervals c other bps);
              maxCoordinate := Z.max (maxCoordinate c) (maxCoordinate other);
              maxHeight := Z.max (maxHeight c) (maxHeight other) |}
  end.

(** *** Specification vocabulary for contours *)

(** Sorted and non-overlapping, every segment of positive width, and
    nothing starting below [lo]. *)
Fixpoint wf_from (lo : Z) (segs : list ContourSegment) : Prop :=
  match segs with
  | [] => True
  | s :: rest => lo <= start s /\ start s < end_ s /\ wf_from (end_ s) rest
  end.

(** A contour state whose segments are sorted and non-overlapping. *)
Definition wf (segs : list ContourSegment) : Prop :=
  match segs with
  | [] => True
  | s :: rest => wf_from (start s) segs
  end.

(** The height stored for the point [p]: that of the first segment whose
    interval [[start, end)] contains [p]. *)
Fixpoint heightAt (segs : list ContourSegment) (p : Z) : option Z :=
  match segs with
  | [] => None
  | s :: rest =>
      if (start s <=? p) && (p <? end_ s) then Some (height s)
      else heightAt rest p
  end.

(** No two neighbours of the vector touch with the same height. *)
Fixpoint fused (segs : list ContourSegment) : Prop :=
  match segs with
  | a :: rest =>
      match rest with
      | b :: _ => ~ (end_ a = start b /\ height a = height b)
      | [] => True
      end /\ fused rest
  | [] => True
  end.

(** The running maxima bound the segment vector: no segment ends beyond
    [maxCoordinate] or is higher than [maxHeight]. *)
Definition bounded (c : t) : Prop :=
  Forall (fun s => end_ s <= maxCoordinate c /\ height s <= maxHeight c)
         (segments c).

(** The height that a query sees at a point: the stored height, and 0
    where nothing is stored or the stored height is negative. *)
Definition ground (segs : list ContourSegment) (p : Z) : Z :=
  Z.max 0 (default 0 (heightAt segs p)).

(** Integer vectors in non-decreasing and in strictly increasing order,
    above a bound. *)
Fixpoint nondec_from (lo : Z) (l : list Z) : Prop :=
  match l with
  | [] => True
  | x :: r => lo <= x /\ nondec_from x r
  end.

Fixpoint inc_from (lo : Z) (l : list Z) : Prop :=
  match l with
  | [] => True
  | x :: r => lo < x /\ inc_from x r
  end.

End Contour.

(** ** [std::map<std::string, V>]

    The source keeps modules (and, as modelled here, the two name-to-node
    tables) in [std::map]s: lookup by key, and iteration in increasing key
    order, whatever the order of insertion was. *)

Module StdMap.

Definition t (V : Type) : Type := list (string * V).

Definition empty {V : Type} : t V := [].

(** [m.find(k)], [None] standing for [m.end()]. *)
Fixpoint find {V : Type} (m : t V) (k : string) : option V :=
  match m with
  | [] => None
  | (k', v) :: rest => if String.eqb k k' then Some v else find rest k
  end.

(** [m[k] = v]: the entry is replaced when the key is present and put at
    its place in the key order otherwise. *)
Fixpoint insert {V : Type} (k : string) (v : V) (m : t V) : t V :=
  match m with
  | [] => [(k, v)]
  | (k', v') :: rest =>
      if String.eqb k k' then (k, v) :: rest
      else if String.ltb k k' then (k, v) :: (k', v') :: rest
      else (k', v') :: insert k v rest
  end.

(** Iteration: the keys and the values in key order. *)
Definition keys {V : Type} (m : t V) : list string := map fst m.
Definition values {V : Type} (m : t V) : list V := map snd m.

(** The map built by inserting the entries of a sequence one by one. *)
Definition of_list {V : Type} (l : list (string * V)) : t V :=
  fold_left (fun m kv => insert kv.1 kv.2 m) l empty.

(** The representation invariant of the map: the keys are in strictly
    increasing order (so no key occurs twice). *)
Fixpoint keys_above {V : Type} (lo : string) (m : t V) : Prop :=
  match m with
  | [] => True
  | (k, _) :: rest => String.ltb lo k = true /\ keys_above k rest
  end.

Definition ok {V : Type} (m : t V) : Prop :=
  match m with
  | [] => True
  | (k, _) :: rest => keys_above k rest
  end.

End StdMap.

(** ** Module and SymmetryGroup *)

Module Module_.

(** Modelled from the spec: the class [Module], whose source (Module.hpp)
    is not among the sources of the repository. Spec section 3: a named
    rectangle with a mutable position, dimensions and a rotation flag,
    "when set, width and height are swapped"; [width] and [height] are the
    dimensions as [getWidth] and [getHeight] return them. *)
Record t : Type := mk {
  name : string;
  x : Z;
  y : Z;
  width : Z;
  height : Z;
  rotated : bool
}.

(** Modelled from the spec: [getArea], "area = width * height". *)
Definition getArea (m : t) : Z := width m * height m.

(** Modelled from the spec: [setPosition], the assignment of the
    lower-left corner. *)
Definition setPosition (m : t) (x' y' : Z) : t :=
  {| name := name m; x := x'; y := y'; width := width m;
     height := height m; rotated := rotated m |}.

(** Modelled from the spec: [rotate], which flips the rotation flag and
    so swaps width and height (scenario 4 of spec section 8). *)
Definition rotate (m : t) : t :=
  {| name := name m; x := x m; y := y m; width := height m;
     height := width m; rotated := negb (rotated m) |}.

End Module_.

Module SymmetryGroup.

(** Modelled from the spec: the axis orientation of a symmetry group. *)
Inductive SymmetryType : Type := VERTICAL | HORIZONTAL.

(** Modelled from the spec: the class [SymmetryGroup], whose source
    (SymmetryGroup.hpp) is not among the sources of the repository. Spec
    section 3: a name, an ordered list of pairs of module names, the
    self-symmetric module names and the axis orientation. *)
Record t : Type := mk {
  name : string;
  symmetryPairs : list (string * string);
  selfSymmetric : list string;
  type : SymmetryType
}.

End SymmetryGroup.

(** The module registry [std::map<std::string, std::shared_ptr<Module>>].
    A module object is shared between the registry and the ASF-B*-tree of
    its group; the model keeps one copy, in the registry, and lets the
    ASF-B*-tree refer to it by name. *)
Abbreviation Modules := (StdMap.t Module_.t).

(** ** The interface of the ASF-B*-tree

    The class [ASFBStarTree] is used by the HB*-tree but its source is not
    among the sources of the repository; the HB*-tree is embedded over an
    arbitrary implementation of the operations it calls. An operation that
    moves or rotates modules takes the module registry and returns it. *)

Class ASFBStarTree (ASF : Type) : Type := {
  (** [ASFBStarTree(group)] *)
  asf_create : SymmetryGroup.t -> ASF;
  (** [addModule(module)], the module given by its name *)
  asf_addModule : ASF -> string -> ASF;
  (** [constructInitialTree()] *)
  asf_constructInitialTree : ASF -> Modules -> ASF;
  (** [pack()] *)
  asf_pack : ASF -> Modules -> ASF * Modules;
  (** [getModules()]: the names, in the order of the iteration *)
  asf_getModules : ASF -> list string;
  (** [static_cast<int>(getSymmetryAxisPosition())] *)
  asf_getSymmetryAxisPosition : ASF -> Z;
  (** [getContours()]: the horizontal and the vertical skyline *)
  asf_getContours : ASF -> Contour.t * Contour.t;
  (** [rotateModule(name)] *)
  asf_rotateModule : ASF -> string -> Modules -> bool * ASF * Modules
}.

(** The two perturbations of a symmetry island that the HB*-tree hands
    on to the ASF-B*-tree; like [asf_rotateModule] they take the module
    registry and return it. *)
Class ASFBStarTreePerturb (ASF : Type) : Type := {
  (** [convertSymmetryType()] *)
  asf_convertSymmetryType : ASF -> Modules -> bool * ASF * Modules;
  (** [changeRepresentative(moduleName)] *)
  asf_changeRepresentative : ASF -> string -> Modules -> bool * ASF * Modules
}.

(** ** HBStarTreeNode (src/data_struct/HBStarTreeNode.{hpp,cpp})

    Node objects live in a store indexed by natural numbers; a
    [std::shared_ptr<HBStarTreeNode>] or [std::weak_ptr<HBStarTreeNode>] is
    an index into that store and [None] is the null pointer. *)

Module HBStarTreeNode.

Inductive HBNodeType : Type := MODULE | HIERARCHY | CONTOUR.

#[global] Instance HBNodeType_eq_dec : EqDecision HBNodeType.
Proof. solve_decision. Defined.

Record t : Type := mk {
  type : HBNodeType;
  name : string;
  leftChild : option nat;
  rightChild : option nat;
  parent : option nat;
  asfTree : option nat;
  contourX1 : Z;
  contourY1 : Z;
  contourX2 : Z;
  contourY2 : Z
}.

(** [HBStarTreeNode::HBStarTreeNode(type, name)] *)
Definition create (ty : HBNodeType) (nm : string) : t :=
  {| type := ty; name := nm; leftChild := None; rightChild := None;
     parent := None; asfTree := None;
     contourX1 := 0; contourY1 := 0; contourX2 := 0; contourY2 := 0 |}.

Definition getType (n : t) : HBNodeType := type n.
Definition getName (n : t) : string := name n.

(** [getModuleName]: the empty string unless the node is a module node *)
Definition getModuleName (n : t) : string :=
  match type n with MODULE => name n | _ => EmptyString end.

Definition setLeftChild (node : option nat) (n : t) : t :=
  {| type := type n; name := name n; leftChild := node;
     rightChild := rightChild n; parent := parent n; asfTree := asfTree n;
     contourX1 := contourX1 n; contourY1 := contourY1 n;
     contourX2 := contourX2 n; contourY2 := contourY2 n |}.

Definition setRightChild (node : option nat) (n : t) : t :=
  {| type := type n; name := name n; leftChild := leftChild n;
     rightChild := node; parent := parent n; asfTree := asfTree n;
     contourX1 := contourX1 n; contourY1 := contourY1 n;
     contourX2 := contourX2 n; contourY2 := contourY2 n |}.

Definition setParent (node : option nat) (n : t) : t :=
  {| type := type n; name := name n; leftChild := leftChild n;
     rightChild := rightChild n; parent := node; asfTree := asfTree n;
     contourX1 := contourX1 n; contourY1 := contourY1 n;
     contourX2 := contourX2 n; contourY2 := contourY2 n |}.

(** [getASFTree]: null unless the node is a hierarchy node *)
Definition getASFTree (n : t) : option nat :=
  match type n with HIERARCHY => asfTree n | _ => None end.

(** [setASFTree]: ignored unless the node is a hierarchy node *)
Definition setASFTree (tree : option nat) (n : t) : t :=
  match type n with
  | HIERARCHY =>
      {| type := type n; name := name n; leftChild := leftChild n;
         rightChild := rightChild n; parent := parent n; asfTree := tree;
         contourX1 := contourX1 n; contourY1 := contourY1 n;
         contourX2 := contourX2 n; contourY2 := contourY2 n |}
  | _ => n
  end.

(** [setContour]: ignored unless the node is a contour node *)
Definition setContour (x1 y1 x2 y2 : Z) (n : t) : t :=
  match type n with
  | CONTOUR =>
      {| type := type n; name := name n; leftChild := leftChild n;
         rightChild := rightChild n; parent := parent n;
         asfTree := asfTree n;
         contourX1 := x1; contourY1 := y1; contourX2 := x2; contourY2 := y2 |}
  | _ => n
  end.

(** [getContour]: the four coordinates, all 0 for another kind of node *)
Definition getContour (n : t) : Z * Z * Z * Z :=
  match type n with
  | CONTOUR => (contourX1 n, contourY1 n, contourX2 n, contourY2 n)
  | _ => (0, 0, 0, 0)
  end.

Definition isLeaf (n : t) : bool :=
  match leftChild n, rightChild n with
  | None, None => true
  | _, _ => false
  end.

End HBStarTreeNode.

(** ** HBStarTree (src/data_struct/HBStarTree.cpp)

    The header HBStarTree.hpp is not among the sources of the repository.
    The fields are the ones the member functions use; [modules] is a
    [std::map] (it is returned as one by [getModules]), and the two tables
    [moduleNodes] and [symmetryGroupNodes], which are filled with
    [operator[]], searched with [find] and iterated with [begin]/[end], are
    modelled as [std::map]s as well. [nodeMap] and [modifiedSubtrees] are a
    finite map and a finite set; both hold shared pointers. *)

Module HBStarTree.
Import HBStarTreeNode.

Section WithASF.
Context {ASF : Type} `{ops : ASFBStarTree ASF}.

(** [nodes] holds the node objects that are alive, [nextNode] is the next
    fresh address; [asfTrees] holds the ASF-B*-tree objects. The other
    fields are the data members of the class. *)
Record t : Type := mk {
  nodes : gmap nat HBStarTreeNode.t;
  nextNode : nat;
  asfTrees : list ASF;
  modules : Modules;
  symmetryGroups : list SymmetryGroup.t;
  root : option nat;
  horizontalContour : Contour.t;
  verticalContour : Contour.t;
  moduleNodes : StdMap.t nat;
  symmetryGroupNodes : StdMap.t nat;
  nodeMap : gmap string nat;
  modifiedSubtrees : gset nat;
  totalArea : Z;
  isPacked : bool
}.

(** Assignments to one field. *)
Definition set_nodes (v : gmap nat HBStarTreeNode.t) (st : t) : t :=
  {| nodes := v; nextNode := nextNode st; asfTrees := asfTrees st;
     modules := modules st; symmetryGroups := symmetryGroups st;
     root := root st; horizontalContour := horizontalContour st;
     verticalContour := verticalContour st;
     moduleNodes := moduleNodes st;
     symmetryGroupNodes := symmetryGroupNodes st;
     nodeMap := nodeMap st; modifiedSubtrees := modifiedSubtrees st;
     totalArea := totalArea st; isPacked := isPacked st |}.

Definition set_nextNode (v : nat) (st : t) : t :=
  {| nodes := nodes st; nextNode := v; asfTrees := asfTrees st;
     modules := modules st; symmetryGroups := symmetryGroups st;
     root := root st; horizontalContour := horizontalContour st;
     verticalContour := verticalContour st;
     moduleNodes := moduleNodes st;
     symmetryGroupNodes := symmetryGroupNodes st;
     nodeMap := nodeMap st; modifiedSubtrees := modifiedSubtrees st;
     totalArea := totalArea st; isPacked := isPacked st |}.

Definition set_asfTrees (v : list ASF) (st : t) : t :=
  {| nodes := nodes st; nextNode := nextNode st; asfTrees := v;
     modules := modules st; symmetryGroups := symmetryGroups st;
     root := root st; horizontalContour := horizontalContour st;
     verticalContour := verticalContour st;
     moduleNodes := moduleNodes st;
     symmetryGroupNodes := symmetryGroupNodes st;
     nodeMap := nodeMap st; modifiedSubtrees := modifiedSubtrees st;
     totalArea := totalArea st; isPacked := isPacked st |}.

Definition set_modules (v : Modules) (st : t) : t :=
  {| nodes := nodes st; nextNode := nextNode st;
     asfTrees := asfTrees st; modules := v;
     symmetryGroups := symmetryGroups st; root := root st;
     horizontalContour := horizontalContour st;
     verticalContour := verticalContour st;
     moduleNodes := moduleNodes st;
     symmetryGroupNodes := symmetryGroupNodes st;
     nodeMap := nodeMap st; modifiedSubtrees := modifiedSubtrees st;
     totalArea := totalArea st; isPacked := isPacked st |}.

Definition set_symmetryGroups (v : list SymmetryGroup.t) (st : t) : t :=
  {| nodes := nodes st; nextNode := nextNode st;
     asfTrees := asfTrees st; modules := modules st;
     symmetryGroups := v; root := root st;
     horizontalContour := horizontalContour st;
     verticalContour := verticalContour st;
     moduleNodes := moduleNodes st;
     symmetryGroupNodes := symmetryGroupNodes st;
     nodeMap := nodeMap st; modifiedSubtrees := modifiedSubtrees st;
     totalArea := totalArea st; isPacked := isPacked st |}.

Definition set_root (v : option nat) (st : t) : t :=
  {| nodes := nodes st; nextNode := nextNode st;
     asfTrees := asfTrees st; modules := modules st;
     symmetryGroups := symmetryGroups st; root := v;
     horizontalContour := horizontalContour st;
     verticalContour := verticalContour st;
     moduleNodes := moduleNodes st;
     symmetryGroupNodes := symmetryGroupNodes st;
     nodeMap := nodeMap st; modifiedSubtrees := modifiedSubtrees st;
     totalArea := totalArea st; isPacked := isPacked st |}.

Definition set_horizontalContour (v : Contour.t) (st : t) : t :=
  {| nodes := nodes st; nextNode := nextNode st;
     asfTrees := asfTrees st; modules := modules st;
     symmetryGroups := symmetryGroups st; root := root st;
     horizontalContour := v; verticalContour := verticalContour st;
     moduleNodes := moduleNodes st;
     symmetryGroupNodes := symmetryGroupNodes st;
     nodeMap := nodeMap st; modifiedSubtrees := modifiedSubtrees st;
     totalArea := totalArea st; isPacked := isPacked st |}.

Definition set_verticalContour (v : Contour.t) (st : t) : t :=
  {| nodes := nodes st; nextNode := nextNode st;
     asfTrees := asfTrees st; modules := modules st;
     symmetryGroups := symmetryGroups st; root := root st;
     horizontalContour := horizontalContour st; verticalContour := v;
     moduleNodes := moduleNodes st;
     symmetryGroupNodes := symmetryGroupNodes st;
     nodeMap := nodeMap st; modifiedSubtrees := modifiedSubtrees st;
     totalArea := totalArea st; isPacked := isPacked st |}.

Definition set_moduleNodes (v : StdMap.t nat) (st : t) : t :=
  {| nodes := nodes st; nextNode := nextNode st;
     asfTrees := asfTrees st; modules := modules st;
     symmetryGroups := symmetryGroups st; root := root st;
     horizontalContour := horizontalContour st;
     verticalContour := verticalContour st; moduleNodes := v;
     symmetryGroupNodes := symmetryGroupNodes st;
     nodeMap := nodeMap st; modifiedSubtrees := modifiedSubtrees st;
     totalArea := totalArea st; isPacked := isPacked st |}.

Definition set_symmetryGroupNodes (v : StdMap.t nat) (st : t) : t :=
  {| nodes := nodes st; nextNode := nextNode st;
     asfTrees := asfTrees st; modules := modules st;
     symmetryGroups := symmetryGroups st; root := root st;
     horizontalContour := horizontalContour st;
     verticalContour := verticalContour st;
     moduleNodes := moduleNodes st; symmetryGroupNodes := v;
     nodeMap := nodeMap st; modifiedSubtrees := modifiedSubtrees st;
     totalArea := totalArea st; isPacked := isPacked st |}.

Definition set_nodeMap (v : gmap string nat) (st : t) : t :=
  {| nodes := nodes st; nextNode := nextNode st;
     asfTrees := asfTrees st; modules := modules st;
     symmetryGroups := symmetryGroups st; root := root st;
     horizontalContour := horizontalContour st;
     verticalContour := verticalContour st;
     moduleNodes := moduleNodes st;
     symmetryGroupNodes := symmetryGroupNodes st; nodeMap := v;
     modifiedSubtrees := modifiedSubtrees st;
     totalArea := totalArea st; isPacked := isPacked st |}.

Definition set_modifiedSubtrees (v : gset nat) (st : t) : t :=
  {| nodes := nodes st; nextNode := nextNode st;
     asfTrees := asfTrees st; modules := modules st;
     symmetryGroups := symmetryGroups st; root := root st;
     horizontalContour := horizontalContour st;
     verticalContour := verticalContour st;
     moduleNodes := moduleNodes st;
     symmetryGroupNodes := symmetryGroupNodes st;
     nodeMap := nodeMap st; modifiedSubtrees := v;
     totalArea := totalArea st; isPacked := isPacked st |}.

Definition set_totalArea (v : Z) (st : t) : t :=
  {| nodes := nodes st; nextNode := nextNode st;
     asfTrees := asfTrees st; modules := modules st;
     symmetryGroups := symmetryGroups st; root := root st;
     horizontalContour := horizontalContour st;
     verticalContour := verticalContour st;
     moduleNodes := moduleNodes st;
     symmetryGroupNodes := symmetryGroupNodes st;
     nodeMap := nodeMap st; modifiedSubtrees := modifiedSubtrees st;
     totalArea := v; isPacked := isPacked st |}.

Definition set_isPacked (v : bool) (st : t) : t :=
  {| nodes := nodes st; nextNode := nextNode st;
     asfTrees := asfTrees st; modules := modules st;
     symmetryGroups := symmetryGroups st; root := root st;
     horizontalContour := horizontalContour st;
     verticalContour := verticalContour st;
     moduleNodes := moduleNodes st;
     symmetryGroupNodes := symmetryGroupNodes st;
     nodeMap := nodeMap st; modifiedSubtrees := modifiedSubtrees st;
     totalArea := totalArea st; isPacked := v |}.

(** [HBStarTree::HBStarTree()] *)
Definition create : t :=
  {| nodes := ∅; nextNode := 0%nat; asfTrees := []; modules := StdMap.empty;
     symmetryGroups := []; root := None;
     horizontalContour := Contour.empty;
     verticalContour := Contour.empty;
     moduleNodes := StdMap.empty; symmetryGroupNodes := StdMap.empty;
     nodeMap := ∅; modifiedSubtrees := ∅; totalArea := 0;
     isPacked := false |}.

(** [addModule], [addSymmetryGroup] *)
Definition addModule (st : t) (module : Module_.t) : t :=
  set_modules (StdMap.insert (Module_.name module) module (modules st)) st.

Definition addSymmetryGroup (st : t) (group : SymmetryGroup.t) : t :=
  set_symmetryGroups (symmetryGroups st ++ [group]) st.

(** *** Node objects and pointers *)

(** [std::make_shared<HBStarTreeNode>(...)] *)
Definition newNode (n : HBStarTreeNode.t) (st : t) : nat * t :=
  (nextNode st,
   set_nextNode (S (nextNode st))
     (set_nodes (<[nextNode st := n]> (nodes st)) st)).

(** [node->getLeftChild()], [node->getRightChild()] *)
Definition getLeftChild (st : t) (node : nat) : option nat :=
  match nodes st !! node with Some n => leftChild n | None => None end.

Definition getRightChild (st : t) (node : nat) : option nat :=
  match nodes st !! node with Some n => rightChild n | None => None end.

(** [node->getParent()], that is [parent.lock()]: the weak pointer
    yields its target only while that node object is alive. *)
Definition getParent (st : t) (node : nat) : option nat :=
  match nodes st !! node with
  | Some n =>
      match parent n with
      | Some p =>
          match nodes st !! p with Some _ => Some p | None => None end
      | None => None
      end
  | None => None
  end.

(** [node->setLeftChild(c)], [node->setRightChild(c)],
    [node->setParent(p)] *)
Definition setLeftChild (st : t) (node : nat) (c : option nat) : t :=
  set_nodes (alter (HBStarTreeNode.setLeftChild c) node (nodes st)) st.

Definition setRightChild (st : t) (node : nat) (c : option nat) : t :=
  set_nodes (alter (HBStarTreeNode.setRightChild c) node (nodes st)) st.

Definition setParent (st : t) (node : nat) (p : option nat) : t :=
  set_nodes (alter (HBStarTreeNode.setParent p) node (nodes st)) st.

(** [node->isLeftChild()], [node->isRightChild()] *)
Definition isLeftChild (st : t) (node : nat) : bool :=
  match getParent st node with
  | Some p => bool_decide (getLeftChild st p = Some node)
  | None => false
  end.

Definition isRightChild (st : t) (node : nat) : bool :=
  match getParent st node with
  | Some p => bool_decide (getRightChild st p = Some node)
  | None => false
  end.

(** The destruction of node objects. A node object is destroyed when
    the last shared pointer to it goes away; shared pointers are held
    by [root], by the three name tables, by [modifiedSubtrees] and by
    the child slots of the nodes that are alive. [release] removes the
    nodes that nothing holds any more, and then the nodes that only
    those held, and so on. The functions below call it where they drop
    shared pointers, before a weak parent pointer is read again. *)
Definition held (st : t) (node : nat) : bool :=
  bool_decide (root st = Some node)
  || existsb (Nat.eqb node) (StdMap.values (moduleNodes st))
  || existsb (Nat.eqb node) (StdMap.values (symmetryGroupNodes st))
  || existsb (fun kv => Nat.eqb node kv.2) (map_to_list (nodeMap st))
  || bool_decide (node ∈ modifiedSubtrees st)
  || existsb (fun kv => bool_decide (leftChild kv.2 = Some node)
                        || bool_decide (rightChild kv.2 = Some node))
             (map_to_list (nodes st)).

Definition release_step (st : t) : t :=
  set_nodes (filter (fun kv => held st kv.1 = true) (nodes st)) st.

Definition release (st : t) : t :=
  Nat.iter (size (nodes st)) release_step st.

(** *** Construction of the initial tree *)

(** The inner loops of [constructSymmetryIslands]: the modules of the
    group that are registered are handed to the ASF-B*-tree. *)
Definition addGroupModules (mods : Modules) (group : SymmetryGroup.t)
    (asfTree : ASF) : ASF :=
  let addIfKnown (a : ASF) (moduleName : string) : ASF :=
    match StdMap.find mods moduleName with
    | Some _ => asf_addModule a moduleName
    | None => a
    end in
  let asfTree1 :=
    fold_left (fun a pair => addIfKnown (addIfKnown a pair.1) pair.2)
              (SymmetryGroup.symmetryPairs group) asfTree in
  fold_left addIfKnown (SymmetryGroup.selfSymmetric group) asfTree1.

(** The body of the loop of [constructSymmetryIslands] *)
Definition constructSymmetryIsland (st : t) (group : SymmetryGroup.t) : t :=
  let asfTree :=
    asf_constructInitialTree
      (addGroupModules (modules st) group (asf_create group))
      (modules st) in
  let asfAddress := length (asfTrees st) in
  let st1 := set_asfTrees (asfTrees st ++ [asfTree]) st in
  let '(hierarchyNode, st2) :=
    newNode (HBStarTreeNode.setASFTree (Some asfAddress)
               (HBStarTreeNode.create HIERARCHY (SymmetryGroup.name group)))
            st1 in
  set_symmetryGroupNodes
    (StdMap.insert (SymmetryGroup.name group) hierarchyNode
                   (symmetryGroupNodes st2)) st2.

(** [constructSymmetryIslands] *)
Definition constructSymmetryIslands (st : t) : t :=
  fold_left constructSymmetryIsland (symmetryGroups st) st.

(** The [std::set<string> symmetryModules] of
    [constructInitialTreeStructure], as the list of its elements. *)
Definition symmetryModules (groups : list SymmetryGroup.t) : list string :=
  flat_map (fun group =>
              flat_map (fun pair : string * string => [pair.1; pair.2])
                       (SymmetryGroup.symmetryPairs group)
              ++ SymmetryGroup.selfSymmetric group) groups.

(** The area of a registered module, for the comparator of the sort *)
Definition areaOf (mods : Modules) (moduleName : string) : Z :=
  match StdMap.find mods moduleName with
  | Some m => Module_.getArea m
  | None => 0
  end.

(** [std::sort] with the comparator "the area of [a] is greater than
    the area of [b]", as a stable insertion sort; [std::sort] leaves
    the order of names with equal areas unspecified. *)
Fixpoint insert_by_area (mods : Modules) (a : string) (l : list string)
  : list string :=
  match l with
  | [] => [a]
  | b :: rest =>
      if areaOf mods b >? areaOf mods a
      then b :: insert_by_area mods a rest
      else a :: b :: rest
  end.

Definition sort_by_area (mods : Modules) (l : list string) : list string :=
  foldr (insert_by_area mods) [] l.

(** The non-symmetry module names after the sort *)
Definition nonSymmetryModules (st : t) : list string :=
  sort_by_area (modules st)
    (List.filter
       (fun moduleName =>
          negb (existsb (String.eqb moduleName)
                        (symmetryModules (symmetryGroups st))))
       (StdMap.keys (modules st))).

(** The loop "create nodes for non-symmetry modules" *)
Definition createModuleNode (st : t) (moduleName : string) : t :=
  let '(node, st1) :=
    newNode (HBStarTreeNode.create MODULE moduleName) st in
  set_moduleNodes (StdMap.insert moduleName node (moduleNodes st1)) st1.

(** The chaining loops: [current->setLeftChild(next);
    next->setParent(current); current = next]. *)
Fixpoint chainLeft (st : t) (current : nat) (rest : list nat) : t :=
  match rest with
  | [] => st
  | next :: rest' =>
      chainLeft
        (setParent (setLeftChild st current (Some next)) next (Some current))
        next rest'
  end.

(** [constructInitialTreeStructure] *)
Definition constructInitialTreeStructure (st : t) : t :=
  let st1 := fold_left createModuleNode (nonSymmetryModules st) st in
  match StdMap.values (symmetryGroupNodes st1) with
  | first :: others =>
      chainLeft (set_root (Some first) st1) first
                (others ++ StdMap.values (moduleNodes st1))
  | [] =>
      match StdMap.values (moduleNodes st1) with
      | first :: others =>
          chainLeft (set_root (Some first) st1) first others
      | [] => st1
      end
  end.

(** [clearTree] *)
Definition clearTree (st : t) : t :=
  release
    (set_isPacked false
       (set_symmetryGroupNodes StdMap.empty
          (set_moduleNodes StdMap.empty (set_root None st)))).

(** [registerNodeInMap]; the recursion follows child pointers and is
    given the number of live nodes as its depth bound, which a tree
    never reaches. *)
Fixpoint registerNodeInMap_rec (fuel : nat) (st : t) (node : nat) : t :=
  match fuel with
  | O => st
  | S fuel' =>
      match nodes st !! node with
      | None => st
      | Some n =>
          let st1 :=
            set_nodeMap (<[HBStarTreeNode.getName n := node]> (nodeMap st))
                        st in
          let st2 :=
            match leftChild n with
            | Some l => registerNodeInMap_rec fuel' st1 l
            | None => st1
            end in
          match rightChild n with
          | Some r => registerNodeInMap_rec fuel' st2 r
          | None => st2
          end
      end
  end.

Definition registerNodeInMap (st : t) (node : nat) : t :=
  registerNodeInMap_rec (S (size (nodes st))) st node.

(** [constructInitialTree] *)
Definition constructInitialTree (st : t) : t :=
  let st1 :=
    constructInitialTreeStructure (constructSymmetryIslands (clearTree st)) in
  release
    match root st1 with
    | Some r => registerNodeInMap st1 r
    | None => st1
    end.

(** [findNode], [getModuleNode], [getSymmetryGroupNode] *)
Definition findNode (st : t) (nodeName : string) : option nat :=
  nodeMap st !! nodeName.

Definition getModuleNode (st : t) (moduleName : string) : option nat :=
  StdMap.find (moduleNodes st) moduleName.

Definition getSymmetryGroupNode (st : t) (groupName : string) : option nat :=
  StdMap.find (symmetryGroupNodes st) groupName.

(** *** Marking and the incremental repack *)

(** The loop of [markSubtreeForRepack]: [while (current) { insert;
    current = current->getParent(); }]. The loop is given one more
    step than there are live nodes. A parent chain that ends needs no
    more ([markLoop_stops] below: with the steps counted, the loop
    stops within that bound, with this value). On a parent chain that
    runs into a cycle the source loop never stops, and the value
    computed here describes no run of the program: what is stated
    below about a call that returns is stated for chains that end
    ([parentChainEnds]). *)
Fixpoint markLoop (fuel : nat) (st : t) (current : option nat)
    (marked : gset nat) : gset nat :=
  match current, fuel with
  | Some c, S fuel' => markLoop fuel' st (getParent st c) ({[c]} ∪ marked)
  | _, _ => marked
  end.

Definition markSubtreeForRepack (st : t) (node : option nat) : t :=
  match node with
  | None => st
  | Some n =>
      set_modifiedSubtrees
        (markLoop (S (size (nodes st))) st (Some n) (modifiedSubtrees st)) st
  end.

(** The same loop with its iterations counted: [None] when it has not
    stopped after [steps] iterations. *)
Fixpoint markLoopWithin (steps : nat) (st : t) (current : option nat)
    (marked : gset nat) : option (gset nat) :=
  match current with
  | None => Some marked
  | Some c =>
      match steps with
      | O => None
      | S steps' =>
          markLoopWithin steps' st (getParent st c) ({[c]} ∪ marked)
      end
  end.

(** *** Packing *)

(** [std::numeric_limits<int>::max()] and [std::numeric_limits<int>::min()] *)
Definition INT_MAX : Z := 2147483647.
Definition INT_MIN : Z := -2147483648.

(** The value that an [int] holds after a sum, a difference or a
    product whose exact value is [z]: the coordinates are 32-bit [int]s,
    and the arithmetic wraps around in two's complement when the exact
    value does not fit (signed overflow; this is what the compiled
    program does, 100000 * 100000 is stored as 1410065408). *)
Definition toInt (z : Z) : Z := (z - INT_MIN) mod 2 ^ 32 + INT_MIN.

(** The x-coordinate block of [packSubtree], which the source writes
    out once for module nodes and once for hierarchy nodes. *)
Definition placeX (st : t) (node : nat) : Z :=
  match getParent st node with
  | None => 0
  | Some p =>
      match nodes st !! p with
      | None => 0
      | Some parentNode =>
          if isLeftChild st node then
            match type parentNode with
            | MODULE =>
                match StdMap.find (modules st)
                                  (HBStarTreeNode.getModuleName parentNode) with
                | Some parentModule =>
                    toInt (Module_.x parentModule + Module_.width parentModule)
                | None => 0
                end
            | HIERARCHY =>
                match HBStarTreeNode.getASFTree parentNode with
                | Some a =>
                    match asfTrees st !! a with
                    | Some asfTree => asf_getSymmetryAxisPosition asfTree
                    | None => 0
                    end
                | None => 0
                end
            | CONTOUR =>
                let '(x1, y1, x2, y2) :=
                  HBStarTreeNode.getContour parentNode in x2
            end
          else
            match type parentNode with
            | MODULE =>
                match StdMap.find (modules st)
                                  (HBStarTreeNode.getModuleName parentNode) with
                | Some parentModule => Module_.x parentModule
                | None => 0
                end
            | HIERARCHY => 0
            | CONTOUR =>
                let '(x1, y1, x2, y2) :=
                  HBStarTreeNode.getContour parentNode in x1
            end
      end
  end.

(** [case HBNodeType::MODULE] of [packSubtree]. The second component
    tells whether the function goes on to the children: it returns at
    once when the module is not registered. (The source looks the
    module up with [modules[moduleName]], which would add a null entry
    for an unknown name; module nodes are only ever created for
    registered names, and the model leaves the registry as it is.) *)
Definition packModuleNode (st : t) (node : nat) (n : HBStarTreeNode.t)
  : t * bool :=
  let moduleName := HBStarTreeNode.getModuleName n in
  match StdMap.find (modules st) moduleName with
  | None => (st, false)
  | Some module =>
      let x := placeX st node in
      let y := Contour.getHeight (horizontalContour st) x
                                 (toInt (x + Module_.width module)) in
      let st1 :=
        set_modules
          (StdMap.insert moduleName (Module_.setPosition module x y)
                         (modules st)) st in
      let st2 :=
        set_horizontalContour
          (Contour.addSegment (horizontalContour st1) x
             (toInt (x + Module_.width module))
             (toInt (y + Module_.height module))) st1 in
      let st3 :=
        set_verticalContour
          (Contour.addSegment (verticalContour st2) y
             (toInt (y + Module_.height module))
             (toInt (x + Module_.width module))) st2 in
      (st3, true)
  end.

(** The bounding rectangle [(minX, minY, symMaxX, symMaxY)] of the
    modules of an island *)
Definition islandBounds (mods : Modules) (names : list string)
  : Z * Z * Z * Z :=
  fold_left
    (fun '(minX, minY, symMaxX, symMaxY) moduleName =>
       match StdMap.find mods moduleName with
       | Some m =>
           (Z.min minX (Module_.x m), Z.min minY (Module_.y m),
            Z.max symMaxX (toInt (Module_.x m + Module_.width m)),
            Z.max symMaxY (toInt (Module_.y m + Module_.height m)))
       | None => (minX, minY, symMaxX, symMaxY)
       end)
    names (INT_MAX, INT_MAX, 0, 0).

(** The loop "shift all modules in the symmetry island" *)
Definition shiftModules (mods : Modules) (names : list string)
    (deltaX deltaY : Z) : Modules :=
  fold_left
    (fun ms moduleName =>
       match StdMap.find ms moduleName with
       | Some m =>
           StdMap.insert moduleName
             (Module_.setPosition m (toInt (Module_.x m + deltaX))
                                    (toInt (Module_.y m + deltaY))) ms
       | None => ms
       end)
    names mods.

(** [case HBNodeType::HIERARCHY] of [packSubtree] *)
Definition packHierarchyNode (st : t) (node : nat) (n : HBStarTreeNode.t)
  : t * bool :=
  match HBStarTreeNode.getASFTree n with
  | None => (st, false)
  | Some a =>
      match asfTrees st !! a with
      | None => (st, false)
      | Some asfTree =>
          let '(asfTree', mods1) := asf_pack asfTree (modules st) in
          let st1 :=
            set_modules mods1
              (set_asfTrees (<[a := asfTree']> (asfTrees st)) st) in
          let names := asf_getModules asfTree' in
          let '(minX, minY, symMaxX, symMaxY) := islandBounds mods1 names in
          let x := placeX st1 node in
          let w := toInt (symMaxX - minX) in
          let h := toInt (symMaxY - minY) in
          let y := Contour.getHeight (horizontalContour st1) x
                                     (toInt (x + w)) in
          let deltaX := toInt (x - minX) in
          let deltaY := toInt (y - minY) in
          let st2 :=
            set_modules (shiftModules mods1 names deltaX deltaY) st1 in
          let st3 :=
            set_horizontalContour
              (Contour.addSegment (horizontalContour st2) x
                 (toInt (x + w)) (toInt (y + h))) st2 in
          let st4 :=
            set_verticalContour
              (Contour.addSegment (verticalContour st3) y
                 (toInt (y + h)) (toInt (x + w))) st3 in
          (st4, true)
      end
  end.

(** The [switch] of [packSubtree] *)
Definition packNode (st : t) (node : nat) (n : HBStarTreeNode.t) : t * bool :=
  match type n with
  | MODULE => packModuleNode st node n
  | HIERARCHY => packHierarchyNode st node n
  | CONTOUR => (st, true)
  end.

(** [packSubtree]; the recursion follows child pointers and is given
    one more than the number of live nodes as its depth bound. Below a
    node whose subtree ends ([subtreeEnds]) no path is that long, and
    the recursion returns before the bound is reached
    ([packSubtree_enough_fuel] below); where the child pointers run
    into a cycle the source recursion never returns. *)
Fixpoint packSubtree_rec (fuel : nat) (st : t) (node : nat) : t :=
  match fuel with
  | O => st
  | S fuel' =>
      match nodes st !! node with
      | None => st
      | Some n =>
          let '(st1, goOn) := packNode st node n in
          if goOn then
            let st2 :=
              match leftChild n with
              | Some l => packSubtree_rec fuel' st1 l
              | None => st1
              end in
            match rightChild n with
            | Some r => packSubtree_rec fuel' st2 r
            | None => st2
            end
          else st1
      end
  end.

Definition packSubtree (st : t) (node : nat) : t :=
  packSubtree_rec (S (size (nodes st))) st node.

(** The recursion of [packSubtree] from [node] is at most [depth]
    calls deep: no path along the child pointers from [node] has more
    than [depth] nodes. *)
Fixpoint subtreeWithin (depth : nat) (st : t) (node : nat) : bool :=
  match depth with
  | O => false
  | S depth' =>
      match nodes st !! node with
      | None => true
      | Some n =>
          match leftChild n with
          | Some l => subtreeWithin depth' st l
          | None => true
          end
          && match rightChild n with
             | Some r => subtreeWithin depth' st r
             | None => true
             end
      end
  end.

(** The search for a modified ancestor in [repackAffectedSubtrees] *)
Fixpoint hasModifiedAncestor (fuel : nat) (st : t) (parent : option nat)
  : bool :=
  match parent, fuel with
  | Some p, S fuel' =>
      if bool_decide (p ∈ modifiedSubtrees st) then true
      else hasModifiedAncestor fuel' st (getParent st p)
  | _, _ => false
  end.

(** The depth computed by the comparator of the sort *)
Fixpoint depth (fuel : nat) (st : t) (curr : nat) : nat :=
  match fuel with
  | O => O
  | S fuel' =>
      match getParent st curr with
      | Some p => S (depth fuel' st p)
      | None => O
      end
  end.

(** [std::sort] with the comparator "[a] is deeper than [b]", as a
    stable insertion sort. *)
Fixpoint insert_by_depth (st : t) (a : nat) (l : list nat) : list nat :=
  match l with
  | [] => [a]
  | b :: rest =>
      if (depth (S (size (nodes st))) st a
          <? depth (S (size (nodes st))) st b)%nat
      then b :: insert_by_depth st a rest
      else a :: b :: rest
  end.

Definition sort_by_depth (st : t) (l : list nat) : list nat :=
  foldr (insert_by_depth st) [] l.

(** The nodes [rootsToRepack] after the sort. The source fills the
    vector in the iteration order of a [std::set] of shared pointers,
    which is the order of the addresses of the nodes, and sorts it
    with [std::sort], which is not stable: the program text fixes the
    order only up to the order among nodes of equal depth. The model
    takes the marked nodes in ascending order of their index and a
    stable sort, which is one of the orders that the source can
    produce ([repackOrder] below describes all of them). *)
Definition rootsToRepack (st : t) : list nat :=
  sort_by_depth st
    (List.filter
       (fun node =>
          negb (hasModifiedAncestor (S (size (nodes st))) st
                  (getParent st node)))
       (elements (modifiedSubtrees st))).

(** [repackAffectedSubtrees] *)
Definition repackAffectedSubtrees (st : t) : t :=
  if decide (modifiedSubtrees st = ∅) then st
  else
    let st1 := fold_left packSubtree (rootsToRepack st) st in
    release (set_modifiedSubtrees ∅ st1).



(** [repackAffectedSubtrees] when the sorted vector is [order] *)
Definition repackInOrder (order : list nat) (st : t) : t :=
  if decide (modifiedSubtrees st = ∅) then st
  else
    let st1 := fold_left packSubtree order st in
    release (set_modifiedSubtrees ∅ st1).

(** The loop "find the maximum coordinates from all modules" of [pack] *)
Definition boundingBox (mods : Modules) : Z * Z :=
  fold_left
    (fun '(maxX, maxY) (kv : string * Module_.t) =>
       (Z.max maxX (toInt (Module_.x kv.2 + Module_.width kv.2)),
        Z.max maxY (toInt (Module_.y kv.2 + Module_.height kv.2))))
    mods (0, 0).

(** *** Contour nodes *)

Definition isContourNode (st : t) (node : nat) : bool :=
  match nodes st !! node with
  | Some n => bool_decide (type n = CONTOUR)
  | None => false
  end.

Definition childrenOf (st : t) (node : nat) : list nat :=
  match nodes st !! node with
  | Some n => option_list (leftChild n) ++ option_list (rightChild n)
  | None => []
  end.

(** The breadth-first search of [findNearestContourNode], level by
    level: a queue hands out the nodes of one level, in order, before
    those of the next. [fuel] bounds the number of levels. *)
Fixpoint firstContourNode (fuel : nat) (st : t) (level : list nat)
  : option nat :=
  match fuel with
  | O => None
  | S fuel' =>
      match level with
      | [] => None
      | _ =>
          match List.find (isContourNode st) level with
          | Some c => Some c
          | None => firstContourNode fuel' st (flat_map (childrenOf st) level)
          end
      end
  end.

(** [findNearestContourNode]; the argument only has to be non-null. *)
Definition findNearestContourNode (st : t) (node : option nat) : option nat :=
  match node, root st with
  | Some _, Some r => firstContourNode (S (size (nodes st))) st [r]
  | _, _ => None
  end.

(** [findLeftmostSkewedChild] *)
Fixpoint leftmost (fuel : nat) (st : t) (current : nat) : nat :=
  match fuel with
  | O => current
  | S fuel' =>
      match getLeftChild st current with
      | Some l => leftmost fuel' st l
      | None => current
      end
  end.

Definition findLeftmostSkewedChild (st : t) (node : nat) : nat :=
  leftmost (S (size (nodes st))) st node.

(** The search "clear existing contour nodes" of [updateContourNodes]:
    the contour nodes met from the right child of the hierarchy node
    on, in the order of the queue; only contour nodes are expanded. *)
Fixpoint existingContourNodes (fuel : nat) (st : t) (level : list nat)
  : list nat :=
  match fuel with
  | O => []
  | S fuel' =>
      match level with
      | [] => []
      | _ =>
          let found := List.filter (isContourNode st) level in
          found ++ existingContourNodes fuel' st
                     (flat_map (childrenOf st) found)
      end
  end.

(** The loop "create new contour nodes" *)
Fixpoint createContourNodes (st : t) (groupName : string) (i : nat)
    (segs : list Contour.ContourSegment) : list nat * t :=
  match segs with
  | [] => ([], st)
  | s :: rest =>
      let '(contourNode, st1) :=
        newNode
          (HBStarTreeNode.setContour
             (Contour.start s) (Contour.height s)
             (Contour.end_ s) (Contour.height s)
             (HBStarTreeNode.create CONTOUR
                (groupName +:+ "_contour_" +:+ pretty i))) st in
      let '(others, st2) := createContourNodes st1 groupName (S i) rest in
      (contourNode :: others, st2)
  end.

(** The body of the loop "reassign dangling nodes" *)
Definition reattach (st : t) (danglingNode : nat) : t :=
  match findNearestContourNode st (Some danglingNode) with
  | None => st
  | Some nearestContourNode =>
      match getRightChild st nearestContourNode with
      | None =>
          setParent
            (setRightChild st nearestContourNode (Some danglingNode))
            danglingNode (Some nearestContourNode)
      | Some r =>
          let leftmostSkewedChild := findLeftmostSkewedChild st r in
          setParent
            (setLeftChild st leftmostSkewedChild (Some danglingNode))
            danglingNode (Some leftmostSkewedChild)
      end
  end.

(** The body of the loop of [updateContourNodes], for one entry of
    [symmetryGroupNodes] *)
Definition updateContourNodesOf (st : t) (entry : string * nat) : t :=
  let '(groupName, hierarchyNode) := entry in
  match nodes st !! hierarchyNode with
  | None => st
  | Some hn =>
      match HBStarTreeNode.getASFTree hn with
      | None => st
      | Some a =>
          match asfTrees st !! a with
          | None => st
          | Some asfTree =>
              let segments :=
                Contour.getSegments (asf_getContours asfTree).1 in
              let existing :=
                existingContourNodes (S (size (nodes st))) st
                  (option_list (rightChild hn)) in
              let '(newContourNodes, st1) :=
                createContourNodes st groupName 0 segments in
              let st2 :=
                match newContourNodes with
                | first :: others =>
                    chainLeft
                      (setParent
                         (setRightChild st1 hierarchyNode (Some first))
                         first (Some hierarchyNode))
                      first others
                | [] => st1
                end in
              let danglingNodes := omap (getRightChild st2) existing in
              release (fold_left reattach danglingNodes st2)
          end
      end
  end.

(** [updateContourNodes] *)
Definition updateContourNodes (st : t) : t :=
  fold_left updateContourNodesOf (symmetryGroupNodes st) st.

(** [pack] *)
Definition pack (st : t) : bool * t :=
  match root st with
  | None => (false, st)
  | Some r =>
      if decide (modifiedSubtrees st = ∅) then
        let st1 :=
          set_verticalContour (Contour.clear (verticalContour st))
            (set_horizontalContour
               (Contour.clear (horizontalContour st)) st) in
        let st2 :=
          set_horizontalContour
            (Contour.addSegment (horizontalContour st1) 0 INT_MAX 0) st1 in
        let st3 :=
          set_verticalContour
            (Contour.addSegment (verticalContour st2) 0 INT_MAX 0) st2 in
        let st4 := packSubtree st3 r in
        let '(maxX, maxY) := boundingBox (modules st4) in
        let st5 := set_totalArea (toInt (maxX * maxY)) st4 in
        let st6 := updateContourNodes st5 in
        (true, set_isPacked true st6)
      else (true, repackAffectedSubtrees st)
  end.

(** *** Perturbations *)

(** The search of [rotateModule] for the symmetry group of a module:
    the first group that lists the name in a pair or as
    self-symmetric. *)
Definition inGroup (moduleName : string) (g : SymmetryGroup.t) : bool :=
  existsb (fun pair : string * string =>
             String.eqb pair.1 moduleName || String.eqb pair.2 moduleName)
          (SymmetryGroup.symmetryPairs g)
  || existsb (fun name => String.eqb name moduleName)
             (SymmetryGroup.selfSymmetric g).

Definition groupOf (st : t) (moduleName : string) : option SymmetryGroup.t :=
  List.find (inGroup moduleName) (symmetryGroups st).

(** [rotateModule] *)
Definition rotateModule (st : t) (moduleName : string) : bool * t :=
  match StdMap.find (modules st) moduleName with
  | None => (false, st)
  | Some module =>
      match groupOf st moduleName with
      | Some group =>
          match StdMap.find (symmetryGroupNodes st)
                            (SymmetryGroup.name group) with
          | None => (false, st)
          | Some hierarchyNode =>
              match
                match nodes st !! hierarchyNode with
                | Some hn =>
                    match HBStarTreeNode.getASFTree hn with
                    | Some a =>
                        match asfTrees st !! a with
                        | Some asfTree => Some (a, asfTree)
                        | None => None
                        end
                    | None => None
                    end
                | None => None
                end
              with
              | None => (false, st)
              | Some (a, asfTree) =>
                  let '(success, asfTree', mods') :=
                    asf_rotateModule asfTree moduleName (modules st) in
                  let st1 :=
                    set_modules mods'
                      (set_asfTrees (<[a := asfTree']> (asfTrees st)) st) in
                  let st2 := markSubtreeForRepack st1 (Some hierarchyNode) in
                  let st3 :=
                    if isPacked st2 && success
                    then repackAffectedSubtrees st2 else st2 in
                  (success, st3)
              end
          end
      | None =>
          let st1 :=
            set_modules
              (StdMap.insert moduleName (Module_.rotate module) (modules st))
              st in
          let st2 :=
            match getModuleNode st1 moduleName with
            | Some node => markSubtreeForRepack st1 (Some node)
            | None => st1
            end in
          let st3 :=
            if isPacked st2 then repackAffectedSubtrees st2 else st2 in
          (true, st3)
      end
  end.

(** The loops of [moveNode] that walk down a skewed chain to a free
    slot *)
Fixpoint rightmost (fuel : nat) (st : t) (current : nat) : nat :=
  match fuel with
  | O => current
  | S fuel' =>
      match getRightChild st current with
      | Some r => rightmost fuel' st r
      | None => current
      end
  end.

(** "Find a place for the existing child": the block of [moveNode]
    that is run when the slot of the new parent is taken; [viaLeft]
    tells which chain of [node] is walked when both its slots are
    taken. *)
Definition relocateExisting (st : t) (node existingChild : nat)
    (viaLeft : bool) : t :=
  let st1 :=
    match getLeftChild st node with
    | None =>
        setParent (setLeftChild st node (Some existingChild))
                  existingChild (Some node)
    | Some l =>
        match getRightChild st node with
        | None =>
            setParent (setRightChild st node (Some existingChild))
                      existingChild (Some node)
        | Some r =>
            if viaLeft then
              let current := leftmost (S (size (nodes st))) st l in
              setParent (setLeftChild st current (Some existingChild))
                        existingChild (Some current)
            else
              let current := rightmost (S (size (nodes st))) st r in
              setParent (setRightChild st current (Some existingChild))
                        existingChild (Some current)
        end
    end in
  markSubtreeForRepack st1 (Some existingChild).

(** [moveNode] *)
Definition moveNode (st : t) (nodeName newParentName : string)
    (asLeftChild : bool) : bool * t :=
  match findNode st nodeName, findNode st newParentName with
  | Some node, Some newParent =>
      (* remove the node from its current parent *)
      let st1 :=
        match getParent st node with
        | Some oldParent =>
            let st' :=
              if bool_decide (getLeftChild st oldParent = Some node)
              then setLeftChild st oldParent None
              else if bool_decide (getRightChild st oldParent = Some node)
              then setRightChild st oldParent None
              else st in
            markSubtreeForRepack st' (Some oldParent)
        | None =>
            if bool_decide (root st = Some node) then
              match getLeftChild st node with
              | Some l => set_root (Some l) st
              | None =>
                  match getRightChild st node with
                  | Some r => set_root (Some r) st
                  | None => set_root None st
                  end
              end
            else st
        end in
      (* add the node to its new parent *)
      let st2 := setParent st1 node (Some newParent) in
      let st3 :=
        if asLeftChild then
          let st' :=
            match getLeftChild st2 newParent with
            | Some existingChild =>
                relocateExisting st2 node existingChild true
            | None => st2
            end in
          setLeftChild st' newParent (Some node)
        else
          let st' :=
            match getRightChild st2 newParent with
            | Some existingChild =>
                relocateExisting st2 node existingChild false
            | None => st2
            end in
          setRightChild st' newParent (Some node) in
      let st4 := markSubtreeForRepack st3 (Some newParent) in
      let st5 := markSubtreeForRepack st4 (Some node) in
      let st6 := if isPacked st5 then repackAffectedSubtrees st5 else st5 in
      (true, st6)
  | _, _ => (false, st)
  end.

(** "Detach from its parent" and "attach to the old parent of the
    other node", the blocks that [swapNodes] repeats *)
Definition detachFromParent (st : t) (parent : option nat)
    (wasLeftChild : bool) : t :=
  match parent with
  | Some p =>
      if wasLeftChild then setLeftChild st p None
      else setRightChild st p None
  | None => st
  end.

Definition attachToParent (st : t) (parent : option nat)
    (wasLeftChild : bool) (node : nat) : t :=
  match parent with
  | Some p =>
      let st1 :=
        if wasLeftChild then setLeftChild st p (Some node)
        else setRightChild st p (Some node) in
      setParent st1 node (Some p)
  | None => setParent (set_root (Some node) st) node None
  end.

(** The special case of [swapNodes] in which [child] is a child of
    [node]; [parentOfNode] and [nodeWasLeft] were read before. *)
Definition swapWithChild (st : t) (node child : nat)
    (parentOfNode : option nat) (nodeWasLeft : bool) : t :=
  (* detach child from node *)
  let st1 :=
    if bool_decide (getLeftChild st node = Some child)
    then setLeftChild st node None
    else setRightChild st node None in
  (* detach node from its parent *)
  let st2 := detachFromParent st1 parentOfNode nodeWasLeft in
  (* attach node as child of child "in the same position" *)
  let st3 :=
    if bool_decide (getLeftChild st2 node = Some child)
    then setLeftChild st2 child (Some node)
    else setRightChild st2 child (Some node) in
  let st4 := setParent st3 node (Some child) in
  (* attach child to node's old parent *)
  attachToParent st4 parentOfNode nodeWasLeft child.

(** [p->setParent(node)] for a child pointer that may be null *)
Definition setParentOf (st : t) (child : option nat) (p : nat) : t :=
  match child with
  | Some c => setParent st c (Some p)
  | None => st
  end.

(** [swapNodes] *)
Definition swapNodes (st : t) (nodeName1 nodeName2 : string) : bool * t :=
  match findNode st nodeName1, findNode st nodeName2 with
  | Some node1, Some node2 =>
      let st0 :=
        markSubtreeForRepack (markSubtreeForRepack st (Some node1))
                             (Some node2) in
      let parent1 := getParent st0 node1 in
      let parent2 := getParent st0 node2 in
      let isLeftChild1 := isLeftChild st0 node1 in
      let isLeftChild2 := isLeftChild st0 node2 in
      let st1 :=
        if bool_decide (getLeftChild st0 node1 = Some node2)
           || bool_decide (getRightChild st0 node1 = Some node2)
        then swapWithChild st0 node1 node2 parent1 isLeftChild1
        else if bool_decide (getLeftChild st0 node2 = Some node1)
                || bool_decide (getRightChild st0 node2 = Some node1)
        then swapWithChild st0 node2 node1 parent2 isLeftChild2
        else
          (* detach nodes from parents *)
          let sa := detachFromParent st0 parent1 isLeftChild1 in
          let sb := detachFromParent sa parent2 isLeftChild2 in
          (* swap children *)
          let leftChild1 := getLeftChild sb node1 in
          let rightChild1 := getRightChild sb node1 in
          let leftChild2 := getLeftChild sb node2 in
          let rightChild2 := getRightChild sb node2 in
          let sc := setRightChild (setLeftChild sb node1 leftChild2)
                                  node1 rightChild2 in
          let sd := setParentOf (setParentOf sc leftChild2 node1)
                                rightChild2 node1 in
          let se := setRightChild (setLeftChild sd node2 leftChild1)
                                  node2 rightChild1 in
          let sf := setParentOf (setParentOf se leftChild1 node2)
                                rightChild1 node2 in
          (* reattach nodes to opposite parents *)
          let sg := attachToParent sf parent1 isLeftChild1 node2 in
          attachToParent sg parent2 isLeftChild2 node1 in
      let st2 := release st1 in
      let st3 := if isPacked st2 then repackAffectedSubtrees st2 else st2 in
      (true, st3)
  | _, _ => (false, st)
  end.

(** *** Copy *)

(** [clone] *)
Definition clone (st : t) : t :=
  let c1 :=
    fold_left (fun c (kv : string * Module_.t) =>
                 set_modules (StdMap.insert kv.1 kv.2 (modules c)) c)
              (modules st) create in
  let c2 :=
    fold_left (fun c group =>
                 set_symmetryGroups (symmetryGroups c ++ [group]) c)
              (symmetryGroups st) c1 in
  let c3 := constructInitialTree c2 in
  let c4 := set_totalArea (totalArea st) (set_isPacked (isPacked st) c3) in
  set_verticalContour (verticalContour st)
    (set_horizontalContour (horizontalContour st) c4).

(** [getArea] *)
Definition getArea (st : t) : Z := totalArea st.


(** *** The perturbations of a symmetry island *)

Context `{perturb : ASFBStarTreePerturb ASF}.

(** The hierarchy node of a symmetry group and its ASF-B*-tree, as
    [convertSymmetryType] and [changeRepresentative] look them up: the
    entry of [symmetryGroupNodes], then [getASFTree()]. *)
Definition islandOf (st : t) (symmetryGroupName : string)
  : option (nat * nat * ASF) :=
  match StdMap.find (symmetryGroupNodes st) symmetryGroupName with
  | None => None
  | Some hierarchyNode =>
      match nodes st !! hierarchyNode with
      | Some hn =>
          match HBStarTreeNode.getASFTree hn with
          | Some a =>
              match asfTrees st !! a with
              | Some asfTree => Some (hierarchyNode, a, asfTree)
              | None => None
              end
          | None => None
          end
      | None => None
      end
  end.

(** What both functions do once the ASF-B*-tree has answered: store
    its new state, mark the hierarchy node, repack when the call
    succeeded and the tree is packed. *)
Definition afterIslandPerturbation (st : t)
    (hierarchyNode a : nat) (result : bool * ASF * Modules)
  : bool * t :=
  let '(success, asfTree', mods') := result in
  let st1 :=
    set_modules mods' (set_asfTrees (<[a := asfTree']> (asfTrees st)) st) in
  let st2 := markSubtreeForRepack st1 (Some hierarchyNode) in
  let st3 :=
    if success && isPacked st2 then repackAffectedSubtrees st2 else st2 in
  (success, st3).

(** [convertSymmetryType] *)
Definition convertSymmetryType (st : t)
    (symmetryGroupName : string) : bool * t :=
  match islandOf st symmetryGroupName with
  | None => (false, st)
  | Some (hierarchyNode, a, asfTree) =>
      afterIslandPerturbation st hierarchyNode a
        (asf_convertSymmetryType asfTree (modules st))
  end.

(** [changeRepresentative] *)
Definition changeRepresentative (st : t)
    (symmetryGroupName moduleName : string) : bool * t :=
  match islandOf st symmetryGroupName with
  | None => (false, st)
  | Some (hierarchyNode, a, asfTree) =>
      afterIslandPerturbation st hierarchyNode a
        (asf_changeRepresentative asfTree moduleName (modules st))
  end.


(** *** Specification vocabulary for trees *)

(** The [k]-th ancestor of a node along the parent pointers; the node
    itself for [k = 0]. *)
Fixpoint ancestor (st : t) (k : nat) (node : nat) : option nat :=
  match k with
  | O => Some node
  | S k' =>
      match ancestor st k' node with
      | Some a => getParent st a
      | None => None
      end
  end.


(** The parent chain of a node ends: the loop [while (current)
    current = current->getParent()] stops. [moveNode] and [swapNodes]
    can link the parent pointers into a cycle; on such a chain the
    loops of [markSubtreeForRepack] and [repackAffectedSubtrees] never
    stop. *)
Definition parentChainEnds (st : t) (node : nat) : Prop :=
  exists k, ancestor st k node = None.

(** The recursion of [packSubtree] from [node] ends: the child
    pointers below [node] do not run into a cycle. *)
Definition subtreeEnds (st : t) (node : nat) : Prop :=
  exists depth, subtreeWithin depth st node = true.


(** The loops and the recursion of [repackAffectedSubtrees] end: for
    every marked node the parent chain ends (the search for a marked
    ancestor and the depth count of the sort) and the subtree is
    finite (the [packSubtree] call). *)
Definition repackEnds (st : t) : Prop :=
  forall node, node ∈ modifiedSubtrees st ->
    parentChainEnds st node /\ subtreeEnds st node.

(** The names met from a node on along the left-child pointers; for
    a left-skewed chain, the whole tree. *)
Fixpoint leftChain (fuel : nat) (st : t) (node : option nat) : list string :=
  match node, fuel with
  | Some n, S fuel' =>
      match nodes st !! n with
      | Some nd =>
          HBStarTreeNode.getName nd :: leftChain fuel' st (leftChild nd)
      | None => []
      end
  | _, _ => []
  end.

Definition chainFromRoot (st : t) : list string :=
  leftChain (S (size (nodes st))) st (root st).

(** The position of a registered module *)
Definition coordinates (st : t) (moduleName : string) : option (Z * Z) :=
  match StdMap.find (modules st) moduleName with
  | Some m => Some (Module_.x m, Module_.y m)
  | None => None
  end.

(** Two states with the same tree: the same node objects, root, name
    tables, marks, stored area and packed flag. They may differ in the
    modules, the ASF-B*-trees and the two skylines, which is what
    packing writes. *)
Definition sameTree (st st' : t) : Prop :=
  nodes st' = nodes st /\ nextNode st' = nextNode st /\
  symmetryGroups st' = symmetryGroups st /\ root st' = root st /\
  moduleNodes st' = moduleNodes st /\
  symmetryGroupNodes st' = symmetryGroupNodes st /\
  nodeMap st' = nodeMap st /\
  modifiedSubtrees st' = modifiedSubtrees st /\
  totalArea st' = totalArea st /\ isPacked st' = isPacked st.

(** Two states that differ at most in the node objects: the structural
    operations (linking, creating and destroying nodes) write nothing
    else. *)
Definition sameButNodes (st st' : t) : Prop :=
  asfTrees st' = asfTrees st /\ modules st' = modules st /\
  symmetryGroups st' = symmetryGroups st /\ root st' = root st /\
  horizontalContour st' = horizontalContour st /\
  verticalContour st' = verticalContour st /\
  moduleNodes st' = moduleNodes st /\
  symmetryGroupNodes st' = symmetryGroupNodes st /\
  nodeMap st' = nodeMap st /\
  modifiedSubtrees st' = modifiedSubtrees st /\
  totalArea st' = totalArea st /\ isPacked st' = isPacked st.

(** Two states with the same data: the same modules, symmetry groups,
    ASF-B*-trees, skylines, name tables, stored area and packed flag.
    They may differ in the node objects, the root and the marks, which
    is what the perturbations write before they repack. *)
Definition sameData (st st' : t) : Prop :=
  asfTrees st' = asfTrees st /\ modules st' = modules st /\
  symmetryGroups st' = symmetryGroups st /\
  horizontalContour st' = horizontalContour st /\
  verticalContour st' = verticalContour st /\
  moduleNodes st' = moduleNodes st /\
  symmetryGroupNodes st' = symmetryGroupNodes st /\
  nodeMap st' = nodeMap st /\
  totalArea st' = totalArea st /\ isPacked st' = isPacked st.

(** What a node object keeps when it is linked elsewhere: kind, name
    and payload. *)
Definition samePayload (n n' : HBStarTreeNode.t) : Prop :=
  type n' = type n /\ name n' = name n /\ asfTree n' = asfTree n /\
  getContour n' = getContour n.

(** The node objects of [st'] are those of [st], linked differently:
    the same addresses are alive, no node has been created, and every
    node has kept its kind, name and payload. *)
Definition relinked (st st' : t) : Prop :=
  nextNode st' = nextNode st /\
  (forall id, nodes st' !! id = None <-> nodes st !! id = None) /\
  (forall id n n', nodes st !! id = Some n -> nodes st' !! id = Some n' ->
     samePayload n n').

(** The registered names of [st'] are those of [st], and every node
    that was registered and alive is still alive, with the kind, name
    and payload it had. *)
Definition keepsRegistered (st st' : t) : Prop :=
  nodeMap st' = nodeMap st /\
  (forall nodeName id n,
     nodeMap st !! nodeName = Some id -> nodes st !! id = Some n ->
     exists n', nodes st' !! id = Some n' /\ samePayload n n').

(** No live node has an address that [std::make_shared] is still to
    hand out. *)
Definition fresh (st : t) : Prop :=
  forall id, is_Some (nodes st !! id) -> (id < nextNode st)%nat.

(** The parent pointer stored in a node object, whether or not its
    target is still alive. *)
Definition parentField (st : t) (node : nat)
  : option (option nat) :=
  parent <$> nodes st !! node.

(** Both skylines are sorted and non-overlapping. *)
Definition skylines_wf (st : t) : Prop :=
  Contour.wf (Contour.segments (horizontalContour st)) /\
  Contour.wf (Contour.segments (verticalContour st)).

(** Two states with the same problem and the same packing data: the
    same modules, symmetry groups, skylines, marks and stored area. The
    construction of the tree writes none of them. *)
Definition sameProblem (st st' : t) : Prop :=
  modules st' = modules st /\ symmetryGroups st' = symmetryGroups st /\
  horizontalContour st' = horizontalContour st /\
  verticalContour st' = verticalContour st /\
  modifiedSubtrees st' = modifiedSubtrees st /\
  totalArea st' = totalArea st.

(** Every entry of a name table points to a live node object of the
    table's kind that carries the entry's name. *)
Definition tableNamed (st : t) (kind : HBNodeType)
    (table : StdMap.t nat) : Prop :=
  forall k a, (k, a) ∈ table ->
    exists n, nodes st !! a = Some n /\ type n = kind /\
              HBStarTreeNode.getName n = k.

(** A node object that carries the name [k] and has no child and no
    parent. *)
Definition unlinked (st : t) (k : string) (a : nat) : Prop :=
  exists n, nodes st !! a = Some n /\ HBStarTreeNode.getName n = k /\
            leftChild n = None /\ rightChild n = None /\ parent n = None.

(** The name tables as the construction loops leave them before the
    chaining: their entries point to distinct node objects that
    [std::make_shared] has handed out, each named after its key and
    without a child or a parent. *)
Definition unlinkedTables (st : t) : Prop :=
  NoDup (StdMap.values (symmetryGroupNodes st ++ moduleNodes st)) /\
  forall k a, (k, a) ∈ symmetryGroupNodes st ++ moduleNodes st ->
    (a < nextNode st)%nat /\ unlinked st k a.

(** A left-skewed chain below the node [above]: the node objects of the
    entries, in their order, each named after its key, each the left
    child of the one before and with that one as its parent, none with a
    right child, the last one without a child. *)
Fixpoint linkedChain (st : t) (above : option nat)
    (entries : StdMap.t nat) : Prop :=
  match entries with
  | [] => True
  | (k, a) :: rest =>
      (exists n, nodes st !! a = Some n /\ HBStarTreeNode.getName n = k /\
                 parent n = above /\
                 leftChild n = head (StdMap.values rest) /\
                 rightChild n = None) /\
      linkedChain st (Some a) rest
  end.

(** The registrations that [registerNodeInMap] makes along a chain *)
Definition registerAll (entries : StdMap.t nat) (m : gmap string nat)
  : gmap string nat :=
  fold_left (fun m (kv : string * nat) => <[kv.1 := kv.2]> m) entries m.

(** The modules [names] stand side by side on the ground, in this
    order, from the abscissa [x] on, each as wide as the registry [mods]
    says. *)
Fixpoint inRow (st : t) (mods : Modules) (x : Z)
    (names : list string) : Prop :=
  match names with
  | [] => True
  | k :: rest =>
      coordinates st k = Some (x, 0) /\
      inRow st mods
            (x + match StdMap.find mods k with
                 | Some m => Module_.width m
                 | None => 0
                 end) rest
  end.

(** The sum of the widths that the registry [mods] gives to the
    modules [names] *)
Definition totalWidth (mods : Modules) (names : list string) : Z :=
  fold_right
    (fun k acc =>
       match StdMap.find mods k with
       | Some m => Module_.width m
       | None => 0
       end + acc)
    0 names.

(** A tree of module nodes only, as [constructInitialTree] builds it
    for a problem without symmetry groups. *)
Definition modulesOnly (st : t) : Prop :=
  forall id n, nodes st !! id = Some n -> type n = MODULE.

(** Every registered module stands on or above the ground: its
    ordinate and its dimensions are not negative. *)
Definition aboveGround (mods : Modules) : Prop :=
  forall k m, (k, m) ∈ mods ->
    0 <= Module_.y m /\ 0 <= Module_.width m /\ 0 <= Module_.height m.

(** No registered module starts left of the origin. (An abscissa is
    the [int] sum of the abscissa and the width of another module, so
    this is not an invariant: the sum can wrap around.) *)
Definition rightOfOrigin (mods : Modules) : Prop :=
  forall k m, (k, m) ∈ mods -> 0 <= Module_.x m.

(** A tree of module nodes only whose registered modules all stand on
    or above the ground. *)
Definition onGround (st : t) : Prop :=
  modulesOnly st /\ aboveGround (modules st).

End WithASF.

Arguments t : clear implicits.

End HBStarTree.

(** ** A small ASF-B*-tree

    An instance of the interface above, which serves as the island packer
    in the examples; the properties of the HB*-tree in Part II hold for
    every implementation of the interface. *)

Module RowASF.

(** Modelled from the spec: the class [ASFBStarTree], whose source is not
    among the sources of the repository (spec section 4.2). This
    implementation lays an island out in rows about a vertical axis: each
    symmetry pair occupies one row, its first module ending at the axis
    and its second module starting there, and each self-symmetric module
    occupies one row, centred on the axis. [rotateModule] rotates the two
    modules of a pair together, or a self-symmetric module, and fails for
    a name that was never added to the tree. *)
Record t : Type := mk {
  group : SymmetryGroup.t;
  members : list string;
  axis : Z;
  horizontal : Contour.t;
  vertical : Contour.t
}.

Definition create (g : SymmetryGroup.t) : t :=
  {| group := g; members := []; axis := 0;
     horizontal := Contour.empty; vertical := Contour.empty |}.

Definition addModule (a : t) (moduleName : string) : t :=
  {| group := group a; members := members a ++ [moduleName];
     axis := axis a; horizontal := horizontal a; vertical := vertical a |}.

Definition isMember (a : t) (moduleName : string) : bool :=
  existsb (String.eqb moduleName) (members a).

Definition widthOf (mods : Modules) (moduleName : string) : Z :=
  match StdMap.find mods moduleName with
  | Some m => Module_.width m
  | None => 0
  end.

Definition heightOf (mods : Modules) (moduleName : string) : Z :=
  match StdMap.find mods moduleName with
  | Some m => Module_.height m
  | None => 0
  end.

(** The axis lies right of the widest left half. *)
Definition axisFor (a : t) (mods : Modules) : Z :=
  let pairsMax :=
    fold_left (fun acc (pair : string * string) =>
                 if isMember a pair.1
                 then Z.max acc (widthOf mods pair.1) else acc)
              (SymmetryGroup.symmetryPairs (group a)) 0 in
  fold_left (fun acc name =>
               if isMember a name
               then Z.max acc ((widthOf mods name + 1) / 2) else acc)
            (SymmetryGroup.selfSymmetric (group a)) pairsMax.

(** Placing one module and raising the skylines over it *)
Definition place (moduleName : string) (x y : Z)
    (acc : Modules * Contour.t * Contour.t) : Modules * Contour.t * Contour.t :=
  let '(mods, h, v) := acc in
  match StdMap.find mods moduleName with
  | Some m =>
      (StdMap.insert moduleName (Module_.setPosition m x y) mods,
       Contour.addSegment h x (x + Module_.width m) (y + Module_.height m),
       Contour.addSegment v y (y + Module_.height m) (x + Module_.width m))
  | None => acc
  end.

Definition pack (a : t) (mods : Modules) : t * Modules :=
  let A := axisFor a mods in
  let afterPairs :=
    fold_left
      (fun '(acc, y) (pair : string * string) =>
         if isMember a pair.1 && isMember a pair.2 then
           (place pair.2 A y
              (place pair.1 (A - widthOf mods pair.1) y acc),
            y + Z.max (heightOf mods pair.1) (heightOf mods pair.2))
         else (acc, y))
      (SymmetryGroup.symmetryPairs (group a))
      ((mods, Contour.empty, Contour.empty), 0) in
  let '((mods', h, v), _) :=
    fold_left
      (fun '(acc, y) name =>
         if isMember a name then
           (place name (A - widthOf mods name / 2) y acc,
            y + heightOf mods name)
         else (acc, y))
      (SymmetryGroup.selfSymmetric (group a)) afterPairs in
  ({| group := group a; members := members a; axis := A;
      horizontal := h; vertical := v |}, mods').

Definition rotateIn (mods : Modules) (moduleName : string) : Modules :=
  match StdMap.find mods moduleName with
  | Some m => StdMap.insert moduleName (Module_.rotate m) mods
  | None => mods
  end.

Definition rotateModule (a : t) (moduleName : string) (mods : Modules)
  : bool * t * Modules :=
  if isMember a moduleName then
    match
      List.find (fun pair : string * string =>
                   String.eqb pair.1 moduleName || String.eqb pair.2 moduleName)
                (SymmetryGroup.symmetryPairs (group a))
    with
    | Some pr => (true, a, rotateIn (rotateIn mods pr.1) pr.2)
    | None => (true, a, rotateIn mods moduleName)
    end
  else (false, a, mods).

(** [getModules] hands out a [std::map]: the names in key order. *)
Definition getModules (a : t) : list string :=
  StdMap.keys (StdMap.of_list (map (fun n => (n, tt)) (members a))).

#[global] Instance ops : ASFBStarTree t := {|
  asf_create := create;
  asf_addModule := addModule;
  asf_constructInitialTree := fun a _ => a;
  asf_pack := pack;
  asf_getModules := getModules;
  asf_getSymmetryAxisPosition := axis;
  asf_getContours := fun a => (horizontal a, vertical a);
  asf_rotateModule := rotateModule
|}.

(** Modelled from the spec: [convertSymmetryType] toggles between
    vertical- and horizontal-axis symmetry (spec section 4.2). *)
Definition convertSymmetryType (a : t) (mods : Modules)
  : bool * t * Modules :=
  let g := group a in
  let g' :=
    SymmetryGroup.mk (SymmetryGroup.name g) (SymmetryGroup.symmetryPairs g)
      (SymmetryGroup.selfSymmetric g)
      match SymmetryGroup.type g with
      | SymmetryGroup.VERTICAL => SymmetryGroup.HORIZONTAL
      | SymmetryGroup.HORIZONTAL => SymmetryGroup.VERTICAL
      end in
  (true,
   {| group := g'; members := members a; axis := axis a;
      horizontal := horizontal a; vertical := vertical a |}, mods).

(** Modelled from the spec: [changeRepresentative(name)] exchanges,
    within the pair that contains [name], which module is the
    representative (spec section 4.2); here the representative is the
    first module of the pair. It fails for a name that is in no pair. *)
Definition changeRepresentative (a : t) (moduleName : string) (mods : Modules)
  : bool * t * Modules :=
  let g := group a in
  let inPair (pr : string * string) :=
    String.eqb pr.1 moduleName || String.eqb pr.2 moduleName in
  if existsb inPair (SymmetryGroup.symmetryPairs g) then
    (true,
     {| group :=
          SymmetryGroup.mk (SymmetryGroup.name g)
            (map (fun pr => if inPair pr then (pr.2, pr.1) else pr)
                 (SymmetryGroup.symmetryPairs g))
            (SymmetryGroup.selfSymmetric g) (SymmetryGroup.type g);
        members := members a; axis := axis a;
        horizontal := horizontal a; vertical := vertical a |}, mods)
  else (false, a, mods).

#[global] Instance perturb : ASFBStarTreePerturb t := {|
  asf_convertSymmetryType := convertSymmetryType;
  asf_changeRepresentative := changeRepresentative
|}.

End RowASF.

(** ** Example inputs *)

Module Examples.
Import HBStarTree.

Abbreviation Tree := (HBStarTree.t RowASF.t).

(** A skyline with one segment *)
Definition contour_0_10 : Contour.t :=
  {| Contour.segments := [Contour.mkSeg 0 10 5];
     Contour.maxCoordinate := 10; Contour.maxHeight := 5 |}.

(** Two free modules: "a" is 10 by 10 and "b" is 10 by 20, the larger
    one. *)
Definition moduleA : Module_.t := Module_.mk "a" 0 0 10 10 false.
Definition moduleB : Module_.t := Module_.mk "b" 0 0 10 20 false.

Definition twoModulesInput : Tree :=
  addModule (addModule create moduleA) moduleB.

Definition twoModules : Tree := constructInitialTree twoModulesInput.

(** A state with the skylines as [pack] sets them up before it calls
    [packSubtree]. *)
Definition baseContours (st : Tree) : Tree :=
  set_verticalContour
    (Contour.addSegment (Contour.clear (verticalContour st)) 0 INT_MAX 0)
    (set_horizontalContour
       (Contour.addSegment (Contour.clear (horizontalContour st)) 0 INT_MAX 0)
       st).

(** The state in which the full pack of [twoModules] reaches the node of
    "b": the root "a" has been placed. *)
Definition nodeA : HBStarTreeNode.t :=
  HBStarTreeNode.mk HBStarTreeNode.MODULE "a" (Some 0%nat) None None None
                    0 0 0 0.
Definition nodeB : HBStarTreeNode.t :=
  HBStarTreeNode.mk HBStarTreeNode.MODULE "b" None None (Some 1%nat) None
                    0 0 0 0.

Definition rootPlaced : Tree := (packNode (baseContours twoModules) 1 nodeA).1.

(** The same tree after [rotateModule("a")], [pack()] and
    [rotateModule("a")] again: "a" is square, so its rectangle is as
    before, and the last rotation has marked its node. *)
Definition rotatedPackedRotated : Tree :=
  (rotateModule (pack (rotateModule twoModules "a").2).2 "a").2.

(** The two modules with "b" moved to the right-child slot of "a". *)
Definition stacked : Tree := (moveNode twoModules "b" "a" false).2.

(** The tree of the two modules, packed, then perturbed by
    [moveNode("b", "a", false)], then packed again. *)
Definition movedAndPacked : Tree :=
  (pack (moveNode (pack twoModules).2 "b" "a" false).2).2.

(** Two symmetry groups added in the order "right", "left", each with one
    self-symmetric module, and the two free modules. *)
Definition moduleL : Module_.t := Module_.mk "l" 0 0 20 10 false.
Definition moduleR : Module_.t := Module_.mk "r" 0 0 20 10 false.

Definition groupRight : SymmetryGroup.t :=
  SymmetryGroup.mk "right" [] ["r"] SymmetryGroup.VERTICAL.
Definition groupLeft : SymmetryGroup.t :=
  SymmetryGroup.mk "left" [] ["l"] SymmetryGroup.VERTICAL.

Definition twoGroups : Tree :=
  constructInitialTree
    (addSymmetryGroup
       (addSymmetryGroup
          (addModule (addModule (addModule (addModule create moduleA) moduleB)
                                moduleL) moduleR)
          groupRight)
       groupLeft).

(** The state in which the full pack of [twoGroups] reaches the
    hierarchy node "right", the left child of the hierarchy node
    "left": the island of "left" has been placed. *)
Definition hnLeft : HBStarTreeNode.t :=
  HBStarTreeNode.mk HBStarTreeNode.HIERARCHY "left" (Some 0%nat) None None
                    (Some 1%nat) 0 0 0 0.
Definition hnRight : HBStarTreeNode.t :=
  HBStarTreeNode.mk HBStarTreeNode.HIERARCHY "right" (Some 3%nat) None
                    (Some 1%nat) (Some 0%nat) 0 0 0 0.

Definition leftPlaced : Tree := (packNode (baseContours twoGroups) 1 hnLeft).1.

(** A group with the pair ("p", "q") of which only "p" is registered
    when the tree is built; "q" is registered afterwards. *)
Definition moduleP : Module_.t := Module_.mk "p" 0 0 20 10 false.
Definition moduleQ : Module_.t := Module_.mk "q" 0 0 20 10 false.

Definition groupPQ : SymmetryGroup.t :=
  SymmetryGroup.mk "pq" [("p", "q")] [] SymmetryGroup.VERTICAL.

Definition lateModule : Tree :=
  addModule
    (constructInitialTree
       (addSymmetryGroup (addModule (addModule create moduleA) moduleP) groupPQ))
    moduleQ.

(** One symmetry group "g" with the self-symmetric module "s" (20 by 10)
    and four free modules of 10 by 10. The tree is built and packed, and
    then perturbed by [swapNodes("g", "q")], [moveNode("r", "g", false)]
    and [moveNode("t", "q", false)]: the module node "r" is the right
    child of the hierarchy node, and "t" is the right child of the root
    "q". Every perturbation has repacked, so no node is marked. *)
Definition square (name : string) : Module_.t := Module_.mk name 0 0 10 10 false.

Definition groupG : SymmetryGroup.t :=
  SymmetryGroup.mk "g" [] ["s"] SymmetryGroup.VERTICAL.

Definition islandInput : Tree :=
  addSymmetryGroup
    (fold_left addModule
       [Module_.mk "s" 0 0 20 10 false; square "p"; square "q"; square "r";
        square "t"] create)
    groupG.

Definition rightOfIsland : Tree :=
  (moveNode
     (moveNode
        (swapNodes (pack (constructInitialTree islandInput)).2 "g" "q").2
        "r" "g" false).2
     "t" "q" false).2.

(** The pair ("a", "b") made a symmetry group "g" after the tree of
    the free modules was built, and the tree built again. The second
    [constructInitialTree] makes the hierarchy node "g" the root of a
    new chain; the module nodes of "a" and "b" of the first tree are no
    longer in the tree, and [nodeMap] still holds them under their
    names. *)
Definition groupAB : SymmetryGroup.t :=
  SymmetryGroup.mk "g" [("a", "b")] [] SymmetryGroup.VERTICAL.



(** The same with two more free modules "c" and "d": the chain is
    "g", "c", "d", and [moveNode("g", "a", true)] makes "c" the root.
    The parent pointer of "c" is not cleared: it still names "g", and
    "g" still has "c" as its left child. *)
Definition fourRegrouped : Tree :=
  constructInitialTree
    (addSymmetryGroup
       (constructInitialTree
          (fold_left addModule
             [square "a"; square "b"; square "c"; square "d"] create))
       groupAB).

Definition rootUnderIsland : Tree := (moveNode fourRegrouped "g" "a" true).2.

(** A module as wide as the largest [int], to the right of "a" *)
Definition wideInput : Tree :=
  fold_left addModule
    [square "a"; Module_.mk "w" 0 0 2147483647 10 false] create.

Definition wideTree : Tree := constructInitialTree wideInput.

(** One symmetry group "g" with the self-symmetric module "s", and the
    free modules "x" and "y": the chain is "g", "x", "y". The calls
    [swapNodes("g", "x")], [moveNode("y", "g", false)],
    [swapNodes("x", "g")] and [swapNodes("y", "g")] all return true
    (each marks before it links, or links nodes whose parent chains
    still end), and the last one leaves the hierarchy node "g" as its
    own parent and its own right child. *)
Definition groupChain : Tree :=
  constructInitialTree
    (addSymmetryGroup
       (fold_left addModule
          [Module_.mk "s" 0 0 20 10 false; square "x"; square "y"] create)
       groupG).

Definition selfParent : Tree :=
  (swapNodes
     (swapNodes
        (moveNode (swapNodes groupChain "g" "x").2 "y" "g" false).2
        "x" "g").2
     "y" "g").2.

(** [lateModule] after a first [rotateModule("q")], which fails inside
    the ASF-B*-tree and leaves the hierarchy node marked *)
Definition alreadyMarked : Tree := (rotateModule lateModule "q").2.

(** A second skyline, which overlaps the first one *)
Definition contour_5_15 : Contour.t :=
  {| Contour.segments := [Contour.mkSeg 5 10 7; Contour.mkSeg 10 15 3];
     Contour.maxCoordinate := 15; Contour.maxHeight := 7 |}.

End Examples.

(* ===================================================================== *)
(** * Part II: properties                                                 *)
(* ===================================================================== *)

Module ContourFacts.
Import Contour Examples.

Local Ltac zb :=
  repeat match goal with
  | H : (_ <? _) = true |- _ => apply Z.ltb_lt in H
  | H : (_ <? _) = false |- _ => apply Z.ltb_ge in H
  | H : (_ <=? _) = true |- _ => apply Z.leb_le in H
  | H : (_ <=? _) = false |- _ => apply Z.leb_gt in H
  | H : (_ >=? _) = true |- _ => rewrite Z.geb_leb in H
  | H : (_ >=? _) = false |- _ => rewrite Z.geb_leb in H
  | H : (_ >? _) = true |- _ => rewrite Z.gtb_ltb in H
  | H : (_ >? _) = false |- _ => rewrite Z.gtb_ltb in H
  | H : (_ =? _) = true |- _ => apply Z.eqb_eq in H
  | H : (_ =? _) = false |- _ => apply Z.eqb_neq in H
  | H : (_ && _) = true |- _ => apply andb_true_iff in H; destruct H
  | H : (_ && _) = false |- _ => apply andb_false_iff in H
  end.

(** *** Well-formed segment vectors *)

Lemma wf_from_weaken lo lo' segs :
  lo' <= lo -> wf_from lo segs -> wf_from lo' segs.
Proof.
  destruct segs; simpl; [done|]. intros ? (? & ? & ?). repeat split; auto; lia.
Qed.

Lemma wf_from_wf lo segs : wf_from lo segs -> wf segs.
Proof.
  destruct segs as [|s rest]; simpl; [done|].
  intros (_ & ? & ?). repeat split; auto; lia.
Qed.

Lemma wf_wf_from segs :
  wf segs -> exists lo, wf_from lo segs.
Proof.
  destruct segs as [|s rest]; [by exists 0|]. intros H. by exists (start s).
Qed.

Lemma heightAt_below lo segs p :
  wf_from lo segs -> p < lo -> heightAt segs p = None.
Proof.
  revert lo. induction segs as [|s rest IH]; intros lo; simpl; [done|].
  intros (Hlo & Hpos & Hrest) Hp.
  destruct (start s <=? p) eqn:E1; zb; [lia|]. simpl.
  apply (IH (end_ s)); auto; lia.
Qed.

(** *** The sort is the identity on what [addSegment] hands to it *)

Lemma sort_by_start_sorted_id lo segs :
  wf_from lo segs -> sort_by_start segs = segs.
Proof.
  revert lo. induction segs as [|s rest IH]; intros lo; simpl; [done|].
  intros (_ & Hpos & Hrest). unfold sort_by_start in *. simpl.
  rewrite (IH _ Hrest).
  destruct rest as [|r rest']; simpl; [done|].
  simpl in Hrest. destruct Hrest as (? & ? & ?).
  destruct (start r <? start s) eqn:E; zb; [lia|done].
Qed.

(** Any vector that is a permutation of a sorted, non-overlapping vector
    and is sorted with respect to the comparator of the source is that
    vector, so what [addSegment] does next cannot depend on the sorting
    algorithm. *)
Lemma wf_from_lower lo segs x :
  wf_from lo segs -> x ∈ segs -> lo <= start x.
Proof.
  revert lo. induction segs as [|g rest IH]; intros lo Hwf Hx.
  - by apply elem_of_nil in Hx.
  - destruct Hwf as (Hlo & Hpos & Hrest).
    apply elem_of_cons in Hx as [->|Hx]; [done|].
    specialize (IH _ Hrest Hx). lia.
Qed.

Lemma wf_from_start_inj lo segs x y :
  wf_from lo segs -> x ∈ segs -> y ∈ segs -> start x = start y -> x = y.
Proof.
  revert lo. induction segs as [|g rest IH]; intros lo Hwf Hx Hy Heq.
  - by apply elem_of_nil in Hx.
  - destruct Hwf as (Hlo & Hpos & Hrest).
    apply elem_of_cons in Hx as [->|Hx], Hy as [->|Hy]; [done| | |].
    + pose proof (wf_from_lower _ _ _ Hrest Hy). lia.
    + pose proof (wf_from_lower _ _ _ Hrest Hx). lia.
    + by apply (IH (end_ g)).
Qed.

Lemma wf_from_Sorted lo segs :
  wf_from lo segs -> Sorted (fun a b => ~ start b < start a) segs.
Proof.
  revert lo. induction segs as [|g rest IH]; intros lo Hwf; [constructor|].
  destruct Hwf as (Hlo & Hpos & Hrest). constructor; [by eapply IH|].
  destruct rest as [|r rest']; constructor.
  destruct Hrest as (? & _). lia.
Qed.

Lemma sorted_vector_unique lo (segs sorted : list ContourSegment) :
  wf_from lo segs ->
  sorted ≡ₚ segs ->
  Sorted (fun a b => ~ start b < start a) sorted ->
  sorted = segs.
Proof.
  intros Hwf Hperm Hsorted.
  assert (Transitive (fun a b : ContourSegment => ~ start b < start a)).
  { intros a b c ? ?. lia. }
  apply (Sorted_unique_strong (fun a b => ~ start b < start a));
    [|done|by eapply wf_from_Sorted|done].
  intros x1 x2 Hx1 Hx2 H1 H2.
  apply (wf_from_start_inj lo segs); [done|by rewrite <- Hperm|done|lia].
Qed.

(** *** The merge pass *)

Lemma mergeLoop_head last rest :
  exists e tl, mergeLoop last rest = mkSeg (start last) e (height last) :: tl.
Proof.
  revert last. induction rest as [|c rest IH]; intros last; simpl.
  - exists (end_ last), []. by destruct last.
  - destruct ((end_ last =? start c) && (height last =? height c)).
    + destruct (IH (mkSeg (start last) (end_ c) (height last))) as (e & tl & ->).
      simpl. by exists e, tl.
    + exists (end_ last), (mergeLoop c rest). by destruct last.
Qed.

Lemma mergeLoop_fused last rest : fused (mergeLoop last rest).
Proof.
  revert last. induction rest as [|c rest IH]; intros last; simpl; [done|].
  destruct ((end_ last =? start c) && (height last =? height c)) eqn:E.
  - apply IH.
  - split; [|apply IH].
    destruct (mergeLoop_head c rest) as (e & tl & ->). simpl.
    intros [H1 H2]. zb. destruct E; zb; congruence.
Qed.

Lemma mergeLoop_wf lo last rest :
  wf_from lo (last :: rest) -> wf_from lo (mergeLoop last rest).
Proof.
  revert lo last. induction rest as [|c rest IH]; intros lo last; [done|].
  intros (Hlo & Hpos & Hc & Hcpos & Hrest). simpl.
  destruct ((end_ last =? start c) && (height last =? height c)) eqn:E.
  - apply IH. simpl. repeat split; auto; lia.
  - simpl. repeat split; auto. apply IH. simpl. repeat split; auto.
Qed.

Lemma mergeLoop_heightAt lo last rest p :
  wf_from lo (last :: rest) ->
  heightAt (mergeLoop last rest) p = heightAt (last :: rest) p.
Proof.
  revert lo last. induction rest as [|c rest IH]; intros lo last; [done|].
  intros (Hlo & Hpos & Hc & Hcpos & Hrest).
  cbn [mergeLoop].
  destruct ((end_ last =? start c) && (height last =? height c)) eqn:E.
  - zb. rewrite (IH lo); [|simpl; repeat split; auto; lia].
    cbn [heightAt start end_ height].
    destruct (start last <=? p) eqn:E1, (p <? end_ last) eqn:E2,
             (start c <=? p) eqn:E3, (p <? end_ c) eqn:E4;
      zb; simpl; try congruence; try lia.
  - cbn [heightAt]. rewrite (IH (end_ last)); [done|].
    simpl. repeat split; auto.
Qed.

Lemma mergeSegments_fused segs : fused (mergeSegments segs).
Proof. destruct segs; simpl; [done|apply mergeLoop_fused]. Qed.

Lemma mergeSegments_wf lo segs :
  wf_from lo segs -> wf_from lo (mergeSegments segs).
Proof. destruct segs; [done|apply mergeLoop_wf]. Qed.

Lemma mergeSegments_heightAt lo segs p :
  wf_from lo segs -> heightAt (mergeSegments segs) p = heightAt segs p.
Proof. destruct segs; [done|apply mergeLoop_heightAt]. Qed.

(** *** The loop of [addSegment] *)

Section AddLoop.
Variables (s e h : Z).
Hypothesis Hse : s < e.

Local Abbreviation new := (mkSeg s e h).
Local Abbreviation step := (addSegment_step s e h).
Local Abbreviation finish := (addSegment_finish s e h).

Local Ltac split_cmp :=
  repeat match goal with
  | |- context [?a <=? ?b] => destruct (a <=? b) eqn:?
  | |- context [?a <? ?b] => destruct (a <? b) eqn:?
  | |- context [?a >=? ?b] => destruct (a >=? b) eqn:?
  | |- context [?a >? ?b] => destruct (a >? b) eqn:?
  end; zb; simpl; try lia; try congruence.

(** Once the new segment is in place, the remaining segments are cut
    at [e] and copied. *)
Lemma loop_after segs : forall acc lo,
  wf_from lo segs -> s <= lo ->
  exists R,
    fold_left step segs (acc, true) = (acc ++ R, true) /\
    wf_from (Z.max e lo) R /\
    (forall p, e <= p -> heightAt R p = heightAt segs p).
Proof.
  induction segs as [|g rest IH]; intros acc lo Hwf Hlo.
  - exists []. rewrite app_nil_r. by repeat split.
  - destruct Hwf as (Hg & Hpos & Hrest).
    cbn [fold_left]. unfold addSegment_step at 2.
    destruct (end_ g <=? s) eqn:E1; zb; [lia|].
    destruct (start g >=? e) eqn:E2; zb.
    + destruct (IH (acc ++ [g]) (end_ g) Hrest ltac:(lia)) as (R & HR & Hw & Hh).
      exists (g :: R). rewrite HR, <- app_assoc. split; [done|]. split.
      * simpl. repeat split; try lia.
        eapply wf_from_weaken; [|exact Hw]. lia.
      * intros p Hp. simpl. rewrite (Hh p Hp). done.
    + destruct (start g <? s) eqn:E3; zb; [lia|].
      destruct (end_ g >? e) eqn:E4; zb.
      * destruct (IH (acc ++ [mkSeg e (end_ g) (height g)]) (end_ g) Hrest ltac:(lia))
          as (R & HR & Hw & Hh).
        exists (mkSeg e (end_ g) (height g) :: R).
        rewrite HR, <- app_assoc. split; [done|]. split.
        -- simpl. repeat split; try lia.
           eapply wf_from_weaken; [|exact Hw]. lia.
        -- intros p Hp. simpl. rewrite (Hh p Hp). split_cmp.
      * destruct (IH acc (end_ g) Hrest ltac:(lia)) as (R & HR & Hw & Hh).
        exists R. split; [done|]. split.
        -- eapply wf_from_weaken; [|exact Hw]. lia.
        -- intros p Hp. simpl. rewrite (Hh p Hp). split_cmp.
Qed.

(** Before the new segment is placed: segments to its left are copied,
    the first segment reaching beyond [s] triggers the insertion. *)
Lemma loop_before segs : forall acc lo,
  wf_from lo segs ->
  exists R,
    finish (fold_left step segs (acc, false)) = acc ++ R /\
    wf_from (Z.min lo s) R /\
    (forall p, heightAt R p =
               if (s <=? p) && (p <? e) then Some h else heightAt segs p).
Proof.
  induction segs as [|g rest IH]; intros acc lo Hwf.
  - exists [new]. split; [done|]. split.
    + simpl. repeat split; lia.
    + intros p. simpl. by destruct ((s <=? p) && (p <? e)).
  - destruct Hwf as (Hg & Hpos & Hrest).
    cbn [fold_left]. unfold addSegment_step at 2.
    destruct (end_ g <=? s) eqn:E1; zb.
    { destruct (IH (acc ++ [g]) (end_ g) Hrest) as (R & HR & Hw & Hh).
      exists (g :: R). rewrite HR, <- app_assoc. split; [done|]. split.
      - simpl. repeat split; try lia.
        eapply wf_from_weaken; [|exact Hw]. lia.
      - intros p. simpl. rewrite Hh. split_cmp. }
    assert (Hbelow : forall R p, wf_from (Z.max e (end_ g)) R -> p < s ->
                      heightAt R p = None /\ heightAt rest p = None).
    { intros R p Hw Hp. split.
      - eapply heightAt_below; [exact Hw|lia].
      - eapply heightAt_below; [exact Hrest|lia]. }
    destruct (start g >=? e) eqn:E2; zb.
    { destruct (loop_after rest ((acc ++ [new]) ++ [g]) (end_ g) Hrest ltac:(lia))
        as (R & HR & Hw & Hh).
      exists (new :: g :: R). unfold addSegment_finish. rewrite HR. simpl.
      rewrite <- !app_assoc. split; [done|]. split.
      - repeat split; try lia. eapply wf_from_weaken; [|exact Hw]. lia.
      - intros p.
        destruct (Z_lt_le_dec p s) as [Hp|Hp].
        + destruct (Hbelow R p Hw Hp) as [-> ->]. split_cmp.
        + destruct (Z_lt_le_dec p e) as [Hp'|Hp'].
          * split_cmp.
          * rewrite (Hh p Hp'). split_cmp. }
    destruct (start g <? s) eqn:E3, (end_ g >? e) eqn:E4; zb.
    + destruct (loop_after rest
                  (((acc ++ [mkSeg (start g) s (height g)]) ++ [new])
                     ++ [mkSeg e (end_ g) (height g)]) (end_ g) Hrest ltac:(lia))
        as (R & HR & Hw & Hh).
      exists (mkSeg (start g) s (height g) :: new
                :: mkSeg e (end_ g) (height g) :: R).
      unfold addSegment_finish. rewrite HR. simpl. rewrite <- !app_assoc.
      split; [done|]. split.
      * repeat split; try lia. eapply wf_from_weaken; [|exact Hw]. lia.
      * intros p.
        destruct (Z_lt_le_dec p s) as [Hp|Hp].
        -- destruct (Hbelow R p Hw Hp) as [-> ->]. split_cmp.
        -- destruct (Z_lt_le_dec p e) as [Hp'|Hp'].
          ++ split_cmp.
          ++ rewrite (Hh p Hp'). split_cmp.
    + destruct (loop_after rest
                  ((acc ++ [mkSeg (start g) s (height g)]) ++ [new])
                  (end_ g) Hrest ltac:(lia))
        as (R & HR & Hw & Hh).
      exists (mkSeg (start g) s (height g) :: new :: R).
      unfold addSegment_finish. rewrite HR. simpl. rewrite <- !app_assoc.
      split; [done|]. split.
      * repeat split; try lia. eapply wf_from_weaken; [|exact Hw]. lia.
      * intros p.
        destruct (Z_lt_le_dec p s) as [Hp|Hp].
        -- destruct (Hbelow R p Hw Hp) as [-> ->]. split_cmp.
        -- destruct (Z_lt_le_dec p e) as [Hp'|Hp'].
          ++ split_cmp.
          ++ rewrite (Hh p Hp'). split_cmp.
    + destruct (loop_after rest
                  ((acc ++ [new]) ++ [mkSeg e (end_ g) (height g)])
                  (end_ g) Hrest ltac:(lia))
        as (R & HR & Hw & Hh).
      exists (new :: mkSeg e (end_ g) (height g) :: R).
      unfold addSegment_finish. rewrite HR. simpl. rewrite <- !app_assoc.
      split; [done|]. split.
      * repeat split; try lia. eapply wf_from_weaken; [|exact Hw]. lia.
      * intros p.
        destruct (Z_lt_le_dec p s) as [Hp|Hp].
        -- destruct (Hbelow R p Hw Hp) as [-> ->]. split_cmp.
        -- destruct (Z_lt_le_dec p e) as [Hp'|Hp'].
          ++ split_cmp.
          ++ rewrite (Hh p Hp'). split_cmp.
    + destruct (loop_after rest (acc ++ [new]) (end_ g) Hrest ltac:(lia))
        as (R & HR & Hw & Hh).
      exists (new :: R).
      unfold addSegment_finish. rewrite HR. simpl. rewrite <- !app_assoc.
      split; [done|]. split.
      * repeat split; try lia. eapply wf_from_weaken; [|exact Hw]. lia.
      * intros p.
        destruct (Z_lt_le_dec p s) as [Hp|Hp].
        -- destruct (Hbelow R p Hw Hp) as [-> ->]. split_cmp.
        -- destruct (Z_lt_le_dec p e) as [Hp'|Hp'].
          ++ split_cmp.
          ++ rewrite (Hh p Hp'). split_cmp.
Qed.

End AddLoop.

(** *** [getHeight] on a unit interval reads the stored height *)

Lemma scanMax_after lo segs q acc :
  wf_from lo segs -> q <= lo -> scanMax segs q acc = acc.
Proof.
  destruct segs as [|g rest]; simpl; [done|].
  intros (? & ? & ?) ?. destruct (start g <? q) eqn:E; zb; [lia|done].
Qed.

Lemma getHeight_iter_cons g rest p :
  start g < p -> lower_bound rest p <> 0%nat ->
  getHeight_iter (g :: rest) p = S (getHeight_iter rest p).
Proof.
  intros Hg Hk. unfold getHeight_iter. cbn [lower_bound].
  destruct (start g <? p) eqn:E; zb; [|lia].
  destruct (lower_bound rest p) as [|k] eqn:Ek; [done|].
  change ((g :: rest) !! S (S k)) with (rest !! S k).
  change ((g :: rest) !! S k) with (rest !! k).
  destruct (match rest !! S k with Some s => start s >? p | None => true end);
    [|done].
  destruct (rest !! k) as [pv|]; [|done].
  by destruct (end_ pv <=? p).
Qed.

Lemma scan_point lo segs p :
  wf_from lo segs ->
  scanMax (drop (getHeight_iter segs p) segs) (p + 1) 0
  = Z.max 0 (default 0 (heightAt segs p)).
Proof.
  revert lo. induction segs as [|g rest IH]; intros lo Hwf; [done|].
  destruct Hwf as (Hlo & Hpos & Hrest).
  destruct (start g <? p) eqn:E.
  - zb. destruct (lower_bound rest p) as [|k] eqn:Ek.
    + (* the scan starts at [g] or right behind it *)
      unfold getHeight_iter. cbn [lower_bound]. rewrite Ek.
      destruct (start g <? p) eqn:E'; zb; [|lia].
      change ((g :: rest) !! 0%nat) with (Some g).
      change ((g :: rest) !! 1%nat) with (rest !! 0%nat).
      destruct rest as [|r rest'].
      * cbn. destruct (end_ g <=? p) eqn:E1; zb; cbn.
        -- destruct (start g <=? p) eqn:E2, (p <? end_ g) eqn:E3; zb; simpl; lia.
        -- destruct (start g <? p + 1) eqn:E2; zb; [|lia].
           destruct (start g <=? p) eqn:E3, (p <? end_ g) eqn:E4; zb; simpl; lia.
      * cbn [lower_bound] in Ek.
        destruct (start r <? p) eqn:Er; [done|]. zb.
        destruct Hrest as (Hr & Hrpos & Hrest').
        change ((r :: rest') !! 0%nat) with (Some r). cbn [heightAt].
        assert (Hg : (start g <=? p) && (p <? end_ g) = negb (end_ g <=? p)).
        { destruct (start g <=? p) eqn:?, (p <? end_ g) eqn:?,
            (end_ g <=? p) eqn:?; zb; simpl; try done; lia. }
        rewrite Hg.
        destruct (start r >? p) eqn:E1; zb.
        -- assert (heightAt rest' p = None) as Hn.
           { eapply heightAt_below; [exact Hrest'|lia]. }
           destruct (end_ g <=? p) eqn:E2; zb; cbn.
           ++ destruct (start r <? p + 1) eqn:E3; zb; [lia|].
              destruct (start r <=? p) eqn:E4; zb; [lia|]. simpl.
              rewrite Hn. simpl. lia.
           ++ destruct (start g <? p + 1) eqn:E3; zb; [|lia].
              destruct (start r <? p + 1) eqn:E4; zb; [lia|]. lia.
        -- assert ((end_ g <=? p) = true) as ->.
           { apply Z.leb_le. lia. }
           cbn. destruct (start r <? p + 1) eqn:E3; zb; [|lia].
           rewrite (scanMax_after (end_ r) rest'); [|done|lia].
           destruct (start r <=? p) eqn:E4, (p <? end_ r) eqn:E5; zb;
             simpl; lia.
    + rewrite getHeight_iter_cons; [|lia|by rewrite Ek].
      cbn [drop heightAt]. rewrite (IH _ Hrest).
      destruct rest as [|r rest']; [done|].
      cbn [lower_bound] in Ek. destruct (start r <? p) eqn:Er; [|done]. zb.
      destruct Hrest as (Hr & _).
      destruct (start g <=? p) eqn:E1, (p <? end_ g) eqn:E2; zb; simpl;
        try done; lia.
  - zb. unfold getHeight_iter. cbn [lower_bound].
    destruct (start g <? p) eqn:E'; zb; [lia|].
    cbn [drop scanMax heightAt].
    assert (heightAt rest p = None) as Hn.
    { eapply heightAt_below; [exact Hrest|lia]. }
    destruct (start g <? p + 1) eqn:E1; zb.
    + rewrite (scanMax_after (end_ g) rest); [|done|lia].
      destruct (start g <=? p) eqn:E2, (p <? end_ g) eqn:E3; zb; simpl; lia.
    + destruct (start g <=? p) eqn:E2; zb; [lia|]. simpl. rewrite Hn.
      simpl. lia.
Qed.

Lemma getHeight_point lo c p :
  wf_from lo (segments c) ->
  getHeight c p (p + 1) = Z.max 0 (default 0 (heightAt (segments c) p)).
Proof.
  intros Hwf. unfold getHeight.
  destruct (p >=? p + 1) eqn:E; zb; [lia|].
  destruct (segments c) as [|g rest] eqn:Es; [done|].
  by apply (scan_point lo).
Qed.

(** *** The contract of [addSegment] *)

Lemma addSegment_segments lo c s e h :
  wf_from lo (segments c) -> s < e ->
  wf_from (Z.min lo s) (segments (addSegment c s e h)) /\
  (forall p, heightAt (segments (addSegment c s e h)) p =
             if (s <=? p) && (p <? e) then Some h
             else heightAt (segments c) p) /\
  fused (segments (addSegment c s e h)).
Proof.
  intros Hwf Hse. unfold addSegment.
  destruct (s >=? e) eqn:E; zb; [lia|].
  destruct (segments c) as [|g rest] eqn:Es.
  - cbn [segments]. split; [|split].
    + simpl. lia.
    + intros p. simpl. by destruct ((s <=? p) && (p <? e)).
    + simpl. tauto.
  - destruct (loop_before s e h Hse (g :: rest) [] lo Hwf) as (R & HR & Hw & Hh).
    cbn [segments]. rewrite HR. cbn [app].
    rewrite (sort_by_start_sorted_id _ _ Hw). split; [|split].
    + by apply mergeSegments_wf.
    + intros p. rewrite (mergeSegments_heightAt _ _ _ Hw). apply Hh.
    + apply mergeSegments_fused.
Qed.

(** C3. On a contour whose segments are sorted and non-overlapping,
    [addSegment start end height] with [start < end] leaves a sorted,
    non-overlapping contour in which every point of [[start, end)] has
    exactly the new height (the old heights there are replaced, no
    maximum is taken), every point outside [[start, end)] keeps the
    height it had (so a segment that straddles [start] or [end] is cut
    there and its outer parts keep their height), and no two
    neighbouring segments touch with equal heights. *)
Theorem addSegment_replaces_splits_fuses (c : t) (s e h : Z) :
  wf (segments c) -> s < e ->
  wf (segments (addSegment c s e h)) /\
  (forall p, s <= p < e ->
     heightAt (segments (addSegment c s e h)) p = Some h) /\
  (forall p, ~ (s <= p < e) ->
     heightAt (segments (addSegment c s e h)) p = heightAt (segments c) p) /\
  fused (segments (addSegment c s e h)).
Proof.
  intros Hwf Hse. destruct (wf_wf_from _ Hwf) as [lo Hlo].
  destruct (addSegment_segments lo c s e h Hlo Hse) as (Hw & Hh & Hf).
  split; [by eapply wf_from_wf|]. split; [|split; [|done]].
  - intros p Hp. rewrite Hh.
    destruct (s <=? p) eqn:E1, (p <? e) eqn:E2; zb; simpl; [done|lia..].
  - intros p Hp. rewrite Hh.
    destruct (s <=? p) eqn:E1, (p <? e) eqn:E2; zb; simpl; [lia|done..].
Qed.

Lemma addSegment_replaces_splits_fuses_witness :
  wf (segments contour_0_10) /\ 3 < 6 /\
  segments (addSegment contour_0_10 3 6 8)
    = [mkSeg 0 3 5; mkSeg 3 6 8; mkSeg 6 10 5] /\
  (forall p, 3 <= p < 6 ->
     heightAt (segments (addSegment contour_0_10 3 6 8)) p = Some 8).
Proof.
  assert (H1 : wf (segments contour_0_10)) by (simpl; lia).
  assert (H2 : 3 < 6) by lia.
  split; [exact H1|]. split; [exact H2|]. split; [reflexivity|].
  exact (proj1 (proj2
           (addSegment_replaces_splits_fuses contour_0_10 3 6 8 H1 H2))).
Defined.

(** What a later query sees: over a unit interval the query returns the
    stored height, floored at the initial value 0 of its running
    maximum. *)
Corollary addSegment_getHeight (c : t) (s e h p : Z) :
  wf (segments c) -> s < e -> s <= p < e ->
  getHeight (addSegment c s e h) p (p + 1) = Z.max 0 h.
Proof.
  intros Hwf Hse Hp. destruct (wf_wf_from _ Hwf) as [lo Hlo].
  destruct (addSegment_segments lo c s e h Hlo Hse) as (Hw & Hh & _).
  rewrite (getHeight_point _ _ _ Hw), Hh.
  destruct (s <=? p) eqn:E1, (p <? e) eqn:E2; zb; simpl; [done|lia..].
Qed.

(** C8. [addSegment start end height] with [start >= end] returns at its
    first statement: the contour (segment vector, [maxCoordinate],
    [maxHeight]) is the one before the call, and so is the answer to every
    later [getHeight] query. *)
Theorem addSegment_degenerate_noop (c : t) (s e h : Z) :
  s >= e ->
  addSegment c s e h = c /\
  segments (addSegment c s e h) = segments c /\
  maxCoordinate (addSegment c s e h) = maxCoordinate c /\
  maxHeight (addSegment c s e h) = maxHeight c /\
  (forall a b, getHeight (addSegment c s e h) a b = getHeight c a b).
Proof.
  intros Hse. assert (addSegment c s e h = c) as ->; [|done].
  unfold addSegment. destruct (s >=? e) eqn:E; [done|]. zb. lia.
Qed.

Lemma addSegment_degenerate_noop_witness :
  7 >= 7 /\ addSegment contour_0_10 7 7 99 = contour_0_10.
Proof.
  assert (H : 7 >= 7) by lia.
  exact (conj H (proj1 (addSegment_degenerate_noop contour_0_10 7 7 99 H))).
Defined.

End ContourFacts.

Module StdMapFacts.

Lemma find_insert_eq {V : Type} (m : StdMap.t V) (k : string) (v : V) :
  StdMap.find (StdMap.insert k v m) k = Some v.
Proof.
  induction m as [|[k' v'] rest IH]; simpl.
  - by rewrite String.eqb_refl.
  - destruct (String.eqb k k') eqn:E; simpl.
    + by rewrite String.eqb_refl.
    + destruct (String.ltb k k'); simpl.
      * by rewrite String.eqb_refl.
      * by rewrite E.
Qed.

Lemma find_insert_ne {V : Type} (m : StdMap.t V) (k k' : string) (v : V) :
  k <> k' -> StdMap.find (StdMap.insert k v m) k' = StdMap.find m k'.
Proof.
  intros Hne.
  assert (Hkk : String.eqb k' k = false) by (apply String.eqb_neq; congruence).
  induction m as [|[k0 v0] rest IH]; simpl.
  - by rewrite Hkk.
  - destruct (String.eqb k k0) eqn:E; simpl.
    + apply String.eqb_eq in E. subst k0. by rewrite Hkk.
    + destruct (String.ltb k k0); simpl.
      * by rewrite Hkk.
      * by rewrite IH.
Qed.

End StdMapFacts.

Module HBStarTreeFacts.
Import HBStarTreeNode HBStarTree Examples.

Section WithASF.
Context {ASF : Type} `{ops : ASFBStarTree ASF}.

Implicit Types st s : HBStarTree.t ASF.

(** *** What packing leaves alone *)

Lemma sameTree_refl st : sameTree st st.
Proof. by repeat split. Qed.

Lemma sameTree_trans st1 st2 st3 :
  sameTree st1 st2 -> sameTree st2 st3 -> sameTree st1 st3.
Proof.
  unfold sameTree. intros H1 H2.
  destruct H1 as (?&?&?&?&?&?&?&?&?&?), H2 as (?&?&?&?&?&?&?&?&?&?).
  repeat split; congruence.
Qed.

Lemma packNode_sameTree st node n : sameTree st (packNode st node n).1.
Proof.
  unfold packNode, packModuleNode, packHierarchyNode.
  destruct (type n).
  - destruct (StdMap.find _ _); simpl; by repeat split.
  - destruct (getASFTree n) as [a|]; [|by repeat split].
    destruct (asfTrees st !! a) as [asfTree|]; [|by repeat split].
    destruct (asf_pack asfTree (modules st)) as [asfTree' mods1].
    destruct (islandBounds _ _) as [[[minX minY] symMaxX] symMaxY].
    simpl. by repeat split.
  - by repeat split.
Qed.

Lemma packSubtree_rec_sameTree fuel : forall st node,
  sameTree st (packSubtree_rec fuel st node).
Proof.
  induction fuel as [|fuel IH]; intros st node; simpl;
    [apply sameTree_refl|].
  destruct (nodes st !! node) as [n|]; [|apply sameTree_refl].
  pose proof (packNode_sameTree st node n) as Hn.
  destruct (packNode st node n) as [st1 goOn]. simpl in Hn.
  destruct goOn; [|done].
  eapply sameTree_trans; [exact Hn|].
  destruct (leftChild n) as [l|], (rightChild n) as [r|].
  - eapply sameTree_trans; [apply IH|apply IH].
  - apply IH.
  - apply IH.
  - apply sameTree_refl.
Qed.

Lemma packSubtree_sameTree st node : sameTree st (packSubtree st node).
Proof. apply packSubtree_rec_sameTree. Qed.

Lemma fold_packSubtree_sameTree (l : list nat) : forall st,
  sameTree st (fold_left packSubtree l st).
Proof.
  induction l as [|node l IH]; intros st; simpl; [apply sameTree_refl|].
  eapply sameTree_trans; [apply packSubtree_sameTree|apply IH].
Qed.

(** *** What the destruction of node objects leaves alone *)

Lemma release_step_nodes st id n :
  nodes (release_step st) !! id = Some n -> nodes st !! id = Some n.
Proof.
  unfold release_step. simpl. intros H.
  by apply map_lookup_filter_Some in H as [? _].
Qed.

Lemma iter_release_step_nodes (k : nat) st id n :
  nodes (Nat.iter k release_step st) !! id = Some n ->
  nodes st !! id = Some n.
Proof.
  induction k as [|k IH]; simpl; [done|].
  intros H. by apply IH, release_step_nodes.
Qed.

Lemma release_nodes st id n :
  nodes (release st) !! id = Some n -> nodes st !! id = Some n.
Proof. apply iter_release_step_nodes. Qed.



(** The first guard of [pack]: without a root it returns false and does
    nothing, marks or no marks. *)
Lemma pack_without_root st :
  root st = None -> pack st = (false, st).
Proof. unfold pack. by intros ->. Qed.

(** *** Parent chains *)

Lemma getParent_ext st st' (node : nat) :
  nodes st' = nodes st -> getParent st' node = getParent st node.
Proof. unfold getParent. by intros ->. Qed.

Lemma ancestor_ext st st' (k node : nat) :
  nodes st' = nodes st -> ancestor st' k node = ancestor st k node.
Proof.
  intros Hn. induction k as [|k IH]; simpl; [done|].
  rewrite IH. destruct (ancestor st k node); [|done].
  by apply getParent_ext.
Qed.

Lemma ancestor_S_front st (k c : nat) :
  ancestor st (S k) c
  = match getParent st c with Some p => ancestor st k p | None => None end.
Proof.
  induction k as [|k IH].
  - simpl. by destruct (getParent st c).
  - change (ancestor st (S (S k)) c)
      with (match ancestor st (S k) c with
            | Some a => getParent st a | None => None end).
    rewrite IH. by destruct (getParent st c).
Qed.

Lemma ancestor_add st (i d c : nat) :
  ancestor st (i + d) c
  = match ancestor st i c with Some a => ancestor st d a | None => None end.
Proof.
  induction d as [|d IH].
  - rewrite Nat.add_0_r. simpl. by destruct (ancestor st i c).
  - rewrite Nat.add_succ_r. simpl. rewrite IH.
    by destruct (ancestor st i c).
Qed.

Lemma ancestor_alive st (k c a : nat) :
  ancestor st (S k) c = Some a -> is_Some (nodes st !! a).
Proof.
  simpl. destruct (ancestor st k c) as [b|]; [|done].
  unfold getParent. destruct (nodes st !! b) as [nb|]; [|done].
  destruct (parent nb) as [p|]; [|done].
  destruct (nodes st !! p) eqn:E; [|done].
  intros [= <-]. by rewrite E.
Qed.

Lemma ancestor_prefix st (k i c x : nat) :
  ancestor st k c = Some x -> (i <= k)%nat -> is_Some (ancestor st i c).
Proof.
  intros Hk Hi. replace k with (i + (k - i))%nat in Hk by lia.
  rewrite ancestor_add in Hk. by destruct (ancestor st i c).
Qed.

(** Every ancestor is met within as many steps as there are live nodes:
    a longer parent chain passes twice through one node and repeats
    itself from there. *)
Lemma ancestor_within_size st (c : nat) : forall (k x : nat),
  ancestor st k c = Some x ->
  exists k', (k' <= size (nodes st))%nat /\ ancestor st k' c = Some x.
Proof.
  intros k. induction (lt_wf k) as [k _ IH]. intros x Hk.
  destruct (decide (k <= size (nodes st))%nat) as [|Hbig]; [by exists k|].
  set (N := size (nodes st)) in *.
  set (l1 := (fun i => default 0%nat (ancestor st (S i) c)) <$> seq 0 (S N)).
  set (l2 := (map_to_list (nodes st)).*1).
  assert (Hdef : forall i, (i <= N)%nat ->
            exists a, ancestor st (S i) c = Some a /\ l1 !! i = Some a).
  { intros i Hi.
    destruct (ancestor_prefix st k (S i) c x Hk ltac:(lia)) as [a Ha].
    exists a. split; [done|]. unfold l1. rewrite list_lookup_fmap.
    assert (seq 0 (S N) !! i = Some i) as ->.
    { apply lookup_seq. lia. }
    change (Some (default 0%nat (ancestor st (S i) c)) = Some a).
    by rewrite Ha. }
  assert (Hsub : l1 ⊆ l2).
  { intros a Ha. apply list_elem_of_lookup in Ha as [i Hi].
    assert (i <= N)%nat as HiN.
    { apply lookup_lt_Some in Hi. unfold l1 in Hi.
      rewrite length_fmap, length_seq in Hi. lia. }
    destruct (Hdef i HiN) as (a' & Ha' & Hl). rewrite Hi in Hl.
    injection Hl as <-.
    destruct (ancestor_alive _ _ _ _ Ha') as [na Hna].
    unfold l2. apply list_elem_of_fmap. exists (a, na). split; [done|].
    by apply elem_of_map_to_list. }
  assert (Hlen : (length l2 < length l1)%nat).
  { unfold l1, l2. rewrite !length_fmap, length_seq, length_map_to_list.
    fold N. lia. }
  destruct (list_pigeonhole l1 l2 Hsub Hlen) as (i1 & i2 & y & Hlt & H1 & H2).
  assert (i2 <= N)%nat as Hi2.
  { apply lookup_lt_Some in H2. unfold l1 in H2.
    rewrite length_fmap, length_seq in H2. lia. }
  destruct (Hdef i1 ltac:(lia)) as (a1 & Ha1 & Hl1).
  destruct (Hdef i2 Hi2) as (a2 & Ha2 & Hl2).
  assert (a1 = y) as -> by congruence. assert (a2 = y) as -> by congruence.
  assert (Hshort : ancestor st (S i1 + (k - S i2)) c = Some x).
  { rewrite ancestor_add, Ha1.
    replace k with (S i2 + (k - S i2))%nat in Hk by lia.
    by rewrite ancestor_add, Ha2 in Hk. }
  apply (IH (S i1 + (k - S i2))%nat); [lia|done].
Qed.

Lemma markLoop_None (fuel : nat) st (marked : gset nat) :
  markLoop fuel st None marked = marked.
Proof. by destruct fuel. Qed.

Lemma markLoop_elem (fuel : nat) st : forall (c : nat) (marked : gset nat) (x : nat),
  x ∈ markLoop fuel st (Some c) marked <->
  x ∈ marked \/ exists k, (k < fuel)%nat /\ ancestor st k c = Some x.
Proof.
  induction fuel as [|fuel IH]; intros c marked x.
  - simpl. split; [by left|]. intros [?|(k & ? & _)]; [done|lia].
  - cbn [markLoop]. destruct (getParent st c) as [p|] eqn:Hp.
    + rewrite IH. split.
      * intros [Hx|(k & Hk & Ha)].
        -- apply elem_of_union in Hx as [Hx|Hx]; [|by left].
           apply elem_of_singleton in Hx as ->.
           right. exists 0%nat. split; [lia|done].
        -- right. exists (S k). split; [lia|].
           by rewrite ancestor_S_front, Hp.
      * intros [Hx|(k & Hk & Ha)].
        -- left. apply elem_of_union. by right.
        -- destruct k as [|k].
           ++ injection Ha as <-. left. apply elem_of_union. left.
              by apply elem_of_singleton.
           ++ right. exists k. split; [lia|].
              by rewrite ancestor_S_front, Hp in Ha.
    + rewrite markLoop_None. split.
      * intros Hx. apply elem_of_union in Hx as [Hx|Hx]; [|by left].
        apply elem_of_singleton in Hx as ->.
        right. exists 0%nat. split; [lia|done].
      * intros [Hx|(k & Hk & Ha)]; [apply elem_of_union; by right|].
        destruct k as [|k].
        -- injection Ha as <-. apply elem_of_union. left.
           by apply elem_of_singleton.
        -- by rewrite ancestor_S_front, Hp in Ha.
Qed.

(** [markSubtreeForRepack] adds the node and every one of its ancestors
    to the marks, and takes no mark away. *)
Lemma markSubtreeForRepack_marks st (node : nat) :
  (forall k anc, ancestor st k node = Some anc ->
     anc ∈ modifiedSubtrees (markSubtreeForRepack st (Some node))) /\
  modifiedSubtrees st ⊆ modifiedSubtrees (markSubtreeForRepack st (Some node)) /\
  sameTree st (set_modifiedSubtrees (modifiedSubtrees st)
                 (markSubtreeForRepack st (Some node))).
Proof.
  unfold markSubtreeForRepack. cbn [modifiedSubtrees set_modifiedSubtrees].
  split; [|split].
  - intros k anc Hk.
    destruct (ancestor_within_size st node k anc Hk) as (k' & Hk' & Ha).
    apply markLoop_elem. right. exists k'. split; [lia|done].
  - intros x Hx. apply markLoop_elem. by left.
  - by repeat split.
Qed.

(** *** Parent chains that end *)

Lemma ancestor_None_add st (k d c : nat) :
  ancestor st k c = None -> ancestor st (k + d) c = None.
Proof. intros H. by rewrite ancestor_add, H. Qed.

(** A chain that ends has a last node, one without a parent. *)
Lemma ancestor_last st (c : nat) : forall k,
  ancestor st k c = None ->
  exists j last, (j < k)%nat /\ ancestor st j c = Some last /\
                 getParent st last = None.
Proof.
  induction k as [|k IH]; [done|]. simpl.
  destruct (ancestor st k c) as [a|] eqn:E.
  - intros Hp. exists k, a. split; [lia|done].
  - intros _. destruct (IH eq_refl) as (j & last & ? & ? & ?).
    exists j, last. split; [lia|done].
Qed.

Lemma parentChainEnds_within_size st (c : nat) :
  parentChainEnds st c -> ancestor st (S (size (nodes st))) c = None.
Proof.
  intros [k Hk].
  destruct (ancestor_last st c k Hk) as (j & last & _ & Hj & Hlast).
  destruct (ancestor_within_size st c j last Hj) as (k' & Hk' & Ha).
  assert (Hend : ancestor st (S k') c = None) by (simpl; by rewrite Ha).
  replace (S (size (nodes st)))
    with (S k' + (size (nodes st) - k'))%nat by lia.
  by apply ancestor_None_add.
Qed.

Lemma markLoopWithin_None (steps : nat) st (marked : gset nat) :
  markLoopWithin steps st None marked = Some marked.
Proof. by destruct steps. Qed.

Lemma markLoopWithin_ext (steps : nat) st st' :
  nodes st' = nodes st ->
  forall (cur : option nat) (marked : gset nat),
  markLoopWithin steps st' cur marked = markLoopWithin steps st cur marked.
Proof.
  intros Hn. induction steps as [|steps IH]; intros cur marked; [done|].
  destruct cur as [c|]; [|done]. cbn [markLoopWithin].
  by rewrite (getParent_ext st st' c Hn), IH.
Qed.

(** The counted loop stops within [steps] iterations exactly when the
    parent chain has ended by then. *)
Lemma markLoopWithin_ancestor (steps : nat) st :
  forall (c : nat) (marked : gset nat),
  is_Some (markLoopWithin steps st (Some c) marked) <->
  ancestor st steps c = None.
Proof.
  induction steps as [|steps IH]; intros c marked.
  - simpl. split; [by intros [? ?]|done].
  - cbn [markLoopWithin]. rewrite ancestor_S_front.
    destruct (getParent st c) as [p|]; [apply IH|].
    rewrite markLoopWithin_None. split; [done|by eexists].
Qed.

Lemma markLoopWithin_markLoop (steps : nat) st :
  forall (cur : option nat) (marked m' : gset nat),
  markLoopWithin steps st cur marked = Some m' ->
  forall fuel, (steps <= fuel)%nat -> markLoop fuel st cur marked = m'.
Proof.
  induction steps as [|steps IH]; intros cur marked m' H fuel Hf.
  - destruct cur as [c|]; [done|]. simpl in H. injection H as <-.
    apply markLoop_None.
  - destruct cur as [c|]; cycle 1.
    { rewrite markLoopWithin_None in H. injection H as <-.
      apply markLoop_None. }
    destruct fuel as [|fuel]; [lia|].
    cbn [markLoopWithin] in H. cbn [markLoop]. apply (IH _ _ _ H). lia.
Qed.

(** On a parent chain that ends, the loop of [markSubtreeForRepack]
    stops within the steps that the model gives it, with the marks
    that the model computes. *)
Lemma markLoop_stops st (node : nat) :
  parentChainEnds st node ->
  markLoopWithin (S (size (nodes st))) st (Some node) (modifiedSubtrees st)
  = Some (modifiedSubtrees (markSubtreeForRepack st (Some node))).
Proof.
  intros Hends. apply parentChainEnds_within_size in Hends.
  apply (markLoopWithin_ancestor _ _ _ (modifiedSubtrees st)) in Hends
    as [m' Hm].
  rewrite Hm. f_equal. symmetry.
  unfold markSubtreeForRepack. cbn [modifiedSubtrees set_modifiedSubtrees].
  by apply (markLoopWithin_markLoop _ _ _ _ _ Hm).
Qed.

(** On a parent chain that does not end, it never stops. *)
Lemma markLoop_never_stops st (node : nat) :
  ~ parentChainEnds st node ->
  forall steps marked, markLoopWithin steps st (Some node) marked = None.
Proof.
  intros Hn steps marked.
  destruct (markLoopWithin steps st (Some node) marked) as [m'|] eqn:E;
    [|done].
  exfalso. apply Hn. exists steps.
  apply (markLoopWithin_ancestor _ _ _ marked). by rewrite E.
Qed.

(** The marks after [markSubtreeForRepack]: the old ones, the node and
    its ancestors. *)
Lemma markSubtreeForRepack_exactly st (node x : nat) :
  x ∈ modifiedSubtrees (markSubtreeForRepack st (Some node)) <->
  x ∈ modifiedSubtrees st \/ exists k, ancestor st k node = Some x.
Proof.
  unfold markSubtreeForRepack. cbn [modifiedSubtrees set_modifiedSubtrees].
  rewrite markLoop_elem. split.
  - intros [?|(k & _ & Hk)]; [by left|right; by exists k].
  - intros [?|(k & Hk)]; [by left|]. right.
    destruct (ancestor_within_size st node k x Hk) as (k' & Hk' & Ha).
    exists k'. split; [lia|done].
Qed.



(** *** The order of the incremental repack *)






Lemma repackAffectedSubtrees_inOrder st :
  repackAffectedSubtrees st = repackInOrder (rootsToRepack st) st.
Proof. reflexivity. Qed.

(** *** The skylines during [packSubtree] *)







(** *** Subtrees that end *)












(** C10. For a registered module that belongs to a symmetry group whose
    hierarchy node and ASF-B*-tree exist, on a tree in which the parent
    chain of the hierarchy node ends, [rotateModule] delegates to the
    ASF-B*-tree and then marks the hierarchy node and all of its
    ancestors, whatever the delegated call returned: the marking loop
    stops, and afterwards [modifiedSubtrees] holds what it held before,
    the hierarchy node and its ancestors, and nothing else. Only after
    that does [rotateModule] look at the result, to decide whether to
    repack. When the delegated call returns false, or the tree is not
    packed, [rotateModule] returns the result of the delegated call and
    hands back the marked state. After a delegated call that returned
    false the set has changed, unless the hierarchy node and all of its
    ancestors were marked before. *)
Theorem rotateModule_marks_whatever_the_result
    st (moduleName : string) (module : Module_.t) (group : SymmetryGroup.t)
    (hierarchyNode : nat) (hn : HBStarTreeNode.t) (a : nat) (asfTree : ASF) :
  StdMap.find (modules st) moduleName = Some module ->
  groupOf st moduleName = Some group ->
  StdMap.find (symmetryGroupNodes st) (SymmetryGroup.name group)
    = Some hierarchyNode ->
  nodes st !! hierarchyNode = Some hn ->
  HBStarTreeNode.getASFTree hn = Some a ->
  asfTrees st !! a = Some asfTree ->
  parentChainEnds st hierarchyNode ->
  let delegated := asf_rotateModule asfTree moduleName (modules st) in
  let success := delegated.1.1 in
  let delegatedState :=
    set_modules delegated.2
      (set_asfTrees (<[a := delegated.1.2]> (asfTrees st)) st) in
  let marked := markSubtreeForRepack delegatedState (Some hierarchyNode) in
  markLoopWithin (S (size (nodes st))) delegatedState (Some hierarchyNode)
                 (modifiedSubtrees st)
    = Some (modifiedSubtrees marked) /\
  (forall x, x ∈ modifiedSubtrees marked <->
             x ∈ modifiedSubtrees st \/
             exists k, ancestor st k hierarchyNode = Some x) /\
  (isPacked st && success = false ->
     rotateModule st moduleName = (success, marked)) /\
  (isPacked st && success = true -> repackEnds marked ->
     rotateModule st moduleName = (true, repackAffectedSubtrees marked)) /\
  (success = false ->
     rotateModule st moduleName = (false, marked) /\
     (modifiedSubtrees (rotateModule st moduleName).2 = modifiedSubtrees st
      <-> forall k x, ancestor st k hierarchyNode = Some x ->
                      x ∈ modifiedSubtrees st)).
Proof.
  intros Hmod Hgroup Hnode Hhn Hasf Htree Hends delegated success st1 marked.
  assert (Hanc : forall k, ancestor st1 k hierarchyNode
                           = ancestor st k hierarchyNode)
    by (intros k; by apply ancestor_ext).
  assert (Hends1 : parentChainEnds st1 hierarchyNode).
  { destruct Hends as [k Hk]. exists k. by rewrite Hanc. }
  assert (Hexact : forall x, x ∈ modifiedSubtrees marked <->
            x ∈ modifiedSubtrees st \/
            exists k, ancestor st k hierarchyNode = Some x).
  { intros x. unfold marked. rewrite markSubtreeForRepack_exactly.
    split; (intros [?|(k & Hk)]; [by left|right; exists k]);
      [by rewrite <- Hanc|by rewrite Hanc]. }
  assert (Hrot : rotateModule st moduleName
                 = (success,
                    if isPacked st && success
                    then repackAffectedSubtrees marked else marked)).
  { unfold rotateModule. rewrite Hmod, Hgroup, Hnode, Hhn, Hasf, Htree.
    subst success marked st1 delegated.
    destruct (asf_rotateModule asfTree moduleName (modules st))
      as [[ok asfTree'] mods']. reflexivity. }
  split; [exact (markLoop_stops st1 hierarchyNode Hends1)|].
  split; [exact Hexact|].
  split; [intros Hb; by rewrite Hrot, Hb|].
  split.
  { intros Hb _. rewrite Hrot, Hb.
    apply andb_true_iff in Hb as [_ ->]. done. }
  intros Hfail. rewrite Hrot, Hfail, andb_false_r.
  split; [done|]. cbn [snd]. split.
  - intros Heq k x Hk. rewrite <- Heq. apply Hexact. right. by exists k.
  - intros Hall. apply set_eq. intros x. rewrite Hexact.
    split; [|by left]. intros [?|(k & Hk)]; [done|by apply (Hall k)].
Qed.

(** *** The coordinates that [packSubtree] assigns *)

Lemma isLeftChild_ext st st' (node : nat) :
  nodes st' = nodes st -> isLeftChild st' node = isLeftChild st node.
Proof.
  intros Hn. unfold isLeftChild, getLeftChild.
  rewrite (getParent_ext st st' node Hn). by rewrite Hn.
Qed.

(** [int] arithmetic is exact on values that fit. *)
Lemma toInt_id (z : Z) : INT_MIN <= z <= INT_MAX -> toInt z = z.
Proof.
  unfold toInt, INT_MIN, INT_MAX. intros H.
  rewrite Z.mod_small by lia. lia.
Qed.

Lemma toInt_range (z : Z) : INT_MIN <= toInt z <= INT_MAX.
Proof.
  unfold toInt, INT_MIN, INT_MAX.
  pose proof (Z.mod_pos_bound (z - -2147483648) (2 ^ 32) ltac:(lia)). lia.
Qed.

(** The x-coordinate by position and kind of parent, in any state [s]
    that has the node objects of [st] (packing changes modules,
    ASF-B*-trees and skylines, never node objects). *)
Lemma placeX_rules st s (node : nat) :
  nodes s = nodes st ->
  (getParent st node = None -> placeX s node = 0) /\
  (forall p parentNode,
     getParent st node = Some p -> nodes st !! p = Some parentNode ->
     match type parentNode with
     | MODULE =>
         forall parentModule,
           StdMap.find (modules s) (name parentNode) = Some parentModule ->
           placeX s node =
             if isLeftChild st node
             then toInt (Module_.x parentModule + Module_.width parentModule)
             else Module_.x parentModule
     | HIERARCHY =>
         if isLeftChild st node then
           forall a tree,
             asfTree parentNode = Some a -> asfTrees s !! a = Some tree ->
             placeX s node = asf_getSymmetryAxisPosition tree
         else placeX s node = 0
     | CONTOUR =>
         placeX s node =
           if isLeftChild st node then contourX2 parentNode
           else contourX1 parentNode
     end).
Proof.
  intros Hn. unfold placeX.
  rewrite (getParent_ext st s node Hn), (isLeftChild_ext st s node Hn), Hn.
  split; [by intros ->|].
  intros p parentNode -> ->.
  unfold HBStarTreeNode.getModuleName, HBStarTreeNode.getASFTree,
    HBStarTreeNode.getContour.
  destruct (type parentNode) eqn:Ety.
  - intros parentModule ->. by destruct (isLeftChild st node).
  - destruct (isLeftChild st node); [|done]. by intros a tree -> ->.
  - by destruct (isLeftChild st node).
Qed.

(** The bounding rectangle that the loop over the island's modules
    computes: it contains every module of the island that is
    registered, and each of its four sides is the start value of the
    loop or is touched by a module. *)
Lemma islandBounds_fold (mods : Modules) (names : list string) :
  forall acc : Z * Z * Z * Z,
  let step := fun '(minX, minY, symMaxX, symMaxY) moduleName =>
       match StdMap.find mods moduleName with
       | Some m =>
           (Z.min minX (Module_.x m), Z.min minY (Module_.y m),
            Z.max symMaxX (toInt (Module_.x m + Module_.width m)),
            Z.max symMaxY (toInt (Module_.y m + Module_.height m)))
       | None => (minX, minY, symMaxX, symMaxY)
       end in
  let r := fold_left step names acc in
  (r.1.1.1 <= acc.1.1.1 /\ r.1.1.2 <= acc.1.1.2 /\
   acc.1.2 <= r.1.2 /\ acc.2 <= r.2) /\
  (forall k m, k ∈ names -> StdMap.find mods k = Some m ->
     r.1.1.1 <= Module_.x m /\ r.1.1.2 <= Module_.y m /\
     toInt (Module_.x m + Module_.width m) <= r.1.2 /\
     toInt (Module_.y m + Module_.height m) <= r.2) /\
  (r.1.1.1 = acc.1.1.1 \/
   exists k m, k ∈ names /\ StdMap.find mods k = Some m /\
               Module_.x m = r.1.1.1) /\
  (r.1.1.2 = acc.1.1.2 \/
   exists k m, k ∈ names /\ StdMap.find mods k = Some m /\
               Module_.y m = r.1.1.2) /\
  (r.1.2 = acc.1.2 \/
   exists k m, k ∈ names /\ StdMap.find mods k = Some m /\
               toInt (Module_.x m + Module_.width m) = r.1.2) /\
  (r.2 = acc.2 \/
   exists k m, k ∈ names /\ StdMap.find mods k = Some m /\
               toInt (Module_.y m + Module_.height m) = r.2).
Proof.
  induction names as [|k0 rest IH]; intros acc step r.
  - subst r. simpl. split; [lia|]. split.
    + intros k m Hk. by apply elem_of_nil in Hk.
    + repeat split; by left.
  - subst r. cbn [fold_left].
    specialize (IH (step acc k0)). cbv zeta in IH. fold step in IH.
    set (r := fold_left step rest (step acc k0)) in *.
    destruct IH as (Hmono & Hall & H1 & H2 & H3 & H4).
    assert (Hstep :
      match StdMap.find mods k0 with
      | Some m =>
          step acc k0
          = (Z.min acc.1.1.1 (Module_.x m), Z.min acc.1.1.2 (Module_.y m),
             Z.max acc.1.2 (toInt (Module_.x m + Module_.width m)),
             Z.max acc.2 (toInt (Module_.y m + Module_.height m)))
      | None => step acc k0 = acc
      end).
    { destruct acc as [[[a b] c] d]. unfold step.
      by destruct (StdMap.find mods k0). }
    assert (Hhere : forall k m, k ∈ rest -> StdMap.find mods k = Some m ->
              exists k' m', k' ∈ k0 :: rest /\
                StdMap.find mods k' = Some m' /\ m' = m).
    { intros k m Hk Hm. exists k, m. split; [|done].
      apply elem_of_cons. by right. }
    assert (Hlift : forall (P : Module_.t -> Prop),
              (exists k m, k ∈ rest /\ StdMap.find mods k = Some m /\ P m) ->
              exists k m, k ∈ k0 :: rest /\
                StdMap.find mods k = Some m /\ P m).
    { intros P (k & m & Hk & Hm & HP). exists k, m.
      split; [apply elem_of_cons; by right|done]. }
    destruct (StdMap.find mods k0) as [m0|] eqn:E0.
    + rewrite Hstep in Hmono, H1, H2, H3, H4. cbn [fst snd] in *.
      assert (Hin0 : k0 ∈ k0 :: rest) by (apply elem_of_cons; by left).
      split; [lia|]. split.
      * intros k m Hk Hm. apply elem_of_cons in Hk as [->|Hk].
        -- rewrite E0 in Hm. injection Hm as <-. lia.
        -- by apply (Hall k).
      * split; [|split; [|split]].
        -- destruct H1 as [H1|H1]; [|right; by apply Hlift].
           destruct (Z.min_spec acc.1.1.1 (Module_.x m0)) as [[_ Hm]|[_ Hm]];
             [left; lia|right]. exists k0, m0. repeat split; try done. lia.
        -- destruct H2 as [H2|H2]; [|right; by apply Hlift].
           destruct (Z.min_spec acc.1.1.2 (Module_.y m0)) as [[_ Hm]|[_ Hm]];
             [left; lia|right]. exists k0, m0. repeat split; try done. lia.
        -- destruct H3 as [H3|H3]; [|right; by apply Hlift].
           destruct (Z.max_spec acc.1.2
                       (toInt (Module_.x m0 + Module_.width m0)))
             as [[_ Hm]|[_ Hm]]; [right|left; lia].
           exists k0, m0. repeat split; try done. lia.
        -- destruct H4 as [H4|H4]; [|right; by apply Hlift].
           destruct (Z.max_spec acc.2
                       (toInt (Module_.y m0 + Module_.height m0)))
             as [[_ Hm]|[_ Hm]]; [right|left; lia].
           exists k0, m0. repeat split; try done. lia.
    + rewrite Hstep in Hmono, H1, H2, H3, H4.
      split; [done|]. split.
      * intros k m Hk Hm. apply elem_of_cons in Hk as [->|Hk];
          [congruence|by apply (Hall k)].
      * split; [|split; [|split]].
        -- destruct H1 as [H1|H1]; [by left|right; by apply Hlift].
        -- destruct H2 as [H2|H2]; [by left|right; by apply Hlift].
        -- destruct H3 as [H3|H3]; [by left|right; by apply Hlift].
        -- destruct H4 as [H4|H4]; [by left|right; by apply Hlift].
Qed.

(** The shift loop moves every registered module of the island once,
    by [(deltaX, deltaY)] in [int] arithmetic, and no other module.
    The names are the keys of the [std::map] that [getModules] returns,
    so no name occurs twice. *)
Lemma shiftModules_find (names : list string) (deltaX deltaY : Z) :
  forall (mods : Modules) (k : string),
  NoDup names ->
  (k ∈ names ->
   StdMap.find (shiftModules mods names deltaX deltaY) k
   = (fun m => Module_.setPosition m (toInt (Module_.x m + deltaX))
                                     (toInt (Module_.y m + deltaY)))
       <$> StdMap.find mods k) /\
  (k ∉ names ->
   StdMap.find (shiftModules mods names deltaX deltaY) k
   = StdMap.find mods k).
Proof.
  induction names as [|k0 rest IH]; intros mods k Hnd.
  - split; [intros H; by apply elem_of_nil in H|done].
  - apply NoDup_cons in Hnd as [Hk0 Hnd].
    unfold shiftModules. cbn [fold_left].
    set (mods1 := match StdMap.find mods k0 with
                  | Some m => _ | None => mods end).
    fold (shiftModules mods1 rest deltaX deltaY).
    destruct (IH mods1 k Hnd) as [IHin IHout].
    assert (Hother : k <> k0 -> StdMap.find mods1 k = StdMap.find mods k).
    { intros Hne. subst mods1. destruct (StdMap.find mods k0); [|done].
      apply StdMapFacts.find_insert_ne. congruence. }
    split.
    + intros Hk. apply elem_of_cons in Hk as [->|Hk].
      * rewrite (IHout Hk0). subst mods1.
        destruct (StdMap.find mods k0) as [m|] eqn:E; [|by rewrite E].
        by rewrite StdMapFacts.find_insert_eq.
      * rewrite (IHin Hk), Hother; [done|]. by intros ->.
    + intros Hk. apply not_elem_of_cons in Hk as [Hne Hk].
      by rewrite (IHout Hk), Hother.
Qed.

(** C1. The coordinates that [packSubtree] gives to a node [N] of the
    tree; [packNode] is the [switch] that [packSubtree] runs at [N] before
    it goes on to the children. All sums and differences are [int]
    arithmetic.
    - x: 0 when [N] has no live parent (the test is on the parent
      pointer, not on [root]). When [N] is the left child of its parent:
      the parent module's x plus its width for a module parent, the axis
      position of the parent's ASF-B*-tree for a hierarchy parent, and
      [x2] of the segment for a contour parent. When [N] is not the left
      child (in a tree: when it is the right child): the parent module's
      x, 0, and [x1] of the segment.
    - A module node: the module is moved to [(x, y)] with
      [y = horizontalContour.getHeight(x, x + w)], [w] the module's width,
      and the horizontal skyline receives [[x, x + w)] at height [y + h];
      when [x + w] and [y + h] fit in an [int] these are the exact sums.
    - A hierarchy node: after the nested pack of the island, the
      rectangle [minX, minY, symMaxX, symMaxY] contains every registered
      module of the island and each side is touched by one of them (or
      is the start value [INT_MAX] or 0); with [w = symMaxX - minX] and
      [h = symMaxY - minY], [y = horizontalContour.getHeight(x, x + w)],
      every registered module of the island is moved by
      [(x - minX, y - minY)] and no other module is, and the horizontal
      skyline receives [[x, x + w)] at height [y + h]. *)
Theorem packSubtree_places_node st (node : nat) (n : HBStarTreeNode.t) :
  nodes st !! node = Some n ->
  (* [packSubtree] at [N]: the switch, then the left and the right child *)
  (forall fuel,
     packSubtree_rec (S fuel) st node =
       if (packNode st node n).2 then
         let st2 :=
           match leftChild n with
           | Some l => packSubtree_rec fuel (packNode st node n).1 l
           | None => (packNode st node n).1
           end in
         match rightChild n with
         | Some r => packSubtree_rec fuel st2 r
         | None => st2
         end
       else (packNode st node n).1) /\
  (* the x-coordinate *)
  (forall s, nodes s = nodes st ->
     (getParent st node = None -> placeX s node = 0) /\
     (forall p parentNode,
        getParent st node = Some p -> nodes st !! p = Some parentNode ->
        match type parentNode with
        | MODULE =>
            forall parentModule,
              StdMap.find (modules s) (name parentNode) = Some parentModule ->
              placeX s node =
                if isLeftChild st node
                then toInt (Module_.x parentModule
                            + Module_.width parentModule)
                else Module_.x parentModule
        | HIERARCHY =>
            if isLeftChild st node then
              forall a tree,
                asfTree parentNode = Some a -> asfTrees s !! a = Some tree ->
                placeX s node = asf_getSymmetryAxisPosition tree
            else placeX s node = 0
        | CONTOUR =>
            placeX s node =
              if isLeftChild st node then contourX2 parentNode
              else contourX1 parentNode
        end)) /\
  (* a module node *)
  (forall module,
     type n = MODULE ->
     StdMap.find (modules st) (name n) = Some module ->
     let x := placeX st node in
     let xw := toInt (x + Module_.width module) in
     let y := Contour.getHeight (horizontalContour st) x xw in
     let yh := toInt (y + Module_.height module) in
     let st' := (packNode st node n).1 in
     StdMap.find (modules st') (name n)
       = Some (Module_.setPosition module x y) /\
     horizontalContour st'
       = Contour.addSegment (horizontalContour st) x xw yh /\
     (INT_MIN <= x + Module_.width module <= INT_MAX ->
      xw = x + Module_.width module) /\
     (INT_MIN <= y + Module_.height module <= INT_MAX ->
      yh = y + Module_.height module)) /\
  (* a hierarchy node *)
  (forall a tree,
     type n = HIERARCHY ->
     asfTree n = Some a ->
     asfTrees st !! a = Some tree ->
     let packed := asf_pack tree (modules st) in
     let st1 :=
       set_modules packed.2
         (set_asfTrees (<[a := packed.1]> (asfTrees st)) st) in
     let names := asf_getModules packed.1 in
     let bounds := islandBounds packed.2 names in
     let minX := bounds.1.1.1 in
     let minY := bounds.1.1.2 in
     let symMaxX := bounds.1.2 in
     let symMaxY := bounds.2 in
     let w := toInt (symMaxX - minX) in
     let h := toInt (symMaxY - minY) in
     let x := placeX st1 node in
     let xw := toInt (x + w) in
     let y := Contour.getHeight (horizontalContour st) x xw in
     let st' := (packNode st node n).1 in
     (* the bounding rectangle of the island *)
     (forall k m, k ∈ names -> StdMap.find packed.2 k = Some m ->
        minX <= Module_.x m /\ minY <= Module_.y m /\
        toInt (Module_.x m + Module_.width m) <= symMaxX /\
        toInt (Module_.y m + Module_.height m) <= symMaxY) /\
     (minX = INT_MAX \/
      exists k m, k ∈ names /\ StdMap.find packed.2 k = Some m /\
                  Module_.x m = minX) /\
     (minY = INT_MAX \/
      exists k m, k ∈ names /\ StdMap.find packed.2 k = Some m /\
                  Module_.y m = minY) /\
     (symMaxX = 0 \/
      exists k m, k ∈ names /\ StdMap.find packed.2 k = Some m /\
                  toInt (Module_.x m + Module_.width m) = symMaxX) /\
     (symMaxY = 0 \/
      exists k m, k ∈ names /\ StdMap.find packed.2 k = Some m /\
                  toInt (Module_.y m + Module_.height m) = symMaxY) /\
     (* the shift of the island's modules *)
     (NoDup names ->
      forall k,
        (k ∈ names ->
         StdMap.find (modules st') k
         = (fun m =>
              Module_.setPosition m
                (toInt (Module_.x m + toInt (x - minX)))
                (toInt (Module_.y m + toInt (y - minY))))
             <$> StdMap.find packed.2 k) /\
        (k ∉ names ->
         StdMap.find (modules st') k = StdMap.find packed.2 k)) /\
     (* the skyline *)
     horizontalContour st'
       = Contour.addSegment (horizontalContour st) x xw (toInt (y + h)) /\
     (INT_MIN <= symMaxX - minX <= INT_MAX -> w = symMaxX - minX) /\
     (INT_MIN <= x + w <= INT_MAX -> xw = x + w) /\
     (INT_MIN <= y + h <= INT_MAX -> toInt (y + h) = y + h)).
Proof.
  intros Hnode. split; [|split; [|split]].
  - intros fuel. cbn [packSubtree_rec]. rewrite Hnode.
    by destruct (packNode st node n) as [st1 []].
  - intros s Hs. by apply placeX_rules.
  - intros module Hty Hmod x xw y yh st'. subst st'.
    unfold packNode, packModuleNode, HBStarTreeNode.getModuleName.
    rewrite Hty, Hmod. cbn.
    split; [apply StdMapFacts.find_insert_eq|]. split; [done|].
    split; apply toInt_id.
  - intros a tree Hty Ha Htree packed st1 names bounds minX minY symMaxX
      symMaxY w h x xw y st'.
    assert (Hst' :
      modules st'
        = shiftModules packed.2 names (toInt (x - minX)) (toInt (y - minY)) /\
      horizontalContour st'
        = Contour.addSegment (horizontalContour st) x xw (toInt (y + h))).
    { subst st'. unfold packNode, packHierarchyNode,
        HBStarTreeNode.getASFTree.
      rewrite Hty, Ha, Htree.
      subst y xw x h w symMaxY symMaxX minY minX bounds names st1 packed.
      destruct (asf_pack tree (modules st)) as [asfTree' mods1].
      cbn [fst snd].
      destruct (islandBounds mods1 (asf_getModules asfTree'))
        as [[[minX minY] symMaxX] symMaxY].
      by cbn. }
    destruct Hst' as [Hmods Hsky].
    destruct (islandBounds_fold packed.2 names (INT_MAX, INT_MAX, 0, 0))
      as (_ & Hall & H1 & H2 & H3 & H4).
    fold (islandBounds packed.2 names) in Hall, H1, H2, H3, H4.
    fold bounds in Hall, H1, H2, H3, H4.
    split; [exact Hall|]. split; [exact H1|]. split; [exact H2|].
    split; [exact H3|]. split; [exact H4|].
    split; [|split; [exact Hsky|]].
    + intros Hnd k. rewrite Hmods. by apply shiftModules_find.
    + split; [|split]; apply toInt_id.
Qed.

(** *** The special case of [swapNodes] *)

Lemma getLeftChild_setLeftChild st (a b : nat) (c : option nat) :
  getLeftChild (setLeftChild st a c) b
  = if decide (a = b)
    then match nodes st !! b with Some _ => c | None => None end
    else getLeftChild st b.
Proof.
  unfold getLeftChild, setLeftChild. cbn [nodes set_nodes].
  rewrite lookup_alter. case_decide; [|done].
  subst. by destruct (nodes st !! b).
Qed.

Lemma getLeftChild_setRightChild st (a b : nat) (c : option nat) :
  getLeftChild (setRightChild st a c) b = getLeftChild st b.
Proof.
  unfold getLeftChild, setRightChild. cbn [nodes set_nodes].
  rewrite lookup_alter. case_decide; [|done].
  subst. by destruct (nodes st !! b).
Qed.

Lemma getRightChild_setRightChild st (a b : nat) (c : option nat) :
  getRightChild (setRightChild st a c) b
  = if decide (a = b)
    then match nodes st !! b with Some _ => c | None => None end
    else getRightChild st b.
Proof.
  unfold getRightChild, setRightChild. cbn [nodes set_nodes].
  rewrite lookup_alter. case_decide; [|done].
  subst. by destruct (nodes st !! b).
Qed.

Lemma getRightChild_setLeftChild st (a b : nat) (c : option nat) :
  getRightChild (setLeftChild st a c) b = getRightChild st b.
Proof.
  unfold getRightChild, setLeftChild. cbn [nodes set_nodes].
  rewrite lookup_alter. case_decide; [|done].
  subst. by destruct (nodes st !! b).
Qed.

Lemma getRightChild_setParent st (a b : nat) (c : option nat) :
  getRightChild (setParent st a c) b = getRightChild st b.
Proof.
  unfold getRightChild, setParent. cbn [nodes set_nodes].
  rewrite lookup_alter. case_decide; [|done].
  subst. by destruct (nodes st !! b).
Qed.

(** The block always attaches [node] as the right child of [child]: the
    test that chooses the slot reads the left slot of [node] after that
    slot has been cleared. *)
Lemma swapWithChild_attaches_right st (node child : nat)
    (parentOfNode : option nat) (nodeWasLeft : bool) (c : HBStarTreeNode.t) :
  nodes st !! child = Some c ->
  node <> child -> parentOfNode <> Some child ->
  getRightChild (swapWithChild st node child parentOfNode nodeWasLeft) child
    = Some node.
Proof.
  intros Hc Hne Hp. unfold swapWithChild, attachToParent, detachFromParent.
  set (st1 := if bool_decide (getLeftChild st node = Some child)
              then setLeftChild st node None else setRightChild st node None).
  assert (H1 : getLeftChild st1 node <> Some child).
  { subst st1. case_bool_decide as Hl.
    - rewrite getLeftChild_setLeftChild. rewrite decide_True by done.
      by destruct (nodes st !! node).
    - by rewrite getLeftChild_setRightChild. }
  assert (Hn1 : nodes st1 !! child = Some c).
  { subst st1.
    case_bool_decide; cbn [nodes set_nodes setLeftChild setRightChild];
      by rewrite lookup_alter_ne. }
  set (st2 := match parentOfNode with
              | Some p => if nodeWasLeft then setLeftChild st1 p None
                          else setRightChild st1 p None
              | None => st1 end).
  assert (H2 : getLeftChild st2 node <> Some child).
  { subst st2. destruct parentOfNode as [p|]; [|done].
    destruct nodeWasLeft.
    - rewrite getLeftChild_setLeftChild. case_decide; [|done].
      by destruct (nodes st1 !! node).
    - by rewrite getLeftChild_setRightChild. }
  assert (Hn2 : nodes st2 !! child = Some c).
  { subst st2. destruct parentOfNode as [p|]; [|done].
    assert (p <> child) by congruence.
    destruct nodeWasLeft; cbn [nodes set_nodes setLeftChild setRightChild];
      by rewrite lookup_alter_ne. }
  rewrite bool_decide_false by done.
  destruct parentOfNode as [p|].
  - assert (p <> child) by congruence.
    rewrite getRightChild_setParent.
    destruct nodeWasLeft.
    + rewrite getRightChild_setLeftChild.
      rewrite getRightChild_setParent, getRightChild_setRightChild.
      rewrite decide_True by done. by rewrite Hn2.
    + rewrite getRightChild_setRightChild, decide_False by done.
      rewrite getRightChild_setParent, getRightChild_setRightChild.
      rewrite decide_True by done. by rewrite Hn2.
  - rewrite getRightChild_setParent.
    change (getRightChild (set_root (Some child) ?s) child)
      with (getRightChild s child).
    rewrite getRightChild_setParent, getRightChild_setRightChild.
    rewrite decide_True by done. by rewrite Hn2.
Qed.

Lemma swapWithChild_nodeMap st (node child : nat)
    (parentOfNode : option nat) (nodeWasLeft : bool) :
  nodeMap (swapWithChild st node child parentOfNode nodeWasLeft) = nodeMap st.
Proof.
  unfold swapWithChild, attachToParent, detachFromParent.
  repeat case_bool_decide; destruct parentOfNode, nodeWasLeft; reflexivity.
Qed.

(** A registered node is never destroyed. *)
Lemma held_registered st (nodeName : string) (node : nat) :
  nodeMap st !! nodeName = Some node -> held st node = true.
Proof.
  intros Hreg. unfold held.
  assert (existsb (fun kv : string * nat => Nat.eqb node kv.2)
                  (map_to_list (nodeMap st)) = true) as ->.
  { apply existsb_exists. exists (nodeName, node). split.
    - apply list_elem_of_In. by apply elem_of_map_to_list.
    - apply Nat.eqb_refl. }
  by rewrite !orb_true_r.
Qed.

Lemma iter_release_step_registered (k : nat) st (nodeName : string)
    (node : nat) (n : HBStarTreeNode.t) :
  nodeMap st !! nodeName = Some node -> nodes st !! node = Some n ->
  nodeMap (Nat.iter k release_step st) = nodeMap st /\
  nodes (Nat.iter k release_step st) !! node = Some n.
Proof.
  intros Hreg Hn. induction k as [|k [IH1 IH2]]; [done|].
  rewrite Nat.iter_succ.
  set (s := Nat.iter k release_step st) in *.
  split; [exact IH1|].
  unfold release_step. cbn [nodes set_nodes].
  apply map_lookup_filter_Some. split; [exact IH2|].
  cbn [fst]. apply (held_registered _ nodeName). by rewrite IH1.
Qed.

Lemma release_registered st (nodeName : string) (node : nat)
    (n : HBStarTreeNode.t) :
  nodeMap st !! nodeName = Some node -> nodes st !! node = Some n ->
  nodeMap (release st) = nodeMap st /\ nodes (release st) !! node = Some n.
Proof. apply iter_release_step_registered. Qed.

Lemma repackAffectedSubtrees_registered st (nodeName : string) (node : nat)
    (n : HBStarTreeNode.t) :
  nodeMap st !! nodeName = Some node -> nodes st !! node = Some n ->
  nodes (repackAffectedSubtrees st) !! node = Some n.
Proof.
  intros Hreg Hn. unfold repackAffectedSubtrees.
  destruct (decide (modifiedSubtrees st = ∅)); [done|].
  destruct (fold_packSubtree_sameTree (rootsToRepack st) st)
    as (Hnodes & _ & _ & _ & _ & _ & Hmap & _).
  apply (release_registered _ nodeName); cbn [nodeMap nodes set_modifiedSubtrees].
  - by rewrite Hmap.
  - by rewrite Hnodes.
Qed.

(** Whatever slot the child occupied: when [swapNodes(a, b)] is called
    for two registered nodes where [b] is a child of [a], the call returns
    true and [a] ends up as the right child of [b]. *)
Lemma swapNodes_child_attaches_right st (nodeName1 nodeName2 : string)
    (node1 node2 : nat) (n2 : HBStarTreeNode.t) :
  findNode st nodeName1 = Some node1 ->
  findNode st nodeName2 = Some node2 ->
  nodes st !! node2 = Some n2 ->
  node1 <> node2 ->
  getLeftChild st node1 = Some node2 \/ getRightChild st node1 = Some node2 ->
  getParent st node1 <> Some node2 ->
  (swapNodes st nodeName1 nodeName2).1 = true /\
  getRightChild (swapNodes st nodeName1 nodeName2).2 node2 = Some node1.
Proof.
  intros H1 H2 Hn2 Hne Hchild Hpar. unfold swapNodes. rewrite H1, H2.
  set (st0 := markSubtreeForRepack (markSubtreeForRepack st (Some node1))
                                   (Some node2)).
  assert (Hnodes0 : nodes st0 = nodes st) by reflexivity.
  assert (Hmap0 : nodeMap st0 = nodeMap st) by reflexivity.
  assert (Hl : getLeftChild st0 node1 = getLeftChild st node1) by reflexivity.
  assert (Hr : getRightChild st0 node1 = getRightChild st node1) by reflexivity.
  assert (Hp : getParent st0 node1 = getParent st node1) by reflexivity.
  rewrite Hl, Hr, Hp.
  assert (bool_decide (getLeftChild st node1 = Some node2)
          || bool_decide (getRightChild st node1 = Some node2) = true) as ->.
  { destruct Hchild as [Hc|Hc]; rewrite (bool_decide_true _ Hc);
      [done|apply orb_true_r]. }
  set (st1 := swapWithChild st0 node1 node2 (getParent st node1)
                            (isLeftChild st0 node1)).
  split; [done|]. cbn [snd].
  assert (Hright : getRightChild st1 node2 = Some node1).
  { apply (swapWithChild_attaches_right st0 _ _ _ _ n2); [|done|done].
    by rewrite Hnodes0. }
  assert (Hmap1 : nodeMap st1 !! nodeName2 = Some node2).
  { unfold st1. by rewrite swapWithChild_nodeMap, Hmap0. }
  unfold getRightChild in Hright.
  destruct (nodes st1 !! node2) as [n2'|] eqn:Hn1; [|done].
  destruct (release_registered st1 nodeName2 node2 n2' Hmap1 Hn1)
    as [Hmap2 Hrel].
  assert (Hfinal : forall s, nodeMap s !! nodeName2 = Some node2 ->
            nodes s !! node2 = Some n2' ->
            getRightChild (if isPacked s then repackAffectedSubtrees s else s)
                          node2 = Some node1).
  { intros s Hs Hsn. unfold getRightChild. destruct (isPacked s).
    - by rewrite (repackAffectedSubtrees_registered s nodeName2 node2 n2').
    - by rewrite Hsn. }
  apply Hfinal; [by rewrite Hmap2|done].
Qed.

(** C7. A perturbation that is given a name that is not registered
    returns false and hands back the very state it was given:
    [rotateModule] for a name that is not a key of [modules],
    [moveNode] and [swapNodes] for a name, in either argument, that is
    not a key of [nodeMap]. *)
Theorem unregistered_name_no_change
    st (moduleName nodeName other : string) (asLeftChild : bool) :
  StdMap.find (modules st) moduleName = None ->
  nodeMap st !! nodeName = None ->
  rotateModule st moduleName = (false, st) /\
  moveNode st nodeName other asLeftChild = (false, st) /\
  moveNode st other nodeName asLeftChild = (false, st) /\
  swapNodes st nodeName other = (false, st) /\
  swapNodes st other nodeName = (false, st).
Proof.
  intros Hmod Hnode.
  unfold rotateModule, moveNode, swapNodes, findNode.
  rewrite Hmod, Hnode. repeat split; try done.
  - by destruct (nodeMap st !! other).
  - by destruct (nodeMap st !! other).
Qed.

End WithASF.




Lemma unregistered_name_no_change_witness :
  StdMap.find (modules twoModules) "c" = None /\
  nodeMap twoModules !! "c" = None /\
  rotateModule twoModules "c" = (false, twoModules) /\
  swapNodes twoModules "a" "c" = (false, twoModules).
Proof.
  assert (H1 : StdMap.find (modules twoModules) "c" = None) by reflexivity.
  assert (H2 : nodeMap twoModules !! "c" = None) by reflexivity.
  pose proof (unregistered_name_no_change twoModules "c" "c" "a" true H1 H2)
    as (Hr & _ & _ & _ & Hs).
  exact (conj H1 (conj H2 (conj Hr Hs))).
Defined.

Lemma packSubtree_places_node_witness :
  nodes rootPlaced !! 0%nat = Some nodeB /\
  getParent rootPlaced 0 = Some 1%nat /\
  isLeftChild rootPlaced 0 = true /\
  coordinates rootPlaced "a" = Some (0, 0) /\
  placeX rootPlaced 0 = 0 + 10 /\
  coordinates (packNode rootPlaced 0 nodeB).1 "b" = Some (10, 0) /\
  Contour.segments (horizontalContour (packNode rootPlaced 0 nodeB).1)
    = [Contour.mkSeg 0 10 10; Contour.mkSeg 10 20 20;
       Contour.mkSeg 20 INT_MAX 0] /\
  nodes leftPlaced !! 0%nat = Some hnRight /\
  getParent leftPlaced 0 = Some 1%nat /\
  isLeftChild leftPlaced 0 = true /\
  coordinates leftPlaced "l" = Some (0, 0) /\
  coordinates (packNode leftPlaced 0 hnRight).1 "r" = Some (10, 10) /\
  coordinates (packNode leftPlaced 0 hnRight).1 "l" = Some (0, 0) /\
  Contour.segments (horizontalContour (packNode leftPlaced 0 hnRight).1)
    = [Contour.mkSeg 0 10 10; Contour.mkSeg 10 30 20;
       Contour.mkSeg 30 INT_MAX 0].
Proof.
  assert (H1 : nodes rootPlaced !! 0%nat = Some nodeB) by reflexivity.
  pose proof (packSubtree_places_node rootPlaced 0 nodeB H1)
    as (_ & Hx & Hm & _).
  destruct (Hx rootPlaced eq_refl) as [_ Hrule].
  specialize (Hrule 1%nat nodeA eq_refl eq_refl (Module_.mk "a" 0 0 10 10 false)
                    eq_refl).
  destruct (Hm moduleB eq_refl eq_refl) as (Hpos & Hcontour & _).
  split; [exact H1|]. split; [reflexivity|]. split; [reflexivity|].
  split; [reflexivity|]. split; [exact Hrule|]. split.
  { unfold coordinates. cbn [name nodeB] in Hpos. rewrite Hpos. reflexivity. }
  split; [rewrite Hcontour; reflexivity|].
  assert (H2 : nodes leftPlaced !! 0%nat = Some hnRight) by reflexivity.
  set (tree := RowASF.mk groupRight ["r"] 0 Contour.empty Contour.empty).
  assert (H3 : asfTrees leftPlaced !! 0%nat = Some tree) by reflexivity.
  pose proof (packSubtree_places_node leftPlaced 0 hnRight H2)
    as (_ & _ & _ & Hh).
  destruct (Hh 0%nat tree eq_refl eq_refl H3)
    as (_ & _ & _ & _ & _ & Hshift & Hsky & _).
  assert (Hnd : NoDup (asf_getModules (asf_pack tree (modules leftPlaced)).1)).
  { vm_compute. apply NoDup_singleton. }
  destruct (Hshift Hnd "r") as [Hin _].
  destruct (Hshift Hnd "l") as [_ Hout].
  split; [exact H2|]. split; [reflexivity|]. split; [reflexivity|].
  split; [reflexivity|]. split.
  { unfold coordinates. rewrite Hin; [reflexivity|].
    vm_compute. apply list_elem_of_singleton. reflexivity. }
  split.
  { unfold coordinates. rewrite Hout; [reflexivity|].
    vm_compute. intros H. apply list_elem_of_singleton in H. discriminate. }
  rewrite Hsky. reflexivity.
Defined.

(** A root that is not placed at 0, and a sum that is not the exact
    one. In [rootUnderIsland] the root "c" still has the hierarchy node
    "g" as its live parent and is the left child of "g"; the next full
    pack places "c" at the axis of the island, x = 10. In [wideTree]
    the module "w" is placed at x = 10 and is 2147483647 wide: the
    right end of its footprint is the [int] sum, which is negative, so
    [addSegment] gets an empty range and the skyline stores nothing
    over the footprint. *)
Lemma root_with_a_parent_is_not_placed_at_zero :
  (moveNode fourRegrouped "g" "a" true).1 = true /\
  root rootUnderIsland = Some 5%nat /\
  nodeMap rootUnderIsland !! "c" = Some 5%nat /\
  getParent rootUnderIsland 5 = Some 4%nat /\
  isLeftChild rootUnderIsland 5 = true /\
  (pack rootUnderIsland).1 = true /\
  root (pack rootUnderIsland).2 = Some 5%nat /\
  modifiedSubtrees (pack rootUnderIsland).2 = ∅ /\
  placeX (baseContours (pack rootUnderIsland).2) 5 = 10 /\
  (pack (pack rootUnderIsland).2).1 = true /\
  coordinates (pack (pack rootUnderIsland).2).2 "c" = Some (10, 0) /\
  ~ (forall (st : Tree) (node : nat),
       root st = Some node -> placeX st node = 0) /\
  coordinates (pack wideTree).2 "w" = Some (10, 0) /\
  toInt (10 + 2147483647) = -2147483639 /\
  Contour.getHeight (horizontalContour (pack wideTree).2) 10 20 = 0.
Proof.
  assert (Hx : placeX (baseContours (pack rootUnderIsland).2) 5 = 10)
    by (vm_compute; reflexivity).
  do 11 (split; [vm_compute; reflexivity|]).
  split; [|split; [vm_compute; reflexivity|split; vm_compute; reflexivity]].
  assert (Hr : root (baseContours (pack rootUnderIsland).2) = Some 5%nat)
    by (vm_compute; reflexivity).
  intros Hclaim.
  specialize (Hclaim (baseContours (pack rootUnderIsland).2) 5%nat Hr).
  rewrite Hx in Hclaim. discriminate.
Qed.

Lemma rotateModule_marks_whatever_the_result_witness :
  StdMap.find (modules lateModule) "q" = Some moduleQ /\
  groupOf lateModule "q" = Some groupPQ /\
  parentChainEnds lateModule 0 /\
  (rotateModule lateModule "q").1 = false /\
  0%nat ∈ modifiedSubtrees (rotateModule lateModule "q").2 /\
  modifiedSubtrees (rotateModule lateModule "q").2 <> modifiedSubtrees lateModule.
Proof.
  set (hn := HBStarTreeNode.mk HIERARCHY "pq" (Some 1%nat) None None
               (Some 0%nat) 0 0 0 0).
  set (asfTree := RowASF.mk groupPQ ["p"] 0 Contour.empty Contour.empty).
  assert (H1 : StdMap.find (modules lateModule) "q" = Some moduleQ)
    by reflexivity.
  assert (H2 : groupOf lateModule "q" = Some groupPQ) by reflexivity.
  assert (H3 : StdMap.find (symmetryGroupNodes lateModule)
                 (SymmetryGroup.name groupPQ) = Some 0%nat) by reflexivity.
  assert (H4 : nodes lateModule !! 0%nat = Some hn) by reflexivity.
  assert (H5 : HBStarTreeNode.getASFTree hn = Some 0%nat) by reflexivity.
  assert (H6 : asfTrees lateModule !! 0%nat = Some asfTree) by reflexivity.
  assert (H7 : parentChainEnds lateModule 0) by (by exists 1%nat).
  pose proof (rotateModule_marks_whatever_the_result lateModule "q" moduleQ
                groupPQ 0 hn 0 asfTree H1 H2 H3 H4 H5 H6 H7)
    as (_ & Hexact & _ & _ & Hfail).
  destruct (Hfail eq_refl) as [Hres Hsame].
  split; [exact H1|]. split; [exact H2|]. split; [exact H7|].
  split; [by rewrite Hres|].
  split; [rewrite Hres; apply Hexact; right; by exists 0%nat|].
  intros Heq. destruct Hsame as [Hsame _].
  specialize (Hsame Heq 0%nat 0%nat eq_refl). rename Hsame into Heq'.
  clear Heq. rename Heq' into Heq.
  apply elem_of_elements in Heq. vm_compute in Heq. inversion Heq.
Defined.

(** A failing rotation that changes nothing, and a rotation that does
    not return. In [alreadyMarked] the hierarchy node of the group of
    "q" is the root and is marked already; [rotateModule("q")] fails in
    the ASF-B*-tree, marks the hierarchy node again and returns false
    with the state it was given. In [selfParent], which four calls that
    return true build from a new tree, the hierarchy node of the group
    of "s" is its own parent: the module is registered, its group has
    a hierarchy node with an ASF-B*-tree, and the marking loop of
    [rotateModule("s")] never stops. *)
Lemma rotateModule_failure_can_leave_the_marks :
  StdMap.find (modules alreadyMarked) "q" = Some moduleQ /\
  groupOf alreadyMarked "q" = Some groupPQ /\
  getParent alreadyMarked 0 = None /\
  elements (modifiedSubtrees alreadyMarked) = [0%nat] /\
  rotateModule alreadyMarked "q" = (false, alreadyMarked) /\
  ~ (forall (st : Tree) (moduleName : string),
       is_Some (groupOf st moduleName) ->
       (rotateModule st moduleName).1 = false ->
       modifiedSubtrees (rotateModule st moduleName).2 <> modifiedSubtrees st) /\
  (swapNodes groupChain "g" "x").1 = true /\
  (moveNode (swapNodes groupChain "g" "x").2 "y" "g" false).1 = true /\
  (swapNodes (moveNode (swapNodes groupChain "g" "x").2 "y" "g" false).2
             "x" "g").1 = true /\
  (swapNodes
     (swapNodes (moveNode (swapNodes groupChain "g" "x").2 "y" "g" false).2
                "x" "g").2 "y" "g").1 = true /\
  is_Some (StdMap.find (modules selfParent) "s") /\
  groupOf selfParent "s" = Some groupG /\
  islandOf selfParent "g"
    = Some (0%nat, 0%nat,
            RowASF.mk groupG ["s"] 0 Contour.empty Contour.empty) /\
  getParent selfParent 0 = Some 0%nat /\
  ~ parentChainEnds selfParent 0 /\
  (forall steps marked,
     markLoopWithin steps selfParent (Some 0%nat) marked = None).
Proof.
  assert (Hrot : rotateModule alreadyMarked "q" = (false, alreadyMarked))
    by (vm_compute; reflexivity).
  assert (Hself : getParent selfParent 0 = Some 0%nat)
    by (vm_compute; reflexivity).
  assert (Hcycle : ~ parentChainEnds selfParent 0).
  { intros [k Hk].
    assert (Hall : forall j, ancestor selfParent j 0 = Some 0%nat).
    { induction j as [|j IH]; [done|].
      change (ancestor selfParent (S j) 0)
        with (match ancestor selfParent j 0 with
              | Some a => getParent selfParent a
              | None => None
              end).
      by rewrite IH. }
    by rewrite Hall in Hk. }
  split; [reflexivity|]. split; [reflexivity|]. split; [reflexivity|].
  split; [vm_compute; reflexivity|]. split; [exact Hrot|].
  split.
  { intros Hclaim. apply (Hclaim alreadyMarked "q").
    - by exists groupPQ.
    - by rewrite Hrot.
    - by rewrite Hrot. }
  do 4 (split; [vm_compute; reflexivity|]).
  split; [vm_compute; by eexists|].
  split; [vm_compute; reflexivity|].
  split; [vm_compute; reflexivity|].
  split; [exact Hself|]. split; [exact Hcycle|].
  by apply markLoop_never_stops.
Qed.

(** C2. The chain that [constructInitialTree] builds follows the key
    order of the two name tables, not the order of insertion and not the
    areas. For the modules "a" (10 by 10) and "b" (10 by 20) the sort puts
    "b" before "a", and the chain is "a", "b". For the groups added in the
    order "right", "left" the chain starts "left", "right". *)
Theorem initial_chain_follows_names :
  nonSymmetryModules twoModulesInput = ["b"; "a"] /\
  chainFromRoot twoModules = ["a"; "b"] /\
  map SymmetryGroup.name (symmetryGroups twoGroups) = ["right"; "left"] /\
  chainFromRoot twoGroups = ["left"; "right"; "a"; "b"].
Proof. repeat split; reflexivity. Qed.

(** C4. [pack()] called twice in a row on a tree with marked nodes (the
    tree of the two modules after [rotateModule("a")], [pack()] and
    [rotateModule("a")], all of which return true): the first call is the
    incremental repack, which places the modules on top of the skyline
    that the previous packing left, the second call is the full pack,
    which starts from the cleared skyline. Both return true and they
    assign different coordinates. *)
Theorem second_pack_moves_modules :
  (rotateModule twoModules "a").1 = true /\
  (pack (rotateModule twoModules "a").2).1 = true /\
  (rotateModule (pack (rotateModule twoModules "a").2).2 "a").1 = true /\
  (pack rotatedPackedRotated).1 = true /\
  coordinates (pack rotatedPackedRotated).2 "a" = Some (0, 10) /\
  coordinates (pack rotatedPackedRotated).2 "b" = Some (10, 20) /\
  (pack (pack rotatedPackedRotated).2).1 = true /\
  coordinates (pack (pack rotatedPackedRotated).2).2 "a" = Some (0, 0) /\
  coordinates (pack (pack rotatedPackedRotated).2).2 "b" = Some (10, 0).
Proof. repeat split; vm_compute; reflexivity. Qed.

(** Two full packs in a row can differ as well. In [rightOfIsland] the
    module node "r" is the right child of the hierarchy node "g". The
    first [pack()] places "r" and then "t" above it, and its contour-node
    regeneration overwrites the right child of "g", which removes "r" from
    the tree; the second [pack()] no longer sees "r" and places "t" where
    "r" still is. (The island is packed by [RowASF].) *)
Lemma full_pack_twice_drops_right_subtree :
  elements (modifiedSubtrees rightOfIsland) = [] /\
  (pack rightOfIsland).1 = true /\
  coordinates (pack rightOfIsland).2 "r" = Some (0, 10) /\
  coordinates (pack rightOfIsland).2 "t" = Some (0, 20) /\
  (pack (pack rightOfIsland).2).1 = true /\
  coordinates (pack (pack rightOfIsland).2).2 "r" = Some (0, 10) /\
  coordinates (pack (pack rightOfIsland).2).2 "t" = Some (0, 10).
Proof. repeat split; vm_compute; reflexivity. Qed.

(** [clone] reads the modules, the symmetry groups, the stored area, the
    packed flag and the two skylines of the tree; it never reads the root
    or a node. *)
Lemma clone_ignores_topology (st st' : Tree) :
  modules st' = modules st -> symmetryGroups st' = symmetryGroups st ->
  totalArea st' = totalArea st -> isPacked st' = isPacked st ->
  horizontalContour st' = horizontalContour st ->
  verticalContour st' = verticalContour st ->
  clone st' = clone st.
Proof. unfold clone. by intros -> -> -> -> -> ->. Qed.

(** C5. A tree that was packed, perturbed by [moveNode("b", "a", false)]
    and packed again has area 300 ("b" on top of "a"); its clone is rebuilt
    as the initial chain: it reports the copied area 300, and after
    [pack()] it has area 400 ("b" right of "a"). *)
Theorem clone_forgets_topology :
  (moveNode (pack twoModules).2 "b" "a" false).1 = true /\
  getArea movedAndPacked = 300 /\
  getArea (clone movedAndPacked) = 300 /\
  (pack (clone movedAndPacked)).1 = true /\
  getArea (pack (clone movedAndPacked)).2 = 400 /\
  chainFromRoot movedAndPacked = ["a"] /\
  chainFromRoot (clone movedAndPacked) = ["a"; "b"].
Proof. repeat split; vm_compute; reflexivity. Qed.

(** C6. [swapNodes("a", "b")] on the initial chain, where "b" is the left
    child of the root "a": the call returns true and "b" becomes the root,
    but "a" is attached as the right child of "b", not in the left slot
    that "b" occupied under "a". (When "b" is the right child of "a", the
    same call does keep the slot.) *)
Theorem swap_with_left_child_attaches_right :
  findNode twoModules "a" = Some 1%nat /\
  findNode twoModules "b" = Some 0%nat /\
  root twoModules = Some 1%nat /\
  getLeftChild twoModules 1 = Some 0%nat /\
  (swapNodes twoModules "a" "b").1 = true /\
  root (swapNodes twoModules "a" "b").2 = Some 0%nat /\
  getLeftChild (swapNodes twoModules "a" "b").2 0 = None /\
  getRightChild (swapNodes twoModules "a" "b").2 0 = Some 1%nat /\
  getParent (swapNodes twoModules "a" "b").2 1 = Some 0%nat /\
  (getRightChild stacked 1 = Some 0%nat /\
   root (swapNodes stacked "a" "b").2 = Some 0%nat /\
   getRightChild (swapNodes stacked "a" "b").2 0 = Some 1%nat).
Proof. repeat split; vm_compute; reflexivity. Qed.

End HBStarTreeFacts.

(** ** Further properties of the map *)

Module StdMapProperties.
Import StdMap StdMapFacts.

(** *** The order of the keys *)

Lemma ascii_compare_refl (a : ascii) : Ascii.compare a a = Eq.
Proof. unfold Ascii.compare. apply N.compare_refl. Qed.

Lemma ascii_compare_lt_trans (a b c : ascii) :
  Ascii.compare a b = Lt -> Ascii.compare b c = Lt -> Ascii.compare a c = Lt.
Proof.
  unfold Ascii.compare. rewrite !N.compare_lt_iff. apply N.lt_trans.
Qed.

Lemma compare_refl (s : string) : String.compare s s = Eq.
Proof.
  induction s as [|a s IH]; [done|]. simpl. by rewrite ascii_compare_refl.
Qed.

Lemma compare_lt_trans (s1 : string) : forall s2 s3,
  String.compare s1 s2 = Lt -> String.compare s2 s3 = Lt ->
  String.compare s1 s3 = Lt.
Proof.
  induction s1 as [|a s1 IH]; intros [|b s2] [|c s3]; simpl; try done.
  destruct (Ascii.compare a b) eqn:Eab; [|  |done].
  - apply Ascii.compare_eq_iff in Eab. subst b.
    destruct (Ascii.compare a c) eqn:Eac; [apply IH|done|done].
  - intros _. destruct (Ascii.compare b c) eqn:Ebc; [| |done].
    + apply Ascii.compare_eq_iff in Ebc. subst c. by rewrite Eab.
    + by rewrite (ascii_compare_lt_trans a b c Eab Ebc).
Qed.

Lemma ltb_irrefl (s : string) : String.ltb s s = false.
Proof. unfold String.ltb. by rewrite compare_refl. Qed.

Lemma ltb_trans (s1 s2 s3 : string) :
  String.ltb s1 s2 = true -> String.ltb s2 s3 = true ->
  String.ltb s1 s3 = true.
Proof.
  unfold String.ltb.
  destruct (String.compare s1 s2) eqn:E12; try done.
  destruct (String.compare s2 s3) eqn:E23; try done.
  by rewrite (compare_lt_trans s1 s2 s3 E12 E23).
Qed.

Lemma ltb_total (s1 s2 : string) :
  String.eqb s1 s2 = false -> String.ltb s1 s2 = false ->
  String.ltb s2 s1 = true.
Proof.
  unfold String.ltb. intros Hne. rewrite (String.compare_antisym s2 s1).
  destruct (String.compare s1 s2) eqn:E; try done.
  apply String.compare_eq_iff in E. apply String.eqb_neq in Hne. done.
Qed.

Lemma ltb_eqb (s1 s2 : string) :
  String.ltb s1 s2 = true -> String.eqb s1 s2 = false.
Proof.
  intros Hlt. apply String.eqb_neq. intros ->.
  by rewrite ltb_irrefl in Hlt.
Qed.

Lemma keys_above_weaken {V : Type} (m : t V) (lo lo' : string) :
  String.ltb lo' lo = true -> keys_above lo m -> keys_above lo' m.
Proof.
  destruct m as [|[k v] rest]; [done|]. intros Hlt [Hk Hrest].
  split; [by eapply ltb_trans|done].
Qed.

Lemma keys_above_ok {V : Type} (m : t V) (lo : string) :
  keys_above lo m -> ok m.
Proof. destruct m as [|[k v] rest]; [done|]. by intros [_ ?]. Qed.

Lemma insert_keys_above {V : Type} (m : t V) : forall (lo k : string) (v : V),
  String.ltb lo k = true -> keys_above lo m -> keys_above lo (insert k v m).
Proof.
  induction m as [|[k' v'] rest IH]; intros lo k v Hlo Hm; simpl; [done|].
  destruct Hm as [Hk' Hrest].
  destruct (String.eqb k k') eqn:E.
  - apply String.eqb_eq in E. subst k'. by split.
  - destruct (String.ltb k k') eqn:E'.
    + split; [done|]. by split.
    + split; [done|]. apply IH; [by apply ltb_total|done].
Qed.

Lemma insert_ok {V : Type} (m : t V) (k : string) (v : V) :
  ok m -> ok (insert k v m).
Proof.
  destruct m as [|[k' v'] rest]; [done|]. intros Hrest. simpl.
  destruct (String.eqb k k') eqn:E.
  - apply String.eqb_eq in E. by subst k'.
  - destruct (String.ltb k k') eqn:E'.
    + by split.
    + apply insert_keys_above; [by apply ltb_total|done].
Qed.

Lemma find_keys_above {V : Type} (m : t V) (lo k : string) :
  keys_above lo m -> String.ltb lo k = false -> find m k = None.
Proof.
  revert lo. induction m as [|[k' v'] rest IH]; intros lo Hm Hlo; [done|].
  destruct Hm as [Hk' Hrest]. simpl.
  destruct (String.eqb k k') eqn:E.
  - apply String.eqb_eq in E. subst k'. congruence.
  - apply (IH k'); [done|].
    destruct (String.ltb k' k) eqn:E'; [|done].
    by rewrite (ltb_trans lo k' k) in Hlo.
Qed.

(** Storing under a key the value it already has leaves the map as it
    is. *)
Lemma insert_same {V : Type} (m : t V) : forall (lo k : string) (v : V),
  keys_above lo m -> find m k = Some v -> insert k v m = m.
Proof.
  induction m as [|[k' v'] rest IH]; intros lo k v Hm Hfind; [done|].
  destruct Hm as [Hk' Hrest]. simpl in *.
  destruct (String.eqb k k') eqn:E.
  - apply String.eqb_eq in E. subst k'. by injection Hfind as ->.
  - destruct (String.ltb k k') eqn:E'.
    + rewrite (find_keys_above rest k' k Hrest) in Hfind; [done|].
      destruct (String.ltb k' k) eqn:E''; [|done].
      pose proof (ltb_trans k k' k E' E'') as Hkk.
      by rewrite ltb_irrefl in Hkk.
    + f_equal. by apply (IH k').
Qed.

(** Appending at the end: a key above all keys of the map. *)
Lemma insert_last {V : Type} (m : t V) : forall (k : string) (v : V),
  (forall k' v', (k', v') ∈ m -> String.ltb k' k = true) ->
  insert k v m = m ++ [(k, v)].
Proof.
  induction m as [|[k' v'] rest IH]; intros k v Hall; [done|]. simpl.
  assert (Hk' : String.ltb k' k = true).
  { apply (Hall k' v'). apply elem_of_cons. by left. }
  rewrite String.eqb_sym, (ltb_eqb k' k Hk').
  destruct (String.ltb k k') eqn:E.
  - pose proof (ltb_trans k k' k E Hk') as Hkk.
    by rewrite ltb_irrefl in Hkk.
  - f_equal. apply IH. intros k0 v0 Hin. apply (Hall k0 v0).
    apply elem_of_cons. by right.
Qed.

Lemma keys_above_elem {V : Type} (m : t V) (lo k : string) (v : V) :
  keys_above lo m -> (k, v) ∈ m -> String.ltb lo k = true.
Proof.
  revert lo. induction m as [|[k' v'] rest IH]; intros lo Hm Hin;
    [by apply elem_of_nil in Hin|].
  destruct Hm as [Hk' Hrest].
  apply elem_of_cons in Hin as [[= -> ->]|Hin]; [done|].
  eapply ltb_trans; [exact Hk'|]. by apply (IH k').
Qed.

(** Copying a map entry by entry, in the order of the iteration, gives
    the same map. *)
Lemma rebuild_ok {V : Type} (rest : t V) : forall (acc : t V),
  ok (acc ++ rest) ->
  (forall k v k' v', (k, v) ∈ acc -> (k', v') ∈ rest ->
     String.ltb k k' = true) ->
  fold_left (fun m kv => insert kv.1 kv.2 m) rest acc = acc ++ rest.
Proof.
  induction rest as [|[k v] rest IH]; intros acc Hok Hlt.
  - by rewrite app_nil_r.
  - cbn [fold_left fst snd].
    rewrite insert_last.
    + rewrite IH.
      * by rewrite <- app_assoc.
      * by rewrite <- app_assoc.
      * intros k1 v1 k2 v2 H1 H2.
        apply elem_of_app in H1 as [H1|H1].
        -- apply (Hlt k1 v1 k2 v2 H1). apply elem_of_cons. by right.
        -- apply list_elem_of_singleton in H1. injection H1 as -> ->.
           clear -Hok H2. induction acc as [|[k0 v0] acc IHacc].
           ++ simpl in Hok. by eapply keys_above_elem.
           ++ apply IHacc. simpl in Hok.
              destruct (acc ++ (k, v) :: rest) as [|[k3 v3] r3] eqn:E;
                [by destruct acc|].
              by destruct Hok.
    + intros k' v' Hin. apply (Hlt k' v' k v Hin).
      apply elem_of_cons. by left.
Qed.

Lemma of_list_ok {V : Type} (m : t V) : ok m -> of_list m = m.
Proof.
  intros Hok. unfold of_list, empty.
  rewrite (rebuild_ok m []); [done|done|].
  intros k v k' v' Hin. by apply elem_of_nil in Hin.
Qed.

Lemma insert_nonempty {V : Type} (m : t V) (k : string) (v : V) :
  insert k v m <> [].
Proof.
  destruct m as [|[k' v'] rest]; simpl; [done|].
  destruct (String.eqb k k'); [done|]. by destruct (String.ltb k k').
Qed.

(** *** The entries after an insertion *)

Lemma insert_elem {V : Type} (m : t V) (k : string) (v : V)
    (kv : string * V) :
  kv ∈ insert k v m -> kv = (k, v) \/ kv ∈ m.
Proof.
  induction m as [|[k' v'] rest IH]; simpl.
  - intros H. apply list_elem_of_singleton in H. by left.
  - destruct (String.eqb k k') eqn:E.
    + intros H. apply elem_of_cons in H as [H|H]; [by left|].
      right. apply elem_of_cons. by right.
    + destruct (String.ltb k k').
      * intros H. apply elem_of_cons in H as [H|H]; [by left|by right].
      * intros H. apply elem_of_cons in H as [H|H].
        -- right. apply elem_of_cons. by left.
        -- destruct (IH H) as [?|?]; [by left|].
           right. apply elem_of_cons. by right.
Qed.

Lemma insert_elem_new {V : Type} (m : t V) (k : string) (v : V) :
  (k, v) ∈ insert k v m.
Proof.
  induction m as [|[k' v'] rest IH]; simpl.
  - apply elem_of_cons. by left.
  - destruct (String.eqb k k'); [apply elem_of_cons; by left|].
    destruct (String.ltb k k'); [apply elem_of_cons; by left|].
    apply elem_of_cons. by right.
Qed.

Lemma insert_elem_old {V : Type} (m : t V) (k k' : string) (v v' : V) :
  (k', v') ∈ m -> k' <> k -> (k', v') ∈ insert k v m.
Proof.
  intros Hin Hne. induction m as [|[k0 v0] rest IH]; simpl.
  - by apply elem_of_nil in Hin.
  - apply elem_of_cons in Hin as [[= <- <-]|Hin].
    + destruct (String.eqb k k') eqn:E.
      { apply String.eqb_eq in E. congruence. }
      destruct (String.ltb k k').
      * apply elem_of_cons. right. apply elem_of_cons. by left.
      * apply elem_of_cons. by left.
    + destruct (String.eqb k k0) eqn:E.
      { apply elem_of_cons. by right. }
      destruct (String.ltb k k0).
      * apply elem_of_cons. right. apply elem_of_cons. by right.
      * apply elem_of_cons. right. by apply IH.
Qed.

Lemma keys_elem {V : Type} (m : t V) (k : string) :
  k ∈ keys m <-> exists v, (k, v) ∈ m.
Proof.
  unfold keys. rewrite list_elem_of_fmap. split.
  - intros [[k' v] [-> H]]. by exists v.
  - intros [v H]. by exists (k, v).
Qed.

Lemma values_elem {V : Type} (m : t V) (v : V) :
  v ∈ values m <-> exists k, (k, v) ∈ m.
Proof.
  unfold values. rewrite list_elem_of_fmap. split.
  - intros [[k v'] [-> H]]. by exists k.
  - intros [k H]. by exists (k, v).
Qed.

Lemma keys_insert {V : Type} (m : t V) (k : string) (v : V) (x : string) :
  x ∈ keys (insert k v m) <-> x = k \/ x ∈ keys m.
Proof.
  rewrite !keys_elem. split.
  - intros [v' H]. apply insert_elem in H as [[= -> ->]|H]; [by left|].
    right. by exists v'.
  - intros [->|[v' H]]; [exists v; apply insert_elem_new|].
    destruct (decide (x = k)) as [->|Hne];
      [exists v; apply insert_elem_new|].
    exists v'. by apply insert_elem_old.
Qed.

Lemma values_insert_NoDup {V : Type} (m : t V) (k : string) (v : V)
    (l : list V) :
  NoDup (values m ++ l) -> v ∉ values m -> v ∉ l ->
  NoDup (values (insert k v m) ++ l).
Proof.
  intros Hnd Hv Hl. induction m as [|[k' v'] rest IH]; simpl.
  - apply NoDup_cons. by split.
  - simpl in Hnd. apply NoDup_cons in Hnd as [Hv' Hnd].
    assert (Hvr : v ∉ values rest).
    { intros H. apply Hv. simpl. apply elem_of_cons. by right. }
    assert (Hne : v <> v').
    { intros ->. apply Hv. simpl. apply elem_of_cons. by left. }
    destruct (String.eqb k k') eqn:E; simpl.
    + apply NoDup_cons. split; [|done].
      intros H. apply elem_of_app in H as [H|H]; done.
    + destruct (String.ltb k k'); simpl.
      * apply NoDup_cons. split.
        { intros H. apply elem_of_cons in H as [H|H]; [done|].
          apply elem_of_app in H as [H|H]; done. }
        apply NoDup_cons. by split.
      * apply NoDup_cons. split; [|by apply IH].
        intros H. apply elem_of_app in H as [H|H].
        -- apply values_elem in H as [k0 H].
           apply insert_elem in H as [[= _ ->]|H]; [done|].
           apply Hv'. apply elem_of_app. left. apply values_elem.
           by exists k0.
        -- apply Hv'. apply elem_of_app. by right.
Qed.

Lemma ok_NoDup_keys {V : Type} (m : t V) : ok m -> NoDup (keys m).
Proof.
  destruct m as [|[k v] rest]; [intros _; apply NoDup_nil_2|].
  simpl. revert k v. induction rest as [|[k' v'] rest IH]; intros k v Hk.
  - apply NoDup_cons. split; [apply not_elem_of_nil|apply NoDup_nil_2].
  - destruct Hk as [Hkk' Hrest]. apply NoDup_cons. split.
    + intros Hin. apply (keys_elem ((k', v') :: rest)) in Hin as [v0 Hin].
      assert (Hlt : String.ltb k k = true).
      { apply elem_of_cons in Hin as [[= <- <-]|Hin]; [done|].
        eapply ltb_trans; [exact Hkk'|].
        by apply (keys_above_elem rest k' k v0). }
      by rewrite ltb_irrefl in Hlt.
    + by apply (IH k' v').
Qed.

Lemma find_of_elem {V : Type} (m : t V) (k : string) (v : V) :
  NoDup (keys m) -> (k, v) ∈ m -> find m k = Some v.
Proof.
  induction m as [|[k' v'] rest IH]; intros Hnd Hin;
    [by apply elem_of_nil in Hin|].
  simpl in Hnd. apply NoDup_cons in Hnd as [Hk' Hnd]. simpl.
  apply elem_of_cons in Hin as [[= <- <-]|Hin].
  - by rewrite String.eqb_refl.
  - destruct (String.eqb k k') eqn:E; [|by apply IH].
    apply String.eqb_eq in E. subst k'. exfalso. apply Hk'.
    apply keys_elem. by exists v.
Qed.

Lemma find_None {V : Type} (m : t V) (k : string) :
  find m k = None <-> k ∉ keys m.
Proof.
  induction m as [|[k' v'] rest IH]; simpl.
  - split; [intros _; apply not_elem_of_nil|done].
  - rewrite not_elem_of_cons. destruct (String.eqb k k') eqn:E.
    + apply String.eqb_eq in E. split; [done|]. by intros [? _].
    + apply String.eqb_neq in E. rewrite IH. tauto.
Qed.

End StdMapProperties.

(** ** Further properties of the contour *)

Module ContourProperties.
Import Contour Examples ContourFacts.

Local Ltac zb :=
  repeat match goal with
  | H : (_ <? _) = true |- _ => apply Z.ltb_lt in H
  | H : (_ <? _) = false |- _ => apply Z.ltb_ge in H
  | H : (_ <=? _) = true |- _ => apply Z.leb_le in H
  | H : (_ <=? _) = false |- _ => apply Z.leb_gt in H
  | H : (_ >=? _) = true |- _ => rewrite Z.geb_leb in H
  | H : (_ >=? _) = false |- _ => rewrite Z.geb_leb in H
  | H : (_ >? _) = true |- _ => rewrite Z.gtb_ltb in H
  | H : (_ >? _) = false |- _ => rewrite Z.gtb_ltb in H
  | H : (_ =? _) = true |- _ => apply Z.eqb_eq in H
  | H : (_ =? _) = false |- _ => apply Z.eqb_neq in H
  | H : (_ && _) = true |- _ => apply andb_true_iff in H; destruct H
  | H : (_ && _) = false |- _ => apply andb_false_iff in H
  end.

(** *** Range queries *)

Lemma wf_from_drop (k : nat) : forall lo segs,
  wf_from lo segs -> wf_from lo (drop k segs).
Proof.
  induction k as [|k IH]; intros lo segs Hlo; [by rewrite drop_0|].
  destruct segs as [|g rest]; [done|]. destruct Hlo as (? & ? & Hrest).
  cbn [drop]. eapply wf_from_weaken; [|by apply IH]. lia.
Qed.

Lemma wf_from_positive lo segs s :
  wf_from lo segs -> s ∈ segs -> start s < end_ s.
Proof.
  revert lo. induction segs as [|g rest IH]; intros lo Hlo Hin;
    [by apply elem_of_nil in Hin|].
  destruct Hlo as (? & ? & Hrest).
  apply elem_of_cons in Hin as [->|Hin]; [done|]. by eapply IH.
Qed.

Lemma scanMax_ge segs : forall b acc, acc <= scanMax segs b acc.
Proof.
  induction segs as [|g rest IH]; intros b acc; simpl; [lia|].
  destruct (start g <? b); [|lia].
  specialize (IH b (Z.max acc (height g))). lia.
Qed.

Lemma scanMax_spec segs : forall lo b acc,
  wf_from lo segs ->
  acc <= scanMax segs b acc /\
  (forall s, s ∈ segs -> start s < b -> height s <= scanMax segs b acc) /\
  (scanMax segs b acc = acc \/
   exists s, s ∈ segs /\ start s < b /\ height s = scanMax segs b acc).
Proof.
  induction segs as [|g rest IH]; intros lo b acc Hwf.
  - simpl. split; [lia|]. split; [|by left].
    intros s Hs. by apply elem_of_nil in Hs.
  - destruct Hwf as (Hlo & Hpos & Hrest). cbn [scanMax].
    destruct (start g <? b) eqn:E; zb.
    + destruct (IH (end_ g) b (Z.max acc (height g)) Hrest) as (Hge & Hub & Hatt).
      split; [lia|]. split.
      * intros s Hs Hsb. apply elem_of_cons in Hs as [->|Hs]; [lia|].
        by apply Hub.
      * destruct Hatt as [Heq|(s & Hs & Hsb & Hh)].
        -- destruct (Z.max_spec acc (height g)) as [[_ Hm]|[_ Hm]].
           ++ right. exists g. split; [apply elem_of_cons; by left|].
              split; [done|]. lia.
           ++ left. lia.
        -- right. exists s. split; [apply elem_of_cons; by right|done].
    + split; [lia|]. split; [|by left].
      intros s Hs Hsb. apply elem_of_cons in Hs as [->|Hs]; [lia|].
      pose proof (wf_from_lower _ _ _ Hrest Hs). lia.
Qed.

(** The scan of [getHeight] starts behind the segments that end at or
    before [a] and at the first segment that reaches beyond [a]. *)
Lemma getHeight_iter_split segs : forall lo a,
  wf_from lo segs ->
  (forall s, s ∈ take (getHeight_iter segs a) segs -> end_ s <= a) /\
  (forall s, s ∈ drop (getHeight_iter segs a) segs -> a < end_ s).
Proof.
  induction segs as [|g rest IH]; intros lo a Hwf.
  - split; intros s Hs; unfold getHeight_iter in Hs; simpl in Hs;
      by apply elem_of_nil in Hs.
  - destruct Hwf as (Hlo & Hpos & Hrest).
    assert (Hafter : forall s, s ∈ rest -> end_ g <= start s /\ start s < end_ s).
    { intros s Hs. split; [by eapply wf_from_lower|by eapply wf_from_positive]. }
    destruct (start g <? a) eqn:E; zb.
    + destruct (lower_bound rest a) as [|k] eqn:Ek.
      * assert (Hrest_ge : forall s, s ∈ rest -> a <= start s).
        { intros s Hs. destruct rest as [|r rest']; [by apply elem_of_nil in Hs|].
          cbn [lower_bound] in Ek. destruct (start r <? a) eqn:Er; [done|]. zb.
          apply elem_of_cons in Hs as [->|Hs]; [done|].
          destruct Hrest as (? & ? & Hrest').
          pose proof (wf_from_lower _ _ _ Hrest' Hs). lia. }
        unfold getHeight_iter. cbn [lower_bound]. rewrite Ek.
        destruct (start g <? a) eqn:E'; zb; [|lia].
        change ((g :: rest) !! 0%nat) with (Some g).
        change ((g :: rest) !! 1%nat) with (rest !! 0%nat).
        assert (Hone : (forall s, s ∈ take 1 (g :: rest) -> end_ s <= a) <->
                       end_ g <= a).
        { cbn [take]. split.
          - intros H. apply H. apply elem_of_cons. by left.
          - intros H s Hs. apply elem_of_cons in Hs as [->|Hs]; [done|].
            by apply elem_of_nil in Hs. }
        assert (Hdrop1 : forall s, s ∈ drop 1 (g :: rest) -> a < end_ s).
        { cbn [drop]. intros s Hs.
          destruct (Hafter s Hs). specialize (Hrest_ge s Hs). lia. }
        assert (Hdrop0 : a < end_ g ->
                  forall s, s ∈ drop 0 (g :: rest) -> a < end_ s).
        { cbn [drop]. intros Hg s Hs.
          apply elem_of_cons in Hs as [->|Hs]; [done|].
          destruct (Hafter s Hs). lia. }
        destruct (match rest !! 0%nat with
                  | Some s => start s >? a | None => true end) eqn:Eat.
        -- destruct (end_ g <=? a) eqn:E1; zb.
           ++ split; [by apply Hone|exact Hdrop1].
           ++ split; [|by apply Hdrop0].
              intros s Hs. cbn [take] in Hs. by apply elem_of_nil in Hs.
        -- split; [|exact Hdrop1]. apply Hone.
           destruct rest as [|r rest']; [done|]. simpl in Eat. zb.
           destruct Hrest as (? & _).
           assert (a <= start r).
           { apply Hrest_ge. apply elem_of_cons. by left. }
           lia.
      * rewrite getHeight_iter_cons; [|lia|by rewrite Ek].
        destruct (IH (end_ g) a Hrest) as [IH1 IH2].
        cbn [take drop]. split; [|exact IH2].
        intros s Hs. apply elem_of_cons in Hs as [->|Hs]; [|by apply IH1].
        destruct rest as [|r rest']; [done|].
        cbn [lower_bound] in Ek. destruct (start r <? a) eqn:Er; [|done]. zb.
        destruct Hrest as (? & _). lia.
    + unfold getHeight_iter. cbn [lower_bound].
      destruct (start g <? a) eqn:E'; zb; [lia|].
      cbn [take drop]. split.
      * intros s Hs. by apply elem_of_nil in Hs.
      * intros s Hs. apply elem_of_cons in Hs as [->|Hs]; [lia|].
        destruct (Hafter s Hs). lia.
Qed.

Lemma heightAt_Some_elem segs p h :
  heightAt segs p = Some h ->
  exists s, s ∈ segs /\ start s <= p < end_ s /\ height s = h.
Proof.
  induction segs as [|g rest IH]; simpl; [done|].
  destruct ((start g <=? p) && (p <? end_ g)) eqn:E.
  - intros [= <-]. zb. exists g. split; [apply elem_of_cons; by left|].
    split; [lia|done].
  - intros H. destruct (IH H) as (s & Hs & Hp & Hh).
    exists s. split; [apply elem_of_cons; by right|done].
Qed.

Lemma heightAt_elem lo segs s p :
  wf_from lo segs -> s ∈ segs -> start s <= p < end_ s ->
  heightAt segs p = Some (height s).
Proof.
  revert lo. induction segs as [|g rest IH]; intros lo Hwf Hs Hp;
    [by apply elem_of_nil in Hs|].
  destruct Hwf as (Hlo & Hpos & Hrest). simpl.
  apply elem_of_cons in Hs as [->|Hs].
  - destruct (start g <=? p) eqn:E1, (p <? end_ g) eqn:E2; zb; simpl;
      [done|lia..].
  - pose proof (wf_from_lower _ _ _ Hrest Hs).
    destruct (start g <=? p) eqn:E1, (p <? end_ g) eqn:E2; zb; simpl;
      try lia; by apply (IH (end_ g)).
Qed.

Lemma getHeight_range lo (c : t) (a b : Z) :
  wf_from lo (segments c) -> a < b ->
  0 <= getHeight c a b /\
  (forall p h, a <= p < b -> heightAt (segments c) p = Some h ->
     h <= getHeight c a b) /\
  (getHeight c a b = 0 \/
   exists p, a <= p < b /\
     heightAt (segments c) p = Some (getHeight c a b)).
Proof.
  intros Hlo Hab.
  unfold getHeight. destruct (a >=? b) eqn:E; zb; [lia|].
  destruct (segments c) as [|g rest] eqn:Es.
  { split; [lia|]. split; [|by left]. intros p h _ H. done. }
  rewrite <- Es in *. clear g rest Es.
  set (segs := segments c) in *.
  destruct (getHeight_iter_split segs lo a Hlo) as [Htake Hdrop].
  set (k := getHeight_iter segs a) in *.
  assert (Hwfd : wf_from lo (drop k segs)) by by apply wf_from_drop.
  destruct (scanMax_spec (drop k segs) lo b 0 Hwfd) as (Hge & Hub & Hatt).
  split; [exact Hge|]. split.
  - intros p h Hp Hh.
    destruct (heightAt_Some_elem _ _ _ Hh) as (s & Hs & Hsp & <-).
    apply Hub; [|lia].
    rewrite <- (take_drop k segs) in Hs.
    apply elem_of_app in Hs as [Hs|Hs]; [|done].
    specialize (Htake s Hs). lia.
  - destruct Hatt as [Heq|(s & Hs & Hsb & Hh)]; [by left|].
    right. exists (Z.max a (start s)).
    pose proof (Hdrop s Hs) as Hend.
    assert (s ∈ segs) as Hin.
    { rewrite <- (take_drop k segs). apply elem_of_app. by right. }
    pose proof (wf_from_positive _ _ _ Hlo Hin) as Hpos.
    split; [lia|]. rewrite <- Hh.
    apply (heightAt_elem lo); [done|done|lia].
Qed.

(** X1. On a contour whose segments are sorted and non-overlapping,
    [getHeight start end] with [start < end] is the largest height stored
    for a point of [[start, end)], and 0 when that is larger: it is not
    negative, no point of the interval has a larger stored height, and it
    is either 0 or the stored height of a point of the interval. So a
    rectangle placed at that height over [[start, end)] lies on or above
    everything the skyline records there. *)
Theorem getHeight_is_range_max (c : t) (a b : Z) :
  wf (segments c) -> a < b ->
  0 <= getHeight c a b /\
  (forall p h, a <= p < b -> heightAt (segments c) p = Some h ->
     h <= getHeight c a b) /\
  (getHeight c a b = 0 \/
   exists p, a <= p < b /\
     heightAt (segments c) p = Some (getHeight c a b)).
Proof.
  intros Hwf Hab. destruct (wf_wf_from _ Hwf) as [lo Hlo].
  by apply (getHeight_range lo).
Qed.

Lemma getHeight_is_range_max_witness :
  wf (segments contour_0_10) /\ 3 < 20 /\ getHeight contour_0_10 3 20 = 5.
Proof.
  assert (H1 : wf (segments contour_0_10)) by (simpl; lia).
  assert (H2 : 3 < 20) by lia.
  split; [exact H1|]. split; [exact H2|].
  destruct (getHeight_is_range_max contour_0_10 3 20 H1 H2) as (_ & Hub & _).
  apply Z.le_antisymm; [vm_compute; discriminate|].
  exact (Hub 4 5 ltac:(lia) eq_refl).
Defined.


(** X2. [getHeight] never returns a negative height, whatever the
    segment vector holds; it returns 0 for an interval that is empty
    ([start >= end]) and on a contour without segments, so also right
    after [clear]. *)
Theorem getHeight_never_negative (c : t) (a b : Z) :
  0 <= getHeight c a b /\
  (b <= a -> getHeight c a b = 0) /\
  (isEmpty c = true -> getHeight c a b = 0) /\
  getHeight (clear c) a b = 0 /\
  getHeight empty a b = 0.
Proof.
  unfold getHeight, isEmpty. split; [|split; [|split; [|split]]].
  - destruct (a >=? b); [lia|]. destruct (segments c); [lia|].
    apply scanMax_ge.
  - intros Hba. destruct (a >=? b) eqn:E; zb; [done|lia].
  - destruct (segments c); [|done]. intros _. by destruct (a >=? b).
  - simpl. by destruct (a >=? b).
  - simpl. by destruct (a >=? b).
Qed.

(** *** The running maxima *)

Section Bounds.
Variables (s e h M H : Z).
Hypothesis Hse : s < e.
Hypothesis HeM : e <= M.
Hypothesis HhH : h <= H.

Local Abbreviation P := (fun g => end_ g <= M /\ height g <= H).

Lemma addSegment_step_bounded acc g :
  Forall P acc.1 -> P g -> Forall P (addSegment_step s e h acc g).1.
Proof.
  destruct acc as [ns ins]. cbn [fst]. intros Hacc [Hg1 Hg2].
  assert (Hnew : P (mkSeg s e h)) by (simpl; lia).
  unfold addSegment_step.
  destruct (end_ g <=? s); [by apply Forall_app; split; [|repeat constructor]|].
  destruct (start g >=? e).
  { destruct ins; cbn [fst]; rewrite ?Forall_app; repeat split; try done;
      by repeat constructor. }
  assert (H1 : Forall P (if start g <? s
                         then ns ++ [mkSeg (start g) s (height g)] else ns)).
  { destruct (start g <? s); [|done]. apply Forall_app. split; [done|].
    repeat constructor; simpl; lia. }
  set (ns1 := if start g <? s
              then ns ++ [mkSeg (start g) s (height g)] else ns) in *.
  destruct ins.
  - destruct (end_ g >? e); cbn [fst]; [|done].
    apply Forall_app. split; [done|]. repeat constructor; simpl; lia.
  - destruct (end_ g >? e); cbn [fst].
    + rewrite !Forall_app. repeat split; try done;
        repeat constructor; simpl; lia.
    + rewrite !Forall_app. repeat split; try done;
        repeat constructor; simpl; lia.
Qed.

Lemma fold_addSegment_step_bounded segs : forall acc,
  Forall P acc.1 -> Forall P segs ->
  Forall P (fold_left (addSegment_step s e h) segs acc).1.
Proof.
  induction segs as [|g rest IH]; intros acc Hacc Hsegs; [done|].
  apply Forall_cons in Hsegs as [Hg Hrest]. cbn [fold_left].
  apply IH; [|done]. by apply addSegment_step_bounded.
Qed.

End Bounds.

Lemma insert_by_start_Forall (P : ContourSegment -> Prop) x l :
  P x -> Forall P l -> Forall P (insert_by_start x l).
Proof.
  intros Hx. induction l as [|y r IH]; intros Hl; simpl; [by repeat constructor|].
  apply Forall_cons in Hl as [Hy Hr].
  destruct (start y <? start x); repeat constructor; auto.
Qed.

Lemma sort_by_start_Forall (P : ContourSegment -> Prop) l :
  Forall P l -> Forall P (sort_by_start l).
Proof.
  induction l as [|x r IH]; intros Hl; [done|].
  apply Forall_cons in Hl as [Hx Hr]. unfold sort_by_start. simpl.
  apply insert_by_start_Forall; [done|by apply IH].
Qed.

Lemma mergeLoop_bounded (M H : Z) rest : forall last,
  Forall (fun g => end_ g <= M /\ height g <= H) (last :: rest) ->
  Forall (fun g => end_ g <= M /\ height g <= H) (mergeLoop last rest).
Proof.
  induction rest as [|c rest IH]; intros last Hl; [done|].
  apply Forall_cons in Hl as [[Hl1 Hl2] Hrest].
  pose proof Hrest as Hrest'.
  apply Forall_cons in Hrest' as [[Hc1 Hc2] Hrest'].
  simpl. destruct ((end_ last =? start c) && (height last =? height c)).
  - apply IH. constructor; [simpl; lia|done].
  - constructor; [done|]. by apply IH.
Qed.

Lemma mergeSegments_bounded (M H : Z) segs :
  Forall (fun g => end_ g <= M /\ height g <= H) segs ->
  Forall (fun g => end_ g <= M /\ height g <= H) (mergeSegments segs).
Proof. destruct segs; [done|apply mergeLoop_bounded]. Qed.

Lemma getHeight_le_maxHeight (c : t) (a b : Z) :
  bounded c -> getHeight c a b <= Z.max 0 (maxHeight c).
Proof.
  intros Hb. unfold getHeight. destruct (a >=? b); [lia|].
  destruct (segments c) as [|g rest] eqn:Es; [lia|]. rewrite <- Es.
  assert (Hd : Forall (fun s => height s <= maxHeight c)
                 (drop (getHeight_iter (segments c) a) (segments c))).
  { apply Forall_drop. eapply Forall_impl; [exact Hb|]. by intros ? [_ ?]. }
  revert Hd. generalize (drop (getHeight_iter (segments c) a) (segments c)).
  intros l. assert (0 <= Z.max 0 (maxHeight c)) as H0 by lia.
  revert H0. generalize 0 at 1 3. 
  induction l as [|x l IH]; intros acc Hacc Hl; simpl; [done|].
  apply Forall_cons in Hl as [Hx Hl].
  destruct (start x <? b); [|done]. apply IH; [lia|done].
Qed.

(** X3. The running maxima of a contour bound its segment vector, and
    [addSegment] keeps it that way: when no segment ends beyond
    [maxCoordinate] or is higher than [maxHeight] before the call, the same
    holds after it, the two maxima have not gone down, and no [getHeight]
    query on the new contour exceeds [getMaxHeight] (or 0). *)
Theorem addSegment_keeps_maxima (c : t) (s e h : Z) :
  bounded c ->
  bounded (addSegment c s e h) /\
  getMaxCoordinate c <= getMaxCoordinate (addSegment c s e h) /\
  getMaxHeight c <= getMaxHeight (addSegment c s e h) /\
  (forall a b,
     getHeight (addSegment c s e h) a b
     <= Z.max 0 (getMaxHeight (addSegment c s e h))).
Proof.
  intros Hb.
  assert (Hadd : bounded (addSegment c s e h) /\
                 maxCoordinate c <= maxCoordinate (addSegment c s e h) /\
                 maxHeight c <= maxHeight (addSegment c s e h)).
  { unfold addSegment. destruct (s >=? e) eqn:E; zb; [split; [done|lia]|].
    destruct (segments c) as [|g rest] eqn:Es.
    - split; [|simpl; lia]. unfold bounded. simpl.
      repeat constructor; simpl; lia.
    - split; [|simpl; lia]. unfold bounded.
      cbn [segments maxCoordinate maxHeight].
      apply mergeSegments_bounded, sort_by_start_Forall.
      set (M := Z.max (maxCoordinate c) e).
      set (H := Z.max (maxHeight c) h).
      assert (Hf : Forall (fun g => end_ g <= M /\ height g <= H)
                     (fold_left (addSegment_step s e h) (g :: rest)
                                ([], false)).1).
      { apply (fold_addSegment_step_bounded s e h M H); try (subst M H; lia).
        - constructor.
        - rewrite <- Es. eapply Forall_impl; [exact Hb|].
          intros x [? ?]. subst M H. simpl. lia. }
      unfold addSegment_finish.
      destruct (fold_left _ _ _) as [ns ins]. cbn [fst snd] in *.
      destruct ins; [done|]. apply Forall_app. split; [done|].
      repeat constructor; subst M H; simpl; lia. }
  destruct Hadd as (Hb' & Hm1 & Hm2).
  split; [exact Hb'|]. split; [exact Hm1|]. split; [exact Hm2|].
  intros a b. by apply getHeight_le_maxHeight.
Qed.

Lemma addSegment_keeps_maxima_witness :
  bounded contour_0_10 /\
  bounded (addSegment contour_0_10 3 6 8) /\
  getMaxHeight (addSegment contour_0_10 3 6 8) = 8.
Proof.
  assert (H1 : bounded contour_0_10).
  { unfold bounded. simpl. repeat constructor; simpl; lia. }
  split; [exact H1|].
  split; [exact (proj1 (addSegment_keeps_maxima contour_0_10 3 6 8 H1))|].
  reflexivity.
Defined.


(** *** The segment vector is a canonical form *)

Lemma fused_mergeLoop_id rest : forall last,
  fused (last :: rest) -> mergeLoop last rest = last :: rest.
Proof.
  induction rest as [|c rest IH]; intros last Hf; [done|].
  destruct Hf as [Hn Hf]. simpl.
  destruct ((end_ last =? start c) && (height last =? height c)) eqn:E.
  - zb. tauto.
  - by rewrite IH.
Qed.

Lemma fused_mergeSegments_id segs : fused segs -> mergeSegments segs = segs.
Proof. destruct segs; [done|apply fused_mergeLoop_id]. Qed.

(** X4. [mergeSegments] fuses every pair of neighbours that touch with
    equal heights, and nothing else: its result has no such pair, a
    vector without such a pair is returned as it is, so a second pass
    changes nothing; on a sorted, non-overlapping vector the result is
    sorted and non-overlapping and every point keeps its height. *)
Theorem mergeSegments_idempotent (segs : list ContourSegment) :
  fused (mergeSegments segs) /\
  mergeSegments (mergeSegments segs) = mergeSegments segs /\
  (fused segs -> mergeSegments segs = segs) /\
  (wf segs ->
   wf (mergeSegments segs) /\
   forall p, heightAt (mergeSegments segs) p = heightAt segs p).
Proof.
  split; [apply mergeSegments_fused|].
  split; [apply fused_mergeSegments_id, mergeSegments_fused|].
  split; [apply fused_mergeSegments_id|].
  intros Hwf. destruct (wf_wf_from _ Hwf) as [lo Hlo]. split.
  - eapply wf_from_wf. by apply mergeSegments_wf.
  - intros p. by apply (mergeSegments_heightAt lo).
Qed.

Lemma heightAt_head lo g rest :
  wf_from lo (g :: rest) -> heightAt (g :: rest) (start g) = Some (height g).
Proof.
  intros (? & ? & ?). simpl.
  destruct (start g <=? start g) eqn:E1, (start g <? end_ g) eqn:E2; zb;
    simpl; [done|lia..].
Qed.

Lemma heightAt_tail lo g rest p :
  wf_from lo (g :: rest) -> end_ g <= p ->
  heightAt (g :: rest) p = heightAt rest p.
Proof.
  intros (? & ? & ?) Hp. simpl.
  destruct (start g <=? p) eqn:E1, (p <? end_ g) eqn:E2; zb; simpl;
    try done; lia.
Qed.

(** Two sorted, non-overlapping vectors without fusible neighbours that
    store the same height for every point are the same vector. *)
Lemma wf_fused_unique l1 : forall l2 lo1 lo2,
  wf_from lo1 l1 -> wf_from lo2 l2 -> fused l1 -> fused l2 ->
  (forall p, heightAt l1 p = heightAt l2 p) -> l1 = l2.
Proof.
  induction l1 as [|a r1 IH]; intros l2 lo1 lo2 Hw1 Hw2 Hf1 Hf2 Heq.
  - destruct l2 as [|b r2]; [done|].
    specialize (Heq (start b)). rewrite (heightAt_head lo2) in Heq; done.
  - destruct l2 as [|b r2].
    { specialize (Heq (start a)). rewrite (heightAt_head lo1) in Heq; done. }
    pose proof Hw1 as (Ha_lo & Ha_pos & Hr1).
    pose proof Hw2 as (Hb_lo & Hb_pos & Hr2).
    assert (Hwa : wf_from (start a) (a :: r1)) by (simpl; repeat split; auto; lia).
    assert (Hwb : wf_from (start b) (b :: r2)) by (simpl; repeat split; auto; lia).
    assert (Hstart : start a = start b).
    { destruct (Z.lt_trichotomy (start a) (start b)) as [Hlt|[?|Hlt]]; [|done|].
      - specialize (Heq (start a)). rewrite (heightAt_head lo1) in Heq by done.
        rewrite (heightAt_below _ _ _ Hwb Hlt) in Heq. done.
      - specialize (Heq (start b)). rewrite (heightAt_head lo2 b) in Heq by done.
        rewrite (heightAt_below _ _ _ Hwa Hlt) in Heq. done. }
    assert (Hheight : height a = height b).
    { specialize (Heq (start a)). rewrite (heightAt_head lo1) in Heq by done.
      rewrite Hstart, (heightAt_head lo2) in Heq by done. congruence. }
    assert (Hshort : forall x rx y ry lx ly,
              wf_from lx (x :: rx) -> wf_from ly (y :: ry) ->
              fused (x :: rx) ->
              start x = start y -> height x = height y ->
              (forall p, heightAt (x :: rx) p = heightAt (y :: ry) p) ->
              ~ end_ x < end_ y).
    { intros x rx y ry lx ly Hwx Hwy Hfx Hs Hh Hxy Hlt.
      pose proof Hwx as (_ & Hxpos & Hrx). pose proof Hwy as (_ & Hypos & Hry).
      specialize (Hxy (end_ x)).
      rewrite (heightAt_tail lx) in Hxy by (done || lia).
      assert (heightAt (y :: ry) (end_ x) = Some (height y)) as Hy.
      { apply (heightAt_elem ly); [done|apply elem_of_cons; by left|lia]. }
      rewrite Hy in Hxy.
      destruct (heightAt_Some_elem _ _ _ Hxy) as (g & Hg & Hgp & Hgh).
      destruct rx as [|c rx']; [by apply elem_of_nil in Hg|].
      destruct Hrx as (Hc_lo & Hc_pos & Hrx').
      destruct Hfx as [Hnf _].
      apply elem_of_cons in Hg as [->|Hg].
      - apply Hnf. split; [lia|congruence].
      - pose proof (wf_from_lower _ _ _ Hrx' Hg). lia. }
    assert (Hend : end_ a = end_ b).
    { destruct (Z.lt_trichotomy (end_ a) (end_ b)) as [Hlt|[?|Hlt]]; [|done|].
      - exfalso. by apply (Hshort a r1 b r2 lo1 lo2).
      - exfalso. by apply (Hshort b r2 a r1 lo2 lo1). }
    assert (a = b) as ->.
    { destruct a, b. simpl in *. congruence. }
    f_equal. apply (IH r2 (end_ b) (end_ b)); [done|done|apply Hf1|apply Hf2|].
    intros p. destruct (Z_lt_le_dec p (end_ b)) as [Hp|Hp].
    + rewrite (heightAt_below _ _ _ Hr1 Hp), (heightAt_below _ _ _ Hr2 Hp). done.
    + rewrite <- (heightAt_tail lo1 b r1 p) by done.
      rewrite <- (heightAt_tail lo2 b r2 p) by done. apply Heq.
Qed.

Lemma addSegment_any_wf lo c s e h :
  wf_from lo (segments c) ->
  wf_from (Z.min lo s) (segments (addSegment c s e h)).
Proof.
  intros Hwf. destruct (Z_lt_le_dec s e) as [Hse|Hse].
  - by apply addSegment_segments.
  - unfold addSegment. destruct (s >=? e) eqn:E; zb; [|lia].
    eapply wf_from_weaken; [|done]. lia.
Qed.

Lemma addSegment_maxima (c : t) (s e h : Z) :
  s < e ->
  maxCoordinate (addSegment c s e h) = Z.max (maxCoordinate c) e /\
  maxHeight (addSegment c s e h) = Z.max (maxHeight c) h.
Proof.
  intros Hse. unfold addSegment.
  destruct (s >=? e) eqn:E; zb; [lia|]. by destruct (segments c).
Qed.

(** X5. A later segment that covers an earlier one erases it from the
    segment vector: on a sorted, non-overlapping contour, adding
    [[s1, e1)] and then a segment [[s2, e2)] that contains it leaves the
    segments (and [maxCoordinate]) that adding [[s2, e2)] alone leaves;
    in particular adding the same interval twice keeps the last height.
    Only [maxHeight] remembers the covered height. *)
Theorem addSegment_covered_is_erased (c : t) (s1 e1 h1 s2 e2 h2 : Z) :
  wf (segments c) -> s2 <= s1 -> e1 <= e2 -> s2 < e2 ->
  segments (addSegment (addSegment c s1 e1 h1) s2 e2 h2)
    = segments (addSegment c s2 e2 h2) /\
  maxCoordinate (addSegment (addSegment c s1 e1 h1) s2 e2 h2)
    = maxCoordinate (addSegment c s2 e2 h2) /\
  maxHeight (addSegment (addSegment c s1 e1 h1) s2 e2 h2)
    = if s1 <? e1 then Z.max (Z.max (maxHeight c) h1) h2
      else Z.max (maxHeight c) h2.
Proof.
  intros Hwf Hs He Hse2. destruct (wf_wf_from _ Hwf) as [lo Hlo].
  destruct (s1 <? e1) eqn:E1; zb.
  - destruct (addSegment_segments lo c s1 e1 h1 Hlo E1) as (Hw1 & Hh1 & _).
    destruct (addSegment_segments _ (addSegment c s1 e1 h1) s2 e2 h2 Hw1 Hse2)
      as (Hw12 & Hh12 & Hf12).
    destruct (addSegment_segments lo c s2 e2 h2 Hlo Hse2) as (Hw2 & Hh2 & Hf2).
    split; [|split].
    + eapply wf_fused_unique; [exact Hw12|exact Hw2|done|done|].
      intros p. rewrite Hh12, Hh2, Hh1.
      destruct (s2 <=? p) eqn:E2, (p <? e2) eqn:E3, (s1 <=? p) eqn:E4,
        (p <? e1) eqn:E5; zb; simpl; try done; lia.
    + destruct (addSegment_maxima c s1 e1 h1 E1) as [Ha _].
      destruct (addSegment_maxima (addSegment c s1 e1 h1) s2 e2 h2 Hse2)
        as [Hb _].
      destruct (addSegment_maxima c s2 e2 h2 Hse2) as [Hc _]. lia.
    + destruct (addSegment_maxima c s1 e1 h1 E1) as [_ Ha].
      destruct (addSegment_maxima (addSegment c s1 e1 h1) s2 e2 h2 Hse2)
        as [_ Hb]. lia.
  - assert (addSegment c s1 e1 h1 = c) as ->.
    { unfold addSegment. destruct (s1 >=? e1) eqn:E; zb; [done|lia]. }
    split; [done|]. split; [done|].
    unfold addSegment. destruct (s2 >=? e2) eqn:E'; zb; [lia|].
    by destruct (segments c).
Qed.

Lemma addSegment_covered_is_erased_witness :
  wf (segments contour_0_10) /\
  segments (addSegment (addSegment contour_0_10 3 6 8) 2 7 1)
    = segments (addSegment contour_0_10 2 7 1) /\
  maxHeight (addSegment (addSegment contour_0_10 3 6 8) 2 7 1) = 8 /\
  maxHeight (addSegment contour_0_10 2 7 1) = 5.
Proof.
  assert (H1 : wf (segments contour_0_10)) by (simpl; lia).
  split; [exact H1|].
  split; [|split; reflexivity].
  exact (proj1 (addSegment_covered_is_erased contour_0_10 3 6 8 2 7 1 H1
                  ltac:(lia) ltac:(lia) ltac:(lia))).
Defined.

(** X6. Segments over disjoint intervals can be added in either order:
    on a sorted, non-overlapping contour the two orders leave the same
    contour, segment vector and running maxima. *)
Theorem addSegment_disjoint_commute (c : t) (s1 e1 h1 s2 e2 h2 : Z) :
  wf (segments c) -> e1 <= s2 \/ e2 <= s1 ->
  addSegment (addSegment c s1 e1 h1) s2 e2 h2
    = addSegment (addSegment c s2 e2 h2) s1 e1 h1.
Proof.
  intros Hwf Hdis. destruct (wf_wf_from _ Hwf) as [lo Hlo].
  destruct (Z_lt_le_dec s1 e1) as [H1|H1]; cycle 1.
  { assert (forall c', addSegment c' s1 e1 h1 = c') as Hno.
    { intros c'. unfold addSegment.
      destruct (s1 >=? e1) eqn:E; zb; [done|lia]. }
    by rewrite !Hno. }
  destruct (Z_lt_le_dec s2 e2) as [H2|H2]; cycle 1.
  { assert (forall c', addSegment c' s2 e2 h2 = c') as Hno.
    { intros c'. unfold addSegment.
      destruct (s2 >=? e2) eqn:E; zb; [done|lia]. }
    by rewrite !Hno. }
  destruct (addSegment_segments lo c s1 e1 h1 Hlo H1) as (Hw1 & Hh1 & _).
  destruct (addSegment_segments _ (addSegment c s1 e1 h1) s2 e2 h2 Hw1 H2)
    as (Hw12 & Hh12 & Hf12).
  destruct (addSegment_segments lo c s2 e2 h2 Hlo H2) as (Hw2 & Hh2 & _).
  destruct (addSegment_segments _ (addSegment c s2 e2 h2) s1 e1 h1 Hw2 H1)
    as (Hw21 & Hh21 & Hf21).
  assert (Hsegs : segments (addSegment (addSegment c s1 e1 h1) s2 e2 h2)
                  = segments (addSegment (addSegment c s2 e2 h2) s1 e1 h1)).
  { eapply wf_fused_unique; [exact Hw12|exact Hw21|done|done|].
    intros p. rewrite Hh12, Hh21, Hh1, Hh2.
    destruct (s2 <=? p) eqn:E2, (p <? e2) eqn:E3, (s1 <=? p) eqn:E4,
      (p <? e1) eqn:E5; zb; simpl; try done; lia. }
  destruct (addSegment_maxima c s1 e1 h1 H1) as [Ha1 Ha2].
  destruct (addSegment_maxima c s2 e2 h2 H2) as [Hb1 Hb2].
  destruct (addSegment_maxima (addSegment c s1 e1 h1) s2 e2 h2 H2)
    as [Hc1 Hc2].
  destruct (addSegment_maxima (addSegment c s2 e2 h2) s1 e1 h1 H1)
    as [Hd1 Hd2].
  rewrite Ha1 in Hc1. rewrite Ha2 in Hc2. rewrite Hb1 in Hd1.
  rewrite Hb2 in Hd2. clear -Hsegs Hc1 Hc2 Hd1 Hd2.
  destruct (addSegment (addSegment c s1 e1 h1) s2 e2 h2) as [sg1 mc1 mh1].
  destruct (addSegment (addSegment c s2 e2 h2) s1 e1 h1) as [sg2 mc2 mh2].
  cbn [segments maxCoordinate maxHeight] in *. f_equal; [done|lia|lia].
Qed.

Lemma addSegment_disjoint_commute_witness :
  wf (segments contour_0_10) /\
  addSegment (addSegment contour_0_10 1 4 7) 6 12 2
    = addSegment (addSegment contour_0_10 6 12 2) 1 4 7.
Proof.
  assert (H1 : wf (segments contour_0_10)) by (simpl; lia).
  assert (H2 : 4 <= 6 \/ 12 <= 1) by (left; lia).
  split; [exact H1|].
  exact (addSegment_disjoint_commute contour_0_10 1 4 7 6 12 2 H1 H2).
Defined.


(** *** [findSegmentIndex] *)

Lemma lower_bound_spec segs : forall lo p j s,
  wf_from lo segs -> segs !! j = Some s ->
  ((j < lower_bound segs p)%nat <-> start s < p).
Proof.
  induction segs as [|g rest IH]; intros lo p j s Hwf Hj; [done|].
  destruct Hwf as (Hlo & Hpos & Hrest). cbn [lower_bound].
  destruct (start g <? p) eqn:E; zb.
  - destruct j as [|j].
    + injection Hj as <-. split; [done|lia].
    + simpl in Hj. rewrite <- (IH (end_ g) p j s Hrest Hj). lia.
  - split; [lia|]. intros Hs. exfalso.
    destruct j as [|j]; [injection Hj as <-; lia|].
    simpl in Hj. apply list_elem_of_lookup_2 in Hj.
    pose proof (wf_from_lower _ _ _ Hrest Hj). lia.
Qed.

Lemma lower_bound_le_length segs p :
  (lower_bound segs p <= length segs)%nat.
Proof.
  induction segs as [|g rest IH]; simpl; [lia|].
  destruct (start g <? p); simpl; lia.
Qed.

Lemma wf_from_lookup_lt segs : forall lo i j si sj,
  wf_from lo segs -> segs !! i = Some si -> segs !! j = Some sj ->
  (i < j)%nat -> end_ si <= start sj.
Proof.
  induction segs as [|g rest IH]; intros lo i j si sj Hwf Hi Hj Hij; [done|].
  destruct Hwf as (Hlo & Hpos & Hrest).
  destruct j as [|j]; [lia|]. simpl in Hj.
  destruct i as [|i].
  - injection Hi as <-. apply list_elem_of_lookup_2 in Hj.
    by eapply wf_from_lower.
  - simpl in Hi. eapply (IH (end_ g)); [done|done|done|lia].
Qed.

(** X7. On a contour whose segments are sorted and non-overlapping,
    [findSegmentIndex] returns the index of the segment whose interval
    [[start, end)] contains the coordinate, and -1 when no segment
    contains it. *)
Theorem findSegmentIndex_finds_the_segment (c : t) (p : Z) :
  wf (segments c) ->
  (forall i s, segments c !! i = Some s -> start s <= p < end_ s ->
     findSegmentIndex c p = Z.of_nat i) /\
  (heightAt (segments c) p = None -> findSegmentIndex c p = -1).
Proof.
  intros Hwf. destruct (wf_wf_from _ Hwf) as [lo Hlo].
  unfold findSegmentIndex.
  set (segs := segments c) in *.
  set (it := lower_bound segs p).
  assert (Hlb : forall j s, segs !! j = Some s ->
                  ((j < it)%nat <-> start s < p)).
  { intros j s. by apply (lower_bound_spec segs lo). }
  assert (Hlen : (it <= length segs)%nat) by apply lower_bound_le_length.
  split.
  - intros i s Hi Hp.
    destruct segs as [|g0 rest0] eqn:Es; [done|]. rewrite <- Es in *.
    destruct (decide (start s = p)) as [Heq|Hne].
    + (* the lower bound is the segment itself *)
      assert (it = i) as Hit.
      { destruct (Nat.lt_trichotomy it i) as [Hlt|[?|Hlt]]; [|done|].
        - destruct (lookup_lt_is_Some_2 segs it) as [t Ht].
          { apply lookup_lt_Some in Hi. lia. }
          pose proof (wf_from_lookup_lt segs lo it i t s Hlo Ht Hi Hlt).
          pose proof (wf_from_positive lo segs t Hlo
                        (list_elem_of_lookup_2 _ _ _ Ht)).
          assert (it < it)%nat; [|lia]. apply (Hlb it t Ht). lia.
        - apply (Hlb i s Hi) in Hlt. lia. }
      rewrite Hit, Hi. by rewrite (proj2 (Z.eqb_eq _ _) Heq).
    + assert (i < it)%nat as Hlt by (apply (Hlb i s Hi); lia).
      assert (match segs !! it with
              | Some s0 => start s0 =? p | None => false end = false) as ->.
      { destruct (segs !! it) as [t|] eqn:Ht; [|done].
        apply Z.eqb_neq. intros Ht'.
        pose proof (wf_from_lookup_lt segs lo i it s t Hlo Hi Ht Hlt). lia. }
      destruct it as [|it']; [lia|].
      assert (it' = i) as ->.
      { destruct (decide (it' = i)) as [|Hd]; [done|]. exfalso.
        destruct (lookup_lt_is_Some_2 segs it') as [t Ht]; [lia|].
        assert (start t < p) by (apply (Hlb it' t Ht); lia).
        pose proof (wf_from_lookup_lt segs lo i it' s t Hlo Hi Ht ltac:(lia)).
        lia. }
      rewrite Hi.
      destruct (start s <=? p) eqn:E1, (p <? end_ s) eqn:E2; zb; simpl;
        [done|lia..].
  - intros Hnone.
    assert (Hno : forall j s, segs !! j = Some s -> ~ start s <= p < end_ s).
    { intros j s Hj Hp.
      rewrite (heightAt_elem lo segs s p Hlo
                 (list_elem_of_lookup_2 _ _ _ Hj) Hp) in Hnone. done. }
    destruct segs as [|g0 rest0] eqn:Es; [done|]. rewrite <- Es in *.
    destruct (segs !! it) as [t|] eqn:Ht.
    + destruct (start t =? p) eqn:E; zb.
      * exfalso. apply (Hno it t Ht).
        pose proof (wf_from_positive lo segs t Hlo
                      (list_elem_of_lookup_2 _ _ _ Ht)). lia.
      * destruct it as [|it']; [done|].
        destruct (segs !! it') as [u|] eqn:Hu; [|done].
        destruct ((start u <=? p) && (p <? end_ u)) eqn:E'; [|done]. zb.
        exfalso. apply (Hno it' u Hu). lia.
    + destruct it as [|it']; [done|].
      destruct (segs !! it') as [u|] eqn:Hu; [|done].
      destruct ((start u <=? p) && (p <? end_ u)) eqn:E'; [|done]. zb.
      exfalso. apply (Hno it' u Hu). lia.
Qed.

Lemma findSegmentIndex_finds_the_segment_witness :
  wf (segments (addSegment contour_0_10 3 6 8)) /\
  findSegmentIndex (addSegment contour_0_10 3 6 8) 4 = 1 /\
  findSegmentIndex (addSegment contour_0_10 3 6 8) 10 = -1.
Proof.
  assert (H1 : wf (segments (addSegment contour_0_10 3 6 8)))
    by (simpl; lia).
  destruct (findSegmentIndex_finds_the_segment
              (addSegment contour_0_10 3 6 8) 4 H1) as [Hfound _].
  destruct (findSegmentIndex_finds_the_segment
              (addSegment contour_0_10 3 6 8) 10 H1) as [_ Hnone].
  split; [exact H1|]. split.
  - exact (Hfound 1%nat (mkSeg 3 6 8) eq_refl ltac:(simpl; lia)).
  - exact (Hnone eq_refl).
Defined.


(** *** [merge]: the pointwise maximum of two skylines *)

Lemma insert_int_elem x l z : z ∈ insert_int x l <-> z = x \/ z ∈ l.
Proof.
  induction l as [|y r IH]; simpl.
  - rewrite elem_of_cons. split; intros [?|?]; auto.
  - destruct (y <? x).
    + rewrite !elem_of_cons, IH. tauto.
    + rewrite !elem_of_cons. tauto.
Qed.

Lemma sort_ints_elem l z : z ∈ sort_ints l <-> z ∈ l.
Proof.
  induction l as [|x r IH]; [done|]. unfold sort_ints in *. simpl.
  rewrite insert_int_elem, elem_of_cons, IH. tauto.
Qed.

Lemma insert_int_nondec x l : forall lo,
  lo <= x -> nondec_from lo l -> nondec_from lo (insert_int x l).
Proof.
  induction l as [|y r IH]; intros lo Hx Hl; simpl; [done|].
  destruct Hl as [Hy Hr]. destruct (y <? x) eqn:E; zb; simpl.
  - split; [done|]. apply IH; [lia|done].
  - repeat split; auto.
Qed.

Lemma sort_ints_nondec l lo :
  (forall z, z ∈ l -> lo <= z) -> nondec_from lo (sort_ints l).
Proof.
  induction l as [|x r IH]; intros Hlo; [done|]. unfold sort_ints in *. simpl.
  apply insert_int_nondec.
  - apply Hlo. apply elem_of_cons. by left.
  - apply IH. intros z Hz. apply Hlo. apply elem_of_cons. by right.
Qed.

Lemma unique_spec r : forall x,
  nondec_from x r ->
  exists tl, unique (x :: r) = x :: tl /\ inc_from x tl /\
             (forall z, z ∈ x :: tl <-> z ∈ x :: r).
Proof.
  induction r as [|y r' IH]; intros x Hr.
  - exists []. by repeat split.
  - destruct Hr as [Hxy Hr']. destruct (IH y Hr') as (tl & Htl & Hinc & Hel).
    cbn [unique]. cbn [unique] in Htl. destruct (x =? y) eqn:E; zb.
    + subst y. exists tl. split; [exact Htl|]. split; [exact Hinc|].
      intros z. rewrite Hel, !elem_of_cons. tauto.
    + exists (y :: tl). rewrite Htl. split; [done|]. split.
      * split; [lia|done].
      * intros z. rewrite (elem_of_cons (y :: tl)), Hel.
        rewrite (elem_of_cons (y :: r')). tauto.
Qed.

Lemma inc_from_lower tl : forall x z, inc_from x tl -> z ∈ tl -> x < z.
Proof.
  induction tl as [|y tl' IH]; intros x z Hinc Hz;
    [by apply elem_of_nil in Hz|].
  destruct Hinc as [Hxy Hinc].
  apply elem_of_cons in Hz as [->|Hz]; [done|].
  specialize (IH y z Hinc Hz). lia.
Qed.

Lemma heightAt_const segs (a b p q : Z) :
  (forall s, s ∈ segs ->
     (start s <= a \/ b <= start s) /\ (end_ s <= a \/ b <= end_ s)) ->
  a <= p < b -> a <= q < b -> heightAt segs p = heightAt segs q.
Proof.
  intros Hs Hp Hq. induction segs as [|g rest IH]; [done|]. simpl.
  destruct (Hs g (proj2 (elem_of_cons _ _ _) (or_introl eq_refl)))
    as [H1 H2].
  rewrite IH by (intros s Hin; apply Hs, elem_of_cons; by right).
  destruct (start g <=? p) eqn:E1, (p <? end_ g) eqn:E2,
    (start g <=? q) eqn:E3, (q <? end_ g) eqn:E4; zb; simpl; try done; lia.
Qed.

(** Over an interval that no segment starts or ends in, a range query
    returns what a query at any of its points returns. *)
Lemma getHeight_const (c : t) (a b p : Z) :
  wf (segments c) -> a < b ->
  (forall s, s ∈ segments c ->
     (start s <= a \/ b <= start s) /\ (end_ s <= a \/ b <= end_ s)) ->
  a <= p < b -> getHeight c a b = ground (segments c) p.
Proof.
  intros Hwf Hab Hs Hp. destruct (wf_wf_from _ Hwf) as [lo Hlo].
  destruct (getHeight_range lo c a b Hlo Hab) as (Hge & Hub & Hatt).
  unfold ground.
  destruct (heightAt (segments c) p) as [h|] eqn:Hh; simpl.
  - specialize (Hub p h Hp Hh).
    destruct Hatt as [H0|(q & Hq & Hqh)]; [lia|].
    rewrite (heightAt_const _ a b q p Hs Hq Hp), Hh in Hqh.
    injection Hqh as Hqh. lia.
  - destruct Hatt as [H0|(q & Hq & Hqh)]; [lia|].
    rewrite (heightAt_const _ a b q p Hs Hq Hp), Hh in Hqh. done.
Qed.

Lemma breakpoints_elem segs z :
  z ∈ breakpoints segs <-> exists s, s ∈ segs /\ (z = start s \/ z = end_ s).
Proof.
  unfold breakpoints. rewrite list_elem_of_In, in_flat_map. split.
  - intros (s & Hs & Hz). exists s. split; [by apply list_elem_of_In|].
    simpl in Hz. destruct Hz as [Hz|[Hz|Hz]]; [by left|by right|done].
  - intros (s & Hs & Hz). exists s. split; [by apply list_elem_of_In|].
    simpl. destruct Hz as [-> | ->]; auto.
Qed.

Section Merge.
Variables (c other : t).
Hypothesis Hwfc : wf (segments c).
Hypothesis Hwfo : wf (segments other).

Local Abbreviation Bp :=
  (breakpoints (segments c) ++ breakpoints (segments other)).

Lemma mergeIntervals_spec tl : forall x,
  inc_from x tl ->
  (forall z, z ∈ Bp -> z <= x \/ z ∈ tl) ->
  wf_from x (mergeIntervals c other (x :: tl)) /\
  (forall p h, heightAt (mergeIntervals c other (x :: tl)) p = Some h ->
     h = Z.max (ground (segments c) p) (ground (segments other) p)) /\
  (forall p y, y ∈ tl -> x <= p < y ->
     is_Some (heightAt (mergeIntervals c other (x :: tl)) p)).
Proof.
  induction tl as [|y tl' IH]; intros x Hinc HB.
  - simpl. split; [done|]. split; [done|].
    intros p y Hy. by apply elem_of_nil in Hy.
  - destruct Hinc as [Hxy Hinc].
    assert (HB' : forall z, z ∈ Bp -> z <= y \/ z ∈ tl').
    { intros z Hz. destruct (HB z Hz) as [?|Hin]; [left; lia|].
      apply elem_of_cons in Hin as [->|?]; [left; lia|by right]. }
    destruct (IH y Hinc HB') as (IHw & IHh & IHd).
    assert (Hfree : forall z, z ∈ Bp -> z <= x \/ y <= z).
    { intros z Hz. destruct (HB z Hz) as [?|Hin]; [by left|]. right.
      apply elem_of_cons in Hin as [->|Hin]; [lia|].
      pose proof (inc_from_lower _ _ _ Hinc Hin). lia. }
    assert (Hfc : forall s, s ∈ segments c ->
              (start s <= x \/ y <= start s) /\ (end_ s <= x \/ y <= end_ s)).
    { intros s Hs. split; apply Hfree, elem_of_app; left;
        apply breakpoints_elem; exists s; auto. }
    assert (Hfo : forall s, s ∈ segments other ->
              (start s <= x \/ y <= start s) /\ (end_ s <= x \/ y <= end_ s)).
    { intros s Hs. split; apply Hfree, elem_of_app; right;
        apply breakpoints_elem; exists s; auto. }
    change (mergeIntervals c other (x :: y :: tl'))
      with (if x =? y then mergeIntervals c other (y :: tl')
            else mkSeg x y (Z.max (getHeight c x y) (getHeight other x y))
                 :: mergeIntervals c other (y :: tl')).
    destruct (x =? y) eqn:E; zb; [lia|].
    split; [|split].
    + simpl. repeat split; [lia|done|exact IHw].
    + intros p h. cbn [heightAt start end_ height].
      destruct ((x <=? p) && (p <? y)) eqn:Ep.
      * zb. intros [= <-]. assert (x <= p < y) as Hp by lia.
        rewrite (getHeight_const c x y p Hwfc Hxy Hfc Hp).
        rewrite (getHeight_const other x y p Hwfo Hxy Hfo Hp). done.
      * apply IHh.
    + intros p y' Hy' Hp. cbn [heightAt start end_ height].
      destruct ((x <=? p) && (p <? y)) eqn:Ep; [done|].
      assert (y <= p) by (zb; destruct Ep; zb; lia).
      apply elem_of_cons in Hy' as [->|Hy']; [lia|].
      apply (IHd p y' Hy'). lia.
Qed.

End Merge.

Lemma sort_ints_head (l : list Z) :
  l <> [] -> exists x r, sort_ints l = x :: r /\ nondec_from x r.
Proof.
  intros Hl. destruct l as [|z l']; [done|].
  assert (z ∈ sort_ints (z :: l')) as Hz.
  { apply sort_ints_elem, elem_of_cons. by left. }
  assert (Hs : nondec_from (foldr Z.min z l') (sort_ints (z :: l'))).
  { apply sort_ints_nondec. clear. intros y Hy.
    apply elem_of_cons in Hy as [->|Hy].
    - induction l' as [|w l' IH]; simpl; lia.
    - induction l' as [|w l' IH]; [by apply elem_of_nil in Hy|].
      apply elem_of_cons in Hy as [->|Hy]; simpl; [lia|].
      specialize (IH Hy). lia. }
  destruct (sort_ints (z :: l')) as [|x r]; [by apply elem_of_nil in Hz|].
  exists x, r. split; [done|]. by destruct Hs.
Qed.

(** The break points after [std::sort] and [std::unique]: strictly
    increasing, and the same numbers as before. *)
Lemma merge_breakpoints (l : list Z) :
  l <> [] ->
  exists x tl, unique (sort_ints l) = x :: tl /\ inc_from x tl /\
               (forall z, z ∈ x :: tl <-> z ∈ l).
Proof.
  intros Hl. destruct (sort_ints_head l Hl) as (x & r & Hs & Hnd).
  destruct (unique_spec r x Hnd) as (tl & Htl & Hinc & Hel).
  exists x, tl. rewrite Hs. split; [done|]. split; [done|].
  intros z. by rewrite Hel, <- Hs, sort_ints_elem.
Qed.

(** X8. [merge] builds the pointwise maximum of two skylines. For two
    contours whose segments are sorted and non-overlapping, not both
    empty, the call succeeds and leaves a sorted, non-overlapping contour
    without fusible neighbours; every point for which the result stores a
    height has the larger of the heights that the two contours show there
    (a point that a contour does not cover, or covers with a negative
    height, counts as 0), and every point that one of the two contours
    covered is covered by the result. The running maxima are the larger
    of the two. *)
Theorem merge_is_pointwise_max (c other : t) :
  wf (segments c) -> wf (segments other) ->
  segments c <> [] \/ segments other <> [] ->
  exists r,
    merge c other = Some r /\
    wf (segments r) /\ fused (segments r) /\
    (forall p h, heightAt (segments r) p = Some h ->
       h = Z.max (ground (segments c) p) (ground (segments other) p)) /\
    (forall p, is_Some (heightAt (segments c) p)
               \/ is_Some (heightAt (segments other) p) ->
       is_Some (heightAt (segments r) p)) /\
    maxCoordinate r = Z.max (maxCoordinate c) (maxCoordinate other) /\
    maxHeight r = Z.max (maxHeight c) (maxHeight other).
Proof.
  intros Hwfc Hwfo Hne. unfold merge.
  set (l := breakpoints (segments c) ++ breakpoints (segments other)).
  assert (Hl : l <> []).
  { subst l. intros Hnil. apply app_eq_nil in Hnil as [H1 H2].
    destruct Hne as [Hne|Hne]; apply Hne.
    - destruct (segments c); [done|discriminate H1].
    - destruct (segments other); [done|discriminate H2]. }
  destruct (merge_breakpoints l Hl) as (x & tl & HB & Hinc & Hel).
  rewrite HB.
  assert (HBp : forall z, z ∈ l -> z <= x \/ z ∈ tl).
  { intros z Hz. apply Hel in Hz. apply elem_of_cons in Hz as [->|Hz];
      [left; lia|by right]. }
  destruct (mergeIntervals_spec c other Hwfc Hwfo tl x Hinc HBp)
    as (Hw & Hh & Hd).
  eexists. split; [reflexivity|]. cbn [segments maxCoordinate maxHeight].
  split; [|split; [|split; [|split; [|done]]]].
  - eapply wf_from_wf. by apply mergeSegments_wf.
  - apply mergeSegments_fused.
  - intros p h. rewrite (mergeSegments_heightAt _ _ _ Hw). apply Hh.
  - intros p Hp. rewrite (mergeSegments_heightAt _ _ _ Hw).
    assert (Hcov : exists s, s ∈ segments c ++ segments other /\
                     start s <= p < end_ s).
    { destruct Hp as [[h Hp]|[h Hp]];
        destruct (heightAt_Some_elem _ _ _ Hp) as (s & Hs & Hsp & _);
        exists s; (split; [apply elem_of_app; auto|done]). }
    destruct Hcov as (s & Hs & Hsp).
    assert (start s ∈ l /\ end_ s ∈ l) as [Hs1 Hs2].
    { subst l. apply elem_of_app in Hs as [Hs|Hs].
      - split; apply elem_of_app; left; apply breakpoints_elem; exists s; auto.
      - split; apply elem_of_app; right; apply breakpoints_elem; exists s; auto. }
    apply Hel in Hs1, Hs2.
    assert (x <= start s).
    { apply elem_of_cons in Hs1 as [->|Hs1]; [lia|].
      pose proof (inc_from_lower _ _ _ Hinc Hs1). lia. }
    apply (Hd p (end_ s)); [|lia].
    apply elem_of_cons in Hs2 as [Heq|Hs2]; [lia|done].
Qed.

Lemma merge_is_pointwise_max_witness :
  wf (segments contour_0_10) /\ wf (segments contour_5_15) /\
  merge contour_0_10 contour_5_15
    = Some {| segments := [mkSeg 0 5 5; mkSeg 5 10 7; mkSeg 10 15 3];
              maxCoordinate := 15; maxHeight := 7 |} /\
  exists r, merge contour_0_10 contour_5_15 = Some r /\ wf (segments r).
Proof.
  assert (H1 : wf (segments contour_0_10)) by (simpl; lia).
  assert (H2 : wf (segments contour_5_15)) by (simpl; lia).
  assert (H3 : segments contour_0_10 <> [] \/ segments contour_5_15 <> [])
    by (left; discriminate).
  split; [exact H1|]. split; [exact H2|]. split; [reflexivity|].
  destruct (merge_is_pointwise_max contour_0_10 contour_5_15 H1 H2 H3)
    as (r & Hr & Hw & _).
  exists r. split; [exact Hr|exact Hw].
Defined.

(** X9. [merge] fails (the source throws [std::length_error] from
    [reserve]) exactly when neither contour has a segment. *)
Theorem merge_of_two_empty_contours (c other : t) :
  merge c other = None <-> segments c = [] /\ segments other = [].
Proof.
  unfold merge. split.
  - intros H.
    set (l := breakpoints (segments c) ++ breakpoints (segments other)) in *.
    assert (Hnil : l = []).
    { destruct (decide (l = [])) as [|Hl]; [done|]. exfalso.
      destruct (merge_breakpoints l Hl) as (x & tl & HB & _).
      by rewrite HB in H. }
    subst l. apply app_eq_nil in Hnil as [H1 H2].
    split.
    + destruct (segments c); [done|]. discriminate H1.
    + destruct (segments other); [done|]. discriminate H2.
  - intros [-> ->]. reflexivity.
Qed.

(** *** A range query after an update *)

Lemma getHeight_empty_range (c : t) (a b : Z) : b <= a -> getHeight c a b = 0.
Proof. intros H. unfold getHeight. destruct (a >=? b) eqn:E; zb; [done|lia]. Qed.

(** X10. A range query after an update. On a sorted, non-overlapping
    contour, after [addSegment(s, e, h)] with [s < e] a query
    [getHeight(a, b)] with [a < b] that misses [[s, e)] returns what it
    returned before; one that meets [[s, e)] returns the largest of 0,
    [h] and what the old contour stored over the parts of [[a, b)] to
    the left and to the right of [[s, e)]. In particular a query inside
    [[s, e)] returns [max 0 h], whatever was stored there before. *)
Theorem getHeight_after_addSegment (c : t) (s e h a b : Z) :
  wf (segments c) -> s < e -> a < b ->
  getHeight (addSegment c s e h) a b
    = (if (a <? e) && (s <? b)
       then Z.max (Z.max 0 h) (Z.max (getHeight c a s) (getHeight c e b))
       else getHeight c a b) /\
  (s <= a -> b <= e -> getHeight (addSegment c s e h) a b = Z.max 0 h).
Proof.
  intros Hwf Hse Hab. destruct (wf_wf_from _ Hwf) as [lo Hlo].
  destruct (addSegment_segments lo c s e h Hlo Hse) as (Hw' & Hh' & _).
  destruct (getHeight_range _ (addSegment c s e h) a b Hw' Hab)
    as (Hge' & Hub' & Hatt').
  assert (Hmain : getHeight (addSegment c s e h) a b
    = (if (a <? e) && (s <? b)
       then Z.max (Z.max 0 h) (Z.max (getHeight c a s) (getHeight c e b))
       else getHeight c a b)).
  { destruct ((a <? e) && (s <? b)) eqn:Eo; zb.
    - assert (a < e /\ s < b) as [Hae Hsb] by (split; lia).
      assert (H1 : 0 <= getHeight c a s /\
                (forall p h0, a <= p < s ->
                   heightAt (segments c) p = Some h0 -> h0 <= getHeight c a s) /\
                (getHeight c a s = 0 \/ exists p, a <= p < s /\
                   heightAt (segments c) p = Some (getHeight c a s))).
      { destruct (Z_lt_le_dec a s) as [Has|Has];
          [by apply (getHeight_range lo)|].
        rewrite getHeight_empty_range by lia.
        split; [lia|]. split; [intros; lia|by left]. }
      assert (H2 : 0 <= getHeight c e b /\
                (forall p h0, e <= p < b ->
                   heightAt (segments c) p = Some h0 -> h0 <= getHeight c e b) /\
                (getHeight c e b = 0 \/ exists p, e <= p < b /\
                   heightAt (segments c) p = Some (getHeight c e b))).
      { destruct (Z_lt_le_dec e b) as [Has|Has];
          [by apply (getHeight_range lo)|].
        rewrite getHeight_empty_range by lia.
        split; [lia|]. split; [intros; lia|by left]. }
      destruct H1 as (Hge1 & Hub1 & Hatt1), H2 as (Hge2 & Hub2 & Hatt2).
      set (v1 := getHeight c a s) in *. set (v2 := getHeight c e b) in *.
      set (v := getHeight (addSegment c s e h) a b) in *.
      apply Z.le_antisymm.
      + destruct Hatt' as [->|(p & Hp & Hhp)]; [lia|].
        rewrite Hh' in Hhp.
        destruct ((s <=? p) && (p <? e)) eqn:Ep; zb.
        * injection Hhp as <-. lia.
        * assert (p < s \/ e <= p) as [Hps|Hps]
            by (destruct Ep; zb; lia).
          -- assert (Hin : a <= p < s) by lia.
             specialize (Hub1 p v Hin Hhp). lia.
          -- assert (Hin : e <= p < b) by lia.
             specialize (Hub2 p v Hin Hhp). lia.
      + assert (Hh : h <= v).
        { assert (Hin : a <= Z.max a s < b) by lia.
          apply (Hub' (Z.max a s) h Hin). rewrite Hh'.
          destruct ((s <=? Z.max a s) && (Z.max a s <? e)) eqn:Ep; zb;
            [done|]. destruct Ep; zb; lia. }
        assert (Hv1 : v1 <= v).
        { destruct Hatt1 as [->|(p & Hp & Hhp)]; [lia|].
          assert (Hin : a <= p < b) by lia.
          apply (Hub' p v1 Hin). rewrite Hh'.
          destruct ((s <=? p) && (p <? e)) eqn:Ep; zb; [lia|done]. }
        assert (Hv2 : v2 <= v).
        { destruct Hatt2 as [->|(p & Hp & Hhp)]; [lia|].
          assert (Hin : a <= p < b) by lia.
          apply (Hub' p v2 Hin). rewrite Hh'.
          destruct ((s <=? p) && (p <? e)) eqn:Ep; zb; [lia|done]. }
        lia.
    - destruct (getHeight_range lo c a b Hlo Hab) as (Hge & Hub & Hatt).
      assert (Hsame : forall p, a <= p < b ->
                heightAt (segments (addSegment c s e h)) p
                  = heightAt (segments c) p).
      { intros p Hp. rewrite Hh'.
        destruct ((s <=? p) && (p <? e)) eqn:Ep; zb; [|done].
        destruct Eo; zb; lia. }
      apply Z.le_antisymm.
      + destruct Hatt' as [->|(p & Hp & Hhp)]; [lia|].
        rewrite Hsame in Hhp by done. by apply (Hub p).
      + destruct Hatt as [->|(p & Hp & Hhp)]; [lia|].
        rewrite <- Hsame in Hhp by done. by apply (Hub' p). }
  split; [exact Hmain|].
  intros Hsa Hbe. rewrite Hmain.
  assert (Eo : (a <? e) && (s <? b) = true) by (zb; lia).
  rewrite Eo, !getHeight_empty_range by lia. lia.
Qed.

Lemma getHeight_after_addSegment_witness :
  wf (segments contour_0_10) /\ 3 < 6 /\ 4 < 8 /\
  getHeight (addSegment contour_0_10 3 6 2) 4 8 = 5.
Proof.
  assert (H1 : wf (segments contour_0_10)) by (simpl; lia).
  assert (H2 : 3 < 6) by lia.
  assert (H3 : 4 < 8) by lia.
  split; [exact H1|]. split; [exact H2|]. split; [exact H3|].
  rewrite (proj1 (getHeight_after_addSegment contour_0_10 3 6 2 4 8 H1 H2 H3)).
  reflexivity.
Defined.

End ContourProperties.

(** ** Further properties of the HB*-tree *)

Module HBStarTreeProperties.
Import HBStarTreeNode HBStarTree Examples HBStarTreeFacts.
Import ContourFacts ContourProperties StdMapFacts StdMapProperties.

Section WithASF.
Context {ASF : Type} `{ops : ASFBStarTree ASF}.
Context `{perturb : ASFBStarTreePerturb ASF}.
Implicit Types st s : HBStarTree.t ASF.

(** *** What the structural operations leave alone *)

Lemma sameButNodes_refl st : sameButNodes st st.
Proof. by repeat split. Qed.

Lemma sameButNodes_trans st1 st2 st3 :
  sameButNodes st1 st2 -> sameButNodes st2 st3 -> sameButNodes st1 st3.
Proof.
  unfold sameButNodes. intros H1 H2.
  destruct H1 as (?&?&?&?&?&?&?&?&?&?&?&?), H2 as (?&?&?&?&?&?&?&?&?&?&?&?).
  repeat split; congruence.
Qed.

Lemma iter_release_step_sameButNodes (k : nat) st :
  sameButNodes st (Nat.iter k release_step st).
Proof.
  induction k as [|k IH]; [apply sameButNodes_refl|].
  rewrite Nat.iter_succ. eapply sameButNodes_trans; [exact IH|].
  by repeat split.
Qed.

Lemma release_sameButNodes st : sameButNodes st (release st).
Proof. apply iter_release_step_sameButNodes. Qed.

Lemma chainLeft_sameButNodes (rest : list nat) : forall st (current : nat),
  sameButNodes st (chainLeft st current rest).
Proof.
  induction rest as [|next rest IH]; intros st current;
    [apply sameButNodes_refl|].
  simpl. eapply sameButNodes_trans; [|apply IH]. by repeat split.
Qed.

Lemma createContourNodes_sameButNodes (segs : list Contour.ContourSegment) :
  forall st (groupName : string) (i : nat),
  sameButNodes st (createContourNodes st groupName i segs).2.
Proof.
  induction segs as [|g segs IH]; intros st groupName i;
    [apply sameButNodes_refl|].
  cbn [createContourNodes]. unfold newNode.
  set (st1 := set_nextNode _ _).
  specialize (IH st1 groupName (S i)).
  destruct (createContourNodes st1 groupName (S i) segs) as [others st2].
  cbn [snd] in *. eapply sameButNodes_trans; [|exact IH]. by repeat split.
Qed.

Lemma reattach_sameButNodes st (danglingNode : nat) :
  sameButNodes st (reattach st danglingNode).
Proof.
  unfold reattach.
  destruct (findNearestContourNode st (Some danglingNode)) as [c|];
    [|apply sameButNodes_refl].
  destruct (getRightChild st c); by repeat split.
Qed.

Lemma fold_reattach_sameButNodes (l : list nat) : forall st,
  sameButNodes st (fold_left reattach l st).
Proof.
  induction l as [|d l IH]; intros st; [apply sameButNodes_refl|].
  simpl. eapply sameButNodes_trans; [apply reattach_sameButNodes|apply IH].
Qed.

Lemma updateContourNodesOf_sameButNodes st (entry : string * nat) :
  sameButNodes st (updateContourNodesOf st entry).
Proof.
  unfold updateContourNodesOf. destruct entry as [groupName hierarchyNode].
  destruct (nodes st !! hierarchyNode) as [hn|]; [|apply sameButNodes_refl].
  destruct (getASFTree hn) as [a|]; [|apply sameButNodes_refl].
  destruct (asfTrees st !! a) as [asfTree|]; [|apply sameButNodes_refl].
  pose proof (createContourNodes_sameButNodes
                (Contour.getSegments (asf_getContours asfTree).1)
                st groupName 0) as Hc.
  destruct (createContourNodes st groupName 0 _) as [newContourNodes st1].
  cbn [snd] in Hc.
  eapply sameButNodes_trans; [exact Hc|].
  eapply sameButNodes_trans; [|apply release_sameButNodes].
  eapply sameButNodes_trans; [|apply fold_reattach_sameButNodes].
  destruct newContourNodes as [|first others]; [apply sameButNodes_refl|].
  eapply sameButNodes_trans; [|apply chainLeft_sameButNodes].
  by repeat split.
Qed.

Lemma updateContourNodes_sameButNodes st :
  sameButNodes st (updateContourNodes st).
Proof.
  unfold updateContourNodes. generalize (symmetryGroupNodes st).
  intros l. revert st.
  induction l as [|entry l IH]; intros st; [apply sameButNodes_refl|].
  simpl. eapply sameButNodes_trans;
    [apply updateContourNodesOf_sameButNodes|apply IH].
Qed.

(** *** The bounding box *)

Lemma boundingBox_fold (mods : Modules) : forall maxX maxY,
  let r := fold_left
             (fun '(maxX, maxY) (kv : string * Module_.t) =>
                (Z.max maxX (toInt (Module_.x kv.2 + Module_.width kv.2)),
                 Z.max maxY (toInt (Module_.y kv.2 + Module_.height kv.2))))
             mods (maxX, maxY) in
  maxX <= r.1 /\ maxY <= r.2 /\
  (maxX <= INT_MAX -> r.1 <= INT_MAX) /\
  (maxY <= INT_MAX -> r.2 <= INT_MAX) /\
  Forall (fun kv : string * Module_.t =>
            toInt (Module_.x kv.2 + Module_.width kv.2) <= r.1 /\
            toInt (Module_.y kv.2 + Module_.height kv.2) <= r.2) mods.
Proof.
  induction mods as [|kv mods IH]; intros maxX maxY; simpl.
  - repeat split; try lia. constructor.
  - pose proof (HBStarTreeFacts.toInt_range
                  (Module_.x kv.2 + Module_.width kv.2)) as Hx.
    pose proof (HBStarTreeFacts.toInt_range
                  (Module_.y kv.2 + Module_.height kv.2)) as Hy.
    specialize (IH (Z.max maxX (toInt (Module_.x kv.2 + Module_.width kv.2)))
                   (Z.max maxY (toInt (Module_.y kv.2 + Module_.height kv.2)))).
    simpl in IH. destruct IH as (H1 & H2 & H3 & H4 & H5).
    split; [lia|]. split; [lia|].
    split; [intros ?; apply H3; lia|].
    split; [intros ?; apply H4; lia|].
    constructor; [lia|done].
Qed.

Lemma find_elem {V : Type} (m : StdMap.t V) (k : string) (v : V) :
  StdMap.find m k = Some v -> (k, v) ∈ m.
Proof.
  induction m as [|[k' v'] rest IH]; simpl; [done|].
  destruct (String.eqb k k') eqn:E.
  - apply String.eqb_eq in E. subst k'. intros [= ->].
    apply elem_of_cons. by left.
  - intros H. apply elem_of_cons. right. by apply IH.
Qed.


Lemma boundingBox_range (mods : Modules) :
  0 <= (boundingBox mods).1 <= INT_MAX /\
  0 <= (boundingBox mods).2 <= INT_MAX.
Proof.
  destruct (boundingBox_fold mods 0 0) as (H1 & H2 & H3 & H4 & _).
  fold (boundingBox mods) in H1, H2, H3, H4.
  split; (split; [done|]); [by apply H3|by apply H4].
Qed.

(** *** The outcome of [pack] *)

Lemma repackAffectedSubtrees_fields st :
  modifiedSubtrees (repackAffectedSubtrees st) = ∅ /\
  root (repackAffectedSubtrees st) = root st /\
  nodeMap (repackAffectedSubtrees st) = nodeMap st /\
  moduleNodes (repackAffectedSubtrees st) = moduleNodes st /\
  symmetryGroupNodes (repackAffectedSubtrees st) = symmetryGroupNodes st /\
  symmetryGroups (repackAffectedSubtrees st) = symmetryGroups st /\
  totalArea (repackAffectedSubtrees st) = totalArea st /\
  isPacked (repackAffectedSubtrees st) = isPacked st.
Proof.
  unfold repackAffectedSubtrees.
  destruct (decide (modifiedSubtrees st = ∅)) as [He|_]; [by repeat split|].
  destruct (fold_packSubtree_sameTree (rootsToRepack st) st)
    as (_&_&?&?&?&?&?&_&?&?).
  set (st1 := fold_left packSubtree (rootsToRepack st) st) in *.
  destruct (release_sameButNodes (set_modifiedSubtrees ∅ st1))
    as (_&_&?&?&_&_&?&?&?&?&?&?).
  cbn [symmetryGroups root moduleNodes symmetryGroupNodes nodeMap
       modifiedSubtrees totalArea isPacked set_modifiedSubtrees] in *.
  repeat split; congruence.
Qed.

Lemma pack_full_fields st (r : nat) :
  root st = Some r -> modifiedSubtrees st = ∅ ->
  (pack st).1 = true /\
  isPacked (pack st).2 = true /\
  modifiedSubtrees (pack st).2 = ∅ /\
  root (pack st).2 = Some r /\
  nodeMap (pack st).2 = nodeMap st /\
  moduleNodes (pack st).2 = moduleNodes st /\
  symmetryGroupNodes (pack st).2 = symmetryGroupNodes st /\
  totalArea (pack st).2
    = toInt ((boundingBox (modules (pack st).2)).1
             * (boundingBox (modules (pack st).2)).2).
Proof.
  intros Hroot Hmarks. unfold pack. rewrite Hroot.
  destruct (decide (modifiedSubtrees st = ∅)) as [_|]; [|done].
  set (st3 := set_verticalContour _ _).
  pose proof (packSubtree_sameTree st3 r)
    as (_&_&_&Hr&Hmn&Hsn&Hnm&Hms&_&_).
  set (st4 := packSubtree st3 r) in *.
  destruct (boundingBox (modules st4)) as [maxX maxY] eqn:Hbb.
  set (st5 := set_totalArea (toInt (maxX * maxY)) st4).
  destruct (updateContourNodes_sameButNodes st5)
    as (_&Hm6&_&Hr6&_&_&Hmn6&Hsn6&Hnm6&Hms6&Ha6&_).
  set (st6 := updateContourNodes st5) in *.
  cbn [fst snd isPacked modifiedSubtrees root nodeMap moduleNodes
       symmetryGroupNodes modules set_isPacked totalArea].
  assert (Hmods : modules st6 = modules st4) by (rewrite Hm6; reflexivity).
  rewrite Hmods, Hbb. cbn [fst snd].
  split; [done|]. split; [done|].
  split; [rewrite Hms6; subst st5; simpl; rewrite Hms; by subst st3|].
  split; [rewrite Hr6; subst st5; simpl; rewrite Hr; by subst st3|].
  split; [rewrite Hnm6; subst st5; simpl; rewrite Hnm; by subst st3|].
  split; [rewrite Hmn6; subst st5; simpl; rewrite Hmn; by subst st3|].
  split; [rewrite Hsn6; subst st5; simpl; rewrite Hsn; by subst st3|].
  rewrite Ha6; by subst st5.
Qed.





(** *** The skylines stay sorted *)

Lemma addSegment_wf (c : Contour.t) (s e h : Z) :
  Contour.wf (Contour.segments c) ->
  Contour.wf (Contour.segments (Contour.addSegment c s e h)).
Proof.
  intros Hwf. destruct (wf_wf_from _ Hwf) as [lo Hlo].
  eapply wf_from_wf. by apply addSegment_any_wf.
Qed.

Lemma packNode_skylines st (node : nat) (n : HBStarTreeNode.t) :
  skylines_wf st -> skylines_wf (packNode st node n).1.
Proof.
  intros [Hh Hv]. unfold packNode, packModuleNode, packHierarchyNode.
  destruct (type n).
  - destruct (StdMap.find _ _); [|done]. cbn.
    split; by apply addSegment_wf.
  - destruct (getASFTree n) as [a|]; [|done].
    destruct (asfTrees st !! a) as [asfTree|]; [|done].
    destruct (asf_pack asfTree (modules st)) as [asfTree' mods1].
    destruct (islandBounds _ _) as [[[minX minY] symMaxX] symMaxY].
    cbn. split; by apply addSegment_wf.
  - done.
Qed.

Lemma packSubtree_rec_skylines (fuel : nat) : forall st (node : nat),
  skylines_wf st -> skylines_wf (packSubtree_rec fuel st node).
Proof.
  induction fuel as [|fuel IH]; intros st node Hwf; simpl; [done|].
  destruct (nodes st !! node) as [n|]; [|done].
  pose proof (packNode_skylines st node n Hwf) as Hn.
  destruct (packNode st node n) as [st1 goOn]. simpl in Hn.
  destruct goOn; [|done].
  destruct (leftChild n) as [l|], (rightChild n) as [r|]; auto.
Qed.

Lemma fold_packSubtree_skylines (l : list nat) : forall st,
  skylines_wf st -> skylines_wf (fold_left packSubtree l st).
Proof.
  induction l as [|node l IH]; intros st Hwf; simpl; [done|].
  apply IH. by apply packSubtree_rec_skylines.
Qed.

Lemma skylines_wf_ext st st' :
  horizontalContour st' = horizontalContour st ->
  verticalContour st' = verticalContour st ->
  skylines_wf st -> skylines_wf st'.
Proof. unfold skylines_wf. by intros -> ->. Qed.

Lemma repackAffectedSubtrees_skylines st :
  skylines_wf st -> skylines_wf (repackAffectedSubtrees st).
Proof.
  intros Hwf. unfold repackAffectedSubtrees.
  destruct (decide (modifiedSubtrees st = ∅)); [done|].
  pose proof (fold_packSubtree_skylines (rootsToRepack st) st Hwf) as H1.
  set (st1 := fold_left packSubtree (rootsToRepack st) st) in *.
  destruct (release_sameButNodes (set_modifiedSubtrees ∅ st1))
    as (_&_&_&_&Hh&Hv&_).
  by apply (skylines_wf_ext st1).
Qed.

Lemma if_repack_skylines st :
  skylines_wf st ->
  skylines_wf (if isPacked st then repackAffectedSubtrees st else st).
Proof.
  intros Hwf. destruct (isPacked st); [|done].
  by apply repackAffectedSubtrees_skylines.
Qed.

(** *** What the perturbations write before they repack *)

Lemma sameData_refl st : sameData st st.
Proof. by repeat split. Qed.

Lemma sameData_trans st1 st2 st3 :
  sameData st1 st2 -> sameData st2 st3 -> sameData st1 st3.
Proof.
  unfold sameData. intros H1 H2.
  destruct H1 as (?&?&?&?&?&?&?&?&?&?), H2 as (?&?&?&?&?&?&?&?&?&?).
  repeat split; congruence.
Qed.

Lemma sameButNodes_sameData st st' : sameButNodes st st' -> sameData st st'.
Proof. intros (?&?&?&?&?&?&?&?&?&?&?&?). by repeat split. Qed.

Lemma markSubtreeForRepack_sameData st (node : option nat) :
  sameData st (markSubtreeForRepack st node).
Proof. destruct node; by repeat split. Qed.

Lemma setLeftChild_sameData st (a : nat) (c : option nat) :
  sameData st (setLeftChild st a c).
Proof. by repeat split. Qed.

Lemma setRightChild_sameData st (a : nat) (c : option nat) :
  sameData st (setRightChild st a c).
Proof. by repeat split. Qed.

Lemma setParent_sameData st (a : nat) (c : option nat) :
  sameData st (setParent st a c).
Proof. by repeat split. Qed.

Lemma set_root_sameData st (r : option nat) : sameData st (set_root r st).
Proof. by repeat split. Qed.

Local Ltac sd_step :=
  first
    [ apply setLeftChild_sameData | apply setRightChild_sameData
    | apply setParent_sameData | apply set_root_sameData
    | apply markSubtreeForRepack_sameData ].

Local Ltac sd :=
  repeat first
    [ apply sameData_refl
    | eapply sameData_trans; [|sd_step]
    | match goal with
      | |- sameData _ (if ?b then _ else _) => destruct b
      | |- sameData _ (match ?x with _ => _ end) => destruct x
      end ].

Lemma relocateExisting_sameData st (node existingChild : nat) (viaLeft : bool) :
  sameData st (relocateExisting st node existingChild viaLeft).
Proof. unfold relocateExisting. sd. Qed.

Lemma detachFromParent_sameData st (p : option nat) (wasLeft : bool) :
  sameData st (detachFromParent st p wasLeft).
Proof. unfold detachFromParent. sd. Qed.

Lemma attachToParent_sameData st (p : option nat) (wasLeft : bool) (node : nat) :
  sameData st (attachToParent st p wasLeft node).
Proof. unfold attachToParent. sd. Qed.

Lemma setParentOf_sameData st (c : option nat) (p : nat) :
  sameData st (setParentOf st c p).
Proof. unfold setParentOf. sd. Qed.

Lemma swapWithChild_sameData st (node child : nat) (p : option nat)
    (wasLeft : bool) :
  sameData st (swapWithChild st node child p wasLeft).
Proof.
  unfold swapWithChild.
  eapply sameData_trans; [|apply attachToParent_sameData].
  eapply sameData_trans; [|apply setParent_sameData].
  match goal with
  | |- sameData _ (if ?b then setLeftChild ?s _ _ else setRightChild ?s _ _) =>
      apply (sameData_trans _ s); [|destruct b; sd_step]
  end.
  eapply sameData_trans; [|apply detachFromParent_sameData].
  sd.
Qed.

Lemma sameData_skylines st st' :
  sameData st st' -> skylines_wf st -> skylines_wf st'.
Proof.
  intros (_&_&_&Hh&Hv&_). by apply skylines_wf_ext.
Qed.

Lemma rotateModule_skylines st (moduleName : string) :
  skylines_wf st -> skylines_wf (rotateModule st moduleName).2.
Proof.
  intros Hwf. unfold rotateModule.
  destruct (StdMap.find (modules st) moduleName) as [module|]; [|done].
  destruct (groupOf st moduleName) as [group|].
  - destruct (StdMap.find _ _) as [hierarchyNode|]; [|done].
    destruct (match nodes st !! hierarchyNode with Some _ => _ | None => _ end)
      as [[a asfTree]|]; [|done].
    destruct (asf_rotateModule asfTree moduleName (modules st))
      as [[success asfTree'] mods'].
    cbn [snd].
    match goal with
    | |- skylines_wf (if ?b then repackAffectedSubtrees ?s else ?s) =>
        assert (skylines_wf s) as Hs by done; destruct b; [|done];
        by apply repackAffectedSubtrees_skylines
    end.
  - cbn [snd]. apply if_repack_skylines.
    by destruct (getModuleNode _ moduleName).
Qed.

(** *** A module lands on the skyline *)

(** X16. What [packSubtree] does with a module node whose module is
    registered and has a positive width, on a sorted horizontal skyline,
    when the right end [x + width] and the top [y + height] of the
    module fit in an [int]: the module is placed at [(x, y)] with [y]
    not negative and not below any height that the skyline stored under
    the footprint [[x, x + width)], so the module lies on or above
    everything placed there before; afterwards the skyline stores the
    top of the module, [y + height], over the footprint and is
    unchanged elsewhere. *)
Theorem module_lands_on_skyline st (node : nat) (n : HBStarTreeNode.t)
    (m : Module_.t) :
  type n = MODULE ->
  StdMap.find (modules st) (name n) = Some m ->
  0 < Module_.width m ->
  Contour.wf (Contour.segments (horizontalContour st)) ->
  let x := placeX st node in
  let y := Contour.getHeight (horizontalContour st) x (x + Module_.width m) in
  let st' := (packNode st node n).1 in
  INT_MIN <= x + Module_.width m <= INT_MAX ->
  INT_MIN <= y + Module_.height m <= INT_MAX ->
  coordinates st' (name n) = Some (x, y) /\
  0 <= y /\
  (forall p h, x <= p < x + Module_.width m ->
     Contour.heightAt (Contour.segments (horizontalContour st)) p = Some h ->
     h <= y) /\
  (forall p, x <= p < x + Module_.width m ->
     Contour.heightAt (Contour.segments (horizontalContour st')) p
     = Some (y + Module_.height m)) /\
  (forall p, ~ (x <= p < x + Module_.width m) ->
     Contour.heightAt (Contour.segments (horizontalContour st')) p
     = Contour.heightAt (Contour.segments (horizontalContour st)) p).
Proof.
  intros Hty Hfind Hw Hwf x y st' Hfx Hfy.
  destruct (wf_wf_from _ Hwf) as [lo Hlo].
  assert (Hxw : x < x + Module_.width m) by lia.
  destruct (getHeight_range lo (horizontalContour st) x
              (x + Module_.width m) Hlo Hxw) as (Hge & Hub & _).
  fold y in Hge, Hub.
  destruct (addSegment_segments lo (horizontalContour st) x
              (x + Module_.width m) (y + Module_.height m) Hlo Hxw)
    as (_ & Hh & _).
  assert (Hst' : st' = (packModuleNode st node n).1).
  { subst st'. unfold packNode. by rewrite Hty. }
  assert (Hmods : modules st'
                  = StdMap.insert (name n) (Module_.setPosition m x y)
                                  (modules st)).
  { rewrite Hst'. unfold packModuleNode, getModuleName.
    rewrite Hty, Hfind. cbv zeta. fold x.
    rewrite (HBStarTreeFacts.toInt_id _ Hfx). reflexivity. }
  assert (Hhc : horizontalContour st'
                = Contour.addSegment (horizontalContour st) x
                    (x + Module_.width m) (y + Module_.height m)).
  { rewrite Hst'. unfold packModuleNode, getModuleName.
    rewrite Hty, Hfind. cbv zeta. fold x.
    rewrite (HBStarTreeFacts.toInt_id _ Hfx). fold y.
    rewrite (HBStarTreeFacts.toInt_id _ Hfy). reflexivity. }
  split; [|split; [exact Hge|split; [exact Hub|split]]].
  - unfold coordinates. rewrite Hmods, StdMapFacts.find_insert_eq. done.
  - intros p Hp. rewrite Hhc, Hh.
    destruct (x <=? p) eqn:E1, (p <? x + Module_.width m) eqn:E2; simpl;
      [done|..]; (apply Z.leb_gt in E1 || apply Z.ltb_ge in E2); lia.
  - intros p Hp. rewrite Hhc, Hh.
    destruct (x <=? p) eqn:E1, (p <? x + Module_.width m) eqn:E2; simpl;
      try done.
    apply Z.leb_le in E1. apply Z.ltb_lt in E2. lia.
Qed.

(** *** Marking *)

(** X17. On a node whose parent chain ends, the loop of
    [markSubtreeForRepack] stops, and it marks exactly the node and its
    ancestors along the parent pointers, in addition to what was
    marked: nothing else is marked and no mark is taken away. Marking
    the node a second time changes nothing, and the node objects, the
    root and the modules are not touched. The null pointer marks
    nothing. *)
Theorem markSubtreeForRepack_marks_exactly st (node : nat) :
  parentChainEnds st node ->
  let st' := markSubtreeForRepack st (Some node) in
  markLoopWithin (S (size (nodes st))) st (Some node) (modifiedSubtrees st)
    = Some (modifiedSubtrees st') /\
  (forall x,
     x ∈ modifiedSubtrees st' <->
     x ∈ modifiedSubtrees st \/ exists k, ancestor st k node = Some x) /\
  parentChainEnds st' node /\
  markSubtreeForRepack st' (Some node) = st' /\
  markSubtreeForRepack st None = st /\
  nodes st' = nodes st /\ root st' = root st /\ modules st' = modules st.
Proof.
  intros Hends st1.
  split; [by apply HBStarTreeFacts.markLoop_stops|].
  split; [intros x; apply markSubtreeForRepack_exactly|].
  assert (Hn : nodes st1 = nodes st) by reflexivity.
  split.
  { destruct Hends as [k Hk]. exists k. by rewrite (ancestor_ext st st1). }
  split; [|by repeat split].
  assert (Hset : modifiedSubtrees (markSubtreeForRepack st1 (Some node))
                 = modifiedSubtrees st1).
  { apply set_eq. intros x. rewrite markSubtreeForRepack_exactly.
    split; [|by left]. intros [?|(k & Hk)]; [done|].
    apply markSubtreeForRepack_exactly. right. exists k.
    by rewrite <- (ancestor_ext st st1). }
  unfold markSubtreeForRepack at 1.
  unfold markSubtreeForRepack at 1 in Hset.
  cbn [modifiedSubtrees set_modifiedSubtrees] in Hset. rewrite Hset.
  by destruct st.
Qed.

(** *** Registered nodes *)

Lemma samePayload_refl (n : HBStarTreeNode.t) : samePayload n n.
Proof. by repeat split. Qed.

Lemma samePayload_trans (n1 n2 n3 : HBStarTreeNode.t) :
  samePayload n1 n2 -> samePayload n2 n3 -> samePayload n1 n3.
Proof.
  intros (?&?&?&?) (?&?&?&?). repeat split; congruence.
Qed.

Lemma relinked_refl st : relinked st st.
Proof.
  split; [done|]. split; [done|].
  intros id n n' H1 H2. rewrite H1 in H2. injection H2 as <-.
  apply samePayload_refl.
Qed.

Lemma relinked_trans st1 st2 st3 :
  relinked st1 st2 -> relinked st2 st3 -> relinked st1 st3.
Proof.
  intros (Hn1 & Hd1 & Hp1) (Hn2 & Hd2 & Hp2).
  split; [congruence|]. split.
  - intros id. by rewrite Hd2, Hd1.
  - intros id n n' H1 H3.
    destruct (nodes st2 !! id) as [n2|] eqn:H2.
    + eapply samePayload_trans; [by eapply Hp1|by eapply Hp2].
    + apply Hd1 in H2. congruence.
Qed.

Lemma relinked_alter st (f : HBStarTreeNode.t -> HBStarTreeNode.t) (a : nat) :
  (forall n, samePayload n (f n)) ->
  relinked st (set_nodes (alter f a (nodes st)) st).
Proof.
  intros Hf. split; [done|]. cbn [nodes set_nodes]. split.
  - intros id. rewrite lookup_alter. case_decide; [|done].
    subst. by destruct (nodes st !! id).
  - intros id n n' H1. rewrite lookup_alter. case_decide.
    + subst. rewrite H1. intros [= <-]. apply Hf.
    + rewrite H1. intros [= <-]. apply samePayload_refl.
Qed.

Lemma setLeftChild_relinked st (a : nat) (c : option nat) :
  relinked st (setLeftChild st a c).
Proof. apply relinked_alter. intros n. by repeat split. Qed.

Lemma setRightChild_relinked st (a : nat) (c : option nat) :
  relinked st (setRightChild st a c).
Proof. apply relinked_alter. intros n. by repeat split. Qed.

Lemma setParent_relinked st (a : nat) (c : option nat) :
  relinked st (setParent st a c).
Proof. apply relinked_alter. intros n. by repeat split. Qed.

Lemma set_root_relinked st (r : option nat) : relinked st (set_root r st).
Proof. apply (relinked_refl st). Qed.

Lemma markSubtreeForRepack_relinked st (node : option nat) :
  relinked st (markSubtreeForRepack st node).
Proof. destruct node; apply (relinked_refl st). Qed.

Local Ltac rl_step :=
  first
    [ apply setLeftChild_relinked | apply setRightChild_relinked
    | apply setParent_relinked | apply set_root_relinked
    | apply markSubtreeForRepack_relinked ].

Local Ltac rl :=
  repeat first
    [ apply relinked_refl
    | eapply relinked_trans; [|rl_step]
    | match goal with
      | |- relinked _ (if ?b then _ else _) => destruct b
      | |- relinked _ (match ?x with _ => _ end) => destruct x
      end ].

Lemma relocateExisting_relinked st (node existingChild : nat) (viaLeft : bool) :
  relinked st (relocateExisting st node existingChild viaLeft).
Proof. unfold relocateExisting. rl. Qed.

Lemma detachFromParent_relinked st (p : option nat) (wasLeft : bool) :
  relinked st (detachFromParent st p wasLeft).
Proof. unfold detachFromParent. rl. Qed.

Lemma attachToParent_relinked st (p : option nat) (wasLeft : bool) (node : nat) :
  relinked st (attachToParent st p wasLeft node).
Proof. unfold attachToParent. rl. Qed.

Lemma setParentOf_relinked st (c : option nat) (p : nat) :
  relinked st (setParentOf st c p).
Proof. unfold setParentOf. rl. Qed.

Lemma swapWithChild_relinked st (node child : nat) (p : option nat)
    (wasLeft : bool) :
  relinked st (swapWithChild st node child p wasLeft).
Proof.
  unfold swapWithChild.
  eapply relinked_trans; [|apply attachToParent_relinked].
  eapply relinked_trans; [|apply setParent_relinked].
  match goal with
  | |- relinked _ (if ?b then setLeftChild ?s _ _ else setRightChild ?s _ _) =>
      apply (relinked_trans _ s); [|destruct b; rl_step]
  end.
  eapply relinked_trans; [|apply detachFromParent_relinked].
  rl.
Qed.

Lemma chainLeft_relinked (rest : list nat) : forall st (current : nat),
  relinked st (chainLeft st current rest).
Proof.
  induction rest as [|next rest IH]; intros st current;
    [apply relinked_refl|].
  simpl. eapply relinked_trans; [|apply IH]. rl.
Qed.

Lemma reattach_relinked st (danglingNode : nat) :
  relinked st (reattach st danglingNode).
Proof. unfold reattach. rl. Qed.

Lemma fold_reattach_relinked (l : list nat) : forall st,
  relinked st (fold_left reattach l st).
Proof.
  induction l as [|d l IH]; intros st; [apply relinked_refl|].
  simpl. eapply relinked_trans; [apply reattach_relinked|apply IH].
Qed.

Lemma keepsRegistered_refl st : keepsRegistered st st.
Proof.
  split; [done|]. intros nodeName id n _ Hn. exists n.
  split; [done|apply samePayload_refl].
Qed.

Lemma keepsRegistered_trans st1 st2 st3 :
  keepsRegistered st1 st2 -> keepsRegistered st2 st3 ->
  keepsRegistered st1 st3.
Proof.
  intros [Hm1 Hk1] [Hm2 Hk2]. split; [congruence|].
  intros nodeName id n Hreg Hn.
  destruct (Hk1 nodeName id n Hreg Hn) as (n2 & Hn2 & Hp2).
  rewrite <- Hm1 in Hreg.
  destruct (Hk2 nodeName id n2 Hreg Hn2) as (n3 & Hn3 & Hp3).
  exists n3. split; [done|]. by eapply samePayload_trans.
Qed.

Lemma relinked_keepsRegistered st st' :
  nodeMap st' = nodeMap st -> relinked st st' -> keepsRegistered st st'.
Proof.
  intros Hm (_ & Hd & Hp). split; [done|].
  intros nodeName id n _ Hn.
  destruct (nodes st' !! id) as [n'|] eqn:Hn'.
  - exists n'. split; [done|]. by eapply Hp.
  - apply Hd in Hn'. congruence.
Qed.

Lemma release_keepsRegistered st : keepsRegistered st (release st).
Proof.
  split; [by destruct (release_sameButNodes st) as (_&_&_&_&_&_&_&_&?&_)|].
  intros nodeName id n Hreg Hn. exists n.
  split; [|apply samePayload_refl].
  by destruct (release_registered st nodeName id n Hreg Hn).
Qed.

Lemma sameTree_keepsRegistered st st' :
  sameTree st st' -> keepsRegistered st st'.
Proof.
  intros (Hn & _ & _ & _ & _ & _ & Hm & _). split; [done|].
  intros nodeName id n _ Hid. exists n. rewrite Hn.
  split; [done|apply samePayload_refl].
Qed.

Lemma repackAffectedSubtrees_keepsRegistered st :
  keepsRegistered st (repackAffectedSubtrees st).
Proof.
  unfold repackAffectedSubtrees.
  destruct (decide (modifiedSubtrees st = ∅)); [apply keepsRegistered_refl|].
  eapply keepsRegistered_trans; [|apply release_keepsRegistered].
  set (st1 := fold_left packSubtree (rootsToRepack st) st).
  apply (keepsRegistered_trans _ st1);
    [apply sameTree_keepsRegistered, fold_packSubtree_sameTree|].
  apply relinked_keepsRegistered; [done|apply (relinked_refl st1)].
Qed.

Lemma if_repack_keepsRegistered st :
  keepsRegistered st (if isPacked st then repackAffectedSubtrees st else st).
Proof.
  destruct (isPacked st);
    [apply repackAffectedSubtrees_keepsRegistered|apply keepsRegistered_refl].
Qed.

(** *** Where [moveNode] puts the node *)

Lemma getParent_parentField st (node p : nat) :
  parentField st node = Some (Some p) -> is_Some (nodes st !! p) ->
  getParent st node = Some p.
Proof.
  unfold parentField, getParent. destruct (nodes st !! node) as [n|]; [|done].
  simpl. intros [= ->] [np ->]. done.
Qed.

Lemma parentField_setLeftChild st (a id : nat) (c : option nat) :
  parentField (setLeftChild st a c) id = parentField st id.
Proof.
  unfold parentField, setLeftChild. cbn [nodes set_nodes].
  rewrite lookup_alter. case_decide; [|done].
  subst. by destruct (nodes st !! id).
Qed.

Lemma parentField_setRightChild st (a id : nat) (c : option nat) :
  parentField (setRightChild st a c) id = parentField st id.
Proof.
  unfold parentField, setRightChild. cbn [nodes set_nodes].
  rewrite lookup_alter. case_decide; [|done].
  subst. by destruct (nodes st !! id).
Qed.

Lemma parentField_setParent st (a id : nat) (p : option nat) :
  parentField (setParent st a p) id
  = if decide (a = id) then (fun _ => p) <$> nodes st !! id
    else parentField st id.
Proof.
  unfold parentField, setParent. cbn [nodes set_nodes].
  rewrite lookup_alter. case_decide; [|done].
  subst. by destruct (nodes st !! id).
Qed.

Lemma parentField_markSubtreeForRepack st (node : option nat) (id : nat) :
  parentField (markSubtreeForRepack st node) id = parentField st id.
Proof. by destruct node. Qed.

Lemma relinked_alive st st' (id : nat) :
  relinked st st' -> is_Some (nodes st !! id) -> is_Some (nodes st' !! id).
Proof.
  intros (_ & Hd & _) [n Hn].
  destruct (nodes st' !! id) eqn:E; [done|]. apply Hd in E. congruence.
Qed.

Lemma getLeftChild_markSubtreeForRepack st (node : option nat) (id : nat) :
  getLeftChild (markSubtreeForRepack st node) id = getLeftChild st id.
Proof. by destruct node. Qed.

Lemma getRightChild_markSubtreeForRepack st (node : option nat) (id : nat) :
  getRightChild (markSubtreeForRepack st node) id = getRightChild st id.
Proof. by destruct node. Qed.

(** *** Parent chains after a relinking *)

Lemma getParent_frame st st' (x : nat) :
  relinked st st' -> parentField st' x = parentField st x ->
  getParent st' x = getParent st x.
Proof.
  intros (_ & Hd & _) Hpf. unfold getParent, parentField in *.
  destruct (nodes st' !! x) as [n'|], (nodes st !! x) as [n|];
    simpl in Hpf; try done.
  injection Hpf as ->. destruct (parent n) as [p|]; [|done].
  specialize (Hd p).
  destruct (nodes st' !! p), (nodes st !! p); try done.
  - pose proof (proj2 Hd eq_refl). done.
  - pose proof (proj1 Hd eq_refl). done.
Qed.

(** A parent chain that does not pass through [avoid] is the same in
    every relinking that changes no other parent pointer. *)
Lemma ancestor_frame st st' (c avoid : nat) :
  relinked st st' ->
  (forall x, x <> avoid -> parentField st' x = parentField st x) ->
  (forall k, ancestor st k c <> Some avoid) ->
  forall k, ancestor st' k c = ancestor st k c.
Proof.
  intros Hr Hpf Havoid. induction k as [|k IH]; [done|].
  simpl. rewrite IH. destruct (ancestor st k c) as [a|] eqn:E; [|done].
  apply getParent_frame; [done|]. apply Hpf. intros ->. by apply (Havoid k).
Qed.

(** [moveNode] into a free slot of the new parent, up to the repack at
    its end: the only parent pointer that changes is the one of the
    node, which then names the new parent. *)
Lemma moveNode_free_slot st (nodeName newParentName : string)
    (asLeftChild : bool) (node newParent : nat) :
  findNode st nodeName = Some node ->
  findNode st newParentName = Some newParent ->
  is_Some (nodes st !! node) -> is_Some (nodes st !! newParent) ->
  (if asLeftChild then getLeftChild st newParent
   else getRightChild st newParent) = None ->
  exists s,
    moveNode st nodeName newParentName asLeftChild
      = (true, if isPacked st then repackAffectedSubtrees s else s) /\
    relinked st s /\
    (forall x, x <> node -> parentField s x = parentField st x) /\
    getParent s node = Some newParent /\
    (if asLeftChild then getLeftChild s newParent
     else getRightChild s newParent) = Some node /\
    node ∈ modifiedSubtrees s /\ newParent ∈ modifiedSubtrees s /\
    modifiedSubtrees st ⊆ modifiedSubtrees s /\
    nodeMap s = nodeMap st.
Proof.
  intros H1 H2 Hnode Hnp Hfree.
  set (slot := fun s : t ASF => if asLeftChild then getLeftChild s newParent
                                else getRightChild s newParent).
  change (slot st = None) in Hfree.
  unfold moveNode. rewrite H1, H2.
  set (st1 := match getParent st node with Some _ => _ | None => _ end).
  assert (Hr1 : relinked st st1) by (subst st1; rl).
  assert (Hm1 : nodeMap st1 = nodeMap st).
  { subst st1. destruct (getParent st node) as [oldParent|].
    - by repeat case_bool_decide.
    - case_bool_decide; [|done].
      destruct (getLeftChild st node); [done|].
      by destruct (getRightChild st node). }
  assert (Hd1 : isPacked st1 = isPacked st /\
                modifiedSubtrees st ⊆ modifiedSubtrees st1).
  { subst st1. destruct (getParent st node) as [oldParent|].
    - split; [by repeat case_bool_decide|].
      match goal with
      | |- _ ⊆ modifiedSubtrees (markSubtreeForRepack ?s _) =>
          destruct (HBStarTreeFacts.markSubtreeForRepack_marks s oldParent)
            as (_ & Hsub & _);
          assert (modifiedSubtrees s = modifiedSubtrees st) as Hms
            by (by repeat case_bool_decide)
      end.
      by rewrite <- Hms.
    - case_bool_decide; [|done].
      destruct (getLeftChild st node); [done|].
      by destruct (getRightChild st node). }
  destruct Hd1 as [Hp1 Hsub1].
  assert (Hpf1 : forall x, parentField st1 x = parentField st x).
  { intros x. subst st1. destruct (getParent st node) as [oldParent|].
    - rewrite parentField_markSubtreeForRepack.
      repeat case_bool_decide;
        by rewrite ?parentField_setLeftChild, ?parentField_setRightChild.
    - case_bool_decide; [|done].
      destruct (getLeftChild st node); [done|].
      by destruct (getRightChild st node). }
  assert (Hslot1 : slot st1 = None).
  { destruct (slot st1) as [c|] eqn:Hc; [|done].
    assert (slot st = Some c); [|congruence].
    revert Hc. subst st1 slot. cbv beta.
    destruct (getParent st node) as [oldParent|].
    - destruct asLeftChild.
      + rewrite getLeftChild_markSubtreeForRepack.
        repeat case_bool_decide;
          rewrite ?getLeftChild_setLeftChild, ?getLeftChild_setRightChild;
          try done.
        case_decide; [|done]. by destruct (nodes st !! newParent).
      + rewrite getRightChild_markSubtreeForRepack.
        repeat case_bool_decide;
          rewrite ?getRightChild_setLeftChild, ?getRightChild_setRightChild;
          try done.
        case_decide; [|done]. by destruct (nodes st !! newParent).
    - case_bool_decide; [|done].
      destruct (getLeftChild st node); [done|].
      by destruct (getRightChild st node). }
  clearbody st1.
  set (st2 := setParent st1 node (Some newParent)).
  assert (Hr2 : relinked st st2).
  { eapply relinked_trans; [exact Hr1|apply setParent_relinked]. }
  assert (Hslot2 : slot st2 = None).
  { destruct (slot st2) as [c|] eqn:Hc; [|done].
    assert (slot st1 = Some c); [|congruence].
    subst slot st2. cbv beta in *.
    destruct asLeftChild; [|by rewrite getRightChild_setParent in Hc].
    unfold getLeftChild, setParent in Hc. cbn [nodes set_nodes] in Hc.
    rewrite lookup_alter in Hc. unfold getLeftChild.
    case_decide; [|done]. subst.
    by destruct (nodes st1 !! newParent). }
  assert (Hpf2 : parentField st2 node = Some (Some newParent)).
  { subst st2. rewrite parentField_setParent, decide_True by done.
    destruct (relinked_alive st st1 node Hr1 Hnode) as [n ->]. done. }
  assert (Hpf2' : forall x, x <> node -> parentField st2 x = parentField st x).
  { intros x Hx. subst st2.
    rewrite parentField_setParent, decide_False by done. apply Hpf1. }
  set (st3 := if asLeftChild then _ else _).
  assert (Hst3 : st3 = if asLeftChild
                       then setLeftChild st2 newParent (Some node)
                       else setRightChild st2 newParent (Some node)).
  { subst st3 slot. cbv beta in Hslot2.
    destruct asLeftChild; by rewrite Hslot2. }
  clearbody st3. subst st3.
  set (st3 := if asLeftChild then _ else _).
  assert (Hr3 : relinked st st3).
  { subst st3. destruct asLeftChild;
      (eapply relinked_trans; [exact Hr2|rl_step]). }
  assert (Hpf3 : forall x, parentField st3 x = parentField st2 x).
  { intros x. subst st3. destruct asLeftChild;
      by rewrite ?parentField_setLeftChild, ?parentField_setRightChild. }
  assert (Hslot3 : slot st3 = Some node).
  { subst slot st3. cbv beta. destruct asLeftChild.
    - rewrite getLeftChild_setLeftChild, decide_True by done.
      by destruct (relinked_alive _ _ newParent Hr2 Hnp) as [n ->].
    - rewrite getRightChild_setRightChild, decide_True by done.
      by destruct (relinked_alive _ _ newParent Hr2 Hnp) as [n ->]. }
  assert (Hp3 : isPacked st3 = isPacked st).
  { rewrite <- Hp1. subst st3 st2. by destruct asLeftChild. }
  assert (Hsub3 : modifiedSubtrees st3 = modifiedSubtrees st1).
  { subst st3 st2. by destruct asLeftChild. }
  assert (Hm3 : nodeMap st3 = nodeMap st).
  { rewrite <- Hm1. subst st3 st2. by destruct asLeftChild. }
  clearbody st3.
  set (st4 := markSubtreeForRepack st3 (Some newParent)).
  set (s := markSubtreeForRepack st4 (Some node)).
  exists s.
  assert (Hns : nodes s = nodes st3) by reflexivity.
  split.
  { change (isPacked s) with (isPacked st3). by rewrite Hp3. }
  split.
  { eapply relinked_trans; [exact Hr3|]. subst s st4. rl. }
  split.
  { intros x Hx. unfold parentField. rewrite Hns.
    fold (parentField st3 x). rewrite Hpf3. by apply Hpf2'. }
  split.
  { apply getParent_parentField.
    - unfold parentField. rewrite Hns. fold (parentField st3 node).
      by rewrite Hpf3.
    - rewrite Hns. by apply (relinked_alive st st3). }
  split.
  { subst slot. cbv beta in Hslot3. unfold getLeftChild, getRightChild in *.
    by rewrite Hns. }
  split.
  { apply HBStarTreeFacts.markSubtreeForRepack_exactly. right.
    by exists 0%nat. }
  split.
  { apply HBStarTreeFacts.markSubtreeForRepack_exactly. left.
    apply HBStarTreeFacts.markSubtreeForRepack_exactly. right.
    by exists 0%nat. }
  split; [|exact Hm3].
  intros x Hx. apply HBStarTreeFacts.markSubtreeForRepack_exactly. left.
  apply HBStarTreeFacts.markSubtreeForRepack_exactly. left.
  rewrite Hsub3. by apply Hsub1.
Qed.

(** X19. [moveNode(node, newParent, asLeftChild)] into a free slot of
    the new parent, when both names are registered, both nodes are
    alive, their parent chains end and the node is not the new parent
    or one of its ancestors (so that hanging it below the new parent
    closes no cycle). Before the repack at its end the call has put
    the node in the requested slot and has made the new parent its
    parent; the parent chain of the new parent is as before and the
    one of the node ends as well; both nodes are marked and no mark is
    taken away. On a tree that is not packed the call returns true
    with that state. On a packed tree on which the repack ends it
    returns true after the repack, which leaves the node in the slot
    and below the new parent. *)
Theorem moveNode_attaches st (nodeName newParentName : string)
    (asLeftChild : bool) (node newParent : nat) :
  findNode st nodeName = Some node ->
  findNode st newParentName = Some newParent ->
  is_Some (nodes st !! node) -> is_Some (nodes st !! newParent) ->
  (if asLeftChild then getLeftChild st newParent
   else getRightChild st newParent) = None ->
  parentChainEnds st node -> parentChainEnds st newParent ->
  (forall k, ancestor st k newParent <> Some node) ->
  let slot s := if asLeftChild then getLeftChild s newParent
                else getRightChild s newParent in
  exists s,
    slot s = Some node /\
    getParent s node = Some newParent /\
    (forall k, ancestor s k newParent = ancestor st k newParent) /\
    parentChainEnds s newParent /\ parentChainEnds s node /\
    node ∈ modifiedSubtrees s /\ newParent ∈ modifiedSubtrees s /\
    modifiedSubtrees st ⊆ modifiedSubtrees s /\
    (isPacked st = false ->
     moveNode st nodeName newParentName asLeftChild = (true, s)) /\
    (isPacked st = true -> repackEnds s ->
     moveNode st nodeName newParentName asLeftChild
       = (true, repackAffectedSubtrees s) /\
     slot (repackAffectedSubtrees s) = Some node /\
     getParent (repackAffectedSubtrees s) node = Some newParent).
Proof.
  intros H1 H2 Hnode Hnp Hfree Hends1 Hends2 Havoid slot.
  destruct (moveNode_free_slot st nodeName newParentName asLeftChild
              node newParent H1 H2 Hnode Hnp Hfree)
    as (s & Hmove & Hr & Hpf & Hpar & Hslot & Hm1 & Hm2 & Hsub & Hmap).
  assert (Hanc : forall k, ancestor s k newParent = ancestor st k newParent)
    by (by apply (ancestor_frame st s newParent node)).
  assert (He2 : parentChainEnds s newParent).
  { destruct Hends2 as [k Hk]. exists k. by rewrite Hanc. }
  assert (He1 : parentChainEnds s node).
  { destruct He2 as [k Hk]. exists (S k).
    by rewrite ancestor_S_front, Hpar. }
  exists s. split; [exact Hslot|]. split; [exact Hpar|].
  split; [exact Hanc|]. split; [exact He2|]. split; [exact He1|].
  split; [exact Hm1|]. split; [exact Hm2|]. split; [exact Hsub|].
  split; [intros Hp; by rewrite Hmove, Hp|].
  intros Hp _. split; [by rewrite Hmove, Hp|].
  destruct (relinked_alive st s node Hr Hnode) as [n Hn].
  destruct (relinked_alive st s newParent Hr Hnp) as [p Hpn].
  assert (Hn' : nodes (repackAffectedSubtrees s) !! node = Some n).
  { apply (repackAffectedSubtrees_registered s nodeName); [|done].
    by rewrite Hmap. }
  assert (Hp' : nodes (repackAffectedSubtrees s) !! newParent = Some p).
  { apply (repackAffectedSubtrees_registered s newParentName); [|done].
    by rewrite Hmap. }
  split.
  - subst slot. cbv beta in *. unfold getLeftChild, getRightChild in *.
    rewrite Hp'. by rewrite Hpn in Hslot.
  - unfold getParent in *. rewrite Hn'. rewrite Hn in Hpar.
    destruct (parent n) as [q|]; [|done].
    destruct (nodes s !! q) eqn:Hq; [|done].
    injection Hpar as ->. by rewrite Hp'.
Qed.

(** *** [swapNodes] and the root *)

Lemma attachToParent_None st (wasLeft : bool) (node : nat) :
  is_Some (nodes st !! node) ->
  root (attachToParent st None wasLeft node) = Some node /\
  parentField (attachToParent st None wasLeft node) node = Some None.
Proof.
  intros [n Hn]. unfold attachToParent. split; [done|].
  rewrite parentField_setParent, decide_True by done.
  cbn [nodes set_root]. by rewrite Hn.
Qed.

Lemma attachToParent_Some st (p : nat) (wasLeft : bool) (node other : nat) :
  other <> node ->
  root (attachToParent st (Some p) wasLeft node) = root st /\
  parentField (attachToParent st (Some p) wasLeft node) other
  = parentField st other.
Proof.
  intros Hne. unfold attachToParent. split; [by destruct wasLeft|].
  rewrite parentField_setParent, decide_False by done.
  destruct wasLeft;
    by rewrite ?parentField_setLeftChild, ?parentField_setRightChild.
Qed.

(** [swapNodes(a, b)] where [a] has no parent, [b] has one and [a] is
    not a child of [b], up to the repack at its end: [b] is the root
    and has no parent. *)
Lemma swapNodes_root_links st (nodeName1 nodeName2 : string)
    (node1 node2 p2 : nat) :
  findNode st nodeName1 = Some node1 ->
  findNode st nodeName2 = Some node2 ->
  node1 <> node2 ->
  getParent st node1 = None ->
  getParent st node2 = Some p2 ->
  getLeftChild st node2 <> Some node1 ->
  getRightChild st node2 <> Some node1 ->
  exists s,
    swapNodes st nodeName1 nodeName2
      = (true, if isPacked st then repackAffectedSubtrees s else s) /\
    root s = Some node2 /\
    (exists n, nodes s !! node2 = Some n /\ parent n = None) /\
    nodeMap s !! nodeName2 = Some node2.
Proof.
  intros H1 H2 Hne Hp1 Hp2 Hl Hr. unfold swapNodes. rewrite H1, H2.
  set (st0 := markSubtreeForRepack (markSubtreeForRepack st (Some node1))
                                   (Some node2)).
  assert (Hq1 : getParent st0 node1 = None) by exact Hp1.
  assert (Hq2 : getParent st0 node2 = Some p2) by exact Hp2.
  assert (Hl0 : getLeftChild st0 node2 <> Some node1) by exact Hl.
  assert (Hr0 : getRightChild st0 node2 <> Some node1) by exact Hr.
  assert (Hm0 : nodeMap st0 = nodeMap st) by reflexivity.
  assert (Hpk0 : isPacked st0 = isPacked st) by reflexivity.
  assert (Halive0 : is_Some (nodes st0 !! node2)).
  { unfold getParent in Hq2. by destruct (nodes st0 !! node2). }
  rewrite Hq1, Hq2.
  rewrite (bool_decide_false _ Hl0), (bool_decide_false _ Hr0).
  cbn [orb fst snd].
  clearbody st0.
  match goal with
  | |- exists s, (true, if isPacked (release ?s1) then _ else _) = _ /\ _ =>
      set (st1 := s1)
  end.
  assert (Hsd : sameData st0 st1).
  { subst st1.
    destruct (_ || _); [apply swapWithChild_sameData|].
    repeat first
      [ apply sameData_refl
      | eapply sameData_trans;
        [|first [ apply attachToParent_sameData | apply setParentOf_sameData
                | apply detachFromParent_sameData | sd_step ]] ]. }
  assert (Hst1 : relinked st0 st1 /\ nodeMap st1 = nodeMap st0 /\
                 root st1 = Some node2 /\
                 parentField st1 node2 = Some None).
  { subst st1.
    destruct (bool_decide (getLeftChild st0 node1 = Some node2)
              || bool_decide (getRightChild st0 node1 = Some node2)).
    - split; [apply swapWithChild_relinked|].
      split; [apply swapWithChild_nodeMap|].
      unfold swapWithChild. apply attachToParent_None.
      eapply relinked_alive; [|exact Halive0].
      eapply relinked_trans; [|apply setParent_relinked].
      match goal with
      | |- relinked _ (if ?b then setLeftChild ?s _ _
                       else setRightChild ?s _ _) =>
          apply (relinked_trans _ s); [|destruct b; rl_step]
      end.
      eapply relinked_trans; [|apply detachFromParent_relinked]. rl.
    - match goal with
      | |- relinked _ (attachToParent ?sg _ _ _) /\ _ =>
          assert (relinked st0 sg /\ nodeMap sg = nodeMap st0 /\
                  root sg = Some node2 /\
                  parentField sg node2 = Some None) as (Hrg & Hmg & Hrootg & Hpg)
      end.
      { match goal with
        | |- relinked _ (attachToParent ?sf _ _ _) /\ _ =>
            assert (relinked st0 sf /\ nodeMap sf = nodeMap st0) as [Hrf Hmf]
        end.
        { split.
          - repeat first
              [ apply relinked_refl
              | eapply relinked_trans;
                [|first [ apply setParentOf_relinked
                        | apply detachFromParent_relinked | rl_step ]] ].
          - match goal with
            | |- nodeMap ?sf = _ =>
                assert (sameData st0 sf) as (_&_&_&_&_&_&_&?&_); [|done]
            end.
            repeat first
              [ apply sameData_refl
              | eapply sameData_trans;
                [|first [ apply setParentOf_sameData
                        | apply detachFromParent_sameData | sd_step ]] ]. }
        split; [eapply relinked_trans;
                  [exact Hrf|apply attachToParent_relinked]|].
        split; [rewrite <- Hmf; by destruct (isLeftChild st0 node1)|].
        apply attachToParent_None. by eapply relinked_alive. }
      assert (Hne' : node2 <> node1) by congruence.
      match goal with
      | |- relinked _ (attachToParent ?sg _ _ _) /\ _ =>
          destruct (attachToParent_Some sg p2 (isLeftChild st0 node2)
                      node1 node2 Hne') as [Hroot' Hpf']
      end.
      split; [eapply relinked_trans;
                [exact Hrg|apply attachToParent_relinked]|].
      split; [rewrite <- Hmg; by destruct (isLeftChild st0 node2)|].
      by rewrite Hroot', Hpf'. }
  destruct Hst1 as (Hr1 & Hm1 & Hroot1 & Hpf1).
  destruct Hsd as (_&_&_&_&_&_&_&_&_&Hpk1). clearbody st1.
  destruct Halive0 as [n0 Hn0].
  unfold parentField in Hpf1.
  destruct (nodes st1 !! node2) as [n1|] eqn:Hn1; [|done].
  assert (Hreg1 : nodeMap st1 !! nodeName2 = Some node2).
  { rewrite Hm1, Hm0. exact H2. }
  destruct (release_registered st1 nodeName2 node2 n1 Hreg1 Hn1)
    as [Hm2 Hn2].
  destruct (release_sameButNodes st1)
    as (_&_&_&Hroot2&_&_&_&_&_&_&_&Hpk2).
  exists (release st1).
  split; [by rewrite Hpk2, Hpk1, Hpk0|].
  split; [congruence|].
  split; [exists n1; split; [done|]; by injection Hpf1|].
  by rewrite Hm2.
Qed.

(** X20. [swapNodes(a, b)] where both names are registered, [a] has no
    parent (as the root has none), [b] has one, [a] is not a child of
    [b], and the parent chain of [b] ends: the two marking loops, which
    run on the tree as it is before anything is linked, stop, and
    before the repack at its end the call has made [b] the root and has
    left it without a parent. This covers both the case in which [b]
    is a child of [a] and the case of two unrelated nodes. On a tree
    that is not packed the call returns true with that state. On a
    packed tree on which the repack ends it returns true after the
    repack, which keeps the root and leaves it without a parent. *)
Theorem swapNodes_reassigns_root st (nodeName1 nodeName2 : string)
    (node1 node2 p2 : nat) :
  findNode st nodeName1 = Some node1 ->
  findNode st nodeName2 = Some node2 ->
  node1 <> node2 ->
  getParent st node1 = None ->
  getParent st node2 = Some p2 ->
  getLeftChild st node2 <> Some node1 ->
  getRightChild st node2 <> Some node1 ->
  parentChainEnds st node2 ->
  (forall marked,
     is_Some (markLoopWithin (S (size (nodes st))) st (Some node1) marked) /\
     is_Some (markLoopWithin (S (size (nodes st))) st (Some node2) marked)) /\
  exists s,
    root s = Some node2 /\ getParent s node2 = None /\
    (isPacked st = false ->
     swapNodes st nodeName1 nodeName2 = (true, s)) /\
    (isPacked st = true -> repackEnds s ->
     swapNodes st nodeName1 nodeName2 = (true, repackAffectedSubtrees s) /\
     root (repackAffectedSubtrees s) = Some node2 /\
     getParent (repackAffectedSubtrees s) node2 = None).
Proof.
  intros H1 H2 Hne Hp1 Hp2 Hl Hr Hends.
  split.
  { assert (Hends1 : parentChainEnds st node1) by (by exists 1%nat).
    intros marked.
    split; apply HBStarTreeFacts.markLoopWithin_ancestor;
      by apply HBStarTreeFacts.parentChainEnds_within_size. }
  destruct (swapNodes_root_links st nodeName1 nodeName2 node1 node2 p2
              H1 H2 Hne Hp1 Hp2 Hl Hr)
    as (s & Hswap & Hroot & (n & Hn & Hpar) & Hreg).
  exists s. split; [exact Hroot|].
  split; [unfold getParent; by rewrite Hn, Hpar|].
  split; [intros Hp; by rewrite Hswap, Hp|].
  intros Hp _. split; [by rewrite Hswap, Hp|].
  split.
  - destruct (repackAffectedSubtrees_fields s) as (_ & -> & _). exact Hroot.
  - unfold getParent.
    rewrite (repackAffectedSubtrees_registered s nodeName2 node2 n Hreg Hn).
    by rewrite Hpar.
Qed.

(** *** Rotating a free module *)

Lemma rotate_rotate (m : Module_.t) : Module_.rotate (Module_.rotate m) = m.
Proof. destruct m. unfold Module_.rotate. simpl. by rewrite negb_involutive. Qed.

Lemma rotateModule_free_unpacked st (moduleName : string) (m : Module_.t) :
  StdMap.find (modules st) moduleName = Some m ->
  groupOf st moduleName = None -> isPacked st = false ->
  exists st',
    rotateModule st moduleName = (true, st') /\
    modules st'
      = StdMap.insert moduleName (Module_.rotate m) (modules st) /\
    nodes st' = nodes st /\ root st' = root st /\
    symmetryGroups st' = symmetryGroups st /\ isPacked st' = false /\
    (forall node k anc,
       getModuleNode st moduleName = Some node ->
       ancestor st k node = Some anc -> anc ∈ modifiedSubtrees st').
Proof.
  intros Hfind Hgroup Hpacked. unfold rotateModule. rewrite Hfind, Hgroup.
  cbv zeta.
  set (st1 := set_modules _ st).
  change (getModuleNode st1 moduleName) with (getModuleNode st moduleName).
  destruct (getModuleNode st moduleName) as [node|].
  - change (isPacked (markSubtreeForRepack st1 (Some node)))
      with (isPacked st).
    rewrite Hpacked. eexists. split; [reflexivity|].
    repeat split; try done.
    intros node' k anc [= <-] Hk.
    destruct (markSubtreeForRepack_marks st1 node) as (Hanc & _).
    apply (Hanc k). by rewrite (ancestor_ext st st1).
  - change (isPacked st1) with (isPacked st). rewrite Hpacked.
    eexists. split; [reflexivity|]. by repeat split.
Qed.

(** X18. [rotateModule] for a registered module that is in no symmetry
    group, on a tree that is not packed and in which the parent chain
    of the module's node (when it has one) ends: the call returns true,
    swaps width and height of that module and flips its rotation flag,
    keeps its position, changes no other module, no node object and
    not the root, and marks the module's node with all its ancestors;
    a second rotation returns true as well and gives every module back
    as it was. *)
Theorem rotateModule_free_module st (moduleName : string) (m : Module_.t) :
  StdMap.find (modules st) moduleName = Some m ->
  groupOf st moduleName = None ->
  isPacked st = false ->
  (forall node, getModuleNode st moduleName = Some node ->
                parentChainEnds st node) ->
  let st' := (rotateModule st moduleName).2 in
  (rotateModule st moduleName).1 = true /\
  StdMap.find (modules st') moduleName
    = Some (Module_.mk (Module_.name m) (Module_.x m) (Module_.y m)
                       (Module_.height m) (Module_.width m)
                       (negb (Module_.rotated m))) /\
  (forall other, other <> moduleName ->
     StdMap.find (modules st') other = StdMap.find (modules st) other) /\
  nodes st' = nodes st /\ root st' = root st /\ isPacked st' = false /\
  (forall node,
     getModuleNode st moduleName = Some node ->
     markLoopWithin (S (size (nodes st))) st (Some node) (modifiedSubtrees st)
       = Some (modifiedSubtrees st') /\
     forall x, x ∈ modifiedSubtrees st' <->
               x ∈ modifiedSubtrees st \/
               exists k, ancestor st k node = Some x) /\
  (getModuleNode st moduleName = None ->
   modifiedSubtrees st' = modifiedSubtrees st) /\
  (rotateModule st' moduleName).1 = true /\
  (forall k, StdMap.find (modules (rotateModule st' moduleName).2) k
             = StdMap.find (modules st) k).
Proof.
  intros Hfind Hgroup Hpacked Hends st'.
  set (st1 := set_modules
                (StdMap.insert moduleName (Module_.rotate m) (modules st)) st).
  assert (Hst' : st' = match getModuleNode st moduleName with
                       | Some node => markSubtreeForRepack st1 (Some node)
                       | None => st1
                       end).
  { subst st'. unfold rotateModule. rewrite Hfind, Hgroup. cbv zeta.
    fold st1.
    change (getModuleNode st1 moduleName) with (getModuleNode st moduleName).
    destruct (getModuleNode st moduleName) as [node|].
    - change (isPacked (markSubtreeForRepack st1 (Some node)))
        with (isPacked st). by rewrite Hpacked.
    - change (isPacked st1) with (isPacked st). by rewrite Hpacked. }
  destruct (rotateModule_free_unpacked st moduleName m Hfind Hgroup Hpacked)
    as (s & Hrot & Hmods & Hn & Hr & Hg & Hp & _).
  assert (Hs : st' = s) by (subst st'; by rewrite Hrot).
  assert (Hsm : s = match getModuleNode st moduleName with
                    | Some node => markSubtreeForRepack st1 (Some node)
                    | None => st1
                    end) by (rewrite <- Hs; exact Hst').
  clear Hst'. clearbody st'. subst st'.
  split; [by rewrite Hrot|].
  assert (Hfs : StdMap.find (modules s) moduleName = Some (Module_.rotate m)).
  { rewrite Hmods. apply StdMapFacts.find_insert_eq. }
  split; [exact Hfs|]. split.
  { intros other Hne. rewrite Hmods. by apply StdMapFacts.find_insert_ne. }
  split; [done|]. split; [done|]. split; [done|]. split.
  { intros node Hnode. rewrite Hsm, Hnode.
    assert (Hends1 : parentChainEnds st1 node).
    { destruct (Hends node Hnode) as [k Hk]. exists k.
      by rewrite (ancestor_ext st st1). }
    split.
    { rewrite <- (HBStarTreeFacts.markLoopWithin_ext _ st st1) by done.
      exact (HBStarTreeFacts.markLoop_stops st1 node Hends1). }
    intros x. rewrite (markSubtreeForRepack_exactly st1 node x).
    split; (intros [?|(k & Hk)]; [by left|right; exists k]);
      [by rewrite <- (ancestor_ext st st1)|by rewrite (ancestor_ext st st1)]. }
  split; [intros Hnone; by rewrite Hsm, Hnone|].
  assert (Hgs : groupOf s moduleName = None).
  { unfold groupOf. rewrite Hg. exact Hgroup. }
  destruct (rotateModule_free_unpacked s moduleName _ Hfs Hgs Hp)
    as (s2 & -> & Hmods2 & _).
  cbn [fst snd]. split; [done|]. intros k.
  rewrite Hmods2, rotate_rotate, Hmods.
  destruct (decide (k = moduleName)) as [->|Hne].
  - by rewrite StdMapFacts.find_insert_eq.
  - by rewrite !StdMapFacts.find_insert_ne by done.
Qed.

(** *** [findNearestContourNode] *)

Lemma firstContourNode_contour (fuel : nat) : forall st (level : list nat) (c : nat),
  firstContourNode fuel st level = Some c -> isContourNode st c = true.
Proof.
  induction fuel as [|fuel IH]; intros st level c; simpl; [done|].
  destruct level as [|x level]; [done|].
  destruct (List.find (isContourNode st) (x :: level)) as [c'|] eqn:Hf.
  - intros [= <-]. by apply find_some in Hf as [_ ?].
  - apply IH.
Qed.

(** X22. [findNearestContourNode] returns a contour node or null, and
    the node it is given only has to be non-null: the search always
    starts at the root, so every non-null argument gets the same answer;
    a null argument, or a tree without a root, gets null; and when the
    root itself is a contour node, the root is the answer. *)
Theorem findNearestContourNode_ignores_its_argument st :
  (forall a b : nat,
     findNearestContourNode st (Some a) = findNearestContourNode st (Some b)) /\
  (forall node c,
     findNearestContourNode st node = Some c -> isContourNode st c = true) /\
  findNearestContourNode st None = None /\
  (root st = None -> forall node, findNearestContourNode st node = None) /\
  (forall r a, root st = Some r -> isContourNode st r = true ->
     findNearestContourNode st (Some a) = Some r).
Proof.
  split; [done|]. split; [|split; [done|split]].
  - intros node c. unfold findNearestContourNode.
    destruct node; [|done]. destruct (root st); [|done].
    apply firstContourNode_contour.
  - intros Hroot node. unfold findNearestContourNode. rewrite Hroot.
    by destruct node.
  - intros r a Hroot Hc. unfold findNearestContourNode. rewrite Hroot.
    simpl. by rewrite Hc.
Qed.

(** *** The perturbations of a symmetry island *)

Lemma afterIslandPerturbation_marks st (hierarchyNode a : nat)
    (result : bool * ASF * Modules) :
  let marked :=
    markSubtreeForRepack
      (set_modules result.2
         (set_asfTrees (<[a := result.1.2]> (asfTrees st)) st))
      (Some hierarchyNode) in
  afterIslandPerturbation st hierarchyNode a result
    = (result.1.1,
       if result.1.1 && isPacked st then repackAffectedSubtrees marked
       else marked) /\
  (forall k anc, ancestor st k hierarchyNode = Some anc ->
     anc ∈ modifiedSubtrees marked) /\
  modifiedSubtrees st ⊆ modifiedSubtrees marked.
Proof.
  intros marked. destruct result as [[success asfTree'] mods'].
  split; [reflexivity|].
  set (st1 := set_modules mods'
                (set_asfTrees (<[a := asfTree']> (asfTrees st)) st)).
  destruct (markSubtreeForRepack_marks st1 hierarchyNode) as (Hanc & Hsub & _).
  split; [|exact Hsub].
  intros k anc Hk. apply (Hanc k). by rewrite (ancestor_ext st st1).
Qed.

(** X21. [convertSymmetryType] and [changeRepresentative] return false
    and change nothing when the group has no hierarchy node (or the node
    has no ASF-B*-tree). Otherwise, on a tree in which the parent chain
    of the hierarchy node ends, they store what the ASF-B*-tree hands
    back and mark the hierarchy node and all its ancestors before they
    look at its answer: the marking loop stops, and the marks are the
    old ones, the hierarchy node and its ancestors. When the
    ASF-B*-tree answered false, or the tree is not packed, they return
    that answer with the marked state, so after a failed call the marks
    stay and the state is not rolled back. The tree is repacked only
    when the call succeeded and the tree was packed. *)
Theorem island_perturbations_mark_before_they_check
    st (symmetryGroupName moduleName : string) :
  (islandOf st symmetryGroupName = None ->
   convertSymmetryType st symmetryGroupName = (false, st) /\
   changeRepresentative st symmetryGroupName moduleName = (false, st)) /\
  (forall hierarchyNode a asfTree,
     islandOf st symmetryGroupName = Some (hierarchyNode, a, asfTree) ->
     parentChainEnds st hierarchyNode ->
     forall (call : bool * t ASF) (delegated : bool * ASF * Modules),
     (call = convertSymmetryType st symmetryGroupName /\
      delegated = asf_convertSymmetryType asfTree (modules st)) \/
     (call = changeRepresentative st symmetryGroupName moduleName /\
      delegated = asf_changeRepresentative asfTree moduleName (modules st)) ->
     let stored :=
       set_modules delegated.2
         (set_asfTrees (<[a := delegated.1.2]> (asfTrees st)) st) in
     let marked := markSubtreeForRepack stored (Some hierarchyNode) in
     markLoopWithin (S (size (nodes st))) stored (Some hierarchyNode)
                    (modifiedSubtrees st)
       = Some (modifiedSubtrees marked) /\
     (forall x, x ∈ modifiedSubtrees marked <->
                x ∈ modifiedSubtrees st \/
                exists k, ancestor st k hierarchyNode = Some x) /\
     (delegated.1.1 && isPacked st = false ->
      call = (delegated.1.1, marked)) /\
     (delegated.1.1 && isPacked st = true -> repackEnds marked ->
      call = (true, repackAffectedSubtrees marked)) /\
     (delegated.1.1 = false ->
      call = (false, marked) /\
      hierarchyNode ∈ modifiedSubtrees call.2 /\
      modifiedSubtrees st ⊆ modifiedSubtrees call.2)).
Proof.
  split.
  - intros Hnone. unfold convertSymmetryType, changeRepresentative.
    by rewrite Hnone.
  - intros hierarchyNode a asfTree Hisland Hends call delegated Hcall
      stored marked.
    assert (Hanc : forall k, ancestor stored k hierarchyNode
                             = ancestor st k hierarchyNode)
      by (intros k; by apply ancestor_ext).
    assert (Hends1 : parentChainEnds stored hierarchyNode).
    { destruct Hends as [k Hk]. exists k. by rewrite Hanc. }
    assert (Hexact : forall x, x ∈ modifiedSubtrees marked <->
              x ∈ modifiedSubtrees st \/
              exists k, ancestor st k hierarchyNode = Some x).
    { intros x. unfold marked. rewrite markSubtreeForRepack_exactly.
      split; (intros [?|(k & Hk)]; [by left|right; exists k]);
        [by rewrite <- Hanc|by rewrite Hanc]. }
    assert (Heq : call = (delegated.1.1,
                          if delegated.1.1 && isPacked st
                          then repackAffectedSubtrees marked else marked)).
    { destruct (afterIslandPerturbation_marks st hierarchyNode a delegated)
        as (Hafter & _).
      destruct Hcall as [[-> ->]|[-> ->]];
        unfold convertSymmetryType, changeRepresentative;
        rewrite Hisland; exact Hafter. }
    split; [exact (HBStarTreeFacts.markLoop_stops stored hierarchyNode Hends1)|].
    split; [exact Hexact|].
    split; [intros Hb; by rewrite Heq, Hb|].
    split.
    { intros Hb _. rewrite Heq, Hb.
      apply andb_true_iff in Hb as [-> _]. done. }
    intros Hfail. rewrite Heq, Hfail. cbn [andb fst snd].
    split; [done|]. split.
    + apply Hexact. right. by exists 0%nat.
    + intros x Hx. apply Hexact. by left.
Qed.

(** *** Node objects *)

(** X11. The kind of a node guards its payload. A contour node gives
    back the four coordinates it was given; for any other node
    [setContour] does nothing and [getContour] answers four zeros. A
    hierarchy node gives back the ASF-B*-tree it was given; for any other
    node [setASFTree] does nothing and [getASFTree] answers null.
    [getModuleName] is the name for a module node and the empty string
    otherwise. A new node has no child, no parent and no payload. *)
Theorem node_kind_guards_payload (n : HBStarTreeNode.t)
    (x1 y1 x2 y2 : Z) (tree : option nat) :
  (if decide (type n = CONTOUR)
   then getContour (setContour x1 y1 x2 y2 n) = (x1, y1, x2, y2)
   else setContour x1 y1 x2 y2 n = n /\ getContour n = (0, 0, 0, 0)) /\
  (if decide (type n = HIERARCHY)
   then getASFTree (setASFTree tree n) = tree
   else setASFTree tree n = n /\ getASFTree n = None) /\
  (if decide (type n = MODULE)
   then getModuleName n = name n
   else getModuleName n = EmptyString) /\
  type (setContour x1 y1 x2 y2 n) = type n /\
  type (setASFTree tree n) = type n /\
  (forall ty nm,
     isLeaf (HBStarTreeNode.create ty nm) = true /\
     parent (HBStarTreeNode.create ty nm) = None /\
     getContour (HBStarTreeNode.create ty nm) = (0, 0, 0, 0) /\
     getASFTree (HBStarTreeNode.create ty nm) = None).
Proof.
  unfold getContour, setContour, getASFTree, setASFTree, getModuleName.
  destruct (type n) eqn:Hty; repeat split;
    repeat case_decide; try done; cbn; rewrite ?Hty; try done;
    by destruct ty.
Qed.

(** *** Registered names are stable *)

Lemma relinked_fresh st st' : relinked st st' -> fresh st -> fresh st'.
Proof.
  intros (Hn & Hd & _) Hf id [n' Hid]. rewrite Hn. apply Hf.
  destruct (nodes st !! id) eqn:E; [done|]. apply Hd in E. congruence.
Qed.

Lemma iter_release_step_nextNode (k : nat) st :
  nextNode (Nat.iter k release_step st) = nextNode st.
Proof. induction k as [|k IH]; [done|]. by rewrite Nat.iter_succ. Qed.

Lemma release_fresh st : fresh st -> fresh (release st).
Proof.
  intros Hf id [n Hid]. unfold release.
  rewrite iter_release_step_nextNode. apply Hf.
  apply release_nodes in Hid. by rewrite Hid.
Qed.

Lemma sameTree_fresh st st' : sameTree st st' -> fresh st -> fresh st'.
Proof.
  intros (Hn & Hx & _) Hf id Hid. rewrite Hx. apply Hf. by rewrite <- Hn.
Qed.

(** A step that keeps the address supply intact and the registered
    nodes in place. *)
Local Abbreviation steps st st' :=
  (fresh st -> fresh st' /\ keepsRegistered st st').

Lemma steps_trans st1 st2 st3 :
  steps st1 st2 -> steps st2 st3 -> steps st1 st3.
Proof.
  intros H12 H23 Hf. destruct (H12 Hf) as [Hf2 Hk12].
  destruct (H23 Hf2) as [Hf3 Hk23].
  split; [done|]. by eapply keepsRegistered_trans.
Qed.

Lemma relinked_steps st st' :
  nodeMap st' = nodeMap st -> relinked st st' -> steps st st'.
Proof.
  intros Hm Hr Hf. split; [by eapply relinked_fresh|].
  by apply relinked_keepsRegistered.
Qed.

Lemma release_steps st : steps st (release st).
Proof.
  intros Hf. split; [by apply release_fresh|apply release_keepsRegistered].
Qed.

Lemma sameTree_steps st st' : sameTree st st' -> steps st st'.
Proof.
  intros Hs Hf. split; [by eapply sameTree_fresh|].
  by apply sameTree_keepsRegistered.
Qed.

Lemma repackAffectedSubtrees_steps st :
  steps st (repackAffectedSubtrees st).
Proof.
  unfold repackAffectedSubtrees.
  destruct (decide (modifiedSubtrees st = ∅));
    [intros Hf; split; [done|apply keepsRegistered_refl]|].
  set (st1 := fold_left packSubtree (rootsToRepack st) st).
  eapply steps_trans; [|apply release_steps].
  apply (steps_trans _ st1);
    [apply sameTree_steps, fold_packSubtree_sameTree|].
  apply relinked_steps; [done|apply (relinked_refl st1)].
Qed.

Lemma if_repack_steps st :
  steps st (if isPacked st then repackAffectedSubtrees st else st).
Proof.
  destruct (isPacked st); [apply repackAffectedSubtrees_steps|].
  intros Hf. split; [done|apply keepsRegistered_refl].
Qed.

Lemma newNode_steps st (n : HBStarTreeNode.t) : steps st (newNode n st).2.
Proof.
  intros Hf. unfold newNode. cbn [snd]. split.
  - intros id [n' Hid]. cbn [nodes nextNode set_nodes set_nextNode] in *.
    destruct (decide (id = nextNode st)) as [->|Hne]; [lia|].
    rewrite lookup_insert_ne in Hid by done.
    assert (id < nextNode st)%nat by (apply Hf; by rewrite Hid). lia.
  - split; [done|]. intros nodeName id n0 _ Hid. exists n0.
    split; [|apply samePayload_refl].
    cbn [nodes set_nodes set_nextNode].
    rewrite lookup_insert_ne; [done|]. intros <-.
    assert (nextNode st < nextNode st)%nat; [|lia].
    apply Hf. by rewrite Hid.
Qed.

Lemma createContourNodes_steps (segs : list Contour.ContourSegment) :
  forall st (groupName : string) (i : nat),
  steps st (createContourNodes st groupName i segs).2.
Proof.
  induction segs as [|g segs IH]; intros st groupName i.
  - intros Hf. split; [done|apply keepsRegistered_refl].
  - cbn [createContourNodes].
    pose proof (newNode_steps st
                  (HBStarTreeNode.setContour
                     (Contour.start g) (Contour.height g)
                     (Contour.end_ g) (Contour.height g)
                     (HBStarTreeNode.create CONTOUR
                        (groupName +:+ "_contour_" +:+ pretty i)))) as Hn.
    destruct (newNode _ st) as [contourNode st1]. cbn [snd] in Hn.
    specialize (IH st1 groupName (S i)).
    destruct (createContourNodes st1 groupName (S i) segs) as [others st2].
    cbn [snd] in *. by eapply steps_trans.
Qed.

Lemma updateContourNodesOf_steps st (entry : string * nat) :
  steps st (updateContourNodesOf st entry).
Proof.
  assert (Hid : steps st st).
  { intros Hf. split; [done|apply keepsRegistered_refl]. }
  unfold updateContourNodesOf. destruct entry as [groupName hierarchyNode].
  destruct (nodes st !! hierarchyNode) as [hn|]; [|done].
  destruct (getASFTree hn) as [a|]; [|done].
  destruct (asfTrees st !! a) as [asfTree|]; [|done].
  pose proof (createContourNodes_steps
                (Contour.getSegments (asf_getContours asfTree).1)
                st groupName 0) as Hc.
  destruct (createContourNodes st groupName 0 _) as [newContourNodes st1].
  cbn [snd] in Hc.
  eapply steps_trans; [exact Hc|].
  eapply steps_trans; [|apply release_steps].
  set (st2 := match newContourNodes with [] => st1 | _ :: _ => _ end).
  assert (H2 : relinked st1 st2 /\ nodeMap st2 = nodeMap st1).
  { subst st2. destruct newContourNodes as [|first others];
      [split; [apply relinked_refl|done]|].
    split.
    - eapply relinked_trans; [|apply chainLeft_relinked]. rl.
    - destruct (chainLeft_sameButNodes others
                  (setParent (setRightChild st1 hierarchyNode (Some first))
                             first (Some hierarchyNode)) first)
        as (_&_&_&_&_&_&_&_&Hm&_).
      by rewrite Hm. }
  destruct H2 as [Hr2 Hm2]. clearbody st2.
  set (dangling := omap (getRightChild st2) _).
  apply relinked_steps.
  - destruct (fold_reattach_sameButNodes dangling st2)
      as (_&_&_&_&_&_&_&_&Hm&_).
    by rewrite Hm.
  - eapply relinked_trans; [exact Hr2|apply fold_reattach_relinked].
Qed.

Lemma updateContourNodes_steps st : steps st (updateContourNodes st).
Proof.
  unfold updateContourNodes. generalize (symmetryGroupNodes st).
  intros l. revert st.
  induction l as [|entry l IH]; intros st.
  - intros Hf. split; [done|apply keepsRegistered_refl].
  - simpl. eapply steps_trans; [apply updateContourNodesOf_steps|apply IH].
Qed.

Lemma pack_steps st : steps st (pack st).2.
Proof.
  assert (Hid : forall s, steps s s).
  { intros s Hf. split; [done|apply keepsRegistered_refl]. }
  unfold pack. destruct (root st) as [r|]; [|apply Hid].
  destruct (decide (modifiedSubtrees st = ∅));
    [|apply repackAffectedSubtrees_steps].
  set (st3 := set_verticalContour _ _).
  pose proof (packSubtree_sameTree st3 r) as Hs.
  set (st4 := packSubtree st3 r) in *.
  destruct (boundingBox (modules st4)) as [maxX maxY].
  cbn [snd].
  set (st5 := set_totalArea (toInt (maxX * maxY)) st4).
  apply (steps_trans _ st3);
    [apply relinked_steps; [done|apply (relinked_refl st)]|].
  apply (steps_trans _ st4); [by apply sameTree_steps|].
  apply (steps_trans _ st5);
    [apply relinked_steps; [done|apply (relinked_refl st4)]|].
  apply (steps_trans _ (updateContourNodes st5));
    [apply updateContourNodes_steps|].
  apply relinked_steps; [done|apply (relinked_refl (updateContourNodes st5))].
Qed.

Lemma rotateModule_steps st (moduleName : string) :
  steps st (rotateModule st moduleName).2.
Proof.
  assert (Hid : forall s, steps s s).
  { intros s Hf. split; [done|apply keepsRegistered_refl]. }
  unfold rotateModule.
  destruct (StdMap.find (modules st) moduleName) as [module|]; [|apply Hid].
  destruct (groupOf st moduleName) as [group|].
  - destruct (StdMap.find _ _) as [hierarchyNode|]; [|apply Hid].
    destruct (match nodes st !! hierarchyNode with Some _ => _ | None => _ end)
      as [[a asfTree]|]; [|apply Hid].
    destruct (asf_rotateModule asfTree moduleName (modules st))
      as [[success asfTree'] mods'].
    cbn [snd].
    match goal with
    | |- steps st (if ?b then repackAffectedSubtrees ?s else ?s) =>
        apply (steps_trans _ s);
          [apply relinked_steps; [done|apply (relinked_refl st)]|];
        destruct b; [apply repackAffectedSubtrees_steps|apply Hid]
    end.
  - cbn [snd].
    match goal with
    | |- steps st (if isPacked ?s then _ else _) =>
        apply (steps_trans _ s); [|apply if_repack_steps]
    end.
    destruct (getModuleNode _ moduleName);
      (apply relinked_steps; [done|apply (relinked_refl st)]).
Qed.

Lemma afterIslandPerturbation_steps st (hierarchyNode a : nat)
    (result : bool * ASF * Modules) :
  steps st (afterIslandPerturbation st hierarchyNode a result).2.
Proof.
  destruct result as [[success asfTree'] mods'].
  unfold afterIslandPerturbation. cbn [snd].
  match goal with
  | |- steps st (if ?b then repackAffectedSubtrees ?s else ?s) =>
      apply (steps_trans _ s);
        [apply relinked_steps; [done|apply (relinked_refl st)]|];
      destruct b; [apply repackAffectedSubtrees_steps|]
  end.
  intros Hf. split; [done|apply keepsRegistered_refl].
Qed.


(** *** The shape of the perturbations *)

(** [moveNode] with two registered names: the node objects are linked
    differently and marked, and then the tree is repacked when it is
    packed. *)
Lemma moveNode_structure st (nodeName newParentName : string) (asLeft : bool)
    (node newParent : nat) :
  findNode st nodeName = Some node ->
  findNode st newParentName = Some newParent ->
  exists s, (sameData st s /\ relinked st s) /\
    moveNode st nodeName newParentName asLeft
    = (true, if isPacked s then repackAffectedSubtrees s else s).
Proof.
  intros H1 H2. unfold moveNode. rewrite H1, H2.
  eexists. split; [|reflexivity]. split.
  - eapply sameData_trans; [|apply markSubtreeForRepack_sameData].
    eapply sameData_trans; [|apply markSubtreeForRepack_sameData].
    set (st1 := match getParent st node with Some _ => _ | None => _ end).
    assert (Hs1 : sameData st st1) by (subst st1; sd).
    set (st2 := setParent st1 node (Some newParent)).
    assert (Hs2 : sameData st st2).
    { eapply sameData_trans; [exact Hs1|apply setParent_sameData]. }
    clearbody st2. clear st1 Hs1.
    destruct asLeft.
    + eapply sameData_trans; [|apply setLeftChild_sameData].
      destruct (getLeftChild st2 newParent) as [ex|]; [|done].
      eapply sameData_trans; [exact Hs2|apply relocateExisting_sameData].
    + eapply sameData_trans; [|apply setRightChild_sameData].
      destruct (getRightChild st2 newParent) as [ex|]; [|done].
      eapply sameData_trans; [exact Hs2|apply relocateExisting_sameData].
  - eapply relinked_trans; [|apply markSubtreeForRepack_relinked].
    eapply relinked_trans; [|apply markSubtreeForRepack_relinked].
    set (st1 := match getParent st node with Some _ => _ | None => _ end).
    assert (Hs1 : relinked st st1) by (subst st1; rl).
    set (st2 := setParent st1 node (Some newParent)).
    assert (Hs2 : relinked st st2).
    { eapply relinked_trans; [exact Hs1|apply setParent_relinked]. }
    clearbody st2. clear st1 Hs1.
    destruct asLeft.
    + eapply relinked_trans; [|apply setLeftChild_relinked].
      destruct (getLeftChild st2 newParent) as [ex|]; [|done].
      eapply relinked_trans; [exact Hs2|apply relocateExisting_relinked].
    + eapply relinked_trans; [|apply setRightChild_relinked].
      destruct (getRightChild st2 newParent) as [ex|]; [|done].
      eapply relinked_trans; [exact Hs2|apply relocateExisting_relinked].
Qed.

(** [swapNodes] with two registered names, likewise; the node objects
    that the new links no longer hold are destroyed before the repack. *)
Lemma swapNodes_structure st (nodeName1 nodeName2 : string)
    (node1 node2 : nat) :
  findNode st nodeName1 = Some node1 ->
  findNode st nodeName2 = Some node2 ->
  exists s, (sameData st s /\ relinked st s) /\
    swapNodes st nodeName1 nodeName2
    = (true, if isPacked (release s) then repackAffectedSubtrees (release s)
             else release s).
Proof.
  intros H1 H2. unfold swapNodes. rewrite H1, H2.
  eexists. split; [|reflexivity]. split.
  - set (st0 := markSubtreeForRepack _ _).
    assert (Hs0 : sameData st st0) by (subst st0; sd).
    clearbody st0.
    eapply sameData_trans; [exact Hs0|].
    destruct (_ || _); [apply swapWithChild_sameData|].
    destruct (_ || _); [apply swapWithChild_sameData|].
    repeat first
      [ apply sameData_refl
      | eapply sameData_trans;
        [|first [ apply attachToParent_sameData | apply setParentOf_sameData
                | apply detachFromParent_sameData | sd_step ]] ].
  - set (st0 := markSubtreeForRepack _ _).
    assert (Hs0 : relinked st st0) by (subst st0; rl).
    clearbody st0.
    eapply relinked_trans; [exact Hs0|].
    destruct (_ || _); [apply swapWithChild_relinked|].
    destruct (_ || _); [apply swapWithChild_relinked|].
    repeat first
      [ apply relinked_refl
      | eapply relinked_trans;
        [|first [ apply attachToParent_relinked | apply setParentOf_relinked
                | apply detachFromParent_relinked | rl_step ]] ].
Qed.

Lemma moveNode_skylines st (nodeName newParentName : string) (asLeft : bool) :
  skylines_wf st -> skylines_wf (moveNode st nodeName newParentName asLeft).2.
Proof.
  intros Hwf.
  destruct (findNode st nodeName) as [node|] eqn:H1;
    [|unfold moveNode; by rewrite H1].
  destruct (findNode st newParentName) as [newParent|] eqn:H2;
    [|unfold moveNode; by rewrite H1, H2].
  destruct (moveNode_structure st _ _ asLeft _ _ H1 H2) as (s & [Hs _] & ->).
  cbn [snd]. apply if_repack_skylines. by apply (sameData_skylines st).
Qed.

Lemma swapNodes_skylines st (nodeName1 nodeName2 : string) :
  skylines_wf st -> skylines_wf (swapNodes st nodeName1 nodeName2).2.
Proof.
  intros Hwf.
  destruct (findNode st nodeName1) as [node1|] eqn:H1;
    [|unfold swapNodes; by rewrite H1].
  destruct (findNode st nodeName2) as [node2|] eqn:H2;
    [|unfold swapNodes; by rewrite H1, H2].
  destruct (swapNodes_structure st _ _ _ _ H1 H2) as (s & [Hs _] & ->).
  cbn [snd]. apply if_repack_skylines.
  apply (sameData_skylines s); [|by apply (sameData_skylines st)].
  apply sameButNodes_sameData, release_sameButNodes.
Qed.

Lemma moveNode_steps st (nodeName newParentName : string) (asLeft : bool) :
  steps st (moveNode st nodeName newParentName asLeft).2.
Proof.
  assert (Hid : forall s, steps s s).
  { intros s Hf. split; [done|apply keepsRegistered_refl]. }
  destruct (findNode st nodeName) as [node|] eqn:H1;
    [|unfold moveNode; rewrite H1; apply Hid].
  destruct (findNode st newParentName) as [newParent|] eqn:H2;
    [|unfold moveNode; rewrite H1, H2; apply Hid].
  destruct (moveNode_structure st _ _ asLeft _ _ H1 H2)
    as (s & [Hs Hr] & ->).
  cbn [snd]. apply (steps_trans _ s); [|apply if_repack_steps].
  apply relinked_steps; [|done]. by destruct Hs as (_&_&_&_&_&_&_&?&_).
Qed.

Lemma swapNodes_steps st (nodeName1 nodeName2 : string) :
  steps st (swapNodes st nodeName1 nodeName2).2.
Proof.
  assert (Hid : forall s, steps s s).
  { intros s Hf. split; [done|apply keepsRegistered_refl]. }
  destruct (findNode st nodeName1) as [node1|] eqn:H1;
    [|unfold swapNodes; rewrite H1; apply Hid].
  destruct (findNode st nodeName2) as [node2|] eqn:H2;
    [|unfold swapNodes; rewrite H1, H2; apply Hid].
  destruct (swapNodes_structure st _ _ _ _ H1 H2) as (s & [Hs Hr] & ->).
  cbn [snd]. apply (steps_trans _ (release s)); [|apply if_repack_steps].
  apply (steps_trans _ s); [|apply release_steps].
  apply relinked_steps; [|done]. by destruct Hs as (_&_&_&_&_&_&_&?&_).
Qed.

(** X15. Packing and the perturbations keep both skylines sorted and
    non-overlapping: when they are before [pack], [rotateModule],
    [moveNode] or [swapNodes], they are afterwards; and a full [pack()]
    makes them so whatever they were before. *)
Theorem skylines_stay_sorted st :
  (skylines_wf st ->
   skylines_wf (pack st).2 /\
   (forall moduleName, skylines_wf (rotateModule st moduleName).2) /\
   (forall nodeName newParentName asLeftChild,
      skylines_wf (moveNode st nodeName newParentName asLeftChild).2) /\
   (forall nodeName1 nodeName2,
      skylines_wf (swapNodes st nodeName1 nodeName2).2)) /\
  (is_Some (root st) -> modifiedSubtrees st = ∅ -> skylines_wf (pack st).2).
Proof.
  assert (Hfull : forall r, root st = Some r -> modifiedSubtrees st = ∅ ->
                    skylines_wf (pack st).2).
  { intros r Hroot Hmarks. unfold pack. rewrite Hroot.
    destruct (decide (modifiedSubtrees st = ∅)) as [_|]; [|done].
    set (st3 := set_verticalContour _ _).
    assert (H3 : skylines_wf st3).
    { subst st3. split; cbn; unfold INT_MAX; lia. }
    pose proof (packSubtree_rec_skylines (S (size (nodes st3))) st3 r H3)
      as H4.
    fold (packSubtree st3 r) in H4.
    set (st4 := packSubtree st3 r) in *.
    destruct (boundingBox (modules st4)) as [maxX maxY].
    set (st5 := set_totalArea (toInt (maxX * maxY)) st4).
    destruct (updateContourNodes_sameButNodes st5) as (_&_&_&_&Hh&Hv&_).
    cbn [snd]. by apply (skylines_wf_ext st4). }
  split.
  - intros Hwf. split; [|split; [|split]].
    + destruct (root st) as [r|] eqn:Hroot;
        [|by rewrite (pack_without_root st Hroot)].
      destruct (decide (modifiedSubtrees st = ∅)) as [Hm|Hm];
        [by apply (Hfull r)|].
      unfold pack. rewrite Hroot.
      destruct (decide (modifiedSubtrees st = ∅)); [done|].
      by apply repackAffectedSubtrees_skylines.
    + intros moduleName. by apply rotateModule_skylines.
    + intros. by apply moveNode_skylines.
    + intros. by apply swapNodes_skylines.
  - intros [r Hroot]. by apply (Hfull r).
Qed.


(** X23. Registered names are stable. In a state in which no live node
    has an address that is still to be handed out, [pack] and the five
    perturbations leave [nodeMap] as it is, and every node that was
    registered and alive is still alive afterwards, with the kind, the
    name and the payload it had: no registered node is destroyed or
    replaced, whatever the call returned. The condition on the addresses
    holds again afterwards, and it holds for a new tree. *)
Theorem registered_names_are_stable st :
  fresh st ->
  (fresh (pack st).2 /\ keepsRegistered st (pack st).2) /\
  (forall moduleName,
     fresh (rotateModule st moduleName).2 /\
     keepsRegistered st (rotateModule st moduleName).2) /\
  (forall nodeName newParentName asLeftChild,
     fresh (moveNode st nodeName newParentName asLeftChild).2 /\
     keepsRegistered st (moveNode st nodeName newParentName asLeftChild).2) /\
  (forall nodeName1 nodeName2,
     fresh (swapNodes st nodeName1 nodeName2).2 /\
     keepsRegistered st (swapNodes st nodeName1 nodeName2).2) /\
  (forall symmetryGroupName,
     fresh (convertSymmetryType st symmetryGroupName).2 /\
     keepsRegistered st (convertSymmetryType st symmetryGroupName).2) /\
  (forall symmetryGroupName moduleName,
     fresh (changeRepresentative st symmetryGroupName moduleName).2 /\
     keepsRegistered st
       (changeRepresentative st symmetryGroupName moduleName).2) /\
  fresh (HBStarTree.create (ASF := ASF)).
Proof.
  intros Hf.
  split; [by apply pack_steps|].
  split; [intros; by apply rotateModule_steps|].
  split; [intros; by apply moveNode_steps|].
  split; [intros; by apply swapNodes_steps|].
  split; [|split].
  - intros g. unfold convertSymmetryType.
    destruct (islandOf st g) as [[[hn a] asfTree]|];
      [by apply afterIslandPerturbation_steps|].
    split; [done|apply keepsRegistered_refl].
  - intros g m. unfold changeRepresentative.
    destruct (islandOf st g) as [[[hn a] asfTree]|];
      [by apply afterIslandPerturbation_steps|].
    split; [done|apply keepsRegistered_refl].
  - intros id [n Hn]. cbn [nodes HBStarTree.create] in Hn.
    by rewrite lookup_empty in Hn.
Qed.

End WithASF.

Section Construction.
Context {ASF : Type} `{ops : ASFBStarTree ASF}.
Implicit Types st s : HBStarTree.t ASF.

(** *** The construction of the initial tree *)

Lemma sameProblem_refl st : sameProblem st st.
Proof. by repeat split. Qed.

Lemma sameProblem_trans st1 st2 st3 :
  sameProblem st1 st2 -> sameProblem st2 st3 -> sameProblem st1 st3.
Proof.
  unfold sameProblem. intros (?&?&?&?&?&?) (?&?&?&?&?&?).
  repeat split; congruence.
Qed.

Lemma sameButNodes_sameProblem st st' :
  sameButNodes st st' -> sameProblem st st'.
Proof. intros (?&?&?&?&?&?&?&?&?&?&?&?). by repeat split. Qed.

Lemma clearTree_sameProblem st : sameProblem st (clearTree st).
Proof.
  unfold clearTree.
  eapply sameProblem_trans;
    [|apply sameButNodes_sameProblem, release_sameButNodes].
  by repeat split.
Qed.

Lemma constructSymmetryIsland_sameProblem st (group : SymmetryGroup.t) :
  sameProblem st (constructSymmetryIsland st group).
Proof. by repeat split. Qed.

Lemma fold_constructSymmetryIsland_sameProblem (l : list SymmetryGroup.t) :
  forall st, sameProblem st (fold_left constructSymmetryIsland l st).
Proof.
  induction l as [|g l IH]; intros st; [apply sameProblem_refl|].
  simpl. eapply sameProblem_trans;
    [apply constructSymmetryIsland_sameProblem|apply IH].
Qed.

Lemma fold_createModuleNode_sameProblem (l : list string) :
  forall st, sameProblem st (fold_left createModuleNode l st).
Proof.
  induction l as [|m l IH]; intros st; [apply sameProblem_refl|].
  simpl. eapply sameProblem_trans; [|apply IH]. by repeat split.
Qed.

Lemma constructInitialTreeStructure_sameProblem st :
  sameProblem st (constructInitialTreeStructure st).
Proof.
  unfold constructInitialTreeStructure.
  set (st1 := fold_left createModuleNode (nonSymmetryModules st) st).
  assert (H1 : sameProblem st st1)
    by apply fold_createModuleNode_sameProblem.
  destruct (StdMap.values (symmetryGroupNodes st1)) as [|first others].
  - destruct (StdMap.values (moduleNodes st1)) as [|first others]; [done|].
    eapply sameProblem_trans;
      [|apply sameButNodes_sameProblem, chainLeft_sameButNodes].
    eapply sameProblem_trans; [exact H1|]. by repeat split.
  - eapply sameProblem_trans;
      [|apply sameButNodes_sameProblem, chainLeft_sameButNodes].
    eapply sameProblem_trans; [exact H1|]. by repeat split.
Qed.

Lemma registerNodeInMap_rec_fields (fuel : nat) : forall st (node : nat),
  sameProblem st (registerNodeInMap_rec fuel st node) /\
  root (registerNodeInMap_rec fuel st node) = root st /\
  isPacked (registerNodeInMap_rec fuel st node) = isPacked st /\
  nodes (registerNodeInMap_rec fuel st node) = nodes st /\
  nextNode (registerNodeInMap_rec fuel st node) = nextNode st.
Proof.
  induction fuel as [|fuel IH]; intros st node; simpl;
    [split; [apply sameProblem_refl|done]|].
  destruct (nodes st !! node) as [n|];
    [|split; [apply sameProblem_refl|done]].
  set (st1 := set_nodeMap _ st).
  assert (H1 : sameProblem st st1 /\ root st1 = root st /\
               isPacked st1 = isPacked st /\ nodes st1 = nodes st /\
               nextNode st1 = nextNode st) by (by repeat split).
  clearbody st1.
  assert (H2 : forall c, let s2 := match c with
                                   | Some l => registerNodeInMap_rec fuel st1 l
                                   | None => st1 end in
               sameProblem st s2 /\ root s2 = root st /\
               isPacked s2 = isPacked st /\ nodes s2 = nodes st /\
               nextNode s2 = nextNode st).
  { intros [l|]; [|exact H1]. cbv zeta.
    destruct (IH st1 l) as (Ha & Hb & Hc & Hd & He).
    destruct H1 as (H1a & H1b & H1c & H1d & H1e).
    split; [by eapply sameProblem_trans|]. repeat split; congruence. }
  specialize (H2 (leftChild n)). cbv zeta in H2.
  set (st2 := match leftChild n with Some _ => _ | None => _ end) in *.
  clearbody st2.
  destruct (rightChild n) as [r|]; [|exact H2].
  destruct (IH st2 r) as (Ha & Hb & Hc & Hd & He).
  destruct H2 as (H2a & H2b & H2c & H2d & H2e).
  split; [by eapply sameProblem_trans|]. repeat split; congruence.
Qed.

Lemma fold_constructSymmetryIsland_tables (l : list SymmetryGroup.t) :
  forall st,
  let st' := fold_left constructSymmetryIsland l st in
  moduleNodes st' = moduleNodes st /\ root st' = root st /\
  isPacked st' = isPacked st /\
  (l = [] -> symmetryGroupNodes st' = symmetryGroupNodes st) /\
  (l <> [] \/ symmetryGroupNodes st <> [] -> symmetryGroupNodes st' <> []).
Proof.
  induction l as [|g l IH]; intros st; cbv zeta.
  - simpl. repeat split; try done. by intros [?|?].
  - cbn [fold_left].
    destruct (IH (constructSymmetryIsland st g)) as (H1 & H2 & H3 & _ & H5).
    rewrite H1, H2, H3. repeat split; try done.
    intros _. apply H5. right. unfold constructSymmetryIsland.
    cbn [symmetryGroupNodes set_symmetryGroupNodes].
    apply insert_nonempty.
Qed.

Lemma fold_createModuleNode_tables (l : list string) :
  forall st,
  let st' := fold_left createModuleNode l st in
  symmetryGroupNodes st' = symmetryGroupNodes st /\ root st' = root st /\
  isPacked st' = isPacked st /\
  (l = [] -> moduleNodes st' = moduleNodes st) /\
  (l <> [] \/ moduleNodes st <> [] -> moduleNodes st' <> []).
Proof.
  induction l as [|m l IH]; intros st; cbv zeta.
  - simpl. repeat split; try done. by intros [?|?].
  - cbn [fold_left].
    destruct (IH (createModuleNode st m)) as (H1 & H2 & H3 & _ & H5).
    rewrite H1, H2, H3. repeat split; try done.
    intros _. apply H5. right. unfold createModuleNode.
    cbn [moduleNodes set_moduleNodes]. apply insert_nonempty.
Qed.

Lemma sort_by_area_nil (mods : Modules) (l : list string) :
  sort_by_area mods l = [] <-> l = [].
Proof.
  split; [|by intros ->]. destruct l as [|a l]; [done|].
  unfold sort_by_area. simpl.
  destruct (foldr (insert_by_area mods) [] l) as [|b r]; simpl; [done|].
  by destruct (areaOf mods b >? areaOf mods a).
Qed.

Lemma nonSymmetryModules_ext st st' :
  modules st' = modules st -> symmetryGroups st' = symmetryGroups st ->
  nonSymmetryModules st' = nonSymmetryModules st.
Proof. unfold nonSymmetryModules. by intros -> ->. Qed.

Lemma constructInitialTree_fields st :
  sameProblem st (constructInitialTree st) /\
  isPacked (constructInitialTree st) = false /\
  (root (constructInitialTree st) = None <->
   symmetryGroups st = [] /\ nonSymmetryModules st = []).
Proof.
  unfold constructInitialTree.
  set (s0 := clearTree st).
  assert (H0 : sameProblem st s0) by apply clearTree_sameProblem.
  assert (H0' : root s0 = None /\ isPacked s0 = false /\
                moduleNodes s0 = [] /\ symmetryGroupNodes s0 = []).
  { subst s0. unfold clearTree.
    destruct (release_sameButNodes
                (set_isPacked false
                   (set_symmetryGroupNodes StdMap.empty
                      (set_moduleNodes StdMap.empty (set_root None st)))))
      as (_&_&_&Hr&_&_&Hmn&Hsn&_&_&_&Hp).
    by rewrite Hr, Hmn, Hsn, Hp. }
  destruct H0' as (Hr0 & Hp0 & Hmn0 & Hsn0).
  clearbody s0.
  set (s1 := constructSymmetryIslands s0).
  assert (H1 : sameProblem s0 s1)
    by apply fold_constructSymmetryIsland_sameProblem.
  destruct (fold_constructSymmetryIsland_tables (symmetryGroups s0) s0)
    as (Hmn1 & Hr1 & Hp1 & Hsn1 & Hsn1').
  fold (constructSymmetryIslands s0) in Hmn1, Hr1, Hp1, Hsn1, Hsn1'.
  fold s1 in Hmn1, Hr1, Hp1, Hsn1, Hsn1'. clearbody s1.
  set (s2 := constructInitialTreeStructure s1).
  assert (H2 : sameProblem s1 s2)
    by apply constructInitialTreeStructure_sameProblem.
  assert (Hgroups : symmetryGroups s0 = symmetryGroups st)
    by (by destruct H0 as (_&?&_)).
  assert (Hns : nonSymmetryModules s1 = nonSymmetryModules st).
  { destruct H0 as (?&?&_), H1 as (?&?&_).
    apply nonSymmetryModules_ext; congruence. }
  assert (H2' : isPacked s2 = false /\
                (root s2 = None <->
                 symmetryGroups st = [] /\ nonSymmetryModules st = [])).
  { subst s2. unfold constructInitialTreeStructure.
    destruct (fold_createModuleNode_tables (nonSymmetryModules s1) s1)
      as (Hsn2 & Hr2 & Hp2 & Hmn2 & Hmn2').
    set (s1' := fold_left createModuleNode (nonSymmetryModules s1) s1) in *.
    rewrite Hns in *. rewrite Hgroups in *.
    assert (Hchain : forall s first rest,
              root (chainLeft (set_root (Some first) s) first rest)
                = Some first /\
              isPacked (chainLeft (set_root (Some first) s) first rest)
                = isPacked s).
    { intros s first rest.
      destruct (chainLeft_sameButNodes rest (set_root (Some first) s) first)
        as (_&_&_&Hr&_&_&_&_&_&_&_&Hp).
      by rewrite Hr, Hp. }
    destruct (StdMap.values (symmetryGroupNodes s1')) as [|first others]
      eqn:Hv.
    - assert (symmetryGroupNodes s1' = []) as Hnil.
      { unfold StdMap.values in Hv. by destruct (symmetryGroupNodes s1'). }
      assert (symmetryGroups st = []) as Hg.
      { destruct (symmetryGroups st) as [|g l] eqn:E; [done|].
        exfalso. apply Hsn1'; [by left|]. by rewrite <- Hsn2. }
      destruct (StdMap.values (moduleNodes s1')) as [|first others] eqn:Hv'.
      + assert (moduleNodes s1' = []) as Hnil'.
        { unfold StdMap.values in Hv'. by destruct (moduleNodes s1'). }
        split; [by rewrite Hp2, Hp1|].
        rewrite Hr2, Hr1, Hr0. split; [|done]. intros _. split; [done|].
        destruct (nonSymmetryModules st) as [|m l] eqn:E; [done|].
        exfalso. apply Hmn2'; [by left|done].
      + destruct (Hchain s1' first others) as [-> ->].
        split; [by rewrite Hp2, Hp1|].
        split; [done|]. intros [_ Hn]. exfalso.
        rewrite (Hmn2 Hn), Hmn1, Hmn0 in Hv'. done.
    - destruct (Hchain s1' first
                  (others ++ StdMap.values (moduleNodes s1'))) as [-> ->].
      split; [by rewrite Hp2, Hp1|].
      split; [done|]. intros [Hg _]. exfalso.
      rewrite Hsn2, (Hsn1 Hg), Hsn0 in Hv. done. }
  destruct H2' as [Hp2 Hroot2]. clearbody s2.
  set (s3 := match root s2 with Some r => registerNodeInMap s2 r | None => s2 end).
  assert (H3 : sameProblem s2 s3 /\ root s3 = root s2 /\
               isPacked s3 = isPacked s2).
  { subst s3. destruct (root s2) as [r|] eqn:Er;
      [|split; [apply sameProblem_refl|done]].
    destruct (registerNodeInMap_rec_fields (S (size (nodes s2))) s2 r)
      as (Ha & Hb & Hc & _). unfold registerNodeInMap.
    rewrite Hb, Hc, Er. done. }
  destruct H3 as (H3 & Hr3 & Hp3). clearbody s3.
  destruct (release_sameButNodes s3) as (_&_&_&Hr4&_&_&_&_&_&_&_&Hp4).
  split; [|split].
  - eapply sameProblem_trans; [exact H0|].
    eapply sameProblem_trans; [exact H1|].
    eapply sameProblem_trans; [exact H2|].
    eapply sameProblem_trans; [exact H3|].
    apply sameButNodes_sameProblem, release_sameButNodes.
  - by rewrite Hp4, Hp3.
  - by rewrite Hr4, Hr3.
Qed.

Lemma nonSymmetryModules_nonempty st :
  modules st <> [] -> symmetryGroups st = [] -> nonSymmetryModules st <> [].
Proof.
  intros Hm Hg. unfold nonSymmetryModules. rewrite Hg. simpl.
  rewrite sort_by_area_nil.
  destruct (modules st) as [|[k v] rest]; [done|]. simpl. done.
Qed.

(** X24. [constructInitialTree] leaves a tree without a root exactly
    when there is no symmetry group and no module outside the groups; so
    it leaves a root whenever a module is registered. It clears the
    packed flag and rebuilds the nodes, and it leaves the modules, the
    symmetry groups, the two skylines, the stored area and the marks as
    they are: marks set before the call survive it. *)
Theorem constructInitialTree_builds_a_root st :
  (root (constructInitialTree st) = None <->
   symmetryGroups st = [] /\ nonSymmetryModules st = []) /\
  (modules st <> [] -> is_Some (root (constructInitialTree st))) /\
  isPacked (constructInitialTree st) = false /\
  modules (constructInitialTree st) = modules st /\
  symmetryGroups (constructInitialTree st) = symmetryGroups st /\
  horizontalContour (constructInitialTree st) = horizontalContour st /\
  verticalContour (constructInitialTree st) = verticalContour st /\
  totalArea (constructInitialTree st) = totalArea st /\
  modifiedSubtrees (constructInitialTree st) = modifiedSubtrees st.
Proof.
  destruct (constructInitialTree_fields st)
    as ((Hm & Hg & Hh & Hv & Hms & Ha) & Hp & Hroot).
  split; [exact Hroot|]. split; [|by repeat split].
  intros Hne.
  destruct (root (constructInitialTree st)) as [r|] eqn:E; [done|].
  exfalso. destruct (proj1 Hroot eq_refl) as [Hg0 Hn0].
  by apply (nonSymmetryModules_nonempty st).
Qed.

(** X25. The initial placement: on a tree with at least one registered
    module and no marked node, [constructInitialTree()] followed by
    [pack()] succeeds and leaves a packed tree with a root, no marks, and
    as the stored area the [int] product of the sides of the bounding
    box of its modules: the area of the box when that is at most
    [INT_MAX], and the wrapped product otherwise. *)
Theorem initial_solution_is_packed st :
  modules st <> [] -> modifiedSubtrees st = ∅ ->
  let st' := (pack (constructInitialTree st)).2 in
  let box := boundingBox (modules st') in
  (pack (constructInitialTree st)).1 = true /\
  is_Some (root st') /\ isPacked st' = true /\ modifiedSubtrees st' = ∅ /\
  getArea st' = toInt (box.1 * box.2) /\
  (box.1 * box.2 <= INT_MAX -> getArea st' = box.1 * box.2).
Proof.
  intros Hne Hmarks st' box.
  destruct (constructInitialTree_fields st)
    as ((Hm & Hg & Hh & Hv & Hms & Ha) & Hp & Hroot).
  destruct (root (constructInitialTree st)) as [r|] eqn:E; cycle 1.
  { exfalso. destruct (proj1 Hroot eq_refl) as [Hg0 Hn0].
    by apply (nonSymmetryModules_nonempty st). }
  assert (Hms' : modifiedSubtrees (constructInitialTree st) = ∅)
    by (by rewrite Hms).
  destruct (pack_full_fields (constructInitialTree st) r E Hms')
    as (H1 & H2 & H3 & H4 & _ & _ & _ & H8).
  destruct (boundingBox_range (modules st')) as [Hx Hy].
  fold st' in H2, H3, H4, H8. fold box in H8, Hx, Hy.
  split; [done|]. split; [by rewrite H4|].
  split; [done|]. split; [done|]. split; [exact H8|].
  intros Hfit. unfold getArea. rewrite H8.
  apply HBStarTreeFacts.toInt_id. unfold INT_MIN. nia.
Qed.

(** *** [clone] *)

Lemma fold_addModule_modules (l : Modules) : forall (c : HBStarTree.t ASF),
  let c' := fold_left (fun c (kv : string * Module_.t) =>
                         set_modules (StdMap.insert kv.1 kv.2 (modules c)) c)
                      l c in
  modules c' = fold_left (fun m kv => StdMap.insert kv.1 kv.2 m) l (modules c)
  /\ symmetryGroups c' = symmetryGroups c /\
  modifiedSubtrees c' = modifiedSubtrees c.
Proof.
  induction l as [|kv l IH]; intros c; cbv zeta; [done|].
  cbn [fold_left]. destruct (IH (set_modules
                                   (StdMap.insert kv.1 kv.2 (modules c)) c))
    as (H1 & H2 & H3).
  by rewrite H1, H2, H3.
Qed.

Lemma fold_addGroup_groups (l : list SymmetryGroup.t) :
  forall (c : HBStarTree.t ASF),
  let c' := fold_left (fun c group =>
                         set_symmetryGroups (symmetryGroups c ++ [group]) c)
                      l c in
  symmetryGroups c' = symmetryGroups c ++ l /\ modules c' = modules c /\
  modifiedSubtrees c' = modifiedSubtrees c.
Proof.
  induction l as [|g l IH]; intros c; cbv zeta.
  - by rewrite app_nil_r.
  - cbn [fold_left].
    destruct (IH (set_symmetryGroups (symmetryGroups c ++ [g]) c))
      as (H1 & H2 & H3).
    rewrite H1, H2, H3. cbn. by rewrite <- app_assoc.
Qed.

Lemma clone_fields st :
  modules (clone st) = StdMap.of_list (modules st) /\
  symmetryGroups (clone st) = symmetryGroups st /\
  totalArea (clone st) = totalArea st /\ isPacked (clone st) = isPacked st /\
  horizontalContour (clone st) = horizontalContour st /\
  verticalContour (clone st) = verticalContour st /\
  modifiedSubtrees (clone st) = ∅.
Proof.
  unfold clone.
  destruct (fold_addModule_modules (modules st) HBStarTree.create)
    as (Hm1 & Hg1 & Hs1).
  set (c1 := fold_left _ (modules st) HBStarTree.create) in *.
  destruct (fold_addGroup_groups (symmetryGroups st) c1) as (Hg2 & Hm2 & Hs2).
  set (c2 := fold_left _ (symmetryGroups st) c1) in *.
  destruct (constructInitialTree_fields c2)
    as ((Hm & Hg & Hh & Hv & Hms & Ha) & Hp & Hroot).
  set (c3 := constructInitialTree c2) in *.
  rewrite Hm2, Hm1 in Hm. rewrite Hg2, Hg1 in Hg.
  rewrite Hs2, Hs1 in Hms. clearbody c3. clear -Hm Hg Hms.
  cbn [modules symmetryGroups totalArea isPacked horizontalContour
       verticalContour modifiedSubtrees set_totalArea set_isPacked
       set_verticalContour set_horizontalContour].
  rewrite Hm, Hg, Hms. by repeat split.
Qed.

(** X26. [clone] preserves the membership and the packed state, not the
    topology: the clone has the modules (when the registry is in key
    order, as a [std::map] is), the symmetry groups, the stored area, the
    packed flag and the two skylines of the original, and no marks; its
    tree is the initial one. Cloning a clone gives the clone again. *)
Theorem clone_preserves_membership st :
  StdMap.ok (modules st) ->
  modules (clone st) = modules st /\
  symmetryGroups (clone st) = symmetryGroups st /\
  getArea (clone st) = getArea st /\ isPacked (clone st) = isPacked st /\
  horizontalContour (clone st) = horizontalContour st /\
  verticalContour (clone st) = verticalContour st /\
  modifiedSubtrees (clone st) = ∅ /\
  clone (clone st) = clone st.
Proof.
  intros Hok. destruct (clone_fields st) as (Hm & Hg & Ha & Hp & Hh & Hv & Hs).
  rewrite (of_list_ok _ Hok) in Hm.
  split; [done|]. split; [done|]. split; [done|]. split; [done|].
  split; [done|]. split; [done|]. split; [done|].
  unfold clone at 1. rewrite Hm, Hg, Ha, Hp, Hh, Hv. reflexivity.
Qed.

End Construction.

Section InitialChain.
Context {ASF : Type} `{ops : ASFBStarTree ASF}.
Implicit Types st s : HBStarTree.t ASF.

(** *** The chain of the initial tree *)

Lemma held_tabled st (a : nat) :
  a ∈ StdMap.values (symmetryGroupNodes st ++ moduleNodes st) ->
  held st a = true.
Proof.
  intros Hin. unfold StdMap.values in Hin. rewrite map_app in Hin.
  unfold held. apply elem_of_app in Hin as [Hin|Hin].
  - assert (existsb (Nat.eqb a) (StdMap.values (symmetryGroupNodes st))
            = true) as ->.
    { apply existsb_exists. exists a. split; [by apply list_elem_of_In|].
      apply Nat.eqb_refl. }
    by rewrite !orb_true_r.
  - assert (existsb (Nat.eqb a) (StdMap.values (moduleNodes st)) = true)
      as ->.
    { apply existsb_exists. exists a. split; [by apply list_elem_of_In|].
      apply Nat.eqb_refl. }
    by rewrite !orb_true_r.
Qed.

Lemma iter_release_step_tabled (k : nat) st (a : nat)
    (n : HBStarTreeNode.t) :
  a ∈ StdMap.values (symmetryGroupNodes st ++ moduleNodes st) ->
  nodes st !! a = Some n ->
  nodes (Nat.iter k release_step st) !! a = Some n.
Proof.
  intros Hin Hn. induction k as [|k IH]; [done|].
  rewrite Nat.iter_succ.
  destruct (iter_release_step_sameButNodes k st)
    as (_&_&_&_&_&_&Hmn&Hsn&_).
  set (s := Nat.iter k release_step st) in *.
  unfold release_step. cbn [nodes set_nodes].
  apply map_lookup_filter_Some. split; [exact IH|].
  cbn [fst]. apply held_tabled. by rewrite Hmn, Hsn.
Qed.

Lemma release_tabled st (a : nat) (n : HBStarTreeNode.t) :
  a ∈ StdMap.values (symmetryGroupNodes st ++ moduleNodes st) ->
  nodes st !! a = Some n -> nodes (release st) !! a = Some n.
Proof. apply iter_release_step_tabled. Qed.

Lemma linkedChain_agree st st' (entries : StdMap.t nat) :
  forall above,
  (forall a, a ∈ StdMap.values entries -> nodes st' !! a = nodes st !! a) ->
  linkedChain st above entries -> linkedChain st' above entries.
Proof.
  induction entries as [|[k a] rest IH]; intros above Hag Hl; [done|].
  destruct Hl as [Hn Hrest]. split.
  - rewrite Hag; [done|]. simpl. apply elem_of_cons. by left.
  - apply IH; [|done]. intros b Hb. apply Hag. simpl.
    apply elem_of_cons. by right.
Qed.

Lemma linkedChain_alive st (entries : StdMap.t nat) :
  forall above, linkedChain st above entries ->
  forall a, a ∈ StdMap.values entries -> is_Some (nodes st !! a).
Proof.
  induction entries as [|[k a] rest IH]; intros above Hl b Hb;
    [by apply elem_of_nil in Hb|].
  destruct Hl as [(n & Hn & _) Hrest]. simpl in Hb.
  apply elem_of_cons in Hb as [->|Hb]; [by exists n|by apply (IH (Some a))].
Qed.

Lemma alive_length st (l : list nat) :
  NoDup l -> (forall a, a ∈ l -> is_Some (nodes st !! a)) ->
  (length l <= size (nodes st))%nat.
Proof.
  intros Hnd Hal.
  rewrite <- (length_map_to_list (nodes st)).
  rewrite <- (length_fmap fst (map_to_list (nodes st))).
  apply submseteq_length, NoDup_submseteq; [done|].
  intros a Ha. destruct (Hal a Ha) as [n Hn].
  apply list_elem_of_fmap. exists (a, n). split; [done|].
  by apply elem_of_map_to_list.
Qed.

Lemma leftChain_linked (entries : StdMap.t nat) :
  forall st above (fuel : nat),
  linkedChain st above entries -> (length entries <= fuel)%nat ->
  leftChain fuel st (head (StdMap.values entries)) = StdMap.keys entries.
Proof.
  induction entries as [|[k a] rest IH]; intros st above fuel Hl Hf.
  - simpl. by destruct fuel.
  - destruct fuel as [|fuel]; [simpl in Hf; lia|].
    destruct Hl as [(n & Hn & Hname & _ & Hleft & _) Hrest].
    cbn [StdMap.values map head snd leftChain]. rewrite Hn, Hname, Hleft.
    cbn [StdMap.keys map fst]. f_equal. apply (IH st (Some a)); [done|].
    simpl in Hf. lia.
Qed.

Lemma chainLeft_frame (rest : list nat) : forall st (current a : nat),
  a ∉ current :: rest ->
  nodes (chainLeft st current rest) !! a = nodes st !! a.
Proof.
  induction rest as [|next rest IH]; intros st current a Ha; [done|].
  cbn [chainLeft]. rewrite IH.
  - unfold setParent, setLeftChild. cbn [nodes set_nodes].
    rewrite !lookup_alter_ne; [done| |].
    + intros ->. apply Ha. apply elem_of_cons. by left.
    + intros ->. apply Ha. apply elem_of_cons. right.
      apply elem_of_cons. by left.
  - intros H. apply Ha. apply elem_of_cons. by right.
Qed.

Lemma chainLeft_linked (rest : StdMap.t nat) :
  forall st above (k : string) (a : nat),
  NoDup (StdMap.values ((k, a) :: rest)) ->
  (forall k' a', (k', a') ∈ (k, a) :: rest ->
     exists n, nodes st !! a' = Some n /\ HBStarTreeNode.getName n = k' /\
               leftChild n = None /\ rightChild n = None /\
               (a' = a -> parent n = above)) ->
  linkedChain (chainLeft st a (StdMap.values rest)) above ((k, a) :: rest).
Proof.
  induction rest as [|[k2 a2] rest IH]; intros st above k a Hnd Hun.
  - destruct (Hun k a) as (n & Hn & Hname & Hl & Hr & Hp);
      [apply elem_of_cons; by left|].
    split; [|done]. exists n. by rewrite (Hp eq_refl).
  - cbn [StdMap.values map snd] in Hnd.
    apply NoDup_cons in Hnd as [Ha Hnd].
    assert (Hne : a <> a2).
    { intros ->. apply Ha. apply elem_of_cons. by left. }
    destruct (Hun k a) as (n & Hn & Hname & Hl & Hr & Hp);
      [apply elem_of_cons; by left|].
    cbn [StdMap.values map snd chainLeft].
    set (st1 := setParent (setLeftChild st a (Some a2)) a2 (Some a)).
    assert (H1 : forall b, b <> a ->
              b = a2 /\
              nodes st1 !! b
              = HBStarTreeNode.setParent (Some a) <$> nodes st !! b \/
              nodes st1 !! b = nodes st !! b /\ b <> a2).
    { intros b Hb. subst st1. unfold setParent, setLeftChild.
      cbn [nodes set_nodes]. destruct (decide (b = a2)) as [->|Hb2].
      - left. rewrite lookup_alter_eq, lookup_alter_ne by done. done.
      - right. by rewrite !lookup_alter_ne by done. }
    split.
    + rewrite chainLeft_frame by done.
      subst st1. unfold setParent, setLeftChild. cbn [nodes set_nodes].
      rewrite lookup_alter_ne, lookup_alter_eq by done. rewrite Hn.
      eexists. split; [done|]. split; [done|].
      split; [exact (Hp eq_refl)|]. by split.
    + apply (IH st1 (Some a) k2 a2); [done|].
      intros k' a' Hin.
      assert (Ha' : a' <> a).
      { intros ->. apply Ha. apply (values_elem ((k2, a2) :: rest)).
        by exists k'. }
      destruct (Hun k' a') as (n' & Hn' & Hname' & Hl' & Hr' & _);
        [apply elem_of_cons; by right|].
      destruct (H1 a' Ha') as [[-> H]|[H Hne2]]; rewrite Hn' in H.
      * eexists. split; [exact H|]. by repeat split.
      * exists n'. by repeat split.
Qed.

Lemma registerNodeInMap_rec_linked (rest : StdMap.t nat) :
  forall st above (fuel : nat) (k : string) (a : nat),
  linkedChain st above ((k, a) :: rest) ->
  (length ((k, a) :: rest) <= fuel)%nat ->
  registerNodeInMap_rec fuel st a
  = set_nodeMap (registerAll ((k, a) :: rest) (nodeMap st)) st.
Proof.
  induction rest as [|[k2 a2] rest IH]; intros st above fuel k a Hl Hf.
  - destruct fuel as [|fuel]; [simpl in Hf; lia|].
    destruct Hl as [(n & Hn & Hname & _ & Hleft & Hright) _].
    cbn [registerNodeInMap_rec]. rewrite Hn, Hname, Hleft, Hright.
    reflexivity.
  - destruct fuel as [|fuel]; [simpl in Hf; lia|].
    destruct Hl as [(n & Hn & Hname & _ & Hleft & Hright) Hrest].
    cbn [registerNodeInMap_rec]. rewrite Hn, Hname, Hleft, Hright.
    cbn [StdMap.values map snd head].
    rewrite (IH _ (Some a) fuel k2 a2).
    + reflexivity.
    + by apply (linkedChain_agree st).
    + simpl in Hf |- *. lia.
Qed.

Lemma registerAll_other (entries : StdMap.t nat) : forall (m : gmap string nat)
    (k : string),
  k ∉ StdMap.keys entries -> registerAll entries m !! k = m !! k.
Proof.
  induction entries as [|[k' a'] rest IH]; intros m k Hk; [done|].
  unfold registerAll. cbn [fold_left]. fold (registerAll rest).
  rewrite IH.
  - apply lookup_insert_ne. intros <-. apply Hk. simpl.
    apply elem_of_cons. by left.
  - intros H. apply Hk. simpl. apply elem_of_cons. by right.
Qed.

Lemma registerAll_elem (entries : StdMap.t nat) : forall (m : gmap string nat)
    (k : string) (a : nat),
  NoDup (StdMap.keys entries) -> (k, a) ∈ entries ->
  registerAll entries m !! k = Some a.
Proof.
  induction entries as [|[k' a'] rest IH]; intros m k a Hnd Hin;
    [by apply elem_of_nil in Hin|].
  simpl in Hnd. apply NoDup_cons in Hnd as [Hk' Hnd].
  unfold registerAll. cbn [fold_left]. fold (registerAll rest).
  apply elem_of_cons in Hin as [[= -> ->]|Hin].
  - rewrite registerAll_other by done. apply lookup_insert_eq.
  - by apply IH.
Qed.

Lemma registerAll_app (l1 l2 : StdMap.t nat) (m : gmap string nat) :
  registerAll (l1 ++ l2) m = registerAll l2 (registerAll l1 m).
Proof. unfold registerAll. by rewrite fold_left_app. Qed.

Local Abbreviation built s :=
  (unlinkedTables s /\
   tableNamed s HIERARCHY (symmetryGroupNodes s) /\
   tableNamed s MODULE (moduleNodes s)).

Lemma newEntry_built s s' (k : string) (n0 : HBStarTreeNode.t) :
  nodes s' = <[nextNode s := n0]> (nodes s) ->
  nextNode s' = S (nextNode s) ->
  HBStarTreeNode.getName n0 = k -> leftChild n0 = None ->
  rightChild n0 = None -> parent n0 = None ->
  (symmetryGroupNodes s'
     = StdMap.insert k (nextNode s) (symmetryGroupNodes s) /\
   moduleNodes s' = moduleNodes s /\ type n0 = HIERARCHY) \/
  (moduleNodes s' = StdMap.insert k (nextNode s) (moduleNodes s) /\
   symmetryGroupNodes s' = symmetryGroupNodes s /\ type n0 = MODULE) ->
  built s -> built s'.
Proof.
  intros Hnodes Hnext Hname Hl Hr Hp Htab ((Hnd & Hun) & Hsg & Hmn).
  assert (Hlt : forall a,
            a ∈ StdMap.values (symmetryGroupNodes s ++ moduleNodes s) ->
            (a < nextNode s)%nat).
  { intros a Ha. apply values_elem in Ha as [k' Ha]. by apply (Hun k' a). }
  assert (Hnew : nodes s' !! nextNode s = Some n0)
    by (rewrite Hnodes; apply lookup_insert_eq).
  assert (Hold : forall a, (a < nextNode s)%nat ->
            nodes s' !! a = nodes s !! a).
  { intros a Ha. rewrite Hnodes. apply lookup_insert_ne. lia. }
  assert (Hfresh : forall l : list nat,
            (forall a, a ∈ l -> (a < nextNode s)%nat) -> nextNode s ∉ l).
  { intros l H Hin. specialize (H _ Hin). lia. }
  unfold StdMap.values in Hnd, Hlt. rewrite map_app in Hnd, Hlt.
  assert (Hun' : forall k' a', (k', a') = (k, nextNode s) \/
              (k', a') ∈ symmetryGroupNodes s ++ moduleNodes s ->
              (a' < nextNode s')%nat /\ unlinked s' k' a').
  { intros k' a' [[= -> ->]|Hin].
    - split; [lia|]. by exists n0.
    - destruct (Hun k' a' Hin) as [Ha' (n & Hn & ?)].
      split; [lia|]. exists n. by rewrite Hold. }
  assert (Hnamed : forall kind table, tableNamed s kind table ->
            (forall k' a', (k', a') ∈ table -> (a' < nextNode s)%nat) ->
            tableNamed s' kind table).
  { intros kind table Ht Hlt' k' a' Hin.
    destruct (Ht k' a' Hin) as (n & Hn & ?). exists n.
    by rewrite Hold by by apply (Hlt' k'). }
  assert (Hnamed' : forall kind table, tableNamed s kind table ->
            (forall k' a', (k', a') ∈ table -> (a' < nextNode s)%nat) ->
            type n0 = kind ->
            tableNamed s' kind (StdMap.insert k (nextNode s) table)).
  { intros kind table Ht Hlt' Hty k' a' Hin.
    apply insert_elem in Hin as [[= -> ->]|Hin]; [by exists n0|].
    by apply (Hnamed kind table). }
  assert (Hlt1 : forall k' a', (k', a') ∈ symmetryGroupNodes s ->
            (a' < nextNode s)%nat).
  { intros k' a' Hin. apply (Hun k' a'). apply elem_of_app. by left. }
  assert (Hlt2 : forall k' a', (k', a') ∈ moduleNodes s ->
            (a' < nextNode s)%nat).
  { intros k' a' Hin. apply (Hun k' a'). apply elem_of_app. by right. }
  unfold unlinkedTables.
  destruct Htab as [(Hsg' & Hmn' & Hty)|(Hmn' & Hsg' & Hty)];
    rewrite Hsg', Hmn'.
  - split; [split|split].
    + unfold StdMap.values. rewrite map_app.
      apply values_insert_NoDup; [done| |].
      * apply Hfresh. intros a Ha. apply Hlt, elem_of_app. by left.
      * apply Hfresh. intros a Ha. apply Hlt, elem_of_app. by right.
    + intros k' a' Hin. apply Hun'. apply elem_of_app in Hin as [Hin|Hin].
      * apply insert_elem in Hin as [?|?]; [by left|].
        right. apply elem_of_app. by left.
      * right. apply elem_of_app. by right.
    + by apply Hnamed'.
    + by apply Hnamed.
  - split; [split|split].
    + unfold StdMap.values. rewrite map_app.
      apply NoDup_app in Hnd as (Hnd1 & Hdis & Hnd2).
      apply NoDup_app. split; [done|]. split.
      * intros a Ha Hin. apply values_elem in Hin as [k' Hin].
        apply insert_elem in Hin as [[= _ ->]|Hin].
        -- revert Ha. apply Hfresh. intros b Hb. apply Hlt, elem_of_app.
           by left.
        -- apply (Hdis a Ha). apply values_elem. by exists k'.
      * rewrite <- (app_nil_r (map snd (StdMap.insert _ _ _))).
        apply values_insert_NoDup; [by rewrite app_nil_r| |
                                    apply not_elem_of_nil].
        apply Hfresh. intros a Ha. apply Hlt, elem_of_app. by right.
    + intros k' a' Hin. apply Hun'. apply elem_of_app in Hin as [Hin|Hin].
      * right. apply elem_of_app. by left.
      * apply insert_elem in Hin as [?|?]; [by left|].
        right. apply elem_of_app. by right.
    + by apply Hnamed.
    + by apply Hnamed'.
Qed.

Lemma constructSymmetryIsland_built s (group : SymmetryGroup.t) :
  built s -> built (constructSymmetryIsland s group).
Proof.
  apply (newEntry_built s _ (SymmetryGroup.name group)
           (HBStarTreeNode.setASFTree (Some (length (asfTrees s)))
              (HBStarTreeNode.create HIERARCHY (SymmetryGroup.name group))));
    try done.
  by left.
Qed.

Lemma createModuleNode_built s (moduleName : string) :
  built s -> built (createModuleNode s moduleName).
Proof.
  apply (newEntry_built s _ moduleName
           (HBStarTreeNode.create MODULE moduleName)); try done.
  by right.
Qed.

Lemma fold_constructSymmetryIsland_built (l : list SymmetryGroup.t) :
  forall s,
  let s' := fold_left constructSymmetryIsland l s in
  (built s -> built s') /\
  moduleNodes s' = moduleNodes s /\ nodeMap s' = nodeMap s /\
  (StdMap.ok (symmetryGroupNodes s) -> StdMap.ok (symmetryGroupNodes s')) /\
  (forall x, x ∈ StdMap.keys (symmetryGroupNodes s') <->
             x ∈ StdMap.keys (symmetryGroupNodes s) \/
             x ∈ map SymmetryGroup.name l).
Proof.
  induction l as [|g l IH]; intros s; cbv zeta.
  - simpl. split; [done|]. split; [done|]. split; [done|]. split; [done|].
    intros x. split; [by left|].
    intros [?|H]; [done|by apply elem_of_nil in H].
  - cbn [fold_left].
    destruct (IH (constructSymmetryIsland s g))
      as (Hb & Hmn & Hnm & Hok & Hkeys).
    split; [|split; [|split; [|split]]].
    + intros H. by apply Hb, constructSymmetryIsland_built.
    + by rewrite Hmn.
    + by rewrite Hnm.
    + intros H. apply Hok. unfold constructSymmetryIsland.
      cbn [symmetryGroupNodes set_symmetryGroupNodes newNode].
      by apply insert_ok.
    + intros x. rewrite Hkeys. unfold constructSymmetryIsland at 1.
      cbn [symmetryGroupNodes set_symmetryGroupNodes newNode].
      rewrite keys_insert. cbn [map]. rewrite elem_of_cons. tauto.
Qed.

Lemma fold_createModuleNode_built (l : list string) :
  forall s,
  let s' := fold_left createModuleNode l s in
  (built s -> built s') /\
  symmetryGroupNodes s' = symmetryGroupNodes s /\ nodeMap s' = nodeMap s /\
  (StdMap.ok (moduleNodes s) -> StdMap.ok (moduleNodes s')) /\
  (forall x, x ∈ StdMap.keys (moduleNodes s') <->
             x ∈ StdMap.keys (moduleNodes s) \/ x ∈ l).
Proof.
  induction l as [|m l IH]; intros s; cbv zeta.
  - simpl. split; [done|]. split; [done|]. split; [done|]. split; [done|].
    intros x. split; [by left|].
    intros [?|H]; [done|by apply elem_of_nil in H].
  - cbn [fold_left].
    destruct (IH (createModuleNode s m)) as (Hb & Hsg & Hnm & Hok & Hkeys).
    split; [|split; [|split; [|split]]].
    + intros H. by apply Hb, createModuleNode_built.
    + by rewrite Hsg.
    + by rewrite Hnm.
    + intros H. apply Hok. unfold createModuleNode.
      cbn [moduleNodes set_moduleNodes newNode]. by apply insert_ok.
    + intros x. rewrite Hkeys. unfold createModuleNode at 1.
      cbn [moduleNodes set_moduleNodes newNode].
      rewrite keys_insert, elem_of_cons. tauto.
Qed.

Lemma constructInitialTreeStructure_chain s :
  let s1 := fold_left createModuleNode (nonSymmetryModules s) s in
  constructInitialTreeStructure s
  = match symmetryGroupNodes s1 ++ moduleNodes s1 with
    | [] => s1
    | (k, a) :: rest =>
        chainLeft (set_root (Some a) s1) a (StdMap.values rest)
    end.
Proof.
  cbv zeta. unfold constructInitialTreeStructure.
  set (s1 := fold_left createModuleNode (nonSymmetryModules s) s).
  destruct (symmetryGroupNodes s1) as [|[k a] r]; simpl.
  - by destruct (moduleNodes s1) as [|[k a] r].
  - unfold StdMap.values. by rewrite map_app.
Qed.

Lemma constructInitialTree_chain st :
  let st' := constructInitialTree st in
  let entries := symmetryGroupNodes st' ++ moduleNodes st' in
  linkedChain st' None entries /\ NoDup (StdMap.values entries) /\
  root st' = head (StdMap.values entries) /\
  nodeMap st' = registerAll entries (nodeMap st) /\
  tableNamed st' HIERARCHY (symmetryGroupNodes st') /\
  tableNamed st' MODULE (moduleNodes st') /\
  StdMap.ok (symmetryGroupNodes st') /\ StdMap.ok (moduleNodes st') /\
  (forall x, x ∈ StdMap.keys (symmetryGroupNodes st') <->
             x ∈ map SymmetryGroup.name (symmetryGroups st)) /\
  (forall x, x ∈ StdMap.keys (moduleNodes st') <->
             x ∈ nonSymmetryModules st).
Proof.
  cbv zeta. unfold constructInitialTree.
  set (s0 := clearTree st).
  assert (H0 : sameProblem st s0) by apply clearTree_sameProblem.
  assert (H0' : root s0 = None /\ moduleNodes s0 = [] /\
                symmetryGroupNodes s0 = [] /\ nodeMap s0 = nodeMap st).
  { subst s0. unfold clearTree.
    destruct (release_sameButNodes
                (set_isPacked false
                   (set_symmetryGroupNodes StdMap.empty
                      (set_moduleNodes StdMap.empty (set_root None st)))))
      as (_&_&_&Hr&_&_&Hmn&Hsn&Hnm&_).
    by rewrite Hr, Hmn, Hsn, Hnm. }
  destruct H0' as (Hr0 & Hmn0 & Hsn0 & Hnm0).
  assert (Hb0 : built s0).
  { unfold unlinkedTables, tableNamed. rewrite Hmn0, Hsn0. simpl.
    split; [split; [apply NoDup_nil_2|]|split].
    - intros k a H. by apply elem_of_nil in H.
    - intros k a H. by apply elem_of_nil in H.
    - intros k a H. by apply elem_of_nil in H. }
  clearbody s0.
  set (s1 := constructSymmetryIslands s0).
  assert (H1 : sameProblem s0 s1)
    by apply fold_constructSymmetryIsland_sameProblem.
  destruct (fold_constructSymmetryIsland_tables (symmetryGroups s0) s0)
    as (_ & Hr1 & _).
  destruct (fold_constructSymmetryIsland_built (symmetryGroups s0) s0)
    as (Hb1 & Hmn1 & Hnm1 & Hok1 & Hk1).
  fold (constructSymmetryIslands s0) in Hr1, Hb1, Hmn1, Hnm1, Hok1, Hk1.
  fold s1 in Hr1, Hb1, Hmn1, Hnm1, Hok1, Hk1.
  specialize (Hb1 Hb0). rewrite Hsn0 in Hok1, Hk1. specialize (Hok1 I).
  assert (Hgroups : symmetryGroups s0 = symmetryGroups st)
    by (by destruct H0 as (_&?&_)).
  assert (Hns : nonSymmetryModules s1 = nonSymmetryModules st).
  { destruct H0 as (?&?&_), H1 as (?&?&_).
    apply nonSymmetryModules_ext; congruence. }
  rewrite Hgroups in Hk1. clearbody s1.
  rewrite constructInitialTreeStructure_chain.
  destruct (fold_createModuleNode_tables (nonSymmetryModules s1) s1)
    as (_ & Hr2 & _).
  destruct (fold_createModuleNode_built (nonSymmetryModules s1) s1)
    as (Hb2 & Hsn2 & Hnm2 & Hok2 & Hk2).
  set (s2 := fold_left createModuleNode (nonSymmetryModules s1) s1) in *.
  specialize (Hb2 Hb1). rewrite Hmn1, Hmn0 in Hok2, Hk2. specialize (Hok2 I).
  rewrite Hns in Hk2. rewrite <- Hsn2 in Hok1, Hk1.
  assert (Hkeys1 : forall x, x ∈ StdMap.keys (symmetryGroupNodes s2) <->
                     x ∈ map SymmetryGroup.name (symmetryGroups st)).
  { intros x. rewrite Hk1. split; [|by right].
    intros [H|H]; [by apply elem_of_nil in H|done]. }
  assert (Hkeys2 : forall x, x ∈ StdMap.keys (moduleNodes s2) <->
                     x ∈ nonSymmetryModules st).
  { intros x. rewrite Hk2. split; [|by right].
    intros [H|H]; [by apply elem_of_nil in H|done]. }
  assert (Hroot2 : root s2 = None) by congruence.
  assert (Hnmap2 : nodeMap s2 = nodeMap st) by congruence.
  clear Hk1 Hk2 Hr2 Hr1 Hr0 Hnm2 Hnm1 Hnm0 Hmn1 Hmn0 Hsn0 Hsn2 Hb1 Hb0 H0 H1
        Hns Hgroups.
  clearbody s2. clear s0 s1.
  destruct Hb2 as ((Hnd & Hun) & Hnamed1 & Hnamed2).
  destruct (symmetryGroupNodes s2 ++ moduleNodes s2) as [|[k a] rest]
    eqn:Hentries.
  - apply app_eq_nil in Hentries as [Hsg Hmn].
    rewrite Hroot2.
    destruct (release_sameButNodes s2) as (_&_&_&Hr&_&_&Hmn'&Hsn'&Hnm'&_).
    rewrite Hmn', Hsn', Hnm', Hr, Hsg, Hmn, Hroot2, Hnmap2 in *.
    simpl. split; [done|]. split; [apply NoDup_nil_2|].
    split; [done|]. split; [done|].
    split; [intros ? ? H; by apply elem_of_nil in H|].
    split; [intros ? ? H; by apply elem_of_nil in H|].
    split; [done|]. split; [done|]. split; [exact Hkeys1|exact Hkeys2].
  - set (s3 := chainLeft (set_root (Some a) s2) a (StdMap.values rest)).
    destruct (chainLeft_sameButNodes (StdMap.values rest)
                (set_root (Some a) s2) a)
      as (_&_&_&Hr3&_&_&Hmn3&Hsn3&Hnm3&_).
    fold s3 in Hr3, Hmn3, Hsn3, Hnm3.
    cbn [root moduleNodes symmetryGroupNodes nodeMap set_root]
      in Hr3, Hmn3, Hsn3, Hnm3.
    assert (Hl3 : linkedChain s3 None ((k, a) :: rest)).
    { apply chainLeft_linked; [done|].
      intros k' a' Hin.
      destruct (Hun k' a' Hin) as (_ & n & Hn & ? & ? & ? & ?).
      exists n. by repeat split. }
    assert (Hrel : relinked s2 s3).
    { eapply relinked_trans; [|apply chainLeft_relinked].
      split; [done|]. split; [done|].
      intros id n n' Hn Hn'. cbn [nodes set_root] in Hn'.
      rewrite Hn in Hn'. injection Hn' as <-. apply samePayload_refl. }
    rewrite Hr3.
    assert (Hfuel : (length ((k, a) :: rest) <= S (size (nodes s3)))%nat).
    { rewrite <- (List.length_map snd ((k, a) :: rest)).
      etrans; [apply (alive_length s3 (StdMap.values ((k, a) :: rest)));
               [exact Hnd|]|lia].
      by apply (linkedChain_alive s3 _ None). }
    unfold registerNodeInMap.
    rewrite (registerNodeInMap_rec_linked rest s3 None _ k a Hl3 Hfuel).
    set (s4 := set_nodeMap _ s3).
    assert (H4 : nodes s4 = nodes s3 /\
                 symmetryGroupNodes s4 = symmetryGroupNodes s2 /\
                 moduleNodes s4 = moduleNodes s2 /\ root s4 = Some a /\
                 nodeMap s4 = registerAll ((k, a) :: rest) (nodeMap st)).
    { subst s4. cbn [nodes symmetryGroupNodes moduleNodes set_nodeMap
                     nodeMap root].
      by rewrite Hsn3, Hmn3, Hnm3, Hr3, Hnmap2. }
    destruct H4 as (Hn4 & Hsn4 & Hmn4 & Hr4 & Hnm4). clearbody s4.
    destruct (release_sameButNodes s4) as (_&_&_&Hr5&_&_&Hmn5&Hsn5&Hnm5&_).
    assert (Hkeep : forall b, b ∈ StdMap.values ((k, a) :: rest) ->
              nodes (release s4) !! b = nodes s3 !! b).
    { intros b Hb.
      destruct (linkedChain_alive s3 _ None Hl3 b Hb) as [n Hn].
      rewrite Hn. apply release_tabled;
        [by rewrite Hsn4, Hmn4, Hentries|by rewrite Hn4]. }
    assert (Hnamed : forall kind table, tableNamed s2 kind table ->
              (forall k' a', (k', a') ∈ table ->
                 (k', a') ∈ (k, a) :: rest) ->
              tableNamed (release s4) kind table).
    { intros kind table Ht Hsub k' a' Hin.
      destruct (Ht k' a' Hin) as (n & Hn & Hty & Hname).
      assert (Hb : a' ∈ StdMap.values ((k, a) :: rest)).
      { apply values_elem. exists k'. by apply Hsub. }
      destruct (linkedChain_alive s3 _ None Hl3 a' Hb) as [n3 Hn3].
      destruct Hrel as (_ & _ & Hpay).
      destruct (Hpay a' n n3 Hn Hn3) as (Hty3 & Hname3 & _).
      exists n3. rewrite (Hkeep a' Hb). split; [done|].
      split; [congruence|].
      unfold HBStarTreeNode.getName in *. congruence. }
    rewrite Hmn5, Hsn5, Hnm5, Hr5, Hsn4, Hmn4, Hr4, Hnm4, Hentries.
    split; [by apply (linkedChain_agree s3)|]. split; [done|].
    split; [done|]. split; [done|].
    split; [apply Hnamed; [done|]; intros k' a' Hin; rewrite <- Hentries;
            apply elem_of_app; by left|].
    split; [apply Hnamed; [done|]; intros k' a' Hin; rewrite <- Hentries;
            apply elem_of_app; by right|].
    done.
Qed.

Lemma insert_by_area_elem (mods : Modules) (a x : string) (l : list string) :
  x ∈ insert_by_area mods a l <-> x = a \/ x ∈ l.
Proof.
  induction l as [|b rest IH]; simpl.
  - rewrite list_elem_of_singleton, elem_of_nil. tauto.
  - destruct (areaOf mods b >? areaOf mods a).
    + rewrite !elem_of_cons, IH. tauto.
    + rewrite !elem_of_cons. tauto.
Qed.

Lemma sort_by_area_elem (mods : Modules) (x : string) (l : list string) :
  x ∈ sort_by_area mods l <-> x ∈ l.
Proof.
  unfold sort_by_area. induction l as [|a rest IH]; simpl; [done|].
  rewrite insert_by_area_elem, elem_of_cons, IH. tauto.
Qed.

Lemma nonSymmetryModules_elem st (x : string) :
  x ∈ nonSymmetryModules st <->
  x ∈ StdMap.keys (modules st) /\ x ∉ symmetryModules (symmetryGroups st).
Proof.
  unfold nonSymmetryModules.
  rewrite sort_by_area_elem, list_elem_of_In, filter_In, <- list_elem_of_In.
  rewrite negb_true_iff.
  assert (existsb (String.eqb x) (symmetryModules (symmetryGroups st)) = false
          <-> x ∉ symmetryModules (symmetryGroups st)) as ->; [|done].
  rewrite <- not_true_iff_false, existsb_exists.
  split; intros H H'; apply H.
  - exists x. split; [by apply list_elem_of_In|apply String.eqb_refl].
  - destruct H' as (y & Hy & E). apply String.eqb_eq in E. subst y.
    by apply list_elem_of_In.
Qed.

(** X27. The initial tree is one left-skewed chain in key order,
    whatever the state before the call: [constructInitialTree] leaves
    the hierarchy nodes of the symmetry groups in the increasing order
    of the group names, followed by the nodes of the modules outside
    the groups in the increasing order of the module names, each node
    the left child of the one before, with that one as its parent, and
    none with a right child. The
    order in which groups and modules were added and the sort by area
    do not show in the tree. The modules on the chain are the
    registered modules that no symmetry group mentions. *)
Theorem initial_chain_is_key_order st :
  let st' := constructInitialTree st in
  linkedChain st' None (symmetryGroupNodes st' ++ moduleNodes st') /\
  chainFromRoot st'
    = StdMap.keys (symmetryGroupNodes st')
      ++ StdMap.keys (moduleNodes st') /\
  StdMap.ok (symmetryGroupNodes st') /\ StdMap.ok (moduleNodes st') /\
  (forall x, x ∈ StdMap.keys (symmetryGroupNodes st') <->
             x ∈ map SymmetryGroup.name (symmetryGroups st)) /\
  (forall x, x ∈ StdMap.keys (moduleNodes st') <->
             x ∈ StdMap.keys (modules st) /\
             x ∉ symmetryModules (symmetryGroups st)).
Proof.
  cbv zeta.
  destruct (constructInitialTree_chain st)
    as (Hl & Hnd & Hroot & _ & _ & _ & Hok1 & Hok2 & Hk1 & Hk2).
  set (st' := constructInitialTree st) in *. clearbody st'.
  set (entries := symmetryGroupNodes st' ++ moduleNodes st') in *.
  split; [exact Hl|].
  split; [|split; [exact Hok1|split; [exact Hok2|split; [exact Hk1|]]]].
  - unfold chainFromRoot. rewrite Hroot.
    rewrite (leftChain_linked entries st' None _ Hl).
    + subst entries. unfold StdMap.keys. by rewrite map_app.
    + rewrite <- (List.length_map snd).
      etrans; [apply (alive_length st' (StdMap.values entries));
               [exact Hnd|]|lia].
      by apply (linkedChain_alive st' _ None).
  - intros x. rewrite Hk2. apply nonSymmetryModules_elem.
Qed.

(** X28. Every node of the initial tree can be found by name. After
    [constructInitialTree] each symmetry group has a live hierarchy node
    and each module outside the groups a live module node, both carrying
    their names; [findNode] returns the module node for the name of such
    a module, and the hierarchy node for a group name that is not also
    the name of such a module. For every other name [findNode] answers
    as before the call: [nodeMap] is not cleared, so the nodes of an
    earlier tree stay registered. *)
Theorem initial_tree_is_indexed st :
  let st' := constructInitialTree st in
  tableNamed st' HIERARCHY (symmetryGroupNodes st') /\
  tableNamed st' MODULE (moduleNodes st') /\
  (forall x, x ∈ nonSymmetryModules st -> is_Some (getModuleNode st' x)) /\
  (forall g, g ∈ symmetryGroups st ->
     is_Some (getSymmetryGroupNode st' (SymmetryGroup.name g))) /\
  (forall x a, getModuleNode st' x = Some a -> findNode st' x = Some a) /\
  (forall x a, getSymmetryGroupNode st' x = Some a ->
     getModuleNode st' x = None -> findNode st' x = Some a) /\
  (forall x, getSymmetryGroupNode st' x = None ->
     getModuleNode st' x = None -> findNode st' x = findNode st x).
Proof.
  cbv zeta.
  destruct (constructInitialTree_chain st)
    as (_ & _ & _ & Hnm & Hn1 & Hn2 & Hok1 & Hok2 & Hk1 & Hk2).
  set (st' := constructInitialTree st) in *. clearbody st'.
  unfold getModuleNode, getSymmetryGroupNode, findNode.
  rewrite Hnm, registerAll_app.
  split; [done|]. split; [done|].
  split; [|split; [|split; [|split]]].
  - intros x Hx. apply Hk2 in Hx.
    destruct (StdMap.find (moduleNodes st') x) eqn:E; [by eexists|].
    apply find_None in E. by destruct E.
  - intros g Hg.
    assert (Hx : SymmetryGroup.name g
                 ∈ map SymmetryGroup.name (symmetryGroups st)).
    { apply list_elem_of_In, in_map. by apply list_elem_of_In. }
    apply Hk1 in Hx.
    destruct (StdMap.find (symmetryGroupNodes st') (SymmetryGroup.name g))
      eqn:E; [by eexists|].
    apply find_None in E. by destruct E.
  - intros x a Hx. apply registerAll_elem; [by apply ok_NoDup_keys|].
    by apply find_elem.
  - intros x a Hx Hnone. apply find_None in Hnone.
    rewrite registerAll_other by done.
    apply registerAll_elem; [by apply ok_NoDup_keys|]. by apply find_elem.
  - intros x H1 H2. apply find_None in H1, H2.
    by rewrite !registerAll_other.
Qed.

End InitialChain.

Section InitialPlacement.
Context {ASF : Type} `{ops : ASFBStarTree ASF}.
Implicit Types st s : HBStarTree.t ASF.

(** *** The initial placement without symmetry groups *)

Lemma inRow_cons st (mods : Modules) (x : Z) (k : string)
    (rest : list string) :
  inRow st mods x (k :: rest) <->
  coordinates st k = Some (x, 0) /\
  inRow st mods
        (x + match StdMap.find mods k with
             | Some m => Module_.width m
             | None => 0
             end) rest.
Proof. done. Qed.

Lemma inRow_ext st (mods mods' : Modules) (names : list string) :
  forall x,
  (forall k, k ∈ names -> StdMap.find mods' k = StdMap.find mods k) ->
  inRow st mods x names -> inRow st mods' x names.
Proof.
  induction names as [|k rest IH]; intros x Hag Hrow; [done|].
  destruct Hrow as [Hk Hrest]. split; [done|].
  rewrite Hag by (apply elem_of_cons; by left).
  apply IH; [|done]. intros k' Hk'. apply Hag. apply elem_of_cons. by right.
Qed.

Lemma totalWidth_nonneg (mods : Modules) (names : list string) :
  (forall k, k ∈ names ->
     exists m, StdMap.find mods k = Some m /\ 0 < Module_.width m) ->
  0 <= totalWidth mods names.
Proof.
  induction names as [|k rest IH]; intros H; simpl; [lia|].
  destruct (H k) as (m & -> & Hw); [apply elem_of_cons; by left|].
  assert (0 <= totalWidth mods rest); [|lia].
  apply IH. intros k' Hk'. apply H. apply elem_of_cons. by right.
Qed.

Lemma totalWidth_submseteq (mods : Modules) (l1 l2 : list string) :
  l1 ⊆+ l2 ->
  (forall k m, k ∈ l2 -> StdMap.find mods k = Some m -> 0 <= Module_.width m) ->
  totalWidth mods l1 <= totalWidth mods l2.
Proof.
  intros Hsub. induction Hsub as [|k l1 l2 Hsub IH|k k' l|k l1 l2 Hsub IH
                                  |l1 l2 l3 H12 IH12 H23 IH23];
    intros Hpos; simpl.
  - lia.
  - assert (totalWidth mods l1 <= totalWidth mods l2); [|lia].
    apply IH. intros k' m Hk'. apply Hpos. apply elem_of_cons. by right.
  - lia.
  - assert (totalWidth mods l1 <= totalWidth mods l2).
    { apply IH. intros k' m Hk'. apply Hpos. apply elem_of_cons. by right. }
    destruct (StdMap.find mods k) as [m|] eqn:E; [|lia].
    assert (0 <= Module_.width m); [|lia].
    apply (Hpos k); [apply elem_of_cons; by left|done].
  - etrans; [apply IH12|apply IH23; exact Hpos].
    intros k m Hk. apply Hpos. by apply (elem_of_submseteq l2).
Qed.

Lemma totalWidth_ext (mods mods' : Modules) (names : list string) :
  (forall k, k ∈ names -> StdMap.find mods' k = StdMap.find mods k) ->
  totalWidth mods' names = totalWidth mods names.
Proof.
  induction names as [|k rest IH]; intros H; simpl; [done|].
  rewrite H by (apply elem_of_cons; by left).
  rewrite IH; [done|]. intros k' Hk'. apply H. apply elem_of_cons. by right.
Qed.

Lemma packSubtree_rec_row (rest : StdMap.t nat) :
  forall s above (fuel : nat) (k : string) (a : nat) (x : Z),
  linkedChain s above ((k, a) :: rest) ->
  tableNamed s MODULE ((k, a) :: rest) ->
  NoDup (StdMap.keys ((k, a) :: rest)) ->
  (forall k', k' ∈ StdMap.keys ((k, a) :: rest) ->
     exists m, StdMap.find (modules s) k' = Some m /\ 0 < Module_.width m) ->
  placeX s a = x ->
  0 <= x ->
  x + totalWidth (modules s) (StdMap.keys ((k, a) :: rest)) <= INT_MAX ->
  Contour.wf (Contour.segments (horizontalContour s)) ->
  (forall p h, x <= p ->
     Contour.heightAt (Contour.segments (horizontalContour s)) p = Some h ->
     h <= 0) ->
  (length ((k, a) :: rest) <= fuel)%nat ->
  inRow (packSubtree_rec fuel s a) (modules s) x
        (StdMap.keys ((k, a) :: rest)) /\
  (forall k', k' ∉ StdMap.keys ((k, a) :: rest) ->
     StdMap.find (modules (packSubtree_rec fuel s a)) k'
     = StdMap.find (modules s) k').
Proof.
  induction rest as [|[k2 a2] rest IH];
    intros s above fuel k a x Hl Hty Hnd Hmods Hx Hx0 Hsum Hwf Hground Hf.
  all: destruct fuel as [|fuel]; [simpl in Hf; lia|].
  all: pose proof Hl as [(n & Hn & Hname & Hpar & Hleft & Hright) Hrest].
  all: destruct (Hty k a) as (n' & Hn' & Htype & _);
         [apply elem_of_cons; by left|].
  all: rewrite Hn in Hn'; injection Hn' as <-.
  all: destruct (Hmods k) as (m & Hm & Hw); [apply elem_of_cons; by left|].
  all: assert (Hmn : HBStarTreeNode.getModuleName n = k)
         by (unfold HBStarTreeNode.getModuleName; by rewrite Htype).
  all: match type of Hl with
       | linkedChain _ _ (_ :: ?tl) =>
           assert (Htail : 0 <= totalWidth (modules s) (StdMap.keys tl))
             by (apply totalWidth_nonneg; intros k' Hk'; apply Hmods;
                 apply elem_of_cons; by right);
           assert (Hsum' : x + Module_.width m
                           + totalWidth (modules s) (StdMap.keys tl)
                           <= INT_MAX)
             by (change (StdMap.keys ((k, a) :: tl))
                   with (k :: StdMap.keys tl) in Hsum;
                 change (totalWidth (modules s) (k :: StdMap.keys tl))
                   with (match StdMap.find (modules s) k with
                         | Some m => Module_.width m
                         | None => 0
                         end + totalWidth (modules s) (StdMap.keys tl))
                   in Hsum;
                 rewrite Hm in Hsum; lia)
       end.
  all: assert (Hfit : toInt (x + Module_.width m) = x + Module_.width m)
         by (apply HBStarTreeFacts.toInt_id; unfold INT_MIN; lia).
  all: assert (Hy : Contour.getHeight (horizontalContour s) x
                      (x + Module_.width m) = 0).
  1, 3: destruct (wf_wf_from _ Hwf) as [lo Hlo];
        destruct (getHeight_range lo (horizontalContour s) x
                    (x + Module_.width m) Hlo ltac:(lia))
          as (Hge & _ & [H0|(p & Hp & Hh)]); [done|];
        assert (Hxp : x <= p) by lia;
        specialize (Hground p _ Hxp Hh); lia.
  all: cbn [packSubtree_rec]; rewrite Hn; unfold packNode; rewrite Htype;
       unfold packModuleNode; rewrite Hmn, Hm, Hx, Hfit, Hy, Hleft, Hright.
  all: cbn [StdMap.values map snd head].
  - cbn [StdMap.keys map fst inRow coordinates modules set_modules
         set_horizontalContour set_verticalContour].
    split.
    + unfold coordinates.
      cbn [modules set_modules set_horizontalContour set_verticalContour].
      by rewrite find_insert_eq.
    + intros k' Hk'. apply find_insert_ne. intros ->. apply Hk'.
      apply elem_of_cons. by left.
  - set (s1 := set_verticalContour _ _).
    assert (Hnodes1 : nodes s1 = nodes s) by done.
    assert (Hmods1 : modules s1
              = StdMap.insert k (Module_.setPosition m x 0) (modules s))
      by done.
    assert (Hhc1 : horizontalContour s1
              = Contour.addSegment (horizontalContour s) x
                  (x + Module_.width m) (toInt (0 + Module_.height m)))
      by done.
    clearbody s1.
    cbn [StdMap.keys map fst] in Hnd.
    apply NoDup_cons in Hnd as [Hk Hnd].
    assert (Hne : forall k', k' ∈ StdMap.keys ((k2, a2) :: rest) -> k <> k').
    { intros k' Hk' ->. by apply Hk. }
    assert (Hsame : forall k', k' ∈ StdMap.keys ((k2, a2) :: rest) ->
              StdMap.find (modules s1) k' = StdMap.find (modules s) k').
    { intros k' Hk'. rewrite Hmods1. apply find_insert_ne. by apply Hne. }
    destruct (IH s1 (Some a) fuel k2 a2 (x + Module_.width m))
      as [Hrow Hframe].
    + apply (linkedChain_agree s); [|done]. intros b _. by rewrite Hnodes1.
    + intros k' a' Hin. unfold tableNamed in Hty. rewrite Hnodes1.
      apply Hty. apply elem_of_cons. by right.
    + done.
    + intros k' Hk'. rewrite Hsame by done.
      apply Hmods. apply elem_of_cons. by right.
    + destruct Hrest as [(n2 & Hn2 & _ & Hpar2 & _) _].
      assert (Hgp : getParent s1 a2 = Some a)
        by (unfold getParent; by rewrite Hnodes1, Hn2, Hpar2, Hn).
      assert (Hlc : isLeftChild s1 a2 = true).
      { unfold isLeftChild. rewrite Hgp. unfold getLeftChild.
        rewrite Hnodes1, Hn, Hleft. by apply bool_decide_eq_true_2. }
      unfold placeX.
      rewrite Hgp, Hnodes1, Hn, Hlc, Htype, Hmn, Hmods1, find_insert_eq.
      exact Hfit.
    + lia.
    + rewrite (totalWidth_ext (modules s)) by exact Hsame. exact Hsum'.
    + rewrite Hhc1. by apply addSegment_wf.
    + intros p h Hp Hh. rewrite Hhc1 in Hh.
      destruct (wf_wf_from _ Hwf) as [lo Hlo].
      destruct (addSegment_segments lo (horizontalContour s) x
                  (x + Module_.width m) (toInt (0 + Module_.height m)) Hlo
                  ltac:(lia)) as (_ & Hchar & _).
      rewrite Hchar in Hh.
      destruct ((x <=? p) && (p <? x + Module_.width m)) eqn:E.
      * apply andb_true_iff in E as [_ E]. apply Z.ltb_lt in E. lia.
      * apply (Hground p h); [lia|done].
    + simpl in Hf |- *. lia.
    + split.
      * cbn [StdMap.keys map fst]. apply inRow_cons. split.
        -- unfold coordinates. rewrite Hframe by done.
           by rewrite Hmods1, find_insert_eq.
        -- rewrite Hm. apply (inRow_ext _ (modules s1)); [|done].
           intros k' Hk'. symmetry. by apply Hsame.
      * intros k' Hk'. cbn [StdMap.keys map fst] in Hk'.
        apply not_elem_of_cons in Hk' as [Hk'1 Hk'2].
        rewrite Hframe by done. rewrite Hmods1.
        apply find_insert_ne. congruence.
Qed.

Lemma inRow_modules st st' (mods : Modules) (names : list string) :
  forall x, modules st' = modules st ->
  inRow st mods x names -> inRow st' mods x names.
Proof.
  intros x Hm. revert x. induction names as [|k rest IH]; intros x; [done|].
  intros [Hk Hrest]. split; [|by apply IH].
  unfold coordinates in *. by rewrite Hm.
Qed.

Lemma pack_full_modules st (r : nat) :
  root st = Some r -> modifiedSubtrees st = ∅ ->
  modules (pack st).2
  = modules
      (packSubtree
         (set_verticalContour
            (Contour.addSegment (Contour.clear (verticalContour st))
                                0 INT_MAX 0)
            (set_horizontalContour
               (Contour.addSegment (Contour.clear (horizontalContour st))
                                   0 INT_MAX 0) st)) r).
Proof.
  intros Hroot Hmarks. unfold pack. rewrite Hroot.
  destruct (decide (modifiedSubtrees st = ∅)) as [_|]; [|done].
  set (st3 := set_verticalContour _ _).
  set (st4 := packSubtree st3 r).
  destruct (boundingBox (modules st4)) as [maxX maxY] eqn:Hbb.
  set (st5 := set_totalArea (toInt (maxX * maxY)) st4).
  destruct (updateContourNodes_sameButNodes st5) as (_&Hm6&_).
  cbn [fst snd modules set_isPacked]. rewrite Hm6. reflexivity.
Qed.

(** X29. The initial placement of a problem without symmetry groups is
    one row on the ground. If no symmetry group is registered, no node
    is marked, every registered module has a positive width and the
    widths of the registered modules sum to at most [INT_MAX] (so that
    no abscissa of the row overflows an [int]), then after
    [constructInitialTree()] and [pack()] the modules stand side by
    side at height 0 in the increasing order of their names: the first
    at abscissa 0, each next one where the one before ends. Neither the
    areas nor the order of registration matter. *)
Theorem initial_packing_is_a_row st :
  symmetryGroups st = [] -> modifiedSubtrees st = ∅ ->
  (forall k m, (k, m) ∈ modules st -> 0 < Module_.width m) ->
  totalWidth (modules st) (StdMap.keys (modules st)) <= INT_MAX ->
  let st0 := constructInitialTree st in
  inRow (pack st0).2 (modules st) 0 (StdMap.keys (moduleNodes st0)) /\
  StdMap.ok (moduleNodes st0) /\
  (forall x, x ∈ StdMap.keys (moduleNodes st0) <->
             x ∈ StdMap.keys (modules st)).
Proof.
  intros Hgroups Hmarks Hwidth Hfits. cbv zeta.
  destruct (constructInitialTree_chain st)
    as (Hl & Hnd & Hroot & _ & _ & Hty & _ & Hok & Hk1 & Hk2).
  destruct (constructInitialTree_fields st)
    as ((Hm & _ & _ & _ & Hms & _) & _ & _).
  set (st0 := constructInitialTree st) in *. clearbody st0.
  assert (Hsg : symmetryGroupNodes st0 = []).
  { destruct (symmetryGroupNodes st0) as [|[k a] r]; [done|].
    exfalso. rewrite Hgroups in Hk1. apply (not_elem_of_nil k), Hk1.
    simpl. apply elem_of_cons. by left. }
  rewrite Hsg in Hl, Hnd, Hroot. cbn [app] in Hl, Hnd, Hroot.
  assert (Hkeys : forall x, x ∈ StdMap.keys (moduleNodes st0) <->
                    x ∈ StdMap.keys (modules st)).
  { intros x. rewrite Hk2, nonSymmetryModules_elem, Hgroups. simpl.
    split; [by intros [? _]|]. intros H. split; [done|].
    apply not_elem_of_nil. }
  split; [|by split].
  assert (Hrow : totalWidth (modules st) (StdMap.keys (moduleNodes st0))
                 <= INT_MAX).
  { etrans; [|exact Hfits]. apply totalWidth_submseteq.
    - apply NoDup_submseteq; [by apply ok_NoDup_keys|].
      intros x Hx. by apply Hkeys.
    - intros k m _ Hfind. apply Z.lt_le_incl, (Hwidth k).
      by apply find_elem. }
  destruct (moduleNodes st0) as [|[k a] rest] eqn:Hmn; [done|].
  cbn [StdMap.values map snd head] in Hroot.
  rewrite <- Hms in Hmarks.
  apply (inRow_modules _ _ _ _ _ (pack_full_modules st0 a Hroot Hmarks)).
  set (st3 := set_verticalContour _ _).
  rewrite <- Hm. change (modules st0) with (modules st3).
  pose proof Hl as [(n & Hn & _ & Hpar & _) _].
  apply (packSubtree_rec_row rest st3 None).
  - by apply (linkedChain_agree st0).
  - done.
  - by apply ok_NoDup_keys.
  - intros k' Hk'. apply Hkeys in Hk'.
    destruct (StdMap.find (modules st) k') as [m|] eqn:E.
    + exists m. change (modules st3) with (modules st0). rewrite Hm.
      split; [done|]. apply (Hwidth k'). by apply find_elem.
    + apply find_None in E. by destruct E.
  - unfold placeX, getParent. change (nodes st3) with (nodes st0).
    by rewrite Hn, Hpar.
  - done.
  - change (modules st3) with (modules st0). rewrite Hm. lia.
  - simpl. unfold INT_MAX. lia.
  - intros p h _. simpl.
    destruct ((0 <=? p) && (p <? INT_MAX)); [|done]. intros [= <-]. lia.
  - change (nodes st3) with (nodes st0).
    rewrite <- (List.length_map snd ((k, a) :: rest)).
    etrans; [apply (alive_length st0 (StdMap.values ((k, a) :: rest)));
             [exact Hnd|]|lia].
    by apply (linkedChain_alive st0 _ None).
Qed.

End InitialPlacement.

Section OnGround.
Context {ASF : Type} `{ops : ASFBStarTree ASF}.
Context `{perturb : ASFBStarTreePerturb ASF}.
Implicit Types st s : HBStarTree.t ASF.

(** *** The placement stays on or above the ground *)

Lemma getHeight_nonneg (c : Contour.t) (a b : Z) :
  0 <= Contour.getHeight c a b.
Proof.
  unfold Contour.getHeight. destruct (a >=? b); [lia|].
  destruct (Contour.segments c); [lia|]. apply scanMax_ge.
Qed.

Lemma aboveGround_insert (mods : Modules) (k : string) (m : Module_.t) :
  aboveGround mods ->
  0 <= Module_.y m /\ 0 <= Module_.width m /\ 0 <= Module_.height m ->
  aboveGround (StdMap.insert k m mods).
Proof.
  intros Hq Hm k' m' Hin.
  apply insert_elem in Hin as [[= -> ->]|Hin]; [done|by apply (Hq k')].
Qed.

(** The abscissa that [packSubtree] computes is not negative when no
    module starts left of the origin and the sum over the parent module
    fits in an [int]. *)
Lemma placeX_nonneg st (node : nat) :
  onGround st -> rightOfOrigin (modules st) ->
  (forall p parentNode parentModule,
     getParent st node = Some p -> nodes st !! p = Some parentNode ->
     StdMap.find (modules st) (name parentNode) = Some parentModule ->
     Module_.x parentModule + Module_.width parentModule <= INT_MAX) ->
  0 <= placeX st node.
Proof.
  intros [Hty Hq] Hx Hfit. unfold placeX.
  destruct (getParent st node) as [p|]; [|lia].
  destruct (nodes st !! p) as [parentNode|] eqn:Hp; [|lia].
  rewrite (Hty p parentNode Hp).
  unfold getModuleName. rewrite (Hty p parentNode Hp).
  destruct (StdMap.find (modules st) (name parentNode)) as [m|] eqn:Hm;
    [|by destruct (isLeftChild st node)].
  specialize (Hfit p parentNode m eq_refl Hp Hm).
  apply find_elem in Hm. pose proof (Hx _ _ Hm). pose proof (Hq _ _ Hm).
  destruct (isLeftChild st node); [|done].
  rewrite HBStarTreeFacts.toInt_id by (unfold INT_MIN; lia). lia.
Qed.

Lemma packNode_rightOfOrigin st (node : nat) (n : HBStarTreeNode.t) :
  nodes st !! node = Some n ->
  onGround st -> rightOfOrigin (modules st) ->
  (forall p parentNode parentModule,
     getParent st node = Some p -> nodes st !! p = Some parentNode ->
     StdMap.find (modules st) (name parentNode) = Some parentModule ->
     Module_.x parentModule + Module_.width parentModule <= INT_MAX) ->
  rightOfOrigin (modules (packNode st node n).1).
Proof.
  intros Hn Hq Hx Hfit. pose proof Hq as [Hty Hmods].
  unfold packNode. rewrite (Hty node n Hn). unfold packModuleNode.
  destruct (StdMap.find (modules st) (getModuleName n)) as [m|] eqn:Hm;
    [|done].
  cbn [fst modules set_modules set_horizontalContour set_verticalContour].
  intros k' m' Hin.
  apply insert_elem in Hin as [[= -> ->]|Hin]; [|by apply (Hx k')].
  cbn. by apply placeX_nonneg.
Qed.

Lemma onGround_ext st st' :
  (forall id n, nodes st' !! id = Some n -> is_Some (nodes st !! id)) ->
  (forall id n n', nodes st !! id = Some n -> nodes st' !! id = Some n' ->
     type n' = type n) ->
  modules st' = modules st -> onGround st -> onGround st'.
Proof.
  intros Hsub Hsame Hm [Hty Hq]. split; [|by rewrite Hm].
  intros id n' Hn'. destruct (Hsub id n' Hn') as [n Hn].
  rewrite (Hsame id n n' Hn Hn'). by apply (Hty id).
Qed.

Lemma sameNodes_onGround st st' :
  nodes st' = nodes st -> modules st' = modules st ->
  onGround st -> onGround st'.
Proof.
  intros Hn Hm. apply onGround_ext; [| |done].
  - intros id n. rewrite Hn. by exists n.
  - intros id n n'. rewrite Hn. congruence.
Qed.

Lemma release_onGround st : onGround st -> onGround (release st).
Proof.
  apply onGround_ext.
  - intros id n Hn. exists n. by apply release_nodes.
  - intros id n n' Hn Hn'. apply release_nodes in Hn'. congruence.
  - by destruct (release_sameButNodes st) as (_&?&_).
Qed.

Lemma relinked_onGround st st' :
  sameData st st' -> relinked st st' ->
  onGround st -> onGround st'.
Proof.
  intros (_&Hm&_) (_ & Hal & Hpay). apply onGround_ext; [| |done].
  - intros id n' Hn'. destruct (nodes st !! id) as [n|] eqn:Hn; [done|].
    apply Hal in Hn. congruence.
  - intros id n n' Hn Hn'. by destruct (Hpay id n n' Hn Hn').
Qed.

Lemma packNode_onGround st (node : nat) (n : HBStarTreeNode.t) :
  nodes st !! node = Some n ->
  onGround st -> onGround (packNode st node n).1.
Proof.
  intros Hn Hq. pose proof Hq as [Hty Hmods].
  unfold packNode. rewrite (Hty node n Hn). unfold packModuleNode.
  destruct (StdMap.find (modules st) (getModuleName n)) as [m|] eqn:Hm;
    [|done].
  cbn [fst]. split; [exact Hty|].
  cbn [modules set_modules set_horizontalContour set_verticalContour].
  apply aboveGround_insert; [done|].
  apply find_elem, Hmods in Hm. cbn.
  pose proof (getHeight_nonneg (horizontalContour st) (placeX st node)
                (toInt (placeX st node + Module_.width m))).
  lia.
Qed.

Lemma packSubtree_rec_onGround (fuel : nat) : forall st (node : nat),
  onGround st -> onGround (packSubtree_rec fuel st node).
Proof.
  induction fuel as [|fuel IH]; intros st node Hq; simpl; [done|].
  destruct (nodes st !! node) as [n|] eqn:Hnode; [|done].
  pose proof (packNode_onGround st node n Hnode Hq) as Hn.
  destruct (packNode st node n) as [st1 goOn]. simpl in Hn.
  destruct goOn; [|done].
  destruct (leftChild n) as [l|], (rightChild n) as [r|]; auto.
Qed.

Lemma fold_packSubtree_onGround (l : list nat) : forall st,
  onGround st -> onGround (fold_left packSubtree l st).
Proof.
  induction l as [|node l IH]; intros st Hq; simpl; [done|].
  apply IH. by apply packSubtree_rec_onGround.
Qed.

Lemma repackAffectedSubtrees_onGround st :
  onGround st -> onGround (repackAffectedSubtrees st).
Proof.
  intros Hq. unfold repackAffectedSubtrees.
  destruct (decide (modifiedSubtrees st = ∅)); [done|].
  apply release_onGround.
  apply (sameNodes_onGround
           (fold_left packSubtree (rootsToRepack st) st)); [done|done|].
  by apply fold_packSubtree_onGround.
Qed.

Lemma if_repack_onGround st (b : bool) :
  onGround st ->
  onGround (if b then repackAffectedSubtrees st else st).
Proof.
  intros Hq. destruct b; [|done]. by apply repackAffectedSubtrees_onGround.
Qed.

Lemma updateContourNodes_modulesOnly st :
  modulesOnly st -> updateContourNodes st = st.
Proof.
  intros Hty. unfold updateContourNodes.
  induction (symmetryGroupNodes st) as [|[k a] rest IH]; [done|].
  cbn [fold_left]. unfold updateContourNodesOf at 2.
  destruct (nodes st !! a) as [hn|] eqn:Hn; [|done].
  unfold getASFTree. by rewrite (Hty a hn Hn).
Qed.

Lemma pack_onGround st : onGround st -> onGround (pack st).2.
Proof.
  intros Hq. unfold pack. destruct (root st) as [r|]; [|done].
  destruct (decide (modifiedSubtrees st = ∅));
    [|by apply repackAffectedSubtrees_onGround].
  set (st3 := set_verticalContour _ _).
  assert (H3 : onGround st3) by by apply (sameNodes_onGround st).
  pose proof (packSubtree_rec_onGround (S (size (nodes st3))) st3 r H3)
    as H4.
  fold (packSubtree st3 r) in H4. set (st4 := packSubtree st3 r) in *.
  destruct (boundingBox (modules st4)) as [maxX maxY].
  set (st5 := set_totalArea (toInt (maxX * maxY)) st4).
  assert (H5 : onGround st5) by by apply (sameNodes_onGround st4).
  rewrite (updateContourNodes_modulesOnly st5) by by destruct H5.
  cbn [snd]. by apply (sameNodes_onGround st5).
Qed.

Lemma islandOf_modulesOnly st (symmetryGroupName : string) :
  modulesOnly st -> islandOf st symmetryGroupName = None.
Proof.
  intros Hty. unfold islandOf.
  destruct (StdMap.find _ _) as [hierarchyNode|]; [|done].
  destruct (nodes st !! hierarchyNode) as [hn|] eqn:Hn; [|done].
  unfold getASFTree. by rewrite (Hty _ hn Hn).
Qed.

Lemma rotateModule_onGround st (moduleName : string) :
  onGround st -> onGround (rotateModule st moduleName).2.
Proof.
  intros Hq. pose proof Hq as [Hty Hmods]. unfold rotateModule.
  destruct (StdMap.find (modules st) moduleName) as [module|] eqn:Hm;
    [|done].
  destruct (groupOf st moduleName) as [group|].
  - destruct (StdMap.find (symmetryGroupNodes st) _) as [hierarchyNode|];
      [|done].
    destruct (nodes st !! hierarchyNode) as [hn|] eqn:Hn; [|done].
    unfold getASFTree. by rewrite (Hty _ hn Hn).
  - cbn [snd]. apply if_repack_onGround.
    set (st1 := set_modules _ st).
    assert (H1 : onGround st1).
    { split; [exact Hty|]. subst st1. cbn [modules set_modules].
      apply aboveGround_insert; [done|].
      apply find_elem, Hmods in Hm. cbn. lia. }
    destruct (getModuleNode st1 moduleName) as [node|]; [|done].
    apply (relinked_onGround st1); [|apply markSubtreeForRepack_relinked|
                                          done].
    apply markSubtreeForRepack_sameData.
Qed.

Lemma moveNode_onGround st (nodeName newParentName : string)
    (asLeft : bool) :
  onGround st ->
  onGround (moveNode st nodeName newParentName asLeft).2.
Proof.
  intros Hq.
  destruct (findNode st nodeName) as [node|] eqn:H1;
    [|unfold moveNode; by rewrite H1].
  destruct (findNode st newParentName) as [newParent|] eqn:H2;
    [|unfold moveNode; by rewrite H1, H2].
  destruct (moveNode_structure st _ _ asLeft _ _ H1 H2)
    as (s & [Hs Hr] & ->).
  cbn [snd]. apply if_repack_onGround.
  by apply (relinked_onGround st).
Qed.

Lemma swapNodes_onGround st (nodeName1 nodeName2 : string) :
  onGround st -> onGround (swapNodes st nodeName1 nodeName2).2.
Proof.
  intros Hq.
  destruct (findNode st nodeName1) as [node1|] eqn:H1;
    [|unfold swapNodes; by rewrite H1].
  destruct (findNode st nodeName2) as [node2|] eqn:H2;
    [|unfold swapNodes; by rewrite H1, H2].
  destruct (swapNodes_structure st _ _ _ _ H1 H2) as (s & [Hs Hr] & ->).
  cbn [snd]. apply if_repack_onGround, release_onGround.
  by apply (relinked_onGround st).
Qed.

Lemma fold_createModuleNode_modulesOnly (l : list string) : forall st,
  modulesOnly st -> modulesOnly (fold_left createModuleNode l st).
Proof.
  induction l as [|m l IH]; intros st Hty; [done|].
  cbn [fold_left]. apply IH. intros id n.
  unfold createModuleNode, newNode. cbn [nodes set_moduleNodes set_nextNode
                                        set_nodes].
  destruct (decide (id = nextNode st)) as [->|Hne].
  - rewrite lookup_insert_eq. by intros [= <-].
  - rewrite lookup_insert_ne by done. apply Hty.
Qed.

Lemma constructInitialTree_onGround st :
  symmetryGroups st = [] ->
  onGround st -> onGround (constructInitialTree st).
Proof.
  intros Hgroups [Hty Hmods]. split.
  - unfold constructInitialTree.
    set (s0 := clearTree st).
    assert (H0 : modulesOnly s0).
    { intros id n Hn. apply release_nodes in Hn. by apply (Hty id). }
    assert (Hg0 : symmetryGroups s0 = []).
    { destruct (clearTree_sameProblem st) as (_ & Hg & _).
      fold s0 in Hg. by rewrite Hg. }
    clearbody s0.
    unfold constructSymmetryIslands. rewrite Hg0. cbn [fold_left].
    set (s2 := constructInitialTreeStructure s0).
    assert (H2 : modulesOnly s2).
    { subst s2. rewrite constructInitialTreeStructure_chain.
      pose proof (fold_createModuleNode_modulesOnly
                    (nonSymmetryModules s0) s0 H0) as H1.
      set (s1 := fold_left createModuleNode (nonSymmetryModules s0) s0) in *.
      destruct (symmetryGroupNodes s1 ++ moduleNodes s1) as [|[k a] rest];
        [done|].
      destruct (chainLeft_relinked (StdMap.values rest)
                  (set_root (Some a) s1) a) as (_ & Hal & Hpay).
      intros id n' Hn'.
      destruct (nodes s1 !! id) as [n|] eqn:Hn.
      - destruct (Hpay id n n' Hn Hn') as (-> & _). by apply (H1 id).
      - apply Hal in Hn. congruence. }
    clearbody s2.
    intros id n Hn. apply release_nodes in Hn.
    destruct (root s2) as [r|]; [|by apply (H2 id)].
    destruct (registerNodeInMap_rec_fields (S (size (nodes s2))) s2 r)
      as (_ & _ & _ & Hnodes & _).
    unfold registerNodeInMap in Hn. rewrite Hnodes in Hn. by apply (H2 id).
  - destruct (constructInitialTree_fields st) as ((-> & _) & _). done.
Qed.

(** X30. The placement stays on or above the ground. In a tree of
    module nodes only (a problem without symmetry groups) in which no
    registered module has a negative ordinate, width or height, the
    same holds after [pack] and after each of the five perturbations,
    whatever they return, and after [constructInitialTree] when no
    symmetry group is registered. It holds for a new tree. The
    abscissa has no such invariant, since it is an [int] sum that can
    wrap around; one step of [packSubtree] keeps all abscissas
    non-negative when the sum of the abscissa and the width of the
    parent module fits in an [int]. *)
Theorem placement_stays_above_ground st :
  onGround st ->
  onGround (pack st).2 /\
  (forall moduleName, onGround (rotateModule st moduleName).2) /\
  (forall nodeName newParentName asLeftChild,
     onGround (moveNode st nodeName newParentName asLeftChild).2) /\
  (forall nodeName1 nodeName2,
     onGround (swapNodes st nodeName1 nodeName2).2) /\
  (forall symmetryGroupName,
     convertSymmetryType st symmetryGroupName = (false, st)) /\
  (forall symmetryGroupName moduleName,
     changeRepresentative st symmetryGroupName moduleName = (false, st)) /\
  (symmetryGroups st = [] -> onGround (constructInitialTree st)) /\
  onGround (HBStarTree.create (ASF := ASF)) /\
  (forall node n,
     nodes st !! node = Some n ->
     rightOfOrigin (modules st) ->
     (forall p parentNode parentModule,
        getParent st node = Some p -> nodes st !! p = Some parentNode ->
        StdMap.find (modules st) (name parentNode) = Some parentModule ->
        Module_.x parentModule + Module_.width parentModule <= INT_MAX) ->
     rightOfOrigin (modules (packNode st node n).1)).
Proof.
  intros Hq.
  split; [by apply pack_onGround|].
  split; [intros; by apply rotateModule_onGround|].
  split; [intros; by apply moveNode_onGround|].
  split; [intros; by apply swapNodes_onGround|].
  split; [|split; [|split; [|split]]].
  - intros g. unfold convertSymmetryType.
    by rewrite islandOf_modulesOnly by by destruct Hq.
  - intros g m. unfold changeRepresentative.
    by rewrite islandOf_modulesOnly by by destruct Hq.
  - intros Hg. by apply constructInitialTree_onGround.
  - split.
    + intros id n Hn. cbn [nodes HBStarTree.create] in Hn.
      by rewrite lookup_empty in Hn.
    + intros k m Hin. by apply elem_of_nil in Hin.
  - intros node n Hn Hx Hfit. by apply packNode_rightOfOrigin.
Qed.

End OnGround.

(** *** Instances *)



Lemma module_lands_on_skyline_witness :
  type nodeB = MODULE /\
  StdMap.find (modules rootPlaced) (name nodeB) = Some moduleB /\
  Contour.wf (Contour.segments (horizontalContour rootPlaced)) /\
  INT_MIN <= placeX rootPlaced 0 + Module_.width moduleB <= INT_MAX /\
  coordinates (packNode rootPlaced 0 nodeB).1 "b" = Some (10, 0).
Proof.
  assert (H1 : type nodeB = MODULE) by reflexivity.
  assert (H2 : StdMap.find (modules rootPlaced) (name nodeB) = Some moduleB)
    by reflexivity.
  assert (H3 : 0 < Module_.width moduleB) by (simpl; lia).
  assert (H4 : Contour.wf (Contour.segments (horizontalContour rootPlaced))).
  { vm_compute. repeat split; discriminate. }
  assert (H5 : INT_MIN <= placeX rootPlaced 0 + Module_.width moduleB
               <= INT_MAX) by (vm_compute; split; discriminate).
  assert (H6 : INT_MIN
               <= Contour.getHeight (horizontalContour rootPlaced)
                    (placeX rootPlaced 0)
                    (placeX rootPlaced 0 + Module_.width moduleB)
                  + Module_.height moduleB
               <= INT_MAX) by (vm_compute; split; discriminate).
  destruct (module_lands_on_skyline rootPlaced 0 nodeB moduleB H1 H2 H3 H4
              H5 H6) as (Hc & _).
  split; [exact H1|]. split; [exact H2|]. split; [exact H4|].
  split; [exact H5|]. exact Hc.
Defined.

Lemma markSubtreeForRepack_marks_exactly_witness :
  parentChainEnds twoModules 0 /\
  getParent twoModules 0 = Some 1%nat /\
  1%nat ∈ modifiedSubtrees (markSubtreeForRepack twoModules (Some 0%nat)).
Proof.
  assert (H1 : parentChainEnds twoModules 0) by (by exists 2%nat).
  destruct (markSubtreeForRepack_marks_exactly twoModules 0 H1)
    as (_ & Hexact & _).
  split; [exact H1|]. split; [reflexivity|].
  apply Hexact. right. by exists 1%nat.
Defined.

Lemma rotateModule_free_module_witness :
  StdMap.find (modules twoModules) "b" = Some moduleB /\
  groupOf twoModules "b" = None /\
  isPacked twoModules = false /\
  getModuleNode twoModules "b" = Some 0%nat /\
  parentChainEnds twoModules 0 /\
  StdMap.find (modules (rotateModule twoModules "b").2) "b"
    = Some (Module_.mk "b" 0 0 20 10 true).
Proof.
  assert (H1 : StdMap.find (modules twoModules) "b" = Some moduleB)
    by reflexivity.
  assert (H2 : groupOf twoModules "b" = None) by reflexivity.
  assert (H3 : isPacked twoModules = false) by reflexivity.
  assert (H4 : getModuleNode twoModules "b" = Some 0%nat) by reflexivity.
  assert (H5 : parentChainEnds twoModules 0) by (by exists 2%nat).
  assert (H6 : forall node, getModuleNode twoModules "b" = Some node ->
                 parentChainEnds twoModules node).
  { intros node Hnode. rewrite H4 in Hnode. injection Hnode as <-.
    exact H5. }
  destruct (rotateModule_free_module twoModules "b" moduleB H1 H2 H3 H6)
    as (_ & Hm & _).
  split; [exact H1|]. split; [exact H2|]. split; [exact H3|].
  split; [exact H4|]. split; [exact H5|]. exact Hm.
Defined.

Lemma moveNode_attaches_witness :
  findNode twoModules "b" = Some 0%nat /\
  findNode twoModules "a" = Some 1%nat /\
  getRightChild twoModules 1 = None /\
  parentChainEnds twoModules 0 /\ parentChainEnds twoModules 1 /\
  (forall k, ancestor twoModules k 1 <> Some 0%nat) /\
  getRightChild (moveNode twoModules "b" "a" false).2 1 = Some 0%nat /\
  getParent (moveNode twoModules "b" "a" false).2 0 = Some 1%nat.
Proof.
  assert (H1 : findNode twoModules "b" = Some 0%nat) by reflexivity.
  assert (H2 : findNode twoModules "a" = Some 1%nat) by reflexivity.
  assert (H3 : is_Some (nodes twoModules !! 0%nat)) by (by eexists).
  assert (H4 : is_Some (nodes twoModules !! 1%nat)) by (by eexists).
  assert (H5 : getRightChild twoModules 1 = None) by reflexivity.
  assert (H6 : parentChainEnds twoModules 0) by (by exists 2%nat).
  assert (H7 : parentChainEnds twoModules 1) by (by exists 1%nat).
  assert (H8 : forall k, ancestor twoModules k 1 <> Some 0%nat).
  { intros [|k]; [discriminate|].
    assert (Hp : getParent twoModules 1 = None) by reflexivity.
    rewrite ancestor_S_front, Hp. discriminate. }
  destruct (moveNode_attaches twoModules "b" "a" false 0 1 H1 H2 H3 H4
              H5 H6 H7 H8)
    as (s & Hslot & Hpar & _ & _ & _ & _ & _ & _ & Hun & _).
  split; [exact H1|]. split; [exact H2|]. split; [exact H5|].
  split; [exact H6|]. split; [exact H7|]. split; [exact H8|].
  rewrite (Hun eq_refl). split; [exact Hslot|exact Hpar].
Defined.

Lemma swapNodes_reassigns_root_witness :
  findNode twoModules "a" = Some 1%nat /\
  findNode twoModules "b" = Some 0%nat /\
  getParent twoModules 1 = None /\ getParent twoModules 0 = Some 1%nat /\
  parentChainEnds twoModules 0 /\
  root (swapNodes twoModules "a" "b").2 = Some 0%nat.
Proof.
  assert (H1 : findNode twoModules "a" = Some 1%nat) by reflexivity.
  assert (H2 : findNode twoModules "b" = Some 0%nat) by reflexivity.
  assert (H3 : 1%nat <> 0%nat) by discriminate.
  assert (H4 : getParent twoModules 1 = None) by reflexivity.
  assert (H5 : getParent twoModules 0 = Some 1%nat) by reflexivity.
  assert (H6 : getLeftChild twoModules 0 <> Some 1%nat)
    by (vm_compute; discriminate).
  assert (H7 : getRightChild twoModules 0 <> Some 1%nat)
    by (vm_compute; discriminate).
  assert (H8 : parentChainEnds twoModules 0) by (by exists 2%nat).
  destruct (swapNodes_reassigns_root twoModules "a" "b" 1 0 1
              H1 H2 H3 H4 H5 H6 H7 H8) as (_ & s & Hroot & _ & Hun & _).
  split; [exact H1|]. split; [exact H2|]. split; [exact H4|].
  split; [exact H5|]. split; [exact H8|].
  rewrite (Hun eq_refl). exact Hroot.
Defined.

Lemma island_perturbations_mark_before_they_check_witness :
  islandOf lateModule "pq"
    = Some (0%nat, 0%nat,
            RowASF.mk groupPQ ["p"] 0 Contour.empty Contour.empty) /\
  parentChainEnds lateModule 0 /\
  0%nat ∈ modifiedSubtrees (convertSymmetryType lateModule "pq").2.
Proof.
  set (asfTree := RowASF.mk groupPQ ["p"] 0 Contour.empty Contour.empty).
  assert (H1 : islandOf lateModule "pq" = Some (0%nat, 0%nat, asfTree))
    by reflexivity.
  assert (H2 : parentChainEnds lateModule 0) by (by exists 1%nat).
  destruct (island_perturbations_mark_before_they_check lateModule "pq" "p")
    as [_ Hisland].
  destruct (Hisland 0%nat 0%nat asfTree H1 H2
              (convertSymmetryType lateModule "pq")
              (asf_convertSymmetryType asfTree (modules lateModule))
              (or_introl (conj eq_refl eq_refl)))
    as (_ & Hexact & Hun & _).
  split; [exact H1|]. split; [exact H2|].
  rewrite (Hun (andb_false_r _)). cbn [snd].
  apply Hexact. right. by exists 0%nat.
Defined.

Lemma fresh_map_Forall (st : Tree) :
  map_Forall (fun id _ => (id < nextNode st)%nat) (nodes st) -> fresh st.
Proof. intros H id [n Hn]. exact (H id n Hn). Qed.

Lemma registered_names_are_stable_witness :
  fresh twoModules /\
  keepsRegistered twoModules (swapNodes twoModules "a" "b").2 /\
  findNode (swapNodes twoModules "a" "b").2 "a" = Some 1%nat.
Proof.
  assert (H1 : fresh twoModules).
  { apply fresh_map_Forall. apply (bool_decide_unpack _). vm_compute.
    exact I. }
  destruct (registered_names_are_stable twoModules H1)
    as (_ & _ & _ & Hswap & _).
  destruct (Hswap "a" "b") as [_ Hk].
  split; [exact H1|]. split; [exact Hk|].
  destruct Hk as [Hm _]. unfold findNode. rewrite Hm. reflexivity.
Defined.

Lemma initial_solution_is_packed_witness :
  modules twoModulesInput <> [] /\ modifiedSubtrees twoModulesInput = ∅ /\
  (pack (constructInitialTree twoModulesInput)).1 = true /\
  getArea (pack (constructInitialTree twoModulesInput)).2 = 20 * 20.
Proof.
  assert (H1 : modules twoModulesInput <> []) by discriminate.
  assert (H2 : modifiedSubtrees twoModulesInput = ∅) by reflexivity.
  destruct (initial_solution_is_packed twoModulesInput H1 H2)
    as (Hp & _ & _ & _ & Ha & _).
  split; [exact H1|]. split; [exact H2|]. split; [exact Hp|].
  rewrite Ha. reflexivity.
Defined.

Lemma clone_preserves_membership_witness :
  StdMap.ok (modules movedAndPacked) /\
  modules (clone movedAndPacked) = modules movedAndPacked /\
  isPacked (clone movedAndPacked) = true /\
  getLeftChild (clone movedAndPacked) 1 = Some 0%nat /\
  getRightChild movedAndPacked 1 = Some 0%nat.
Proof.
  assert (H1 : StdMap.ok (modules movedAndPacked))
    by (vm_compute; tauto).
  destruct (clone_preserves_membership movedAndPacked H1)
    as (Hm & _ & _ & Hp & _).
  split; [exact H1|]. split; [exact Hm|].
  split; [rewrite Hp; reflexivity|]. split; reflexivity.
Defined.

Lemma initial_packing_is_a_row_witness :
  symmetryGroups twoModulesInput = [] /\
  modifiedSubtrees twoModulesInput = ∅ /\
  (forall k m, (k, m) ∈ modules twoModulesInput -> 0 < Module_.width m) /\
  totalWidth (modules twoModulesInput) (StdMap.keys (modules twoModulesInput))
    = 20 /\
  coordinates (pack (constructInitialTree twoModulesInput)).2 "a"
    = Some (0, 0) /\
  coordinates (pack (constructInitialTree twoModulesInput)).2 "b"
    = Some (0 + 10, 0).
Proof.
  assert (H1 : symmetryGroups twoModulesInput = []) by reflexivity.
  assert (H2 : modifiedSubtrees twoModulesInput = ∅) by reflexivity.
  assert (H3 : forall k m, (k, m) ∈ modules twoModulesInput ->
                 0 < Module_.width m).
  { intros k m Hin.
    change (modules twoModulesInput)
      with [("a"%string, moduleA); ("b"%string, moduleB)] in Hin.
    apply elem_of_cons in Hin as [[= -> ->]|Hin]; [simpl; lia|].
    apply elem_of_cons in Hin as [[= -> ->]|Hin]; [simpl; lia|].
    by apply elem_of_nil in Hin. }
  assert (H4 : totalWidth (modules twoModulesInput)
                 (StdMap.keys (modules twoModulesInput)) = 20)
    by reflexivity.
  assert (H5 : totalWidth (modules twoModulesInput)
                 (StdMap.keys (modules twoModulesInput)) <= INT_MAX)
    by (rewrite H4; unfold INT_MAX; lia).
  destruct (initial_packing_is_a_row twoModulesInput H1 H2 H3 H5)
    as (Hrow & _).
  change (StdMap.keys (moduleNodes (constructInitialTree twoModulesInput)))
    with ["a"%string; "b"%string] in Hrow.
  destruct Hrow as (Ha & Hb & _).
  split; [exact H1|]. split; [exact H2|]. split; [exact H3|].
  split; [exact H4|]. split; [exact Ha|exact Hb].
Defined.

Lemma modulesOnly_map_Forall (st : Tree) :
  map_Forall (fun _ n => type n = MODULE) (nodes st) -> modulesOnly st.
Proof. intros H id n Hn. by apply (H id). Qed.

Lemma aboveGround_Forall (mods : Modules) :
  Forall (fun km : string * Module_.t =>
            0 <= Module_.y km.2 /\
            0 <= Module_.width km.2 /\ 0 <= Module_.height km.2) mods ->
  aboveGround mods.
Proof.
  intros H k m Hin. rewrite Forall_forall in H. by apply (H (k, m)).
Qed.

Lemma placement_stays_above_ground_witness :
  onGround movedAndPacked /\
  onGround (swapNodes movedAndPacked "a" "b").2 /\
  convertSymmetryType movedAndPacked "g" = (false, movedAndPacked).
Proof.
  assert (H1 : onGround movedAndPacked).
  { split.
    - apply modulesOnly_map_Forall. apply (bool_decide_unpack _).
      vm_compute. exact I.
    - apply aboveGround_Forall. apply (bool_decide_unpack _).
      vm_compute. exact I. }
  destruct (placement_stays_above_ground movedAndPacked H1)
    as (_ & _ & _ & Hswap & Hconv & _).
  split; [exact H1|]. split; [apply Hswap|apply Hconv].
Defined.

End HBStarTreeProperties.
